(* ===== verification/_CoqProject ===== *)
-Q . S2P
Prelude.v
Program.v
WaiterRegistry.v
WaitResult.v
Primitives.v
BlockingWaiter.v
GuardWait.v
ConditionWait.v
StdMonitor.v
ParkingLotMonitor.v
World.v
TokioMonitor.v
Constructors.v
Protocol.v
Handshake.v
Threads.v
GuardWaitSpec.v
ConditionWaitSpec.v
Clients.v
MonitorApi.v
BackendSpec.v
StdMonitorSpec.v
ParkingLotMonitorSpec.v
StdClient.v
BoundedQueue.v
TimedWaits.v
Simulation.v
MonitorTraits.v
AsyncTraits.v
AsyncMonitorApi.v
TokioMonitorSpec.v
Cancellation.v
AsyncTimedWaits.v
Latch.v
CriticalSections.v
Total.v
Environment.v
Termination.v
AsyncTermination.v
AsyncErasure.v
Locks.v
AsyncLocks.v
DataLockMachine.v
DataLockSpec.v
DataLocks.v
LockOps.v
