(* ===== verification/Prelude.v ===== *)
(** * qubit-lock: a verification development

    The crate [qubit-lock] (Rust, [src/src/]) offers monitors: a state behind a
    mutex together with condition waits driven by predicates, deadlines from an
    injected timer, and explicit notifications; and locks: traits over the
    mutexes and read-write locks of [std], [parking_lot] and [tokio]. This
    development models the blocking and asynchronous monitors and what they are
    built from, and the blocking and asynchronous locks, and proves that they keep
    the promises of their documentation: no lost wakeups, exclusive access, no
    leaked registrations, timed waits that are explained by their calls and
    return, panics that poison and nothing else, futures that can be dropped at
    any await, closures on a lock that are atomic and never deadlock.

    ** The program

    A [StdMonitor] ([monitor/std_monitor.rs], [std_monitor_guard.rs]) holds the
    state mutex, a registry of blocked waiters behind a second mutex, and a timer
    of the crate [qubit_clock]. A wait checks its predicate under the state lock;
    while it blocks, the wait registers a private one-shot latch
    ([monitor/internal/blocking_condition_waiter.rs]), releases the lock, parks on
    the latch, unregisters, and locks again. A notification takes one or all
    registrations out of the registry and signals their latches. A timed wait
    also lets the timer's future hold the latch as its waker.
    [ParkingLotMonitor] is the same code over the mutex of [parking_lot].
    [TokioMonitor] ([monitor/tokio_monitor.rs]) has the same parts, with futures
    in place of blocked threads: a registration's signal is a [Notify] that the
    future awaits, or polls next to the future of the deadline.

    The lock traits ([lock/lock.rs], [lock/read_write_lock.rs], and their
    [async_] twins) hand out guards; [DataLock] and [AsyncDataLock]
    ([lock/data_lock.rs], [lock/async_data_lock.rs]) run a closure under a guard.
    They are independent of the monitors.

    ** The model

    The code is a shallow embedding: a function of the source is a program
    ([Program.v]), a tree of calls to primitives with sequencing, loops, panics
    ([comp]) and a local variable that survives a panic ([stateful]: a place
    behind [&mut], such as the guard slot). Drop glue is explicit ([scoped],
    [owned]), with the flag that tells it whether the thread unwinds. Programs
    are executable one call at a time. The primitives are the calls on objects
    shared between threads ([Primitives.v]); an operation under the registry's
    mutex and an operation of a latch are one call each, the first because it is
    one critical section, the second by the refinement of [Latch.v].

    A future is the program of the task that polls it. At each await that can
    suspend, the call [AwaitPoint] tells whether its owner drops it there; it then
    leaves all its scopes with the cause [Cancelled], as a panic would, so that
    the drop glue of what it holds runs. Every such await is assumed able to
    suspend, and a future dropped before its first poll is one dropped at its
    first await, before which none of them does anything. [poll_fn] is a loop
    that parks the task ([Park]) until a signal, a timer or its executor polls it.

    Data and programs:

    - [Prelude.v] (this file): outcomes, results, 64-bit arithmetic, tactics.
    - [Program.v]: programs, executions, their equivalence, and the logic [safe].
    - [WaiterRegistry.v]: [internal/waiter_registry.rs], and the queue it refines.
    - [WaitResult.v]: [wait_timeout_result.rs], [wait_timeout_status.rs].
    - [Primitives.v]: the signature; [internal/sync.rs]; the types and the one
      pure function of [qubit_clock] that the code uses, as a class.
    - [BlockingWaiter.v], [GuardWait.v], [ConditionWait.v]: the three layers of
      [internal/blocking_*.rs].
    - [StdMonitor.v], [ParkingLotMonitor.v]: the two blocking monitors and their
      guards (guard methods carry the prefix [guard_]).
    - [TokioMonitor.v]: [tokio_monitor.rs], [internal/tokio_condition_waiter.rs],
      [internal/tokio_condition_waiter_registration.rs].
    - [Constructors.v]: [new], [From], [Default] of the blocking monitors, and the
      static timer of [internal/default_timer.rs].
    - [MonitorTraits.v]: [notifier.rs], [condition_waiter.rs], [monitor.rs],
      [timeout_condition_waiter.rs] with their default methods, [Arc], and the
      implementations of the two blocking monitors.
    - [AsyncTraits.v]: [async_monitor.rs], [async_condition_waiter.rs],
      [async_timeout_condition_waiter.rs] likewise, and the marker traits.
    - [World.v]: the shared state of one monitor and threads that run tasks under
      an arbitrary schedule; the timer answers arbitrarily and may wake any
      allocated latch at any time, an executor may poll any parked task.
    - [Latch.v]: [BlockingConditionWaiter::wait] and [signal] over a mutex and a
      condition variable with spurious wakeups.
    - [BoundedQueue.v]: [examples/bounded_queue.rs], over any monitor.
    - [Locks.v]: the files of [lock/] that are not asynchronous: traits as
      classes, the adapters, and the implementations for the four locks, over a
      signature of their own (one lock and its guards).
    - [AsyncLocks.v]: the asynchronous files of [lock/], with the two locks of
      [tokio], over the same signature.
    - [DataLockMachine.v]: the state of one lock (value, writer, readers, poison
      flag) and threads or tasks that run operations of [DataLock] or
      [AsyncDataLock]; the atomic specification.

    ** What is proved, and how

    - Concurrency ([Protocol.v], [Handshake.v], [Threads.v]): a protocol for one
      thread, given as rules of the logic, and an invariant of any number of
      threads that follow it. [GuardWaitSpec.v] and [ConditionWaitSpec.v] show
      that suspensions and waits follow it, against the interfaces [GuardLaws],
      [suspends], [locks] and [consumes]. [Clients.v] has the interface
      [MonitorImpl], for any set of operations with specifications, and the
      theorems for clients that notify as documented: no lost wakeup, exclusive
      access, nothing left behind, state invariants. [MonitorApi.v] has the
      operations of a blocking monitor as data; [BackendSpec.v] shows their
      specifications for any backend with the laws of guards;
      [StdMonitorSpec.v] and [ParkingLotMonitorSpec.v] discharge them.
      [AsyncMonitorApi.v] and [TokioMonitorSpec.v] do the same for [TokioMonitor],
      so its clients have the same theorems; a task whose future is dropped ends
      there. [StdClient.v] and [BoundedQueue.v] apply them.
    - Cancellation ([Cancellation.v]): what a dropped future leaves behind.
    - Timed waits ([TimedWaits.v], [AsyncTimedWaits.v]): what an observer of the
      calls sees justifies every call and explains every result.
    - Termination ([Total.v], [Environment.v], [Termination.v],
      [AsyncTermination.v]): against an environment that may leave a suspension
      unanswered for ever, timed waits return once the timer completes, because the
      timer holds the waiter they suspend on, and plain waits return if they are
      notified while registered and the predicate stays unblocked.
    - Equivalence ([Simulation.v], [AsyncErasure.v]): without its awaits,
      [TokioMonitor] is [ParkingLotMonitor].
    - Critical sections ([CriticalSections.v]): complete traces of reads, writes
      and notifying writes, effects of notifications, poisoning.
    - [Latch.v], [WaiterRegistry.v], [MonitorTraits.v], [Constructors.v]:
      refinements, round trips, equivalences and the shared timer.
    - Locks: [DataLockSpec.v] states the contract of an operation, call by call,
      and proves it of the six implementations; [DataLocks.v] derives
      linearizability and freedom from deadlock from the contract; [LockOps.v] has
      the exact effect of each operation alone, errors and poisoning included, and
      the equivalence of closures and guards.

    ** Bounds and fuel

    [safe] is indexed by a number of steps and always used for all of them.
    [run_with], [run_partial], [solo], [alone] and [run_schedule] take a number of
    steps; the
    theorems of [Termination.v], [AsyncTermination.v], [CriticalSections.v] and
    [LockOps.v] state that enough steps exist.
    Identifiers are [u64] with the overflow of [checked_add]. Waiter addresses
    are unbounded. A [Duration] is its two fields; its addition to an instant
    belongs to [qubit_clock].

    ** Not modelled

    Predicates and actions in the concurrent theorems are functions of the state
    that may panic ([predicate], [action]); the definitions take arbitrary
    programs, and the theorems on traits hold for these. A panic aborts neither
    in the registry nor in a notification other than by the identifier bound.
    The bodies of [std], [parking_lot], [tokio] and [qubit_clock] are not code of
    the crate. The mutexes and read-write locks behave as documented: an exclusive
    holder excludes all others, the guards of [std] poison when an exclusive one
    is dropped by an unwinding thread, those of [parking_lot] and [tokio] never
    poison, and an attempt may be refused although it could be granted. In the
    theorems on termination a lock is acquired in the end. The
    queue of a lock of [tokio], which orders its waiters, is not: any waiting
    task may be granted the lock. Of [Notify] the model uses that a notification
    is kept for the one waiter it is sent to. Threads use one lock at a time, and
    no closure uses the lock it runs under. Drop glue of the user's state and
    closures does nothing. Module files hold no code; the loom utilities are
    compiled for a model checker only.

    ** Plan

    Next: the timed theorems for [ParkingLotMonitor] and for the guard's own
    [wait_for] and [wait_until]; a protocol in which [notify_one] discharges the
    debt of a write when all waiters share one predicate; the bounded queue over
    [TokioMonitor], and its first-in-first-out delivery. *)
From Stdlib Require Export ZArith Lia Sorted.
From stdpp Require Export base gmap list strings relations.

(** ** Panics and cancellation

    A Rust function either returns a value or unwinds. The cause carries the
    panic message that the source passes to [expect]/[panic!]/[unwrap]. The body
    of a future has a third exit: its owner drops it while it is pending. Like a
    panic, that runs the drop glue of every open scope and nothing else; it only
    happens at an await. *)
Inductive unwind_cause : Type :=
| Panic (message : string)
| Cancelled.

Inductive outcome (A : Type) : Type :=
| Returned (a : A)
| Unwinding (cause : unwind_cause).
Arguments Returned {A} a.
Arguments Unwinding {A} cause.

Definition outcome_map {A B} (f : A -> B) (o : outcome A) : outcome B :=
  match o with Returned a => Returned (f a) | Unwinding c => Unwinding c end.

(** [std::thread::panicking()] as drop glue observes it. (No scope that holds a
    guard with an interest in the answer is left by a cancellation.) *)
Definition is_unwinding {A} (o : outcome A) : bool :=
  match o with Returned _ => false | Unwinding _ => true end.

(** ** [Result], [Option::expect], [Poll] *)
Inductive Result (A E : Type) : Type :=
| Ok (a : A)
| Err (e : E).
Arguments Ok {A E} a.
Arguments Err {A E} e.

Definition Result_map {A B E} (f : A -> B) (r : Result A E) : Result B E :=
  match r with Ok a => Ok (f a) | Err e => Err e end.

Definition Result_map_err {A E F} (f : E -> F) (r : Result A E) : Result A F :=
  match r with Ok a => Ok a | Err e => Err (f e) end.

(** [Option::expect]. *)
Definition expect {A} (o : option A) (message : string) : outcome A :=
  match o with Some a => Returned a | None => Unwinding (Panic message) end.

(** [std::task::Poll]. *)
Inductive Poll (A : Type) : Type :=
| Ready (a : A)
| Pending.
Arguments Ready {A} a.
Arguments Pending {A}.

(** [std::sync::Arc]: a shared reference. *)
Record Arc (M : Type) : Type := MkArc { as_ref : M }.
Arguments MkArc {M} as_ref.
Arguments as_ref {M} a.

(** [&L], where a trait is implemented for it. *)
Record Ref (L : Type) : Type := MkRef { target : L }.
Arguments MkRef {L} target.
Arguments target {L} r.

(** ** 64-bit unsigned integers *)
Definition u64_MAX : Z := 2 ^ 64 - 1.

(** [u64::checked_add]. *)
Definition u64_checked_add (a b : Z) : option Z :=
  if decide (a + b <= u64_MAX)%Z then Some (a + b)%Z else None.

(** [std::time::Duration]: whole seconds and a sub-second nanosecond part. *)
Record Duration : Type := MkDuration { secs : Z; nanos : Z }.

(** [Duration::is_zero]. *)
Definition Duration_is_zero (d : Duration) : bool :=
  bool_decide (secs d = 0%Z) && bool_decide (nanos d = 0%Z).

(** ** Tactics *)

(** Splits every conjunction and existential in the context. *)
Ltac destruct_ands :=
  repeat match goal with
  | H : _ /\ _ |- _ => destruct H
  | H : exists _, _ |- _ => destruct H
  end.

(** Case split on the scrutinee of a [match] in the goal. *)
Ltac split_match :=
  match goal with |- context [match ?x with _ => _ end] => destruct x eqn:? end.

(** ** Lemmas on the shared data *)
Create HintDb qlock.

Lemma u64_checked_add_Some a b c :
  u64_checked_add a b = Some c <-> (c = a + b /\ a + b <= u64_MAX)%Z.
Proof. unfold u64_checked_add. case_decide; split; [intros [= <-]| intros [-> ?]|..]; intuition congruence. Qed.

Lemma u64_checked_add_None a b :
  u64_checked_add a b = None <-> (u64_MAX < a + b)%Z.
Proof.
  unfold u64_checked_add. case_decide; split; intros; try congruence; lia.
Qed.

Lemma expect_Returned {A} (o : option A) msg a :
  expect o msg = Returned a <-> o = Some a.
Proof. destruct o; simpl; naive_solver. Qed.

Lemma filter_all {A} (P : A -> Prop) `{forall x, Decision (P x)} l : Forall P l -> filter P l = l.
Proof.
  induction 1 as [|x l Hx _ IH]; [done|]. by rewrite filter_cons_True, IH.
Qed.

Lemma lookup_hd {A} (d : A) l : 0 < length l -> l !! 0 = Some (List.hd d l).
Proof. destruct l; simpl; [lia|done]. Qed.
