(* ===== verification/Program.v ===== *)
(** * Programs, their executions, and a logic for them

    The source's functions are translated to values of [prog]: sequences of
    calls to the primitives of a signature, with sequencing and loops as
    constructors. [next] computes the next visible call, so a program can be
    run one call at a time by a scheduler ([World.v]) or against a recorded
    list of answers ([exec]). [comp] adds panics, [stateful] adds a local
    variable whose last value survives a panic (a Rust place that a [&mut]
    reference denotes).

    [safe] is a step-indexed program logic: the client chooses a ghost state, a
    precondition of each call, an assumption on each answer and the ghost state
    after the call. *)
From S2P Require Import Prelude.

(** ** Syntax *)
Structure Sig : Type := MkSig { Op : Type; Resp : Op -> Type }.
Arguments Resp {s} o.

Inductive prog (Σ : Sig) : Type -> Type :=
| Ret {A} (a : A) : prog Σ A
| Call (e : Op Σ) : prog Σ (Resp e)
| Bind {A B} (p : prog Σ A) (k : A -> prog Σ B) : prog Σ B
| Loop {S B} (body : S -> prog Σ (S + B)) (s : S) : prog Σ B.
Arguments Ret {Σ A} a.
Arguments Call {Σ} e.
Arguments Bind {Σ A B} p k.
Arguments Loop {Σ S B} body s.

Inductive head (Σ : Sig) (A : Type) : Type :=
| HRet (a : A)
| HVis (e : Op Σ) (k : Resp e -> prog Σ A)
| HTau (p : prog Σ A).
Arguments HRet {Σ A} a.
Arguments HVis {Σ A} e k.
Arguments HTau {Σ A} p.

(** What a loop does with the result of its body. *)
Definition loop_k {Σ S B} (body : S -> prog Σ (S + B)) (r : S + B) : prog Σ B :=
  match r with inl s => Loop body s | inr b => Ret b end.

(** The next visible step. A loop that comes back to its head takes one silent
    step. *)
Fixpoint next {Σ A} (p : prog Σ A) : head Σ A :=
  match p in prog _ A return head Σ A with
  | Ret a => HRet a
  | Call e => HVis e Ret
  | Bind p k =>
      match next p with
      | HRet a => next (k a)
      | HVis e k' => HVis e (fun r => Bind (k' r) k)
      | HTau p' => HTau (Bind p' k)
      end
  | Loop body s =>
      match next (body s) with
      | HRet (inl s') => HTau (Loop body s')
      | HRet (inr b) => HRet b
      | HVis e k => HVis e (fun r => Bind (k r) (loop_k body))
      | HTau p' => HTau (Bind p' (loop_k body))
      end
  end.

(** ** Executions *)
Inductive item (Σ : Sig) : Type := Ev (e : Op Σ) (r : Resp e).
Arguments Ev {Σ} e r.

(** [exec p tr a]: [p] performs the calls of [tr], is given the answers
    recorded there, and returns [a]. *)
Inductive exec {Σ A} : prog Σ A -> list (item Σ) -> A -> Prop :=
| exec_ret p a : next p = HRet a -> exec p [] a
| exec_vis p e k r tr a :
    next p = HVis e k -> exec (k r) tr a -> exec p (Ev e r :: tr) a
| exec_tau p p' tr a : next p = HTau p' -> exec p' tr a -> exec p tr a.

(** [run_with oracle n p] drives [p] for at most [n] steps with answers that
    may depend on the history (most recent call first). *)
Definition oracle (Σ : Sig) : Type := list (item Σ) -> forall e : Op Σ, Resp e.

Fixpoint run_with {Σ A} (o : oracle Σ) (n : nat) (hist : list (item Σ)) (p : prog Σ A)
    : list (item Σ) * option A :=
  match n with
  | 0 => (reverse hist, None)
  | S n =>
      match next p with
      | HRet a => (reverse hist, Some a)
      | HVis e k => let r := o hist e in run_with o n (Ev e r :: hist) (k r)
      | HTau p' => run_with o n hist p'
      end
  end.

Lemma run_with_exec {Σ A} (o : oracle Σ) n hist (p : prog Σ A) a :
  (run_with o n hist p).2 = Some a ->
  exists tr, (run_with o n hist p).1 = reverse hist ++ tr /\ exec p tr a.
Proof.
  revert hist p. induction n as [|n IH]; intros hist p Hrun; [done|]. simpl in *.
  destruct (next p) as [b|e k|p'] eqn:Hn; simpl in *.
  - simplify_eq. exists []. split; [by rewrite app_nil_r|by apply exec_ret].
  - destruct (IH _ _ Hrun) as (tr & -> & Hex). exists (Ev e (o hist e) :: tr).
    split; [by rewrite reverse_cons, <- app_assoc|by eapply exec_vis].
  - destruct (IH _ _ Hrun) as (tr & -> & Hex). exists tr. split; [done|by eapply exec_tau].
Qed.

Lemma run_exec {Σ A} (o : oracle Σ) n (p : prog Σ A) a :
  (run_with o n [] p).2 = Some a -> exec p (run_with o n [] p).1 a.
Proof. intros Hrun. by destruct (run_with_exec _ _ _ _ _ Hrun) as (tr & -> & Hex). Qed.

(** ** Equivalence of programs: the same executions *)
Section Equivalence.
Context {Σ : Sig}.

(** Executions of at most [n] steps, as a function of the program. *)
Fixpoint execn {A} (n : nat) (p : prog Σ A) (tr : list (item Σ)) (a : A) : Prop :=
  match n with
  | 0 => False
  | S n =>
      match next p with
      | HRet b => tr = [] /\ b = a
      | HVis e k =>
          match tr with
          | [] => False
          | i :: tr' => exists r, i = Ev e r /\ execn n (k r) tr' a
          end
      | HTau p' => execn n p' tr a
      end
  end.

Lemma exec_execn {A} (p : prog Σ A) tr a : exec p tr a <-> exists n, execn n p tr a.
Proof.
  split.
  - induction 1 as [p a Hn|p e k r tr a Hn _ [n IH]|p p' tr a Hn _ [n IH]].
    + exists 1. simpl. by rewrite Hn.
    + exists (S n). simpl. rewrite Hn. eauto.
    + exists (S n). simpl. by rewrite Hn.
  - intros [n Hn]. revert p tr Hn. induction n as [|n IH]; intros p tr Hn; [done|]. simpl in Hn.
    destruct (next p) as [b|e k|p'] eqn:Hp.
    + destruct Hn as [-> ->]. by apply exec_ret.
    + destruct tr as [|i tr]; [done|]. destruct Hn as (r & -> & Hn). eapply exec_vis; eauto.
    + eapply exec_tau; eauto.
Qed.

Lemma exec_next {A} (p q : prog Σ A) tr a : next p = next q -> exec p tr a -> exec q tr a.
Proof.
  rewrite !exec_execn. intros Hn [[|n] He]; [done|]. exists (S n). simpl in *. by rewrite <- Hn.
Qed.

Lemma exec_step {A} (p : prog Σ A) tr a :
  exec p tr a <->
  match next p with
  | HRet b => tr = [] /\ b = a
  | HVis e k => exists r tr', tr = Ev e r :: tr' /\ exec (k r) tr' a
  | HTau p' => exec p' tr a
  end.
Proof.
  split.
  - intros He. destruct He as [p a Hn|p e k r tr a Hn He|p p' tr a Hn He]; rewrite Hn; eauto.
  - destruct (next p) eqn:Hn; [|intros (r & tr' & -> & He)|].
    + intros [-> ->]. by apply exec_ret.
    + by eapply exec_vis.
    + intros. by eapply exec_tau.
Qed.

Lemma exec_bind {A B} (p : prog Σ A) (k : A -> prog Σ B) tr b :
  exec (Bind p k) tr b <->
  exists tr1 tr2 a, tr = tr1 ++ tr2 /\ exec p tr1 a /\ exec (k a) tr2 b.
Proof.
  split.
  - rewrite exec_execn. intros [n Hn]. revert p tr Hn. induction n as [|n IH]; intros p tr Hn; [done|].
    cbn [execn next] in Hn. destruct (next p) as [a|e k'|p'] eqn:Hp.
    + exists [], tr, a. split; [done|split; [by apply exec_ret|]]. apply exec_execn. by exists (S n).
    + destruct tr as [|i tr]; [done|]. destruct Hn as (r & -> & Hn).
      destruct (IH _ _ Hn) as (tr1 & tr2 & a & -> & Hp1 & Hk). exists (Ev e r :: tr1), tr2, a.
      split; [done|split; [by eapply exec_vis|done]].
    + destruct (IH _ _ Hn) as (tr1 & tr2 & a & -> & Hp1 & Hk). exists tr1, tr2, a.
      split; [done|split; [by eapply exec_tau|done]].
  - intros (tr1 & tr2 & a & -> & Hp & Hk).
    induction Hp as [p a Hn|p e k' r tr a Hn _ IH|p p' tr a Hn _ IH].
    + eapply exec_next; [|exact Hk]. simpl. by rewrite Hn.
    + eapply exec_vis; [simpl; by rewrite Hn|]. by apply IH.
    + eapply exec_tau; [simpl; by rewrite Hn|]. by apply IH.
Qed.

Definition same {A} (p q : prog Σ A) : Prop := forall tr a, exec p tr a <-> exec q tr a.

#[export] Instance same_equivalence {A} : Equivalence (@same A).
Proof.
  split; [by intros p tr a|intros p q Hpq tr a; by rewrite (Hpq tr a)|].
  intros p q r Hpq Hqr tr a. by rewrite (Hpq tr a), (Hqr tr a).
Qed.

#[export] Instance Bind_proper {A B} :
  Proper (same ==> pointwise_relation A same ==> same) (@Bind Σ A B).
Proof.
  intros p q Hpq k k' Hk tr b. rewrite !exec_bind.
  split; intros (tr1 & tr2 & a & -> & Hp & He); exists tr1, tr2, a; split; try done;
    (split; [by apply Hpq|by apply Hk]).
Qed.

Lemma same_next {A} (p q : prog Σ A) : next p = next q -> same p q.
Proof. intros Hn tr a. split; by apply exec_next. Qed.

Lemma Bind_Ret {A B} (a : A) (k : A -> prog Σ B) : same (Bind (Ret a) k) (k a).
Proof. by apply same_next. Qed.

Lemma Bind_assoc {A B C} (p : prog Σ A) (k : A -> prog Σ B) (h : B -> prog Σ C) :
  same (Bind (Bind p k) h) (Bind p (fun a => Bind (k a) h)).
Proof.
  intros tr c. rewrite !exec_bind. split.
  - intros (tr1 & tr2 & b & -> & Hb & Hc). apply exec_bind in Hb as (tr3 & tr4 & a & -> & Hp & Hk).
    exists tr3, (tr4 ++ tr2), a. split; [by rewrite app_assoc|split; [done|]].
    apply exec_bind. by exists tr4, tr2, b.
  - intros (tr1 & tr2 & a & -> & Hp & Hk). apply exec_bind in Hk as (tr3 & tr4 & b & -> & Hk & Hc).
    exists (tr1 ++ tr3), tr4, b. split; [by rewrite app_assoc|split; [|done]].
    apply exec_bind. by exists tr1, tr3, a.
Qed.

Lemma same_vis {A} (p q : prog Σ A) e k k' :
  next p = HVis e k -> next q = HVis e k' -> (forall r, same (k r) (k' r)) -> same p q.
Proof.
  intros Hp Hq Hk tr a. rewrite !exec_execn. split; intros [[|n] He]; try done; simpl in He.
  - rewrite Hp in He. destruct tr as [|i tr]; [done|]. destruct He as (r & -> & He).
    assert (exec (k r) tr a) as Hx by (apply exec_execn; by exists n).
    apply Hk, exec_execn in Hx as [m Hm]. exists (S m). simpl. rewrite Hq. eauto.
  - rewrite Hq in He. destruct tr as [|i tr]; [done|]. destruct He as (r & -> & He).
    assert (exec (k' r) tr a) as Hx by (apply exec_execn; by exists n).
    apply Hk, exec_execn in Hx as [m Hm]. exists (S m). simpl. rewrite Hp. eauto.
Qed.
End Equivalence.

(** ** Panicking computations *)
Definition comp (Σ : Sig) (A : Type) : Type := prog Σ (outcome A).

(** [ret] and [bind] of the two kinds of computations. *)
Class ProgRet (M : Type -> Type) : Type := ret : forall {A}, A -> M A.
Class ProgBind (M : Type -> Type) : Type := bind : forall {A B}, M A -> (A -> M B) -> M B.

Declare Scope prog_scope.
Delimit Scope prog_scope with prog.
Open Scope prog_scope.
Notation "m ≫= f" := (bind m f) : prog_scope.
Notation "x ← y ; z" := (bind y (fun x => z)) : prog_scope.

#[export] Instance comp_ret Σ : ProgRet (comp Σ) := fun A a => Ret (Returned a).
#[export] Instance comp_bind Σ : ProgBind (comp Σ) := fun A B m k =>
  Bind m (fun o => match o with
                   | Returned a => k a
                   | Unwinding c => Ret (Unwinding c)
                   end).

Lemma exec_cbind {Σ A B} (m : comp Σ A) (k : A -> comp Σ B) tr o :
  exec (m ≫= k) tr o <->
  (exists c, o = Unwinding c /\ exec m tr (Unwinding c)) \/
  (exists tr1 tr2 a, tr = tr1 ++ tr2 /\ exec m tr1 (Returned a) /\ exec (k a) tr2 o).
Proof.
  unfold bind, comp_bind. rewrite exec_bind. split.
  - intros (tr1 & tr2 & [a|c] & -> & Hm & Hk); [right; eauto 6|left].
    apply exec_step in Hk. simpl in Hk. destruct Hk as [-> <-]. exists c. by rewrite app_nil_r.
  - intros [(c & -> & Hm)|(tr1 & tr2 & a & -> & Hm & Hk)].
    + exists tr, [], (Unwinding c). rewrite app_nil_r. split; [done|split; [done|by apply exec_ret]].
    + by exists tr1, tr2, (Returned a).
Qed.

Lemma exec_return {Σ A} (a : A) tr (o : outcome A) :
  exec (ret a : comp Σ A) tr o <-> tr = [] /\ o = Returned a.
Proof. rewrite exec_step. simpl. split; intros [-> ?]; split; congruence. Qed.

Definition panic {Σ A} (message : string) : comp Σ A := Ret (Unwinding (Panic message)).

Definition of_outcome {Σ A} (o : outcome A) : comp Σ A := Ret o.

Definition call {Σ} (e : Op Σ) : comp Σ (Resp e) := Bind (Call e) (fun r => Ret (Returned r)).

Lemma exec_call {Σ} (e : Op Σ) tr o :
  exec (call e) tr o <-> exists r, tr = [Ev e r] /\ o = Returned r.
Proof.
  rewrite exec_step. simpl. split.
  - intros (r & tr' & -> & He). apply exec_step in He. simpl in He. destruct He as [-> <-]. eauto.
  - intros (r & -> & ->). exists r, []. split; [done|]. by apply exec_ret.
Qed.

(** A call whose primitive may itself panic. *)
Definition call_outcome {Σ} (e : Op Σ) {A} (conv : Resp e -> outcome A) : comp Σ A :=
  Bind (Call e) (fun r => Ret (conv r)).

(** ** Computations on a local variable *)
Definition stateful (Σ : Sig) (S A : Type) : Type := S -> prog Σ (S * outcome A).

#[export] Instance stateful_ret Σ S : ProgRet (stateful Σ S) := fun A a s => Ret (s, Returned a).
#[export] Instance stateful_bind Σ S : ProgBind (stateful Σ S) := fun A B m k s =>
  Bind (m s) (fun '(s', o) => match o with
                              | Returned a => k a s'
                              | Unwinding c => Ret (s', Unwinding c)
                              end).

Definition lift {Σ S A} (m : comp Σ A) : stateful Σ S A := fun s =>
  Bind m (fun o => Ret (s, o)).

Definition read_var {Σ S} : stateful Σ S S := fun s => Ret (s, Returned s).

Definition assign {Σ S} (s' : S) : stateful Σ S unit := fun _ => Ret (s', Returned tt).

(** Runs [m] on a field of the variable. *)
Definition zoom {Σ S F A} (get : S -> F) (set : S -> F -> S) (m : stateful Σ F A)
    : stateful Σ S A := fun s =>
  Bind (m (get s)) (fun '(f, o) => Ret (set s f, o)).

(** Runs a computation on the contents [x] of a reference: what it left there,
    and how it ended. *)
Definition run_on {Σ S X A} (m : stateful Σ X A) (x : X) : stateful Σ S (X * outcome A) := fun s =>
  Bind (m x) (fun end_ => Ret (s, Returned end_)).

(** [owned v drop m k]: the scope owns [v] while [m] runs. If [m] unwinds, [v]
    is dropped during the unwinding; if it returns, [k] receives the result and
    ownership of the current value. *)
Definition owned {Σ S A B} (v : S) (drop : S -> bool -> comp Σ unit)
    (m : stateful Σ S A) (k : A -> S -> comp Σ B) : comp Σ B :=
  Bind (m v) (fun '(v', o) =>
    match o with
    | Returned a => k a v'
    | Unwinding c => Bind (drop v' true) (fun _ => Ret (Unwinding c))
    end).

(** The common case: [v] is dropped at the end of the scope either way. *)
Definition scoped {Σ S A} (v : S) (drop : S -> bool -> comp Σ unit) (m : stateful Σ S A)
    : comp Σ A :=
  owned v drop m (fun a v' => drop v' false ≫= fun _ => ret a).

(** A scope inside a [stateful] computation, around a value the computation
    does not modify. *)
Definition scoped_in {Σ S A} (drop : bool -> comp Σ unit) (m : stateful Σ S A)
    : stateful Σ S A := fun s =>
  Bind (m s) (fun '(s', o) => Bind (drop (is_unwinding o)) (fun _ => Ret (s', o))).

(** Loops: [inl] goes on, [inr] leaves with a value. *)
Definition loop {Σ S A} (body : stateful Σ S (unit + A)) : stateful Σ S A :=
  Loop (fun s => Bind (body s) (fun '(s', o) =>
    Ret (match o with
         | Returned (inl _) => inl s'
         | Returned (inr a) => inr (s', Returned a)
         | Unwinding c => inr (s', Unwinding c)
         end))).

(** [while cond { body }]. *)
Definition while {Σ S} (cond : stateful Σ S bool) (body : stateful Σ S unit)
    : stateful Σ S unit :=
  loop (b ← cond; if b : bool then (body ≫= fun _ => ret (inl tt)) else ret (inr tt)).

(** The [?] operator. *)
Definition try_bind {Σ A B E} (m : comp Σ (Result A E)) (k : A -> comp Σ (Result B E))
    : comp Σ (Result B E) :=
  m ≫= fun r => match r with Ok a => k a | Err e => ret (Err e) end.

Definition try_bind_s {Σ S A B E} (m : stateful Σ S (Result A E))
    (k : A -> stateful Σ S (Result B E)) : stateful Σ S (Result B E) :=
  m ≫= fun r => match r with Ok a => k a | Err e => ret (Err e) end.

(** Closures without effects of their own, as programs: a predicate on [&T] that
    may panic, and an action on [&mut T] that may leave a partial update behind
    and panic. *)
Definition predicate {Σ T} (w : T -> outcome bool) : T -> comp Σ bool := fun s => Ret (w s).

Definition action {Σ T R} (f : T -> T * outcome R) : stateful Σ T R := fun s => Ret (f s).

(** ** The logic *)
Section Safe.
Context {Σ : Sig} {L : Type}.

(** What a thread may do in ghost state [l] ([allowed]), what it may assume of
    the answer ([assume]) and the ghost state it moves to ([after]). *)
Record rules : Type := MkRules {
  allowed : L -> Op Σ -> Prop;
  assume : L -> forall e : Op Σ, Resp e -> Prop;
  after : L -> forall e : Op Σ, Resp e -> L
}.
Context (ρ : rules).

Fixpoint safe {A} (n : nat) (l : L) (p : prog Σ A) (Q : L -> A -> Prop) : Prop :=
  match n with
  | 0 => True
  | S n =>
      match next p with
      | HRet a => Q l a
      | HVis e k =>
          allowed ρ l e /\
          forall r, assume ρ l e r -> safe n (after ρ l e r) (k r) Q
      | HTau p' => safe n l p' Q
      end
  end.

Lemma safe_mono {A} n m l (p : prog Σ A) Q Q' :
  m <= n -> safe n l p Q -> (forall l a, Q l a -> Q' l a) -> safe m l p Q'.
Proof.
  revert m l p. induction n as [|n IH]; intros m l p Hmn Hs HQ.
  - assert (m = 0) as -> by lia. done.
  - destruct m as [|m]; [done|]. simpl in *. destruct (next p) as [a|e k|p'].
    + auto.
    + destruct Hs as [Hal Hk]. split; [done|]. intros r Hr. apply IH; [lia| |done]. auto.
    + apply IH; [lia|done..].
Qed.

Lemma safe_bind {A B} n l (p : prog Σ A) (k : A -> prog Σ B) R Q :
  safe n l p R ->
  (forall m l' a, m <= n -> R l' a -> safe m l' (k a) Q) ->
  safe n l (Bind p k) Q.
Proof.
  revert l p. induction n as [|n IH]; intros l p Hp Hk; [done|].
  cbn [safe next] in *. destruct (next p) as [a|e k'|p'].
  - apply (Hk (S n)); [lia|done].
  - destruct Hp as [Hal Hr]. split; [done|]. intros r Hass.
    apply IH; [by apply Hr|]. intros m l' a Hm. apply Hk. lia.
  - apply IH; [done|]. intros m l' a Hm. apply Hk. lia.
Qed.

Lemma safe_ret {A} n l (a : A) (Q : L -> A -> Prop) : Q l a -> safe n l (Ret a) Q.
Proof. destruct n; [done|]. intros; simpl; done. Qed.

Lemma safe_next {A} n l (p : prog Σ A) a (Q : L -> A -> Prop) :
  next p = HRet a -> Q l a -> safe n l p Q.
Proof. intros Hn HQ. destruct n; [done|]. simpl. by rewrite Hn. Qed.

Lemma safe_call n l (e : Op Σ) (Q : L -> Resp e -> Prop) :
  allowed ρ l e -> (forall r, assume ρ l e r -> Q (after ρ l e r) r) ->
  safe n l (Call e) Q.
Proof.
  destruct n as [|n]; [done|]. intros Hal HQ. simpl. split; [done|].
  intros r Hr. apply safe_ret. auto.
Qed.

Lemma safe_loop {S B} (I : L -> S -> Prop) n l (body : S -> prog Σ (S + B)) s
    (Q : L -> B -> Prop) :
  I l s ->
  (forall m l s, m <= n -> I l s ->
     safe m l (body s) (fun l' r => match r with inl s' => I l' s' | inr b => Q l' b end)) ->
  safe n l (Loop body s) Q.
Proof.
  revert l s. induction n as [|n IH]; intros l s HI Hbody; [done|].
  assert (Hk : forall m l' r, m <= n ->
    (match r with inl s' => I l' s' | inr b => Q l' b end) ->
    safe m l' (loop_k body r) Q).
  { intros m l' [s'|b] Hm Hr; simpl; [|by apply safe_ret].
    eapply (safe_mono n); [done| |done]. apply IH; [done|]. intros. apply Hbody; [lia|done]. }
  pose proof (Hbody (Datatypes.S n) l s (le_n _) HI) as Hb. cbn [safe next] in *.
  destruct (next (body s)) as [[s'|b]|e k|p'].
  - apply (Hk n l (inl s')); done.
  - done.
  - destruct Hb as [Hal Hr]. split; [done|]. intros r Hass.
    eapply safe_bind; [by apply Hr|]. intros. by apply Hk.
  - eapply safe_bind; [done|]. intros. by apply Hk.
Qed.

(** A ghost state that runs along an execution. *)
Fixpoint ghost_run (l : L) (tr : list (item Σ)) : L :=
  match tr with
  | [] => l
  | Ev e r :: tr => ghost_run (after ρ l e r) tr
  end.

Fixpoint answers_ok (l : L) (tr : list (item Σ)) : Prop :=
  match tr with
  | [] => True
  | Ev e r :: tr => assume ρ l e r /\ answers_ok (after ρ l e r) tr
  end.

(** Soundness for one program: whatever the environment answers (within the
    assumption), a returning execution ends in the postcondition. *)
Lemma safe_exec {A} (p : prog Σ A) tr a l Q :
  exec p tr a -> answers_ok l tr -> (forall n, safe n l p Q) -> Q (ghost_run l tr) a.
Proof.
  intros Hex. revert l. induction Hex as [p a Hn|p e k r tr a Hn Hex IH|p p' tr a Hn Hex IH];
    intros l Hok Hs; simpl in *.
  - pose proof (Hs 1) as H1. simpl in H1. by rewrite Hn in H1.
  - destruct Hok as [Hass Hok]. apply IH; [done|]. intros n.
    pose proof (Hs (S n)) as H1. simpl in H1. rewrite Hn in H1. destruct H1 as [_ H1]. auto.
  - apply IH; [done|]. intros n. pose proof (Hs (S n)) as H1. simpl in H1. by rewrite Hn in H1.
Qed.

(** Every call of an execution is allowed in the ghost state it is made in. *)
Fixpoint calls_ok (l : L) (tr : list (item Σ)) : Prop :=
  match tr with
  | [] => True
  | Ev e r :: tr => allowed ρ l e /\ calls_ok (after ρ l e r) tr
  end.

Lemma safe_exec_calls {A} (p : prog Σ A) tr a l Q :
  exec p tr a -> answers_ok l tr -> (forall n, safe n l p Q) -> calls_ok l tr.
Proof.
  intros Hex. revert l. induction Hex as [p a Hn|p e k r tr a Hn Hex IH|p p' tr a Hn Hex IH];
    intros l Hok Hs; simpl in *; [done| |].
  - destruct Hok as [Hass Hok]. split.
    + pose proof (Hs 1) as H1. simpl in H1. rewrite Hn in H1. apply H1.
    + apply IH; [done|]. intros n. pose proof (Hs (S n)) as H1. simpl in H1. rewrite Hn in H1.
      by apply H1.
  - apply IH; [done|]. intros n. pose proof (Hs (S n)) as H1. simpl in H1. by rewrite Hn in H1.
Qed.

(** Programs that agree on the results their context can see. *)
Lemma same_bind_under {A B} (p : prog Σ A) (k k' : A -> prog Σ B) (l : L) (P : A -> Prop) :
  (forall l e r, assume ρ l e r) ->
  (forall n, safe n l p (fun _ a => P a)) -> (forall a, P a -> same (k a) (k' a)) ->
  same (Bind p k) (Bind p k').
Proof.
  intros Hass Hs Hk tr b. rewrite !exec_bind.
  assert (Hok : forall tr l, answers_ok l tr).
  { induction tr0 as [|[e r] tr0 IH]; intros l0; simpl; [done|]. split; [apply Hass|apply IH]. }
  split; intros (tr1 & tr2 & a & -> & Hp & He); exists tr1, tr2, a; (split; [done|split; [done|]]);
    (apply Hk; [|done]); by apply (safe_exec _ _ _ _ _ Hp (Hok _ _) Hs).
Qed.

(** *** The rules at [comp] and [stateful] *)

Lemma safe_cbind {A B} n l (m : comp Σ A) (k : A -> comp Σ B) Q :
  safe n l m (fun l' o => match o with
                          | Returned a => forall i, i <= n -> safe i l' (k a) Q
                          | Unwinding c => Q l' (Unwinding c)
                          end) ->
  safe n l (m ≫= k) Q.
Proof.
  intros Hm. eapply safe_bind; [exact Hm|]. intros i l' [a|c] Hi HR; [by apply HR|].
  by apply safe_ret.
Qed.

Lemma safe_return {A} n l (a : A) (Q : L -> outcome A -> Prop) :
  Q l (Returned a) -> safe n l (ret a : comp Σ A) Q.
Proof. apply safe_ret. Qed.

Lemma safe_call_c n l (e : Op Σ) (Q : L -> outcome (Resp e) -> Prop) :
  allowed ρ l e -> (forall r, assume ρ l e r -> Q (after ρ l e r) (Returned r)) ->
  safe n l (call e) Q.
Proof.
  intros Hal HQ. eapply safe_bind; [apply safe_call with
    (Q := fun l' r => Q l' (Returned r)); [done|auto]|].
  intros. by apply safe_ret.
Qed.

Lemma safe_sbind {S A B} n l (m : stateful Σ S A) (k : A -> stateful Σ S B) s Q :
  safe n l (m s) (fun l' '(s', o) => match o with
                          | Returned a => forall i, i <= n -> safe i l' (k a s') Q
                          | Unwinding c => Q l' (s', Unwinding c)
                          end) ->
  safe n l ((m ≫= k) s) Q.
Proof.
  intros Hm. eapply safe_bind; [exact Hm|]. intros i l' [s' [a|c]] Hi HR; [by apply HR|].
  by apply safe_ret.
Qed.

Lemma safe_lift {S A} n l (m : comp Σ A) (s : S) Q :
  safe n l m (fun l' o => Q l' (s, o)) -> safe n l (lift m s) Q.
Proof. intros Hm. eapply safe_bind; [exact Hm|]. intros. by apply safe_ret. Qed.

Lemma safe_zoom {S F A} (get : S -> F) (set : S -> F -> S) n l (m : stateful Σ F A) s Q :
  safe n l (m (get s)) (fun l' '(f, o) => Q l' (set s f, o)) ->
  safe n l (zoom get set m s) Q.
Proof. intros Hm. eapply safe_bind; [exact Hm|]. intros i l' [f o] _ HQ. by apply safe_ret. Qed.

Lemma safe_run_on {S X A} n l (m : stateful Σ X A) x (s : S) Q :
  safe n l (m x) (fun l' end_ => Q l' (s, Returned end_)) -> safe n l (run_on m x s) Q.
Proof. intros Hm. eapply safe_bind; [exact Hm|]. intros. by apply safe_ret. Qed.

Lemma safe_owned {S A B} n l (v : S) drop (m : stateful Σ S A) (k : A -> S -> comp Σ B) Q :
  safe n l (m v) (fun l' '(v', o) => match o with
     | Returned a => forall i, i <= n -> safe i l' (k a v') Q
     | Unwinding c => forall i, i <= n -> safe i l' (drop v' true) (fun l'' _ => Q l'' (Unwinding c))
     end) ->
  safe n l (owned v drop m k) Q.
Proof.
  intros Hm. eapply safe_bind; [exact Hm|]. intros i l' [v' [a|c]] Hi HR; [by apply HR|].
  eapply safe_bind; [by apply HR|]. intros. by apply safe_ret.
Qed.

Lemma safe_scoped {S A} n l (v : S) drop (m : stateful Σ S A) Q :
  safe n l (m v) (fun l' '(v', o) => forall i, i <= n ->
     safe i l' (drop v' (is_unwinding o))
       (fun l'' d => match o with
                     | Returned a => match d with
                                     | Returned _ => Q l'' (Returned a)
                                     | Unwinding c => Q l'' (Unwinding c)
                                     end
                     | Unwinding c => Q l'' (Unwinding c)
                     end)) ->
  safe n l (scoped v drop m) Q.
Proof.
  intros Hm. apply safe_owned. eapply safe_mono; [reflexivity|exact Hm|].
  intros l' [v' [a|c]] HR i Hi; [|by apply HR].
  apply safe_cbind. eapply safe_mono; [reflexivity|by apply HR|].
  intros l'' [[]|c] HQ; [|done]. intros. by apply safe_return.
Qed.

Lemma safe_scoped_in {S A} n l drop (m : stateful Σ S A) s Q :
  safe n l (m s) (fun l' '(s', o) => forall i, i <= n ->
     safe i l' (drop (is_unwinding o)) (fun l'' _ => Q l'' (s', o))) ->
  safe n l (scoped_in drop m s) Q.
Proof.
  intros Hm. eapply safe_bind; [exact Hm|]. intros i l' [s' o] Hi HR.
  eapply safe_bind; [by apply HR|]. intros. by apply safe_ret.
Qed.

Lemma safe_sloop {S A} (I : L -> S -> Prop) n l (body : stateful Σ S (unit + A)) s Q :
  I l s ->
  (forall m l s, m <= n -> I l s ->
     safe m l (body s) (fun l' '(s', o) => match o with
        | Returned (inl _) => I l' s'
        | Returned (inr a) => Q l' (s', Returned a)
        | Unwinding c => Q l' (s', Unwinding c)
        end)) ->
  safe n l (loop body s) Q.
Proof.
  intros HI Hb. apply (safe_loop I); [done|]. intros m l' s' Hm HI'.
  eapply safe_bind; [by apply Hb|]. intros i l'' [s'' [[u|a]|c]] Hi HR; by apply safe_ret.
Qed.

End Safe.
Arguments rules : clear implicits.

(** No rules: to follow the values a program computes. *)
Definition free_rules (Σ : Sig) : rules Σ unit :=
  {| allowed := fun _ _ => True; assume := fun _ _ _ => True; after := fun l _ _ => l |}.

Lemma safe_free {Σ A} n l (p : prog Σ A) : safe (free_rules Σ) n l p (fun _ _ => True).
Proof.
  revert l p. induction n as [|n IH]; intros l p; [done|]. simpl.
  destruct (next p); [done| |by apply IH]. split; [done|]. intros r _. apply IH.
Qed.

(** Follows a program up to its next call, or to a part that has a lemma. *)
Ltac walk1 :=
  lazymatch goal with
  | |- forall i, i <= _ -> _ => intros ? _
  | |- safe _ _ _ (@bind _ _ _ _ _ _ _) _ => apply safe_sbind
  | |- safe _ _ _ (@bind _ _ _ _ _ _) _ => apply safe_cbind
  | |- safe _ _ _ (@ret _ _ _ _ _) _ => apply safe_ret
  | |- safe _ _ _ (@ret _ _ _ _) _ => apply safe_ret
  | |- safe _ _ _ (Ret _) _ => apply safe_ret
  | |- safe _ _ _ (lift _ _) _ => apply safe_lift
  | |- safe _ _ _ (assign _ _) _ => apply safe_ret
  | |- safe _ _ _ (read_var _) _ => apply safe_ret
  | |- safe _ _ _ (of_outcome _) _ => apply safe_ret
  | |- safe _ _ _ (scoped_in _ _ _) _ => apply safe_scoped_in
  | |- safe _ _ _ (run_on _ _ _) _ => apply safe_run_on
  | |- safe _ _ _ (zoom _ _ _ _) _ => apply safe_zoom
  end; cbv beta iota.
Ltac walk := repeat walk1.

(** Likewise, up to the next sequence of a [stateful] computation. *)
Ltac skip := repeat lazymatch goal with
  | |- safe _ _ _ (@bind _ _ _ _ _ _ _) _ => fail
  | |- _ => walk1
  end.
