(* ===== verification/WaiterRegistry.v ===== *)
(** * [src/src/monitor/internal/waiter_registry.rs]

    [WaiterRegistry<W>]: the waiters that are eligible for the next
    notification, keyed by a strictly increasing [u64]. The standard library's
    [BTreeMap] is modelled by its key-ordered list of entries. The abstract
    specification is a FIFO queue of tickets; [registry_refines_fifo] shows that
    every sequence of operations answers as the queue does. *)
From S2P Require Import Prelude.

(** ** The operations of [std::collections::BTreeMap] used by the source *)
Module BTreeMap.
Section BTreeMap.
Context {V : Type}.

(** [insert]: the entry replaced, if the key was present. *)
Fixpoint insert (m : list (Z * V)) (k : Z) (v : V) : list (Z * V) * option V :=
  match m with
  | [] => ([(k, v)], None)
  | (k', v') :: m' =>
      if decide (k < k')%Z then ((k, v) :: m, None)
      else if decide (k = k') then ((k, v) :: m', Some v')
      else let '(m'', old) := insert m' k v in ((k', v') :: m'', old)
  end.

(** [pop_first]: removes the entry with the smallest key. *)
Definition pop_first (m : list (Z * V)) : list (Z * V) * option (Z * V) :=
  match m with
  | [] => ([], None)
  | kv :: m' => (m', Some kv)
  end.

Fixpoint remove (m : list (Z * V)) (k : Z) : list (Z * V) * option V :=
  match m with
  | [] => ([], None)
  | (k', v') :: m' =>
      if decide (k = k') then (m', Some v')
      else let '(m'', old) := remove m' k in ((k', v') :: m'', old)
  end.

(** [into_values]: the values in key order. *)
Definition into_values (m : list (Z * V)) : list V := m.*2.

Definition sorted (m : list (Z * V)) : Prop := StronglySorted Z.lt m.*1.
End BTreeMap.
End BTreeMap.

(** ** The registry *)
Record WaiterRegistry (W : Type) : Type := MkWaiterRegistry {
  next_waiter_id : Z;
  waiters : list (Z * W)
}.
Arguments MkWaiterRegistry {W} next_waiter_id waiters.
Arguments next_waiter_id {W} w.
Arguments waiters {W} w.

Section Registry.
Context {W : Type}.
Implicit Types self : WaiterRegistry W.

Definition new : WaiterRegistry W :=
  {| next_waiter_id := 1; waiters := [] |}.

(** The new [next_waiter_id] is stored only if [checked_add] succeeds; the
    uniqueness assertion runs after the insertion. *)
Definition register self (waiter : W) : WaiterRegistry W * outcome Z :=
  let waiter_id := next_waiter_id self in
  match expect (u64_checked_add waiter_id 1) "monitor waiter identifiers exhausted" with
  | Unwinding c => (self, Unwinding c)
  | Returned next_id =>
      let '(waiters', previous) := BTreeMap.insert (waiters self) waiter_id waiter in
      let self' := {| next_waiter_id := next_id; waiters := waiters' |} in
      match previous with
      | None => (self', Returned waiter_id)
      | Some _ => (self', Unwinding (Panic "monitor waiter identifier must be unique"))
      end
  end.

Definition take_one self : WaiterRegistry W * option W :=
  let '(waiters', first) := BTreeMap.pop_first (waiters self) in
  ({| next_waiter_id := next_waiter_id self; waiters := waiters' |}, snd <$> first).

(** [std::mem::take] leaves an empty tree behind. *)
Definition take_all self : WaiterRegistry W * list W :=
  ({| next_waiter_id := next_waiter_id self; waiters := [] |},
   BTreeMap.into_values (waiters self)).

Definition unregister self (waiter_id : Z) : WaiterRegistry W * option W :=
  let '(waiters', removed) := BTreeMap.remove (waiters self) waiter_id in
  ({| next_waiter_id := next_waiter_id self; waiters := waiters' |}, removed).

(** The waiter registered under an identifier. *)
Fixpoint entry (m : list (Z * W)) (id : Z) : option W :=
  match m with
  | [] => None
  | (k, w) :: m' => if decide (id = k) then Some w else entry m' id
  end.

(** *** Operations as data, to speak of sequences of them *)
Inductive registry_op : Type :=
| OpRegister (w : W)
| OpTakeOne
| OpTakeAll
| OpUnregister (id : Z).

Inductive registry_answer : Type :=
| AnsId (o : outcome Z)
| AnsWaiter (o : option W)
| AnsWaiters (ws : list W).

Definition registry_step self (op : registry_op) : WaiterRegistry W * registry_answer :=
  match op with
  | OpRegister w => let '(r, o) := register self w in (r, AnsId o)
  | OpTakeOne => let '(r, o) := take_one self in (r, AnsWaiter o)
  | OpTakeAll => let '(r, ws) := take_all self in (r, AnsWaiters ws)
  | OpUnregister id => let '(r, o) := unregister self id in (r, AnsWaiter o)
  end.

Fixpoint registry_run self (ops : list registry_op) : WaiterRegistry W * list registry_answer :=
  match ops with
  | [] => (self, [])
  | op :: ops =>
      let '(r, a) := registry_step self op in
      let '(r', l) := registry_run r ops in (r', a :: l)
  end.

(** *** Specification: a queue of tickets in arrival order *)
Record fifo : Type := MkFifo { issued : Z; queue : list (Z * W) }.

Definition fifo_step (q : fifo) (op : registry_op) : fifo * registry_answer :=
  match op with
  | OpRegister w =>
      if decide (issued q < u64_MAX)%Z
      then (MkFifo (issued q + 1) (queue q ++ [(issued q, w)]), AnsId (Returned (issued q)))
      else (q, AnsId (Unwinding (Panic "monitor waiter identifiers exhausted")))
  | OpTakeOne =>
      match queue q with
      | [] => (q, AnsWaiter None)
      | (_, w) :: rest => (MkFifo (issued q) rest, AnsWaiter (Some w))
      end
  | OpTakeAll => (MkFifo (issued q) [], AnsWaiters (queue q).*2)
  | OpUnregister id =>
      (MkFifo (issued q) (filter (fun p => p.1 ≠ id) (queue q)),
       AnsWaiter (snd <$> (snd <$> list_find (fun p => p.1 = id) (queue q))))
  end.

Fixpoint fifo_run (q : fifo) (ops : list registry_op) : fifo * list registry_answer :=
  match ops with
  | [] => (q, [])
  | op :: ops =>
      let '(r, a) := fifo_step q op in
      let '(r', l) := fifo_run r ops in (r', a :: l)
  end.

Definition fifo_of self : fifo := MkFifo (next_waiter_id self) (waiters self).

(** The registration identifiers that a list of answers hands out. *)
Definition issued_ids (l : list registry_answer) : list Z :=
  omap (fun a => match a with AnsId (Returned id) => Some id | _ => None end) l.

(** *** Invariant *)
Record registry_ok self : Prop := {
  ok_sorted : BTreeMap.sorted (waiters self);
  ok_range : forall id, id ∈ (waiters self).*1 -> (1 <= id < next_waiter_id self)%Z;
  ok_next : (1 <= next_waiter_id self <= u64_MAX)%Z
}.

(** ** Lemmas *)
Lemma insert_last (m : list (Z * W)) k v :
  (forall id, id ∈ m.*1 -> (id < k)%Z) -> BTreeMap.insert m k v = (m ++ [(k, v)], None).
Proof.
  induction m as [|[k' v'] m IH]; intros Hk; [done|]. simpl.
  assert (k' < k)%Z by (apply Hk; left).
  rewrite decide_False by lia. rewrite decide_False by lia.
  rewrite IH; [done|]. intros id Hid. apply Hk. by right.
Qed.

Lemma sorted_app_last (m : list (Z * W)) k v :
  BTreeMap.sorted m -> (forall id, id ∈ m.*1 -> (id < k)%Z) ->
  BTreeMap.sorted (m ++ [(k, v)]).
Proof.
  unfold BTreeMap.sorted. rewrite fmap_app. induction m as [|[k' v'] m IH]; intros Hs Hk; simpl.
  - repeat constructor.
  - inversion_clear Hs as [|? ? Hs' Hall]. constructor.
    + apply IH; [done|]. intros id Hid. apply Hk. by right.
    + rewrite Forall_app. split; [done|]. constructor; [|done]. apply Hk. left.
Qed.

Lemma remove_filter (m : list (Z * W)) id :
  BTreeMap.sorted m ->
  BTreeMap.remove m id =
    (filter (fun p => p.1 ≠ id) m, snd <$> (snd <$> list_find (fun p => p.1 = id) m)).
Proof.
  unfold BTreeMap.sorted. induction m as [|[k v] m IH]; intros Hs; [done|].
  inversion_clear Hs as [|? ? Hs' Hall]. simpl. destruct (decide (id = k)) as [->|Hne].
  - rewrite filter_cons_False by (simpl; auto). rewrite (decide_True (P := k = k)) by done.
    rewrite filter_all; [done|]. change (Forall (Z.lt k) (fst <$> m)) in Hall.
    rewrite Forall_fmap in Hall. eapply Forall_impl; [exact Hall|].
    intros [k' v'] Hlt. simpl in *. lia.
  - rewrite filter_cons_True by (simpl; auto). rewrite (decide_False (P := k = id)) by auto.
    rewrite IH by done. by destruct (list_find _ m) as [[]|].
Qed.

Lemma sorted_filter (m : list (Z * W)) (P : Z * W -> Prop) `{forall x, Decision (P x)} :
  BTreeMap.sorted m -> BTreeMap.sorted (filter P m).
Proof.
  unfold BTreeMap.sorted. induction m as [|[k v] m IH]; intros Hs; [done|].
  inversion_clear Hs as [|? ? Hs' Hall]. rewrite filter_cons. case_decide; [|by apply IH].
  simpl. constructor; [by apply IH|]. rewrite Forall_forall in *. intros x Hx. apply Hall.
  apply list_elem_of_fmap in Hx as ([k' v'] & -> & Hin).
  apply list_elem_of_filter in Hin as [_ Hin]. apply list_elem_of_fmap. by exists (k', v').
Qed.

Lemma filter_keys (m : list (Z * W)) (P : Z * W -> Prop) `{forall x, Decision (P x)} id :
  id ∈ (filter P m).*1 -> id ∈ m.*1.
Proof.
  rewrite !list_elem_of_fmap. intros ([k v] & -> & Hin).
  apply list_elem_of_filter in Hin as [_ Hin]. by exists (k, v).
Qed.

Lemma new_ok : registry_ok new.
Proof. split; simpl; [constructor|intros id Hid; by apply not_elem_of_nil in Hid|done]. Qed.

(** One step of the implementation is one step of the queue, and keeps the
    invariant. *)
Lemma registry_step_fifo self op :
  registry_ok self ->
  let '(r, a) := registry_step self op in
  registry_ok r /\ fifo_step (fifo_of self) op = (fifo_of r, a).
Proof.
  intros [Hs Hr Hn]. destruct op as [w| | |id]; simpl.
  - unfold register. destruct (u64_checked_add _ _) as [n|] eqn:Hadd; simpl.
    + apply u64_checked_add_Some in Hadd as [-> Hmax].
      assert (Hlt : forall id, id ∈ (waiters self).*1 -> (id < next_waiter_id self)%Z)
        by (intros id Hid; apply Hr in Hid; lia).
      rewrite insert_last by done. rewrite decide_True by lia. split; [|done].
      split; simpl; [by apply sorted_app_last| |lia].
      intros id. rewrite fmap_app, elem_of_app. simpl.
      rewrite list_elem_of_singleton. intros [Hid| ->]; [apply Hr in Hid|]; lia.
    + apply u64_checked_add_None in Hadd. rewrite decide_False by lia. by split.
  - unfold take_one. destruct (waiters self) as [|[k w] m] eqn:Hw; simpl.
    + split; [split; simpl; [constructor|intros id Hid; by apply not_elem_of_nil in Hid|done]|].
      unfold fifo_of. simpl. by rewrite Hw.
    + split; [|done]. split; simpl; [|intros id Hid; apply Hr; by right|done].
      unfold BTreeMap.sorted in *. simpl in Hs. by inversion_clear Hs.
  - split; [|done]. split; simpl; [constructor|intros id Hid; by apply not_elem_of_nil in Hid|done].
  - unfold unregister. rewrite remove_filter by done. split; [|done].
    split; simpl; [by apply sorted_filter| |done]. intros i Hi. apply Hr. by eapply filter_keys.
Qed.

Lemma registry_run_fifo self ops :
  registry_ok self ->
  let '(r, l) := registry_run self ops in
  registry_ok r /\ fifo_run (fifo_of self) ops = (fifo_of r, l).
Proof.
  revert self. induction ops as [|op ops IH]; intros self Hok; simpl; [done|].
  pose proof (registry_step_fifo self op Hok) as Hstep.
  destruct (registry_step self op) as [r a]. destruct Hstep as [Hr ->].
  specialize (IH r Hr). destruct (registry_run r ops) as [r' l]. by destruct IH as [? ->].
Qed.

(** What [register] does to the entries, on both branches. *)
Lemma register_inv self w r o :
  registry_ok self -> register self w = (r, o) ->
  (next_waiter_id self < u64_MAX /\ o = Returned (next_waiter_id self) /\
   next_waiter_id r = next_waiter_id self + 1 /\
   waiters r = waiters self ++ [(next_waiter_id self, w)])%Z \/
  (next_waiter_id self = u64_MAX /\ r = self /\
   o = Unwinding (Panic "monitor waiter identifiers exhausted")).
Proof.
  intros Hok Hreg. pose proof (registry_step_fifo self (OpRegister w) Hok) as Hstep.
  simpl in Hstep. rewrite Hreg in Hstep. destruct Hstep as [Hr Heq].
  destruct self as [n m], r as [n' m'], Hok as [_ _ Hn]. unfold fifo_of in *. simpl in *.
  destruct (decide (n < u64_MAX)%Z); simplify_eq; [by left|right]. split; [lia|done].
Qed.

Lemma register_ok self w : registry_ok self -> registry_ok (register self w).1.
Proof.
  intros Hok. pose proof (registry_step_fifo self (OpRegister w) Hok) as H.
  simpl in H. destruct (register self w). by destruct H.
Qed.

Lemma take_one_ok self : registry_ok self -> registry_ok (take_one self).1.
Proof.
  intros Hok. pose proof (registry_step_fifo self OpTakeOne Hok) as H.
  simpl in H. destruct (take_one self). by destruct H.
Qed.

Lemma take_all_ok self : registry_ok self -> registry_ok (take_all self).1.
Proof. intros Hok. pose proof (registry_step_fifo self OpTakeAll Hok) as [H _]. done. Qed.

Lemma unregister_ok self id : registry_ok self -> registry_ok (unregister self id).1.
Proof.
  intros Hok. pose proof (registry_step_fifo self (OpUnregister id) Hok) as H.
  simpl in H. destruct (unregister self id). by destruct H.
Qed.

Lemma fifo_step_issued q op : (issued q <= issued (fifo_step q op).1)%Z.
Proof.
  destruct q as [n m]. destruct op; simpl; repeat case_match; simpl; lia.
Qed.

(** Identifiers issued from a state are issued in increasing order, from that
    state's counter on. *)
Lemma issued_ids_increasing self ops :
  registry_ok self ->
  StronglySorted Z.lt (issued_ids (registry_run self ops).2) /\
  Forall (fun id => next_waiter_id self <= id)%Z (issued_ids (registry_run self ops).2).
Proof.
  revert self. induction ops as [|op ops IH]; intros self Hok; simpl; [by repeat constructor|].
  pose proof (registry_step_fifo self op Hok) as Hstep.
  destruct (registry_step self op) as [r a] eqn:Hst. destruct Hstep as [Hr Heq].
  specialize (IH r Hr). destruct (registry_run r ops) as [r' l]. simpl in *.
  destruct IH as [Hsort Hall].
  assert (Hle : (next_waiter_id self <= next_waiter_id r)%Z).
  { pose proof (fifo_step_issued (fifo_of self) op) as Hi. by rewrite Heq in Hi. }
  assert (Hgen : Forall (fun id => next_waiter_id self <= id)%Z (issued_ids l)).
  { eapply Forall_impl; [exact Hall|]. simpl. lia. }
  destruct a as [[id|c]|o|ws]; try (by split).
  destruct op as [w| | |i]; simpl in Hst, Heq; try (by repeat case_match; simplify_eq).
  unfold fifo_of in Heq. case_decide; simplify_eq. simpl in *.
  split; [|constructor; [lia|done]]. constructor; [done|].
  eapply Forall_impl; [exact Hall|]. simpl. lia.
Qed.

Lemma remove_last (m : list (Z * W)) k v :
  (forall id, id ∈ m.*1 -> (id < k)%Z) -> BTreeMap.remove (m ++ [(k, v)]) k = (m, Some v).
Proof.
  induction m as [|[k' v'] m IH]; intros Hk; simpl; [by rewrite decide_True|].
  assert (k' < k)%Z by (apply Hk; left). rewrite decide_False by lia.
  rewrite IH; [done|]. intros id Hid. apply Hk. by right.
Qed.

(** A sequence of registrations appends its waiters. *)
Lemma register_all self (ws : list W) :
  registry_ok self -> (next_waiter_id self + Z.of_nat (length ws) <= u64_MAX)%Z ->
  let r := (registry_run self (OpRegister <$> ws)).1 in
  (waiters r).*2 = (waiters self).*2 ++ ws /\ next_waiter_id r = (next_waiter_id self + Z.of_nat (length ws))%Z.
Proof.
  revert self. induction ws as [|w ws IH]; intros self Hok Hmax; simpl; [by rewrite app_nil_r, Z.add_0_r|].
  simpl in Hmax. destruct (register self w) as [r o] eqn:Hreg.
  pose proof (register_ok self w Hok) as Hr. rewrite Hreg in Hr.
  destruct (register_inv _ _ _ _ Hok Hreg) as [(? & -> & Hn & Hw)|(? & _)]; [|lia].
  assert (Hlt : (next_waiter_id r + Z.of_nat (length ws) <= u64_MAX)%Z) by lia.
  specialize (IH r Hr Hlt). simpl in *. destruct (registry_run r _) as [r' l]. simpl in *.
  destruct IH as [-> ->]. rewrite Hw, fmap_app. split; [by rewrite <- app_assoc|lia].
Qed.

Lemma take_each self :
  (registry_run self (replicate (length (waiters self)) OpTakeOne)).2 =
  (fun w => AnsWaiter (Some w)) <$> (waiters self).*2.
Proof.
  destruct self as [n m]. simpl. induction m as [|[k w] m IH]; [done|]. simpl in *.
  destruct (registry_run _ _) as [r l]. simpl in *. by rewrite IH.
Qed.

(** ** Properties *)

(** C27: round trip. In every reachable registry, waiters that are registered come
    back, each once and in the order of registration, after those that were
    there, from one [take_all] as well as from repeated [take_one]; and a
    registration that is cancelled at once returns its waiter and leaves the
    waiters as they were. *)
Theorem registrations_come_back (ops : list registry_op) (ws : list W) (w : W) :
  let self := (registry_run new ops).1 in
  let full := (registry_run self (OpRegister <$> ws)).1 in
  (next_waiter_id self + Z.of_nat (length ws) < u64_MAX)%Z ->
  (take_all full).2 = (waiters self).*2 ++ ws /\ waiters (take_all full).1 = [] /\
  (registry_run full (replicate (length (waiters full)) OpTakeOne)).2 =
    (fun w => AnsWaiter (Some w)) <$> ((waiters self).*2 ++ ws) /\
  exists r id, register full w = (r, Returned id) /\
    unregister r id = ({| next_waiter_id := (id + 1)%Z; waiters := waiters full |}, Some w).
Proof.
  intros self full Hmax. pose proof (registry_run_fifo new ops new_ok) as Hrun.
  destruct (registry_run new ops) as [self0 l] eqn:Hops. subst self. simpl in full, Hmax |- *. destruct Hrun as [Hok _].
  pose proof (registry_run_fifo self0 (OpRegister <$> ws) Hok) as Hfull.
  destruct (register_all self0 ws Hok) as [Hws Hn]; [lia|]. fold full in Hws, Hn.
  assert (Hfok : registry_ok full) by (subst full; destruct (registry_run self0 _); by destruct Hfull).
  clearbody full. split; [exact Hws|split; [done|split; [by rewrite take_each, Hws|]]].
  destruct (register full w) as [r o] eqn:Hreg.
  destruct (register_inv _ _ _ _ Hfok Hreg) as [(? & -> & Hnr & Hw)|(? & _)]; [|lia].
  exists r, (next_waiter_id full). split; [done|]. unfold unregister. rewrite Hw, remove_last, Hnr; [done|].
  intros id Hid. by apply (ok_range _ Hfok) in Hid as [_ ?].
Qed.

(** C13: whatever sequence of operations is applied to a fresh registry, every
    answer is the one a FIFO queue of tickets gives: registrations append,
    [take_one] serves the oldest active registration, [take_all] drains in
    arrival order, [unregister] cancels exactly the ticket named. *)
Theorem registry_refines_fifo (ops : list registry_op) :
  (registry_run new ops).2 = (fifo_run (MkFifo 1 []) ops).2.
Proof.
  pose proof (registry_run_fifo new ops new_ok) as Hrun.
  destruct (registry_run new ops). destruct Hrun as [_ Hrun].
  change (MkFifo 1 []) with (fifo_of new). by rewrite Hrun.
Qed.

(** C35: the identifiers handed out by a registry, over any history of
    registrations, selections and cancellations, are nonzero and strictly
    increasing, so none is ever reused. *)
Theorem registration_ids_never_reused (ops : list registry_op) :
  StronglySorted Z.lt (issued_ids (registry_run new ops).2) /\
  Forall (fun id => 1 <= id)%Z (issued_ids (registry_run new ops).2).
Proof. apply issued_ids_increasing, new_ok. Qed.

(** C34: in every reachable registry, [register] returns the next identifier and
    appends the waiter while identifiers remain; at [u64::MAX] it panics with
    the exhaustion message and changes nothing. The uniqueness assertion never
    fires. *)
Theorem register_at_the_id_bound (ops : list registry_op) (w : W) :
  let self := (registry_run new ops).1 in
  register self w =
    if decide (next_waiter_id self < u64_MAX)%Z
    then ({| next_waiter_id := next_waiter_id self + 1;
             waiters := waiters self ++ [(next_waiter_id self, w)] |},
          Returned (next_waiter_id self))
    else (self, Unwinding (Panic "monitor waiter identifiers exhausted")).
Proof.
  intros self. pose proof (registry_run_fifo new ops new_ok) as Hrun. subst self.
  destruct (registry_run new ops) as [self l]. simpl. destruct Hrun as [Hok _].
  destruct (register self w) as [r o] eqn:Hreg.
  destruct (register_inv _ _ _ _ Hok Hreg) as [(? & -> & Hn & Hw)|(? & -> & ->)].
  - rewrite decide_True by done. destruct r. simpl in *. by subst.
  - rewrite decide_False by lia. done.
Qed.

(** C36: selection is final and oldest-first: in every reachable registry
    [take_one] removes the registration with the smallest identifier, and a
    cancellation of that registration afterwards finds nothing and removes
    nobody else; with no registration, [take_one] leaves no trace. *)
Theorem selection_is_oldest_and_final (ops : list registry_op) :
  let self := (registry_run new ops).1 in
  match waiters self with
  | [] => take_one self = (self, None)
  | (id, w) :: rest =>
      let selected := {| next_waiter_id := next_waiter_id self; waiters := rest |} in
      take_one self = (selected, Some w) /\
      Forall (fun p => id < p.1)%Z rest /\
      unregister selected id = (selected, None)
  end.
Proof.
  intros self. pose proof (registry_run_fifo new ops new_ok) as Hrun. subst self.
  destruct (registry_run new ops) as [[n m] l]. simpl. destruct Hrun as [[Hs _ _] _].
  destruct m as [|[id w] rest]; [done|]. unfold BTreeMap.sorted in Hs. simpl in Hs.
  inversion_clear Hs as [|? ? Hs' Hall]. change (Forall (Z.lt id) (fst <$> rest)) in Hall.
  rewrite Forall_fmap in Hall. split; [done|split; [done|]]. unfold unregister. simpl.
  rewrite remove_filter by done.
  rewrite filter_all by (eapply Forall_impl; [exact Hall|simpl; lia]).
  destruct (list_find _ rest) as [[i [k v]]|] eqn:Hf; [|done].
  apply list_find_Some in Hf as (Hi & Hk & _). simpl in Hk. subst k.
  rewrite Forall_lookup in Hall. apply Hall in Hi. simpl in Hi. lia.
Qed.

End Registry.

Lemma registrations_come_back_witness :
  let self := (registry_run new [OpRegister 7]).1 in
  let full := (registry_run self (OpRegister <$> [8; 9])).1 in
  (next_waiter_id self + Z.of_nat (length [8; 9]) < u64_MAX)%Z /\
  (take_all full).2 = (waiters self).*2 ++ [8; 9] /\ waiters (take_all full).1 = [] /\
  (registry_run full (replicate (length (waiters full)) OpTakeOne)).2 =
    (fun w => AnsWaiter (Some w)) <$> ((waiters self).*2 ++ [8; 9]) /\
  exists r id, register full 5 = (r, Returned id) /\
    unregister r id = ({| next_waiter_id := (id + 1)%Z; waiters := waiters full |}, Some 5).
Proof.
  split; [vm_compute; reflexivity|].
  apply (registrations_come_back [OpRegister 7] [8; 9] 5). vm_compute. reflexivity.
Defined.
Arguments registry_op : clear implicits.
Arguments registry_answer : clear implicits.
Arguments fifo : clear implicits.
