(* ===== verification/WaitResult.v ===== *)
(** * [wait_timeout_status.rs] and [wait_timeout_result.rs] *)
From S2P Require Import Prelude.

(** ** [WaitTimeoutStatus] *)
Inductive WaitTimeoutStatus : Type := Woken | TimedOut.

#[export] Instance WaitTimeoutStatus_eq_dec : EqDecision WaitTimeoutStatus.
Proof. solve_decision. Defined.

Definition status_is_woken (self : WaitTimeoutStatus) : bool :=
  match self with Woken => true | TimedOut => false end.

Definition status_is_timed_out (self : WaitTimeoutStatus) : bool :=
  match self with Woken => false | TimedOut => true end.

(** ** [WaitTimeoutResult<R>] *)
Inductive WaitTimeoutResult (R : Type) : Type :=
| WaitReady (value : R)
| WaitTimedOut.
Arguments WaitReady {R} value.
Arguments WaitTimedOut {R}.

#[export] Instance WaitTimeoutResult_eq_dec `{EqDecision R} : EqDecision (WaitTimeoutResult R).
Proof. solve_decision. Defined.

Section Result.
Context {R U : Type}.
Definition is_ready (self : WaitTimeoutResult R) : bool :=
  match self with WaitReady _ => true | WaitTimedOut => false end.

Definition is_timed_out (self : WaitTimeoutResult R) : bool :=
  match self with WaitReady _ => false | WaitTimedOut => true end.

Definition into_option (self : WaitTimeoutResult R) : option R :=
  match self with WaitReady value => Some value | WaitTimedOut => None end.

Definition WaitTimeoutResult_map (self : WaitTimeoutResult R) (f : R -> U) : WaitTimeoutResult U :=
  match self with WaitReady value => WaitReady (f value) | WaitTimedOut => WaitTimedOut end.

End Result.

(** The two observers partition the values, and [map] and [into_option] commute
    and keep the status. *)
Lemma WaitTimeoutResult_algebra {R U} (self : WaitTimeoutResult R) (f : R -> U) :
  is_timed_out self = negb (is_ready self) /\
  is_ready (WaitTimeoutResult_map self f) = is_ready self /\
  into_option (WaitTimeoutResult_map self f) = f <$> into_option self /\
  (is_ready self = true <-> is_Some (into_option self)).
Proof. destruct self; simpl; repeat split; try done; by intros []. Qed.
