(* ===== verification/Primitives.v ===== *)
(** * The primitives a blocking monitor is built from

    One signature for the calls that [StdMonitor] and its helpers make on
    shared objects: the state mutex, the waiter registry behind its own mutex,
    the per-waiter signal latches, and the external clock and timer
    ([qubit_clock], whose types are parameters of the development). Also
    [src/src/monitor/internal/sync.rs]. *)
From S2P Require Import Prelude Program.

(** ** Types of the [qubit_clock] crate *)
Class QubitClock : Type := {
  MonotonicInstant : Type;
  TimeError : Type;
  TimerFuture : Type;
  Timer : Type;
  instant_checked_add : MonotonicInstant -> Duration -> Result MonotonicInstant TimeError
}.

(** A concrete clock, for runs of closed examples: instants count nanoseconds and
    overflow at 64 bits; a future is its deadline. *)
Definition test_clock : QubitClock := {|
  MonotonicInstant := Z; TimeError := unit; TimerFuture := Z; Timer := unit;
  instant_checked_add := fun i d =>
    match u64_checked_add i (secs d * 1000000000 + nanos d)%Z with
    | Some i' => Ok i'
    | None => Err tt
    end
|}.

(** ** Poisoning ([std::sync]) *)
Record PoisonError (A : Type) : Type := MkPoisonError { into_inner : A }.
Arguments MkPoisonError {A} into_inner.
Arguments into_inner {A} p.

Definition LockResult (A : Type) : Type := Result A (PoisonError A).

Definition unwrap_or_else {A E} (r : Result A E) (f : E -> A) : A :=
  match r with Ok a => a | Err e => f e end.

(** The handle that owns the state lock. *)
Inductive MutexGuard : Type := TheGuard.

(** The address of one [Arc<BlockingConditionWaiter>]. *)
Definition waiter_ref : Type := nat.

(** ** The signature *)
Section Signature.
Context `{QubitClock} (T : Type).

Inductive monitor_op : Type :=
(* the state mutex *)
| LockState
| UnlockState (guard : MutexGuard) (panicking : bool)
| GetState (guard : MutexGuard)
| SetState (guard : MutexGuard) (s : T)
| StateIsPoisoned
| StateClearPoison
(* [BlockingConditionWaiter]: allocation and its signal latch *)
| NewWaiter
| SignalWaiter (w : waiter_ref)
| AwaitSignal (w : waiter_ref)
(* asynchronous tasks: an await that may be pending, which tells whether the
   task's future is dropped there; a poll of a waiter's signal; the end of a poll
   of a task that its waiter's signal (or its timer) will cause to be polled
   again *)
| AwaitPoint
| PollSignal (w : waiter_ref)
| Park (w : waiter_ref)
(* the registry, each call under the registry's own mutex *)
| RegistryRegister (w : waiter_ref)
| RegistryTakeOne
| RegistryTakeAll
| RegistryUnregister (id : Z)
(* the timer *)
| TimerClockNow (t : Timer)
| TimerDeadlineAfter (t : Timer) (d : Duration)
| TimerAt (t : Timer) (deadline : MonotonicInstant)
| TimerAfter (t : Timer) (timeout : Duration)
(* [None] is [Waker::noop()] in a blocking wait, and the waker of the task in an
   asynchronous one *)
| TimerPoll (f : TimerFuture) (waker : option waiter_ref).

Definition monitor_resp (e : monitor_op) : Type :=
  match e with
  | LockState => LockResult MutexGuard
  | UnlockState _ _ | SetState _ _ | StateClearPoison => unit
  | GetState _ => T
  | StateIsPoisoned => bool
  | NewWaiter => waiter_ref
  | SignalWaiter _ | AwaitSignal _ | Park _ => unit
  | AwaitPoint | PollSignal _ => bool
  | RegistryRegister _ => outcome Z
  | RegistryTakeOne => option waiter_ref
  | RegistryTakeAll => list waiter_ref
  | RegistryUnregister _ => option waiter_ref
  | TimerClockNow _ => MonotonicInstant
  | TimerDeadlineAfter _ _ => Result MonotonicInstant TimeError
  | TimerAt _ _ | TimerAfter _ _ => Result TimerFuture TimeError
  | TimerPoll _ _ => Poll (Result unit TimeError)
  end.

Definition MonitorSig : Sig := MkSig monitor_op monitor_resp.
End Signature.
Arguments LockState {_ T}.
Arguments UnlockState {_ T} guard panicking.
Arguments GetState {_ T} guard.
Arguments SetState {_ T} guard s.
Arguments StateIsPoisoned {_ T}.
Arguments StateClearPoison {_ T}.
Arguments NewWaiter {_ T}.
Arguments SignalWaiter {_ T} w.
Arguments AwaitSignal {_ T} w.
Arguments AwaitPoint {_ T}.
Arguments PollSignal {_ T} w.
Arguments Park {_ T} w.
Arguments RegistryRegister {_ T} w.
Arguments RegistryTakeOne {_ T}.
Arguments RegistryTakeAll {_ T}.
Arguments RegistryUnregister {_ T} id.
Arguments TimerClockNow {_ T} t.
Arguments TimerDeadlineAfter {_ T} t d.
Arguments TimerAt {_ T} t deadline.
Arguments TimerAfter {_ T} t timeout.
Arguments TimerPoll {_ T} f waker.
Arguments monitor_resp {_ T} e.

(** ** The state mutex's guard *)
Section MutexGuard.
Context `{QubitClock} {T : Type}.

(** Drop glue of [std::sync::MutexGuard] and [parking_lot::MutexGuard]. *)
Definition drop_mutex_guard (g : MutexGuard) (panicking : bool) : comp (MonitorSig T) unit :=
  call (Σ := MonitorSig T) (UnlockState g panicking).
End MutexGuard.

(** ** [sync.rs] *)
Section Sync.
Context `{QubitClock} {T : Type}.

(** [result.unwrap_or_else(PoisonError::into_inner)]. *)
Definition recover {A} (result : LockResult A) : A := unwrap_or_else result into_inner.

Definition is_poisoned : comp (MonitorSig T) bool := call (Σ := MonitorSig T) StateIsPoisoned.

Definition clear_poison : comp (MonitorSig T) unit := call (Σ := MonitorSig T) StateClearPoison.

Lemma recover_total {A} (a : A) : recover (Ok a) = a /\ recover (Err (MkPoisonError a)) = a.
Proof. done. Qed.
End Sync.
