(* ===== verification/BlockingWaiter.v ===== *)
(** * Blocking waiters and their registry

    [src/src/monitor/internal/blocking_condition_waiter.rs],
    [blocking_waiter_registration.rs] and [blocking_waiter_registry.rs]: one
    waiter per wait, registered under an identifier, signalled at most once per
    selection, and removed by the registration's drop glue. *)
From S2P Require Import Prelude Program Primitives.

Section BlockingWaiter.
Context `{QubitClock} {T : Type}.
Abbreviation Σ := (MonitorSig T).

(** ** [BlockingConditionWaiter] *)

(** The first poll is made with [Waker::noop()]. *)
Definition poll_timer_without_waiter (future : TimerFuture) : comp Σ (Poll (Result unit TimeError)) :=
  call (Σ := Σ) (TimerPoll future None).

Definition poll_timer (waiter : waiter_ref) (future : TimerFuture)
    : comp Σ (Poll (Result unit TimeError)) :=
  call (Σ := Σ) (TimerPoll future (Some waiter)).

Definition BlockingConditionWaiter_new : comp Σ waiter_ref := call (Σ := Σ) NewWaiter.

Definition wait (waiter : waiter_ref) : comp Σ unit := call (Σ := Σ) (AwaitSignal waiter).

Definition signal (waiter : waiter_ref) : comp Σ unit := call (Σ := Σ) (SignalWaiter waiter).

(** [Wake::wake]. *)
Definition wake (waiter : waiter_ref) : comp Σ unit := signal waiter.

(** ** [BlockingWaiterRegistration] *)
Record BlockingWaiterRegistration : Type := MkRegistration {
  waiter_id : Z;
  waiter : waiter_ref
}.

(** ** [BlockingWaiterRegistry] *)
Definition unregister (id : Z) : comp Σ unit :=
  _ ← call (Σ := Σ) (RegistryUnregister id); ret tt.

(** [Drop for BlockingWaiterRegistration]. *)
Definition drop_registration (self : BlockingWaiterRegistration) : comp Σ unit :=
  unregister (waiter_id self).

Definition register : comp Σ BlockingWaiterRegistration :=
  w ← BlockingConditionWaiter_new;
  id ← call_outcome (Σ := Σ) (RegistryRegister w) id;
  ret {| waiter_id := id; waiter := w |}.

Definition notify_one : comp Σ unit :=
  selected ← call (Σ := Σ) RegistryTakeOne;
  match selected with
  | Some w => wake w
  | None => ret tt
  end.

(** [for waiter in waiters { Wake::wake(waiter) }]. *)
Fixpoint wake_each (ws : list waiter_ref) : comp Σ unit :=
  match ws with
  | [] => ret tt
  | w :: ws => wake w ≫= fun _ => wake_each ws
  end.

Definition notify_all : comp Σ unit :=
  selected ← call (Σ := Σ) RegistryTakeAll;
  wake_each selected.

End BlockingWaiter.
