(* ===== verification/GuardWait.v ===== *)
(** * [src/src/monitor/internal/blocking_monitor_guard_wait.rs]

    Releasing and reacquiring the state guard around one suspension. The guard
    lives in an [Option<G>] slot owned by the caller: the computations are
    [stateful] in that slot, so its last content is known even when they
    unwind. *)
From S2P Require Import Prelude Program WaitResult Primitives BlockingWaiter.

(** What the waiting code may do with a guard [G] over the state [T]: the
    [Deref]/[DerefMut] views and the drop glue, told whether the thread is
    unwinding. *)
Class MonitorGuard `{QubitClock} (T G : Type) : Type := {
  deref : G -> comp (MonitorSig T) T;
  deref_mut : G -> T -> comp (MonitorSig T) unit;
  drop_guard : G -> bool -> comp (MonitorSig T) unit
}.

Section GuardWait.
Context `{QubitClock} {T G : Type}.
Abbreviation Σ := (MonitorSig T).
Context (drop : G -> bool -> comp Σ unit).

(** [drop(guard.take().expect(missing_guard_message))]. *)
Definition release_guard (missing_guard_message : string) : stateful Σ (option G) unit :=
  slot ← read_var;
  _ ← assign None;
  guard ← lift (of_outcome (expect slot missing_guard_message));
  lift (drop guard false).

Definition wait_for_notification (missing_guard_message : string) (reacquire : comp Σ G)
    : stateful Σ (option G) unit :=
  registration ← lift register;
  _ ← scoped_in (fun _ => drop_registration registration)
        (_ ← release_guard missing_guard_message;
         lift (wait (waiter registration)));
  guard ← lift reacquire;
  assign (Some guard).

(** [result.map(|()| WaitTimeoutStatus::TimedOut)]. *)
Definition completed (result : Result unit TimeError) : Result WaitTimeoutStatus TimeError :=
  Result_map (fun _ => TimedOut) result.

(** The registration is dropped at its early return or, after the suspension,
    before the guard is reacquired. *)
Definition wait_with_timer (future : TimerFuture) (missing_guard_message : string)
    (reacquire : comp Σ G) : stateful Σ (option G) (Result WaitTimeoutStatus TimeError) :=
  first ← lift (poll_timer_without_waiter future);
  match first with
  | Ready result => ret (completed result)
  | Pending =>
      registration ← lift register;
      let waiter := waiter registration in
      early ← scoped_in (fun _ => drop_registration registration)
        (second ← lift (poll_timer waiter future);
         match second with
         | Ready result => ret (Some (completed result))
         | Pending =>
             _ ← release_guard missing_guard_message;
             _ ← lift (wait waiter);
             ret None
         end);
      match early with
      | Some status => ret status
      | None =>
          guard ← lift reacquire;
          _ ← assign (Some guard);
          last ← lift (poll_timer waiter future);
          match last with
          | Ready result => ret (completed result)
          | Pending => ret (Ok Woken)
          end
      end
  end.

End GuardWait.
