(* ===== verification/ConditionWait.v ===== *)
(** * [src/src/monitor/internal/blocking_condition_wait.rs]

    The backend-neutral predicate waits, over any guard type and any suspension
    operation. *)
From S2P Require Import Prelude Program WaitResult Primitives GuardWait.

Section ConditionWait.
Context `{QubitClock} {T G R : Type} `{!MonitorGuard T G}.
Abbreviation Σ := (MonitorSig T).

(** [waiting(&*guard)]. *)
Definition check (waiting : T -> comp Σ bool) : stateful Σ G bool :=
  guard ← read_var;
  s ← lift (deref guard);
  lift (waiting s).

(** [f(&mut *guard)]: what [f] wrote is in place even when it panics. *)
Definition apply_mut (f : stateful Σ T R) : stateful Σ G R :=
  guard ← read_var;
  s ← lift (deref guard);
  result ← run_on f s;
  _ ← lift (deref_mut guard result.1);
  lift (of_outcome result.2).

Definition wait_while_locked (guard : G) (waiting : T -> comp Σ bool) (f : stateful Σ T R)
    (wait : stateful Σ G unit) : comp Σ R :=
  scoped guard drop_guard
    (_ ← while (check waiting) wait;
     apply_mut f).

Definition wait_while_with_timer_locked (guard : G) (future : TimerFuture)
    (waiting : T -> comp Σ bool) (f : stateful Σ T R)
    (wait : TimerFuture -> stateful Σ G (Result WaitTimeoutStatus TimeError))
    : comp Σ (Result (WaitTimeoutResult R) TimeError) :=
  scoped guard drop_guard
    (loop
      (result ← wait future;
       match result with
       | Err e => ret (inr (Err e))
       | Ok status =>
           blocked ← check waiting;
           if negb blocked then
             (r ← apply_mut f; ret (inr (Ok (WaitReady r))))
           else if status_is_timed_out status then ret (inr (Ok WaitTimedOut))
           else ret (inl tt)
       end)).

(** The prefix of a timed wait ends with a result, or with the future of the
    fixed deadline and the guard to wait with. *)
Definition then_wait (waiting : T -> comp Σ bool) (f : stateful Σ T R)
    (wait : TimerFuture -> stateful Σ G (Result WaitTimeoutStatus TimeError))
    (step : Result (WaitTimeoutResult R) TimeError + TimerFuture) (guard : G)
    : comp Σ (Result (WaitTimeoutResult R) TimeError) :=
  match step with
  | inl result => drop_guard guard false ≫= fun _ => ret result
  | inr future => wait_while_with_timer_locked guard future waiting f wait
  end.

(** The budget starts after [lock] and before the first predicate check. *)
Definition wait_while_for (timer : Timer) (timeout : Duration) (lock : comp Σ G)
    (waiting : T -> comp Σ bool) (f : stateful Σ T R)
    (wait : TimerFuture -> stateful Σ G (Result WaitTimeoutStatus TimeError))
    : comp Σ (Result (WaitTimeoutResult R) TimeError) :=
  guard ← lock;
  owned guard drop_guard
    (started_at ← lift (call (Σ := Σ) (TimerClockNow timer));
     blocked ← check waiting;
     if negb blocked then
       (r ← apply_mut f; ret (inl (Ok (WaitReady r))))
     else if Duration_is_zero timeout then ret (inl (Ok WaitTimedOut))
     else
       match instant_checked_add started_at timeout with
       | Err e => ret (inl (Err e))
       | Ok deadline =>
           future ← lift (call (Σ := Σ) (TimerAt timer deadline));
           match future with
           | Err e => ret (inl (Err e))
           | Ok future => ret (inr future)
           end
       end)
    (then_wait waiting f wait).

Definition wait_while_with_deadline (timer : Timer) (deadline : MonotonicInstant)
    (lock : comp Σ G) (waiting : T -> comp Σ bool) (f : stateful Σ T R)
    (wait : TimerFuture -> stateful Σ G (Result WaitTimeoutStatus TimeError))
    : comp Σ (Result (WaitTimeoutResult R) TimeError) :=
  guard ← lock;
  owned guard drop_guard
    (blocked ← check waiting;
     if negb blocked then
       (r ← apply_mut f; ret (inl (Ok (WaitReady r))))
     else
       future ← lift (call (Σ := Σ) (TimerAt timer deadline));
       match future with
       | Err e => ret (inl (Err e))
       | Ok future =>
           first ← lift (BlockingWaiter.poll_timer_without_waiter future);
           match first with
           | Ready (Err e) => ret (inl (Err e))
           | Ready (Ok _) => ret (inl (Ok WaitTimedOut))
           | Pending => ret (inr future)
           end
       end)
    (then_wait waiting f wait).

End ConditionWait.
