(* ===== verification/StdMonitor.v ===== *)
(** * [src/src/monitor/std_monitor.rs] and [std_monitor_guard.rs]

    The two source files refer to each other and are one file here; the guard's
    methods carry the prefix [guard_]. The mutable parts of a monitor (state
    mutex, registry) are the shared objects of the signature, so a [StdMonitor]
    value is what a [&self] reference gives access to besides them: its timer. *)
From S2P Require Import Prelude Program WaitResult Primitives BlockingWaiter GuardWait ConditionWait.

Section StdMonitor.
Context `{QubitClock} {T : Type}.
Abbreviation Σ := (MonitorSig T).

Record StdMonitor : Type := MkStdMonitor { timer : Timer }.

Record StdMonitorGuard : Type := MkStdMonitorGuard {
  monitor : StdMonitor;
  inner : option MutexGuard
}.

Implicit Types self : StdMonitor.
Implicit Types guard : StdMonitorGuard.

Definition missing_guard : string := "standard monitor guard slot must be occupied".

(** Drop glue of [StdMonitorGuard]: its slot's content. *)
Definition drop_std_guard guard (panicking : bool) : comp Σ unit :=
  match inner guard with
  | Some g => drop_mutex_guard g panicking
  | None => ret tt
  end.

(** ** Notification ([StdMonitor]) *)
Definition notify_one self : comp Σ unit := BlockingWaiter.notify_one.

Definition notify_all self : comp Σ unit := BlockingWaiter.notify_all.

(** ** [StdMonitorGuard] *)
Definition guard_new (monitor : StdMonitor) (inner : MutexGuard) : StdMonitorGuard :=
  {| monitor := monitor; inner := Some inner |}.

(** [recover(monitor.state.lock())]. *)
Definition lock_state self : comp Σ MutexGuard :=
  result ← call (Σ := Σ) LockState;
  ret (recover result).

Definition on_inner {A} (m : stateful Σ (option MutexGuard) A) : stateful Σ StdMonitorGuard A :=
  zoom inner (fun guard slot => {| monitor := monitor guard; inner := slot |}) m.

Definition guard_deref guard : comp Σ T :=
  g ← of_outcome (expect (inner guard) missing_guard);
  call (Σ := Σ) (GetState g).

Definition guard_deref_mut guard (s : T) : comp Σ unit :=
  g ← of_outcome (expect (inner guard) missing_guard);
  call (Σ := Σ) (SetState g s).

#[export] Instance StdMonitorGuard_guard : MonitorGuard T StdMonitorGuard := {
  deref := guard_deref;
  deref_mut := guard_deref_mut;
  drop_guard := drop_std_guard
}.

Definition guard_notify_one guard : comp Σ unit :=
  scoped guard drop_std_guard
    (_ ← on_inner (release_guard drop_mutex_guard missing_guard);
     lift (notify_one (monitor guard))).

Definition guard_notify_all guard : comp Σ unit :=
  scoped guard drop_std_guard
    (_ ← on_inner (release_guard drop_mutex_guard missing_guard);
     lift (notify_all (monitor guard))).

Definition guard_wait : stateful Σ StdMonitorGuard unit :=
  guard ← read_var;
  on_inner (wait_for_notification drop_mutex_guard missing_guard (lock_state (monitor guard))).

Definition guard_wait_with_timer (future : TimerFuture)
    : stateful Σ StdMonitorGuard (Result WaitTimeoutStatus TimeError) :=
  guard ← read_var;
  on_inner (wait_with_timer drop_mutex_guard future missing_guard (lock_state (monitor guard))).

Definition guard_wait_for (timeout : Duration)
    : stateful Σ StdMonitorGuard (Result WaitTimeoutStatus TimeError) :=
  guard ← read_var;
  future ← lift (call (Σ := Σ) (TimerAfter (timer (monitor guard)) timeout));
  match future with
  | Err e => ret (Err e)
  | Ok future => guard_wait_with_timer future
  end.

Definition guard_wait_until (deadline : MonotonicInstant)
    : stateful Σ StdMonitorGuard (Result WaitTimeoutStatus TimeError) :=
  guard ← read_var;
  future ← lift (call (Σ := Σ) (TimerAt (timer (monitor guard)) deadline));
  match future with
  | Err e => ret (Err e)
  | Ok future => guard_wait_with_timer future
  end.

(** ** [StdMonitor] *)
Definition is_poisoned self : comp Σ bool := Primitives.is_poisoned.

Definition clear_poison self : comp Σ unit := Primitives.clear_poison.

Definition lock self : comp Σ StdMonitorGuard :=
  g ← lock_state self;
  ret (guard_new self g).

Definition with_read {R} self (f : T -> comp Σ R) : comp Σ R :=
  guard ← lock self;
  scoped guard drop_std_guard
    (s ← lift (guard_deref guard);
     lift (f s)).

Definition with_write {R} self (f : stateful Σ T R) : comp Σ R :=
  guard ← lock self;
  scoped guard drop_std_guard (apply_mut f).

(** [guard] is moved into [notify_one] when [f] returns. *)
Definition with_write_notify_one {R} self (f : stateful Σ T R) : comp Σ R :=
  guard ← lock self;
  owned guard drop_std_guard (apply_mut f)
    (fun result guard => guard_notify_one guard ≫= fun _ => ret result).

Definition with_write_notify_all {R} self (f : stateful Σ T R) : comp Σ R :=
  guard ← lock self;
  owned guard drop_std_guard (apply_mut f)
    (fun result guard => guard_notify_all guard ≫= fun _ => ret result).

Definition wait_while {R} self (waiting : T -> comp Σ bool) (f : stateful Σ T R) : comp Σ R :=
  guard ← lock self;
  wait_while_locked guard waiting f guard_wait.

(** [|state| !ready(state)]. *)
Definition negated (ready : T -> comp Σ bool) : T -> comp Σ bool := fun s =>
  b ← ready s;
  ret (negb b).

Definition wait_until {R} self (ready : T -> comp Σ bool) (f : stateful Σ T R) : comp Σ R :=
  wait_while self (negated ready) f.

(** [|_| ()]. *)
Definition no_action : stateful Σ T unit := fun s => Ret (s, Returned tt).

Definition wait_until_ready self (ready : T -> comp Σ bool) : comp Σ unit :=
  wait_until self ready no_action.

Definition wait_while_for {R} self (timeout : Duration) (waiting : T -> comp Σ bool)
    (f : stateful Σ T R) : comp Σ (Result (WaitTimeoutResult R) TimeError) :=
  ConditionWait.wait_while_for (timer self) timeout (lock self) waiting f guard_wait_with_timer.

Definition wait_while_with_deadline {R} self (deadline : MonotonicInstant)
    (waiting : T -> comp Σ bool) (f : stateful Σ T R)
    : comp Σ (Result (WaitTimeoutResult R) TimeError) :=
  ConditionWait.wait_while_with_deadline (timer self) deadline (lock self) waiting f
    guard_wait_with_timer.

(** The deadline is fixed before the lock is acquired. *)
Definition wait_while_with_total_timeout {R} self (timeout : Duration)
    (waiting : T -> comp Σ bool) (f : stateful Σ T R)
    : comp Σ (Result (WaitTimeoutResult R) TimeError) :=
  try_bind (call (Σ := Σ) (TimerDeadlineAfter (timer self) timeout))
    (fun deadline => wait_while_with_deadline self deadline waiting f).

Definition wait_until_for {R} self (timeout : Duration) (ready : T -> comp Σ bool)
    (f : stateful Σ T R) : comp Σ (Result (WaitTimeoutResult R) TimeError) :=
  wait_while_for self timeout (negated ready) f.

Definition wait_until_with_total_timeout {R} self (timeout : Duration)
    (ready : T -> comp Σ bool) (f : stateful Σ T R)
    : comp Σ (Result (WaitTimeoutResult R) TimeError) :=
  wait_while_with_total_timeout self timeout (negated ready) f.

Definition wait_until_with_deadline {R} self (deadline : MonotonicInstant)
    (ready : T -> comp Σ bool) (f : stateful Σ T R)
    : comp Σ (Result (WaitTimeoutResult R) TimeError) :=
  wait_while_with_deadline self deadline (negated ready) f.

Definition wait_until_ready_for self (timeout : Duration) (ready : T -> comp Σ bool)
    : comp Σ (Result (WaitTimeoutResult unit) TimeError) :=
  wait_until_for self timeout ready no_action.

Definition wait_until_ready_with_total_timeout self (timeout : Duration)
    (ready : T -> comp Σ bool) : comp Σ (Result (WaitTimeoutResult unit) TimeError) :=
  wait_until_with_total_timeout self timeout ready no_action.

Definition wait_until_ready_with_deadline self (deadline : MonotonicInstant)
    (ready : T -> comp Σ bool) : comp Σ (Result (WaitTimeoutResult unit) TimeError) :=
  wait_until_with_deadline self deadline ready no_action.

End StdMonitor.
Arguments StdMonitor {_}.
Arguments StdMonitorGuard {_}.

(** A monitor on the concrete clock. *)
Definition test_monitor : @StdMonitor test_clock := @MkStdMonitor test_clock tt.
