(* ===== verification/ParkingLotMonitor.v ===== *)
(** * [src/src/monitor/parking_lot_monitor.rs] and [parking_lot_monitor_guard.rs]

    As in the source, the code is that of [StdMonitor.v] with the mutex of the
    [parking_lot] crate, which is never poisoned. Of that mutex the model uses
    that it excludes other owners: it is the state mutex of the signature, whose
    poison flag nobody reads. *)
From S2P Require Import Prelude Program WaitResult Primitives BlockingWaiter GuardWait ConditionWait.

Section ParkingLotMonitor.
Context `{QubitClock} {T : Type}.
Abbreviation Σ := (MonitorSig T).

Record ParkingLotMonitor : Type := MkParkingLotMonitor { timer : Timer }.

Record ParkingLotMonitorGuard : Type := MkParkingLotMonitorGuard {
  monitor : ParkingLotMonitor;
  inner : option MutexGuard
}.

Implicit Types self : ParkingLotMonitor.
Implicit Types guard : ParkingLotMonitorGuard.

Definition missing_guard : string := "parking-lot monitor guard slot must be occupied".

(** Drop glue of [ParkingLotMonitorGuard]: its slot's content. *)
Definition drop_parking_lot_guard guard (panicking : bool) : comp Σ unit :=
  match inner guard with
  | Some g => drop_mutex_guard g panicking
  | None => ret tt
  end.

(** ** Notification ([ParkingLotMonitor]) *)
Definition notify_one self : comp Σ unit := BlockingWaiter.notify_one.

Definition notify_all self : comp Σ unit := BlockingWaiter.notify_all.

(** ** [ParkingLotMonitorGuard] *)
Definition guard_new (monitor : ParkingLotMonitor) (inner : MutexGuard) : ParkingLotMonitorGuard :=
  {| monitor := monitor; inner := Some inner |}.

(** [monitor.state.lock()] returns the guard itself. *)
Definition lock_state self : comp Σ MutexGuard :=
  result ← call (Σ := Σ) LockState;
  ret (match result with Ok guard => guard | Err poisoned => into_inner poisoned end).

Definition on_inner {A} (m : stateful Σ (option MutexGuard) A) : stateful Σ ParkingLotMonitorGuard A :=
  zoom inner (fun guard slot => {| monitor := monitor guard; inner := slot |}) m.

Definition guard_deref guard : comp Σ T :=
  g ← of_outcome (expect (inner guard) missing_guard);
  call (Σ := Σ) (GetState g).

Definition guard_deref_mut guard (s : T) : comp Σ unit :=
  g ← of_outcome (expect (inner guard) missing_guard);
  call (Σ := Σ) (SetState g s).

#[export] Instance ParkingLotMonitorGuard_guard : MonitorGuard T ParkingLotMonitorGuard := {
  deref := guard_deref;
  deref_mut := guard_deref_mut;
  drop_guard := drop_parking_lot_guard
}.

Definition guard_notify_one guard : comp Σ unit :=
  scoped guard drop_parking_lot_guard
    (_ ← on_inner (release_guard drop_mutex_guard missing_guard);
     lift (notify_one (monitor guard))).

Definition guard_notify_all guard : comp Σ unit :=
  scoped guard drop_parking_lot_guard
    (_ ← on_inner (release_guard drop_mutex_guard missing_guard);
     lift (notify_all (monitor guard))).

Definition guard_wait : stateful Σ ParkingLotMonitorGuard unit :=
  guard ← read_var;
  on_inner (wait_for_notification drop_mutex_guard missing_guard (lock_state (monitor guard))).

Definition guard_wait_with_timer (future : TimerFuture)
    : stateful Σ ParkingLotMonitorGuard (Result WaitTimeoutStatus TimeError) :=
  guard ← read_var;
  on_inner (wait_with_timer drop_mutex_guard future missing_guard (lock_state (monitor guard))).

Definition guard_wait_for (timeout : Duration)
    : stateful Σ ParkingLotMonitorGuard (Result WaitTimeoutStatus TimeError) :=
  guard ← read_var;
  future ← lift (call (Σ := Σ) (TimerAfter (timer (monitor guard)) timeout));
  match future with
  | Err e => ret (Err e)
  | Ok future => guard_wait_with_timer future
  end.

Definition guard_wait_until (deadline : MonotonicInstant)
    : stateful Σ ParkingLotMonitorGuard (Result WaitTimeoutStatus TimeError) :=
  guard ← read_var;
  future ← lift (call (Σ := Σ) (TimerAt (timer (monitor guard)) deadline));
  match future with
  | Err e => ret (Err e)
  | Ok future => guard_wait_with_timer future
  end.

(** ** [ParkingLotMonitor] *)
Definition lock self : comp Σ ParkingLotMonitorGuard :=
  g ← lock_state self;
  ret (guard_new self g).

Definition with_read {R} self (f : T -> comp Σ R) : comp Σ R :=
  guard ← lock self;
  scoped guard drop_parking_lot_guard
    (s ← lift (guard_deref guard);
     lift (f s)).

Definition with_write {R} self (f : stateful Σ T R) : comp Σ R :=
  guard ← lock self;
  scoped guard drop_parking_lot_guard (apply_mut f).

(** [guard] is moved into [notify_one] when [f] returns. *)
Definition with_write_notify_one {R} self (f : stateful Σ T R) : comp Σ R :=
  guard ← lock self;
  owned guard drop_parking_lot_guard (apply_mut f)
    (fun result guard => guard_notify_one guard ≫= fun _ => ret result).

Definition with_write_notify_all {R} self (f : stateful Σ T R) : comp Σ R :=
  guard ← lock self;
  owned guard drop_parking_lot_guard (apply_mut f)
    (fun result guard => guard_notify_all guard ≫= fun _ => ret result).

Definition wait_while {R} self (waiting : T -> comp Σ bool) (f : stateful Σ T R) : comp Σ R :=
  guard ← lock self;
  wait_while_locked guard waiting f guard_wait.

(** [|state| !ready(state)]. *)
Definition negated (ready : T -> comp Σ bool) : T -> comp Σ bool := fun s =>
  b ← ready s;
  ret (negb b).

Definition wait_until {R} self (ready : T -> comp Σ bool) (f : stateful Σ T R) : comp Σ R :=
  wait_while self (negated ready) f.

(** [|_| ()]. *)
Definition no_action : stateful Σ T unit := fun s => Ret (s, Returned tt).

Definition wait_until_ready self (ready : T -> comp Σ bool) : comp Σ unit :=
  wait_until self ready no_action.

Definition wait_while_for {R} self (timeout : Duration) (waiting : T -> comp Σ bool)
    (f : stateful Σ T R) : comp Σ (Result (WaitTimeoutResult R) TimeError) :=
  ConditionWait.wait_while_for (timer self) timeout (lock self) waiting f guard_wait_with_timer.

Definition wait_while_with_deadline {R} self (deadline : MonotonicInstant)
    (waiting : T -> comp Σ bool) (f : stateful Σ T R)
    : comp Σ (Result (WaitTimeoutResult R) TimeError) :=
  ConditionWait.wait_while_with_deadline (timer self) deadline (lock self) waiting f
    guard_wait_with_timer.

(** The deadline is fixed before the lock is acquired. *)
Definition wait_while_with_total_timeout {R} self (timeout : Duration)
    (waiting : T -> comp Σ bool) (f : stateful Σ T R)
    : comp Σ (Result (WaitTimeoutResult R) TimeError) :=
  try_bind (call (Σ := Σ) (TimerDeadlineAfter (timer self) timeout))
    (fun deadline => wait_while_with_deadline self deadline waiting f).

Definition wait_until_for {R} self (timeout : Duration) (ready : T -> comp Σ bool)
    (f : stateful Σ T R) : comp Σ (Result (WaitTimeoutResult R) TimeError) :=
  wait_while_for self timeout (negated ready) f.

Definition wait_until_with_total_timeout {R} self (timeout : Duration)
    (ready : T -> comp Σ bool) (f : stateful Σ T R)
    : comp Σ (Result (WaitTimeoutResult R) TimeError) :=
  wait_while_with_total_timeout self timeout (negated ready) f.

Definition wait_until_with_deadline {R} self (deadline : MonotonicInstant)
    (ready : T -> comp Σ bool) (f : stateful Σ T R)
    : comp Σ (Result (WaitTimeoutResult R) TimeError) :=
  wait_while_with_deadline self deadline (negated ready) f.

Definition wait_until_ready_for self (timeout : Duration) (ready : T -> comp Σ bool)
    : comp Σ (Result (WaitTimeoutResult unit) TimeError) :=
  wait_until_for self timeout ready no_action.

Definition wait_until_ready_with_total_timeout self (timeout : Duration)
    (ready : T -> comp Σ bool) : comp Σ (Result (WaitTimeoutResult unit) TimeError) :=
  wait_until_with_total_timeout self timeout ready no_action.

Definition wait_until_ready_with_deadline self (deadline : MonotonicInstant)
    (ready : T -> comp Σ bool) : comp Σ (Result (WaitTimeoutResult unit) TimeError) :=
  wait_until_with_deadline self deadline ready no_action.

End ParkingLotMonitor.
Arguments ParkingLotMonitor {_}.
Arguments ParkingLotMonitorGuard {_}.

(** A monitor on the concrete clock. *)
Definition test_parking_lot_monitor : @ParkingLotMonitor test_clock := @MkParkingLotMonitor test_clock tt.
