(* ===== verification/World.v ===== *)
(** * The machine a monitor runs on

    One monitor shared by any number of threads. [handle] gives every primitive
    of [Primitives.v] its effect on the shared state, or refuses the call while
    it would block; [step_thread] lets one thread make its next call. Timer and
    clock answers come from the environment, and a [Waker] held by a timer may
    signal any allocated waiter at any time ([step_wake]). *)
From S2P Require Import Prelude Program WaiterRegistry Primitives BlockingWaiter StdMonitor.

Section World.
Context `{QubitClock} {T : Type}.
Abbreviation Σ := (MonitorSig T).

(** The fields of [StdMonitor] that change, and the waiter allocations. *)
Record world : Type := MkWorld {
  state_value : T;
  state_owner : option nat;
  state_poisoned : bool;
  registry : WaiterRegistry waiter_ref;
  signalled : gmap waiter_ref bool;
  next_waiter : waiter_ref
}.

(** The shared parts of a new monitor. *)
Definition fresh_world (state : T) : world :=
  {| state_value := state; state_owner := None; state_poisoned := false;
     registry := WaiterRegistry.new; signalled := ∅; next_waiter := 0 |}.

(** [StdMonitor::with_timer]. *)
Definition with_timer (state : T) (timer : Timer) : StdMonitor * world :=
  ({| timer := timer |}, fresh_world state).

Definition set_value (w : world) (s : T) : world :=
  {| state_value := s; state_owner := state_owner w; state_poisoned := state_poisoned w;
     registry := registry w; signalled := signalled w; next_waiter := next_waiter w |}.

Definition set_lock (w : world) (owner : option nat) (poisoned : bool) : world :=
  {| state_value := state_value w; state_owner := owner; state_poisoned := poisoned;
     registry := registry w; signalled := signalled w; next_waiter := next_waiter w |}.

Definition set_registry (w : world) (r : WaiterRegistry waiter_ref) : world :=
  {| state_value := state_value w; state_owner := state_owner w; state_poisoned := state_poisoned w;
     registry := r; signalled := signalled w; next_waiter := next_waiter w |}.

Definition set_signalled (w : world) (m : gmap waiter_ref bool) (n : waiter_ref) : world :=
  {| state_value := state_value w; state_owner := state_owner w; state_poisoned := state_poisoned w;
     registry := registry w; signalled := m; next_waiter := n |}.

(** Answers of the clock and the timer. *)
Definition answers : Type := forall e : monitor_op T, monitor_resp e.

Definition handle (t : nat) (w : world) (o : answers) (e : monitor_op T)
    : option (monitor_resp e * world) :=
  match e return option (monitor_resp e * world) with
  | LockState =>
      match state_owner w with
      | None =>
          Some (if state_poisoned w then Err (MkPoisonError TheGuard) else Ok TheGuard,
                set_lock w (Some t) (state_poisoned w))
      | Some _ => None
      end
  | UnlockState _ panicking =>
      if decide (state_owner w = Some t)
      then Some (tt, set_lock w None (state_poisoned w || panicking)) else None
  | GetState _ =>
      if decide (state_owner w = Some t) then Some (state_value w, w) else None
  | SetState _ s =>
      if decide (state_owner w = Some t) then Some (tt, set_value w s) else None
  | StateIsPoisoned => Some (state_poisoned w, w)
  | StateClearPoison => Some (tt, set_lock w (state_owner w) false)
  | NewWaiter =>
      Some (next_waiter w,
            set_signalled w (<[next_waiter w := false]> (signalled w)) (S (next_waiter w)))
  | SignalWaiter l => Some (tt, set_signalled w (<[l := true]> (signalled w)) (next_waiter w))
  | AwaitSignal l => if decide (signalled w !! l = Some true) then Some (tt, w) else None
  | AwaitPoint => Some (o AwaitPoint, w)
  | PollSignal l => Some (bool_decide (signalled w !! l = Some true), w)
  | Park l => if decide (signalled w !! l = Some true) then Some (tt, w) else None
  | RegistryRegister l =>
      let '(r, id) := WaiterRegistry.register (registry w) l in Some (id, set_registry w r)
  | RegistryTakeOne =>
      let '(r, l) := take_one (registry w) in Some (l, set_registry w r)
  | RegistryTakeAll =>
      let '(r, ls) := take_all (registry w) in Some (ls, set_registry w r)
  | RegistryUnregister id =>
      let '(r, l) := WaiterRegistry.unregister (registry w) id in Some (l, set_registry w r)
  | TimerClockNow tm => Some (o (TimerClockNow tm), w)
  | TimerDeadlineAfter tm d => Some (o (TimerDeadlineAfter tm d), w)
  | TimerAt tm d => Some (o (TimerAt tm d), w)
  | TimerAfter tm d => Some (o (TimerAfter tm d), w)
  | TimerPoll f wk => Some (o (TimerPoll f wk), w)
  end.

(** ** Threads

    A thread runs a list of tasks one after the other; a panic ends it. A task
    names the predicate under which it may suspend (a ghost annotation: it does
    not influence the execution). *)
Record task : Type := MkTask { task_code : comp Σ unit; task_waits : T -> bool }.

Inductive thread : Type :=
| Running (code : prog Σ (outcome unit)) (waits : T -> bool) (todo : list task)
| Finished (o : outcome unit).

Record config : Type := MkConfig { shared : world; threads : list thread }.

Definition step_thread (t : nat) (o : answers) (c : config) : option config :=
  match threads c !! t with
  | Some (Running code waits todo) =>
      let update th w := MkConfig w (<[t := th]> (threads c)) in
      match next code with
      | HRet (Returned _) =>
          match todo with
          | [] => Some (update (Finished (Returned tt)) (shared c))
          | tk :: todo => Some (update (Running (task_code tk) (task_waits tk) todo) (shared c))
          end
      | HRet (Unwinding cause) => Some (update (Finished (Unwinding cause)) (shared c))
      | HTau p => Some (update (Running p waits todo) (shared c))
      | HVis e k =>
          match handle t (shared c) o e with
          | Some (r, w) => Some (update (Running (k r) waits todo) w)
          | None => None
          end
      end
  | _ => None
  end.

(** An executor may poll a parked task at any time, for instance because its
    timer is due. *)
Definition repoll_thread (t : nat) (c : config) : option config :=
  match threads c !! t with
  | Some (Running code waits todo) =>
      match next code with
      | HVis e k =>
          match e as e return (monitor_resp e -> prog Σ (outcome unit)) -> option config with
          | Park _ => fun k => Some (MkConfig (shared c) (<[t := Running (k tt) waits todo]> (threads c)))
          | _ => fun _ => None
          end k
      | _ => None
      end
  | _ => None
  end.

Inductive step : config -> config -> Prop :=
| step_run t o c c' : step_thread t o c = Some c' -> step c c'
| step_wake l c :
    l < next_waiter (shared c) ->
    step c (MkConfig (set_signalled (shared c) (<[l := true]> (signalled (shared c)))
                        (next_waiter (shared c))) (threads c))
| step_repoll t c c' : repoll_thread t c = Some c' -> step c c'.

(** All threads start with their whole list of tasks. *)
Definition initial (state : T) (timer : Timer) (tasks : list (list task)) : config :=
  {| shared := (with_timer state timer).2;
     threads := List.map (fun todo => Running (Ret (Returned tt)) (fun _ => false) todo) tasks |}.

Definition reachable (state : T) (timer : Timer) (tasks : list (list task)) : config -> Prop :=
  rtc step (initial state timer tasks).

(** No thread can move, whatever the timer answers. *)
Definition stuck (c : config) : Prop := forall t o, step_thread t o c = None.

(** A scheduler for concrete runs: the listed threads move in turn, a thread that
    cannot move is skipped. *)
Fixpoint run_schedule (o : answers) (ts : list nat) (c : config) : config :=
  match ts with
  | [] => c
  | t :: ts => run_schedule o ts (default c (step_thread t o c))
  end.

Lemma run_schedule_steps o ts c : rtc step c (run_schedule o ts c).
Proof.
  revert c. induction ts as [|t ts IH]; intros c; simpl; [apply rtc_refl|].
  destruct (step_thread t o c) eqn:Hst; simpl; [|apply IH].
  eapply rtc_l; [by eapply step_run|apply IH].
Qed.

End World.
Arguments world T : clear implicits.
Arguments config {_} T.
Arguments task {_} T.
Arguments thread {_} T.
Arguments answers {_} T.

(** Answers of [test_clock] at a fixed instant: a future is ready once its
    deadline is reached. ([s0] stands for the answers that [handle] gives
    itself.) *)
Definition test_answers {T} (s0 : T) (now : Z) : @answers test_clock T :=
  fun e : @monitor_op test_clock T =>
  match e as e return @monitor_resp test_clock T e with
  | LockState => Ok TheGuard
  | UnlockState _ _ | SetState _ _ | StateClearPoison | SignalWaiter _ | AwaitSignal _ | Park _ => tt
  | AwaitPoint | PollSignal _ => false
  | GetState _ => s0
  | StateIsPoisoned => false
  | NewWaiter => 0
  | RegistryRegister _ => Returned 1%Z
  | RegistryTakeOne | RegistryUnregister _ => None
  | RegistryTakeAll => []
  | TimerClockNow _ => now
  | TimerDeadlineAfter _ d | TimerAfter _ d => @instant_checked_add test_clock now d
  | TimerAt _ deadline => Ok deadline
  | TimerPoll future _ => if Z.leb future now then Ready (Ok tt) else Pending
  end.
