(* ===== verification/TokioMonitor.v ===== *)
(** * [src/src/monitor/tokio_monitor.rs] and its waiters

    The asynchronous monitor, with [internal/tokio_condition_waiter.rs] and
    [internal/tokio_condition_waiter_registration.rs]. The body of a future is a
    program of the task that polls it. An await of the code that may suspend
    first passes an [AwaitPoint], where the future may be dropped: the program
    then leaves all its scopes with [Cancelled]. A local variable that is moved
    out and assigned again ([guard]) is an option, its drop flag. Of the mutex of
    [tokio] the model uses that it excludes other owners, and of its [Notify]
    that a notification of a waiter that does not wait yet is kept for it. *)
From S2P Require Import Prelude Program WaitResult Primitives GuardWait ConditionWait World.

Section TokioMonitor.
Context `{QubitClock} {T : Type}.
Abbreviation Σ := (MonitorSig T).

(** ** Awaiting *)

(** Suspends, or is dropped instead. *)
Definition await_point : comp Σ unit :=
  dropped ← call (Σ := Σ) AwaitPoint;
  if dropped : bool then Ret (Unwinding Cancelled) else ret tt.

(** [poll_fn(poll).await]: after a pending poll the task is parked until the
    waiter's signal, its timer or its executor makes it poll again. (A task polls
    with its own waker: [TimerPoll] then names no waiter.) *)
Definition poll_fn {A} (waiter : waiter_ref) (poll : comp Σ (Poll A)) : comp Σ A :=
  Loop (fun _ : unit =>
    Bind (ready ← poll;
          match ready with
          | Ready a => ret (Some a)
          | Pending => _ ← await_point; _ ← call (Σ := Σ) (Park waiter); ret None
          end)
      (fun o => Ret match o with
                    | Returned (Some a) => inr (Returned a)
                    | Returned None => inl tt
                    | Unwinding c => inr (Unwinding c)
                    end)) tt.

(** ** [TokioConditionWaiter] and its [Notify] *)
Definition TokioConditionWaiter_new : comp Σ waiter_ref := call (Σ := Σ) NewWaiter.

(** [waiter.signal().notify_one()]. *)
Definition notify_signal (waiter : waiter_ref) : comp Σ unit := call (Σ := Σ) (SignalWaiter waiter).

(** [waiter.signal().notified().await]. *)
Definition notified (waiter : waiter_ref) : comp Σ unit :=
  _ ← await_point;
  call (Σ := Σ) (AwaitSignal waiter).

(** ** [TokioConditionWaiterRegistration] *)
Record TokioConditionWaiterRegistration : Type := MkTokioRegistration {
  waiter_id : Z;
  waiter : waiter_ref
}.

Definition drop_tokio_registration (self : TokioConditionWaiterRegistration) : comp Σ unit :=
  _ ← call (Σ := Σ) (RegistryUnregister (waiter_id self)); ret tt.

(** The deadline is polled first. *)
Definition wait_until_signalled_or_deadline (self : TokioConditionWaiterRegistration)
    (deadline : TimerFuture) : comp Σ (Result WaitTimeoutStatus TimeError) :=
  poll_fn (waiter self)
    (result ← call (Σ := Σ) (TimerPoll deadline None);
     match result with
     | Ready result => ret (Ready (Result_map (fun _ => TimedOut) result))
     | Pending =>
         signalled ← call (Σ := Σ) (PollSignal (waiter self));
         ret (if signalled : bool then Ready (Ok Woken) else Pending)
     end).

(** ** The local variable [guard] *)
Definition moved_out : string := "moved out".

Definition drop_local (guard : option MutexGuard) (panicking : bool) : comp Σ unit :=
  match guard with Some g => drop_mutex_guard g panicking | None => ret tt end.

#[export] Instance local_guard : MonitorGuard T (option MutexGuard) := {
  deref guard := g ← of_outcome (expect guard moved_out); call (Σ := Σ) (GetState g);
  deref_mut guard s := g ← of_outcome (expect guard moved_out); call (Σ := Σ) (SetState g s);
  drop_guard := drop_local
}.

(** [drop(guard)]. *)
Definition move_out : stateful Σ (option MutexGuard) unit := release_guard drop_mutex_guard moved_out.

(** ** [TokioMonitor] *)
Record TokioMonitor : Type := MkTokioMonitor { timer : Timer }.
Implicit Types self : TokioMonitor.

Definition with_timer (state : T) (timer : Timer) : TokioMonitor * world T :=
  ({| timer := timer |}, fresh_world state).

(** [captured] is what [TokioTimer::try_current()] does: the timer of the entered
    runtime, an error, or a panic. *)
Definition try_current {E} (captured : outcome (Result Timer E)) (state : T)
    : outcome (Result (TokioMonitor * world T) E) :=
  outcome_map (Result_map (fun timer => with_timer state timer)) captured.

(** [display] writes the error. *)
Definition current {E} (display : E -> string) (captured : outcome (Result Timer E)) (state : T)
    : outcome (TokioMonitor * world T) :=
  match try_current captured state with
  | Returned (Ok monitor) => Returned monitor
  | Returned (Err error) => Unwinding (Panic (String.append "cannot create Tokio monitor: " (display error)))
  | Unwinding cause => Unwinding cause
  end.

(** [self.state.lock().await]. *)
Definition lock_async self : comp Σ MutexGuard :=
  _ ← await_point;
  result ← call (Σ := Σ) LockState;
  ret (match result with Ok guard => guard | Err poisoned => into_inner poisoned end).

Definition with_read_async {R} self (f : T -> comp Σ R) : comp Σ R :=
  guard ← lock_async self;
  scoped (Some guard) drop_local
    (guard ← read_var;
     s ← lift (deref guard);
     lift (f s)).

Definition with_write_async {R} self (f : stateful Σ T R) : comp Σ R :=
  guard ← lock_async self;
  scoped (Some guard) drop_local (apply_mut f).

Definition notify_one self : comp Σ unit :=
  selected ← call (Σ := Σ) RegistryTakeOne;
  match selected with
  | Some waiter => notify_signal waiter
  | None => ret tt
  end.

(** [for waiter in waiters { waiter.signal().notify_one(); }]. *)
Fixpoint notify_each (waiters : list waiter_ref) : comp Σ unit :=
  match waiters with
  | [] => ret tt
  | waiter :: waiters => notify_signal waiter ≫= fun _ => notify_each waiters
  end.

Definition notify_all self : comp Σ unit :=
  waiters ← call (Σ := Σ) RegistryTakeAll;
  notify_each waiters.

Definition with_write_notify_one_async {R} self (f : stateful Σ T R) : comp Σ R :=
  result ← with_write_async self f;
  _ ← notify_one self;
  ret result.

Definition with_write_notify_all_async {R} self (f : stateful Σ T R) : comp Σ R :=
  result ← with_write_async self f;
  _ ← notify_all self;
  ret result.

Definition register_waiter self : comp Σ TokioConditionWaiterRegistration :=
  waiter ← TokioConditionWaiter_new;
  waiter_id ← call_outcome (Σ := Σ) (RegistryRegister waiter) id;
  ret {| waiter_id := waiter_id; waiter := waiter |}.

(** One poll, which never suspends. *)
Definition deadline_reached (deadline : TimerFuture) : comp Σ (Result bool TimeError) :=
  result ← call (Σ := Σ) (TimerPoll deadline None);
  ret match result with
      | Pending => Ok false
      | Ready result => Result_map (fun _ => true) result
      end.

(** ** Waits *)

(** The body of the [while]. *)
Definition await_notification self : stateful Σ (option MutexGuard) unit :=
  registration ← lift (register_waiter self);
  _ ← scoped_in (fun _ => drop_tokio_registration registration)
        (_ ← move_out;
         lift (notified (waiter registration)));
  guard ← lift (lock_async self);
  _ ← assign (Some guard);
  ret tt.

Definition wait_while_async {R} self (predicate : T -> comp Σ bool) (action : stateful Σ T R) : comp Σ R :=
  guard ← lock_async self;
  scoped (Some guard) drop_local
    (_ ← while (check predicate) (await_notification self);
     apply_mut action).

(** [|state| !predicate(state)]. *)
Definition not_predicate (predicate : T -> comp Σ bool) : T -> comp Σ bool := fun s =>
  b ← predicate s;
  ret (negb b).

Definition wait_until_async {R} self (predicate : T -> comp Σ bool) (action : stateful Σ T R) : comp Σ R :=
  wait_while_async self (not_predicate predicate) action.

Abbreviation Timed R := (Result (WaitTimeoutResult R) TimeError).

(** The loop that both timed waits end with. *)
Definition deadline_loop {R} self (deadline : TimerFuture) (predicate : T -> comp Σ bool)
    (action : stateful Σ T R) : stateful Σ (option MutexGuard) (Timed R) :=
  loop
    (registration ← lift (register_waiter self);
     status ← scoped_in (fun _ => drop_tokio_registration registration)
                (_ ← move_out;
                 lift (wait_until_signalled_or_deadline registration deadline));
     guard ← lift (lock_async self);
     _ ← assign (Some guard);
     match status with
     | Err e => ret (inr (Err e))
     | Ok status =>
         reached ← (if status_is_timed_out status then ret (Ok true)
                    else lift (deadline_reached deadline));
         match reached with
         | Err e => ret (inr (Err e))
         | Ok reached =>
             blocked ← check predicate;
             if negb blocked then
               (r ← apply_mut action; ret (inr (Ok (WaitReady r))))
             else if reached : bool then ret (inr (Ok WaitTimedOut))
             else ret (inl tt)
         end
     end).

Definition wait_while_with_deadline_async {R} self (deadline_at : MonotonicInstant)
    (predicate : T -> comp Σ bool) (action : stateful Σ T R) : comp Σ (Timed R) :=
  guard ← lock_async self;
  scoped (Some guard) drop_local
    (blocked ← check predicate;
     if negb blocked then (r ← apply_mut action; ret (Ok (WaitReady r)))
     else
       deadline ← lift (call (Σ := Σ) (TimerAt (timer self) deadline_at));
       match deadline with
       | Err e => ret (Err e)
       | Ok deadline =>
           reached ← lift (deadline_reached deadline);
           match reached with
           | Err e => ret (Err e)
           | Ok true => ret (Ok WaitTimedOut)
           | Ok false => deadline_loop self deadline predicate action
           end
       end).

Definition wait_while_for_async {R} self (timeout : Duration)
    (predicate : T -> comp Σ bool) (action : stateful Σ T R) : comp Σ (Timed R) :=
  guard ← lock_async self;
  scoped (Some guard) drop_local
    (started_at ← lift (call (Σ := Σ) (TimerClockNow (timer self)));
     blocked ← check predicate;
     if negb blocked then (r ← apply_mut action; ret (Ok (WaitReady r)))
     else if Duration_is_zero timeout then ret (Ok WaitTimedOut)
     else
       match instant_checked_add started_at timeout with
       | Err e => ret (Err e)
       | Ok deadline_at =>
           deadline ← lift (call (Σ := Σ) (TimerAt (timer self) deadline_at));
           match deadline with
           | Err e => ret (Err e)
           | Ok deadline => deadline_loop self deadline predicate action
           end
       end).

Definition wait_until_for_async {R} self (timeout : Duration)
    (predicate : T -> comp Σ bool) (action : stateful Σ T R) : comp Σ (Timed R) :=
  wait_while_for_async self timeout (not_predicate predicate) action.
End TokioMonitor.
Arguments TokioMonitor {_}.
