(* ===== verification/Constructors.v ===== *)
(** * Constructors of monitors, and [internal/default_timer.rs]

    [new], [From::from] and [Default::default] of the two blocking monitors, which
    share one timer per process. The static cell of that timer is a [OnceLock]:
    initializations exclude each other, so a call of [get_or_init] is a function
    of the cell. [StdTimer::new] belongs to [qubit_clock]; it may panic, and may
    change the domains of that crate. *)
From S2P Require Import Prelude WaitResult Primitives StdMonitor ParkingLotMonitor World TokioMonitor.

(** [OnceLock::get_or_init], where [init] also changes a state [D]: an empty cell
    stays empty when [init] panics. *)
Definition get_or_init {A D} (init : D -> outcome A * D) (cell : option A) (d : D) : outcome A * (option A * D) :=
  match cell with
  | Some a => (Returned a, (cell, d))
  | None =>
      match init d with
      | (Returned a, d) => (Returned a, (Some a, d))
      | (Unwinding cause, d) => (Unwinding cause, (None, d))
      end
  end.

Section Constructors.
Context `{QubitClock} {T D : Type}.
Context (StdTimer_new : D -> outcome Timer * D).

(** The process: the static [TIMER] and the domains of [qubit_clock]. *)
Record process : Type := MkProcess { TIMER : option Timer; clock_domains : D }.

Definition constructor (M : Type) : Type := process -> outcome (M * world T) * process.

Definition default_timer (p : process) : outcome Timer * process :=
  let '(timer, (cell, d)) := get_or_init StdTimer_new (TIMER p) (clock_domains p) in
  (timer, {| TIMER := cell; clock_domains := d |}).

(** [Self::with_timer(state, default_timer())]. *)
Definition with_default_timer {M} (with_timer : Timer -> M * world T) : constructor M := fun p =>
  let '(timer, p) := default_timer p in (outcome_map with_timer timer, p).

(** [Self::new(T::default())]; [default_state] is [T::default()]. *)
Definition of_default {M} (new : T -> constructor M) (default_state : outcome T) : constructor M := fun p =>
  match default_state with
  | Returned state => new state p
  | Unwinding cause => (Unwinding cause, p)
  end.

(** ** [StdMonitor] *)
Definition std_new (state : T) : constructor StdMonitor :=
  with_default_timer (fun timer => World.with_timer state timer).

Definition std_from (value : T) : constructor StdMonitor := std_new value.

Definition std_default (default_state : outcome T) : constructor StdMonitor := of_default std_new default_state.

Definition std_timer (self : StdMonitor) : Timer := StdMonitor.timer self.

(** ** [ParkingLotMonitor] *)
Definition parking_lot_with_timer (state : T) (timer : Timer) : ParkingLotMonitor * world T :=
  ({| ParkingLotMonitor.timer := timer |}, fresh_world state).

Definition parking_lot_new (state : T) : constructor ParkingLotMonitor :=
  with_default_timer (parking_lot_with_timer state).

Definition parking_lot_from (value : T) : constructor ParkingLotMonitor := parking_lot_new value.

Definition parking_lot_default (default_state : outcome T) : constructor ParkingLotMonitor :=
  of_default parking_lot_new default_state.

Definition parking_lot_timer (self : ParkingLotMonitor) : Timer := ParkingLotMonitor.timer self.

(** [TokioMonitor] has no default timer. *)
Definition tokio_timer (self : TokioMonitor) : Timer := TokioMonitor.timer self.

(** ** Histories of a process *)

(** The constructors with their arguments. *)
Inductive construction : Type :=
| StdNew (state : T)
| StdFrom (value : T)
| StdDefault (default_state : outcome T)
| ParkingLotNew (state : T)
| ParkingLotFrom (value : T)
| ParkingLotDefault (default_state : outcome T).

(** The initial state a construction asks for. *)
Definition initial (c : construction) : outcome T :=
  match c with
  | StdNew s | StdFrom s | ParkingLotNew s | ParkingLotFrom s => Returned s
  | StdDefault o | ParkingLotDefault o => o
  end.

Definition either : Type := StdMonitor + ParkingLotMonitor.

Definition timer_of (m : either) : Timer :=
  match m with inl m => std_timer m | inr m => parking_lot_timer m end.

Definition as_either {M} (f : M -> either) (built : outcome (M * world T) * process)
    : outcome (either * world T) * process :=
  (outcome_map (fun '(m, w) => (f m, w)) built.1, built.2).

Definition construct (c : construction) : constructor either := fun p =>
  match c with
  | StdNew s => as_either inl (std_new s p)
  | StdFrom s => as_either inl (std_from s p)
  | StdDefault o => as_either inl (std_default o p)
  | ParkingLotNew s => as_either inr (parking_lot_new s p)
  | ParkingLotFrom s => as_either inr (parking_lot_from s p)
  | ParkingLotDefault o => as_either inr (parking_lot_default o p)
  end.

Fixpoint construct_all (cs : list construction) (p : process) : list (outcome (either * world T)) * process :=
  match cs with
  | [] => ([], p)
  | c :: cs =>
      let '(o, p) := construct c p in
      let '(os, p) := construct_all cs p in (o :: os, p)
  end.

(** One construction: a process that has a timer keeps it, a monitor is fresh and
    has the timer of the process, and a failure comes from the state or from the
    first timer. *)
Lemma construct_spec c p o p' : construct c p = (o, p') ->
  (TIMER p <> None -> p' = p) /\
  match o with
  | Returned (m, w) =>
      TIMER p' = Some (timer_of m) /\ exists s, initial c = Returned s /\ w = fresh_world s
  | Unwinding cause =>
      TIMER p' = TIMER p /\
      (initial c = Unwinding cause \/
       (exists s, initial c = Returned s) /\ TIMER p = None /\ exists d, (StdTimer_new d).1 = Unwinding cause)
  end.
Proof.
  destruct p as [[t|] d], c as [s|s|[s|e]|s|s|[s|e]]; cbv -[fresh_world fst not];
    try destruct (StdTimer_new d) as [[?|?] ?] eqn:E; intros [= <- <-];
    (split; [by intros|]); naive_solver (by rewrite ?E).
Qed.

(** C28: The constructors of blocking monitors, in any order and any number, over
    the cell of the default timer. A process that has a default timer keeps it and
    creates no other. Every monitor that is built has the timer the process ends
    with, whatever its type and constructor, so all of them share one, and its
    state is the one asked for, with a free lock and no waiters. A construction
    fails only when [T::default()] panics, or when the timer cannot be created,
    and then no construction before it has succeeded. *)
Theorem default_timer_is_shared cs p os p' :
  construct_all cs p = (os, p') ->
  length os = length cs /\
  (TIMER p <> None -> p' = p) /\
  forall i o, os !! i = Some o -> exists c, cs !! i = Some c /\
    match o with
    | Returned (m, w) =>
        TIMER p' = Some (timer_of m) /\ exists s, initial c = Returned s /\ w = fresh_world s
    | Unwinding cause =>
        initial c = Unwinding cause \/
        (exists s, initial c = Returned s) /\ (exists d, (StdTimer_new d).1 = Unwinding cause) /\
        TIMER p = None /\ forall j o', j < i -> os !! j = Some o' -> exists cause', o' = Unwinding cause'
    end.
Proof.
  revert p os p'. induction cs as [|c cs IH]; intros p os p'; simpl; [by intros [= <- <-]|].
  destruct (construct c p) as [o p1] eqn:E1, (construct_all cs p1) as [os1 p2] eqn:E2. intros [= <- <-].
  apply construct_spec in E1 as [Hkeep Ho]. apply IH in E2 as (Hlen & Hkeep1 & Hos).
  split; [by simpl; f_equal|]. split; [intros Ht; rewrite Hkeep1, Hkeep; [done|done|by rewrite Hkeep]|].
  intros [|i] o1; simpl; intros Hi.
  - simplify_eq. exists c. split; [done|]. destruct o1 as [[m w]|cause].
    + destruct Ho as [Ht Hs]. split; [by rewrite Hkeep1; [|rewrite Ht]|done].
    + destruct Ho as [_ [?|(? & ? & ?)]]; [by left|right]. split_and!; [done|done|done|lia].
  - destruct (Hos i o1 Hi) as (c1 & Hc1 & Hm). exists c1. split; [done|]. destruct o1 as [[m w]|cause]; [done|].
    destruct Hm as [?|(? & ? & Hp1 & Hj)]; [by left|right].
    destruct o as [[m w]|cause0]; [by destruct Ho as [Ht _]; rewrite Ht in Hp1|].
    split_and!; [done|done|by destruct Ho as [<- _]|].
    intros [|j] o' Hlt; simpl; [intros [= <-]; eauto|]. apply Hj. lia.
Qed.
End Constructors.
Arguments process {_} D.

(** ** A closed run: the first timer cannot be created, the second can *)
Definition numbered_timers : QubitClock := {|
  MonotonicInstant := Z; TimeError := unit; TimerFuture := Z; Timer := nat;
  instant_checked_add := fun i d => Ok (i + secs d)%Z
|}.
#[local] Existing Instance numbered_timers.

Definition second_attempt (d : nat) : outcome Timer * nat :=
  (match d with 0 => Unwinding (Panic "clock domains exhausted") | _ => Returned d end, S d).

Definition some_constructions : list (construction (T := bool)) :=
  [StdNew true; StdDefault (Unwinding (Panic "no default")); ParkingLotFrom false; StdNew true; ParkingLotDefault (Returned true)].

Example default_timer_is_shared_witness :
  let '(os, p') := construct_all second_attempt some_constructions {| TIMER := None; clock_domains := 0 |} in
  p' = {| TIMER := Some 1; clock_domains := 2 |} /\
  exists m w, os !! 4 = Some (Returned (m, w)) /\ TIMER p' = Some (timer_of m).
Proof.
  destruct (construct_all second_attempt some_constructions {| TIMER := None; clock_domains := 0 |}) as [os p'] eqn:E.
  destruct (default_timer_is_shared second_attempt some_constructions _ os p' E) as (_ & _ & Hos).
  vm_compute in E. injection E as <- <-. split; [reflexivity|].
  destruct (Hos 4 _ eq_refl) as (c & _ & Ht & _). by eexists _, _.
Defined.
