(* ===== verification/Protocol.v ===== *)
(** * The monitor protocol

    What a thread that uses a monitor correctly may do next, as [rules] of the
    logic of [Program.v]: it touches the state only under the lock, registers
    before it releases the lock, suspends only on a waiter it registered while
    the predicate blocked, unregisters before it locks again, and delivers every
    notification it selected. Ghost state [local] is per thread. The rules are
    parametric in the family [W] of predicates threads wait on, and in a state
    invariant [J] that every write keeps. *)
From S2P Require Import Prelude Program Primitives.

Section Protocol.
Context `{QubitClock} {T : Type}.
Abbreviation Σ := (MonitorSig T).
Context (W : (T -> bool) -> Prop) (J : T -> Prop).

(** A write that unblocks no predicate of the family. *)
Definition harmless (s s' : T) : Prop := forall w, W w -> w s = true -> w s' = true.

Inductive slot_state : Type :=
| NoSlot
| Fresh (l : waiter_ref)
| Registered (l : waiter_ref) (id : Z).

(** [held]: whether the thread owns the state lock, and the state's value if it
    has looked. [pend]: selected waiters it still has to signal. [debt]: it has
    unblocked some predicate and not yet notified all. *)
Record local : Type := MkLocal {
  held : option (option T);
  slot : slot_state;
  pend : list waiter_ref;
  debt : Prop
}.

Definition slot_loc (s : slot_state) : option waiter_ref :=
  match s with NoSlot => None | Fresh l | Registered l _ => Some l end.

Definition Out (d : Prop) : local := MkLocal None NoSlot [] d.
Definition Holding (k : option T) (d : Prop) : local := MkLocal (Some k) NoSlot [] d.

(** Between two operations, with nothing owed. *)
Definition settled (l : local) : Prop :=
  held l = None /\ slot l = NoSlot /\ pend l = [] /\ ~ debt l.

Definition may (waits : T -> bool) (l : local) (e : monitor_op T) : Prop :=
  match e with
  | LockState => held l = None /\ slot l = NoSlot /\ pend l = []
  | UnlockState _ _ =>
      is_Some (held l) /\ pend l = [] /\
      match slot l with
      | NoSlot => True
      | Fresh _ => False
      | Registered _ _ => ~ debt l /\ exists s, held l = Some (Some s) /\ waits s = true
      end
  | GetState _ => is_Some (held l)
  | SetState _ s => is_Some (held l) /\ J s
  | NewWaiter => slot l = NoSlot
  | RegistryRegister w => slot l = Fresh w /\ is_Some (held l)
  | RegistryUnregister id => exists w, slot l = Registered w id
  | AwaitSignal w =>
      held l = None /\ pend l = [] /\ ~ debt l /\ exists id, slot l = Registered w id
  | Park w =>
      held l = None /\ pend l = [] /\ ~ debt l /\ exists id, slot l = Registered w id
  | AwaitPoint | PollSignal _ => True
  | RegistryTakeOne | RegistryTakeAll => pend l = []
  | SignalWaiter w => exists rest, pend l = w :: rest
  | StateIsPoisoned | StateClearPoison => True
  | TimerClockNow _ | TimerDeadlineAfter _ _ | TimerAt _ _ | TimerAfter _ _ | TimerPoll _ _ => True
  end.

(** A thread that owns the lock reads what it knows, and reads valid states. *)
Definition relies (l : local) (e : monitor_op T) : monitor_resp e -> Prop :=
  match e return monitor_resp e -> Prop with
  | GetState _ => fun r => J r /\ forall s, held l = Some (Some s) -> r = s
  | _ => fun _ => True
  end.

Definition moves (l : local) (e : monitor_op T) : monitor_resp e -> local :=
  match e return monitor_resp e -> local with
  | LockState => fun _ => MkLocal (Some None) (slot l) (pend l) (debt l)
  | UnlockState _ _ => fun _ => MkLocal None (slot l) (pend l) (debt l)
  | GetState _ => fun r => MkLocal (Some (Some r)) (slot l) (pend l) (debt l)
  | SetState _ s' => fun _ =>
      MkLocal (Some (Some s')) (slot l) (pend l)
        (debt l \/ match held l with Some (Some s) => ~ harmless s s' | _ => True end)
  | NewWaiter => fun r => MkLocal (held l) (Fresh r) (pend l) (debt l)
  | RegistryRegister w => fun r =>
      MkLocal (held l)
        (match r with Returned id => Registered w id | Unwinding _ => NoSlot end) (pend l) (debt l)
  | RegistryUnregister _ => fun _ => MkLocal (held l) NoSlot (pend l) (debt l)
  | RegistryTakeOne => fun r => MkLocal (held l) (slot l) (match r with Some w => [w] | None => [] end) (debt l)
  | RegistryTakeAll => fun r => MkLocal (held l) (slot l) r False
  | SignalWaiter _ => fun _ => MkLocal (held l) (slot l) (tail (pend l)) (debt l)
  | _ => fun _ => l
  end.

Definition protocol (waits : T -> bool) : rules Σ local :=
  {| allowed := may waits : local -> Op Σ -> Prop;
     assume := relies : local -> forall e : Op Σ, Resp e -> Prop;
     after := moves : local -> forall e : Op Σ, Resp e -> local |}.

(** A program that follows the protocol when it waits on [waits] only. *)
Definition obeys (waits : T -> bool) (p : comp Σ unit) : Prop :=
  forall n l, settled l -> safe (protocol waits) n l p (fun l' _ => settled l').

End Protocol.
Arguments local T : clear implicits.
