(* ===== verification/Handshake.v ===== *)
(** * The handshake between waiters and notifiers

    Any number of threads whose tasks obey the protocol, on the machine of
    [World.v]. The invariant [global] ties the threads' ghost states to the
    shared state in three parts: the lock, the registrations, and the rule that
    a suspended selectable waiter's predicate still blocks unless a
    notification to all is owed. Every primitive call that the protocol allows
    keeps it ([handle_global]). *)
From S2P Require Import Prelude Program WaiterRegistry Primitives World Protocol.

Section Handshake.
Context `{QubitClock} {T : Type}.
Abbreviation Σ := (MonitorSig T).
Context (W : (T -> bool) -> Prop) (J : T -> Prop).
Implicit Types (w : world T) (φ : nat -> local T) (ws : nat -> T -> bool) (t : nat).

(** ** The invariant *)
Record lock_inv φ w : Prop := {
  lk_owner : forall t, state_owner w = Some t <-> is_Some (held (φ t));
  lk_value : forall t s, held (φ t) = Some (Some s) -> state_value w = s;
  lk_inv : J (state_value w)
}.

Record slots_inv φ w : Prop := {
  sl_reg : registry_ok (registry w);
  sl_entry : forall id l, (id, l) ∈ waiters (registry w) ->
    exists t, slot (φ t) = Registered l id;
  sl_loc : forall t l, slot_loc (slot (φ t)) = Some l -> l < next_waiter w;
  sl_id : forall t l id, slot (φ t) = Registered l id -> (id < next_waiter_id (registry w))%Z;
  sl_loc_inj : forall t t' l,
    slot_loc (slot (φ t)) = Some l -> slot_loc (slot (φ t')) = Some l -> t = t';
  sl_id_inj : forall t t' l l' id,
    slot (φ t) = Registered l id -> slot (φ t') = Registered l' id -> t = t';
  (* a registered waiter is selectable, signalled, or selected by a thread that
     is about to signal it *)
  sl_select : forall t l id, slot (φ t) = Registered l id ->
    (id, l) ∈ waiters (registry w) \/ signalled w !! l = Some true \/
    exists t', l ∈ pend (φ t')
}.

Definition blocked_inv φ ws w : Prop :=
  forall t l id, slot (φ t) = Registered l id -> held (φ t) = None ->
    (id, l) ∈ waiters (registry w) ->
    ws t (state_value w) = true \/ exists t', debt (φ t').

Record global φ ws w : Prop := {
  g_lock : lock_inv φ w;
  g_slots : slots_inv φ w;
  g_blocked : blocked_inv φ ws w
}.

(** ** One thread changes its ghost state *)
Section Change.
Context (φ φ' : nat -> local T) (t : nat).
Hypothesis same : forall t', t' <> t -> φ' t' = φ t'.

Lemma exists_change (P : local T -> Prop) :
  (exists t', P (φ t')) -> (P (φ t) -> P (φ' t)) -> exists t', P (φ' t').
Proof.
  intros [t' HP] Himp. exists t'. destruct (decide (t' = t)) as [->|Hne]; [auto|].
  by rewrite same.
Qed.

Lemma forall_change (P : nat -> local T -> Prop) :
  (forall t', t' <> t -> P t' (φ t')) -> P t (φ' t) -> forall t', P t' (φ' t').
Proof.
  intros Hall Ht t'. destruct (decide (t' = t)) as [->|Hne]; [done|].
  rewrite same by done. auto.
Qed.

(** The registrations do not see changes of the lock, the debts and the value. *)
Lemma slots_inv_frame w w' :
  slots_inv φ w -> slot (φ' t) = slot (φ t) -> pend (φ' t) = pend (φ t) ->
  registry w' = registry w -> signalled w' = signalled w -> next_waiter w' = next_waiter w ->
  slots_inv φ' w'.
Proof.
  intros [Hr He Hl Hi Hli Hii Hs] Hslot Hpend Er Es En.
  assert (Hsl : forall t', slot (φ' t') = slot (φ t')).
  { apply (forall_change (fun t' l => slot l = slot (φ t'))); [done|exact Hslot]. }
  split; rewrite ?Er, ?Es, ?En; try done; intros *; rewrite ?Hsl; eauto.
  - intros Hin. destruct (He _ _ Hin) as [t' Ht']. exists t'. by rewrite Hsl.
  - intros Ht. destruct (Hs _ _ _ Ht) as [?|[?|Hp]]; [auto|auto|].
    right; right. apply (exists_change (fun l' => l ∈ pend l')); [done|]. by rewrite Hpend.
Qed.

(** The lock does not see changes of the registrations. *)
Lemma lock_inv_frame w w' :
  lock_inv φ w -> held (φ' t) = held (φ t) ->
  state_owner w' = state_owner w -> state_value w' = state_value w ->
  lock_inv φ' w'.
Proof.
  intros [Ho Hv Hj] Hheld Eo Ev.
  assert (Hh : forall t', held (φ' t') = held (φ t')).
  { apply (forall_change (fun t' l => held l = held (φ t'))); [done|exact Hheld]. }
  split; rewrite ?Eo, ?Ev; try done; intros *; rewrite ?Hh; eauto.
Qed.

(** Suspended waiters that were there before stay covered. *)
Lemma blocked_inv_change ws w w' :
  blocked_inv φ ws w ->
  (forall t' l id, t' <> t -> slot (φ t') = Registered l id ->
     (id, l) ∈ waiters (registry w') -> (id, l) ∈ waiters (registry w)) ->
  (debt (φ t) -> debt (φ' t) \/ waiters (registry w') = []) ->
  (forall t', t' <> t -> ws t' (state_value w) = true ->
     ws t' (state_value w') = true \/ debt (φ' t)) ->
  (forall l id, slot (φ' t) = Registered l id -> held (φ' t) = None ->
     (id, l) ∈ waiters (registry w') ->
     ws t (state_value w') = true \/ exists t', debt (φ' t')) ->
  blocked_inv φ' ws w'.
Proof.
  intros Hb Hreg Hdebt Hval Ht t' l id. destruct (decide (t' = t)) as [->|Hne]; [by apply Ht|].
  rewrite same by done. intros Hs Hh Hin.
  destruct (Hb _ _ _ Hs Hh (Hreg _ _ _ Hne Hs Hin)) as [Hw|Hd].
  - destruct (Hval _ Hne Hw) as [?|?]; [by left|right; by exists t].
  - right. apply (exists_change debt); [done|]. intros Hdt.
    destruct (Hdebt Hdt) as [?|Hnil]; [done|]. rewrite Hnil in Hin.
    by apply not_elem_of_nil in Hin.
Qed.

Lemma blocked_self ws w l id :
  blocked_inv φ ws w -> slot (φ t) = Registered l id -> held (φ t) = None ->
  (id, l) ∈ waiters (registry w) -> (debt (φ t) -> debt (φ' t)) ->
  ws t (state_value w) = true \/ exists t', debt (φ' t').
Proof.
  intros Hb Hs Hh Hin Hd. destruct (Hb _ _ _ Hs Hh Hin) as [?|Hex]; [by left|right].
  by apply (exists_change debt).
Qed.

(** ** The calls on the lock and the state *)

(** All of them are made by a thread while nobody else owns the lock. *)
Lemma lock_inv_change w w' :
  lock_inv φ w -> (forall t', state_owner w = Some t' -> t' = t) ->
  state_owner w' = (if held (φ' t) is Some _ then Some t else None) ->
  (forall s, held (φ' t) = Some (Some s) -> state_value w' = s) -> J (state_value w') ->
  lock_inv φ' w'.
Proof.
  intros [Ho Hv Hj] Hmine Ho' Hv' Hj'.
  assert (Hfree : forall t', t' <> t -> held (φ t') = None).
  { intros t' Hne. apply eq_None_not_Some. rewrite <- Ho. by intros ?%Hmine. }
  split; [| |done].
  - apply (forall_change (fun t' l => _ = Some t' <-> is_Some (held l))).
    + intros t' Hne. rewrite Hfree, Ho' by done. destruct (held (φ' t)).
      * split; [congruence|by intros []].
      * split; [done|by intros []].
    + rewrite Ho'. destruct (held (φ' t)); split; try done; by intros [].
  - intros t' s. revert t'. apply (forall_change (fun _ l => held l = Some (Some s) -> _)).
    + intros t' Hne. by rewrite Hfree.
    + apply Hv'.
Qed.

Lemma owner_mine w : lock_inv φ w -> is_Some (held (φ t)) -> forall t', state_owner w = Some t' -> t' = t.
Proof. intros [Ho _ _] Hh%Ho t'. congruence. Qed.

Lemma owner_eq w : lock_inv φ w -> is_Some (held (φ t)) -> state_owner w = Some t.
Proof. intros [Ho _ _]. apply Ho. Qed.

Lemma lock_global ws w p :
  global φ ws w -> state_owner w = None -> slot (φ t) = NoSlot ->
  φ' t = MkLocal (Some None) (slot (φ t)) (pend (φ t)) (debt (φ t)) ->
  global φ' ws (set_lock w (Some t) p).
Proof.
  intros [Hl Hs Hb] Hnone Hslot Ht. split.
  - eapply lock_inv_change; rewrite ?Ht; simpl; try done; [congruence|apply Hl].
  - eapply slots_inv_frame; rewrite ?Ht; done.
  - eapply blocked_inv_change; rewrite ?Ht; simpl; eauto. intros ??. by rewrite Hslot.
Qed.

Lemma unlock_global ws w p :
  global φ ws w -> is_Some (held (φ t)) ->
  (forall l id, slot (φ t) = Registered l id -> ws t (state_value w) = true) ->
  φ' t = MkLocal None (slot (φ t)) (pend (φ t)) (debt (φ t)) ->
  global φ' ws (set_lock w None p).
Proof.
  intros [Hl Hs Hb] Hheld Hblocks Ht. split.
  - eapply lock_inv_change; rewrite ?Ht; simpl; try done; [by apply owner_mine|apply Hl].
  - eapply slots_inv_frame; rewrite ?Ht; done.
  - eapply blocked_inv_change; rewrite ?Ht; simpl; eauto.
Qed.

Lemma get_global ws w :
  global φ ws w -> is_Some (held (φ t)) ->
  φ' t = MkLocal (Some (Some (state_value w))) (slot (φ t)) (pend (φ t)) (debt (φ t)) ->
  global φ' ws w.
Proof.
  intros [Hl Hs Hb] Hheld Ht. split.
  - eapply lock_inv_change; rewrite ?Ht; simpl; [done|by apply owner_mine|by apply owner_eq|congruence|apply Hl].
  - eapply slots_inv_frame; rewrite ?Ht; done.
  - eapply blocked_inv_change; rewrite ?Ht; simpl; eauto. done.
Qed.

Lemma set_global ws w s' :
  global φ ws w -> (forall t, W (ws t)) -> is_Some (held (φ t)) -> J s' ->
  φ' t = MkLocal (Some (Some s')) (slot (φ t)) (pend (φ t))
           (debt (φ t) \/ match held (φ t) with Some (Some s) => ~ harmless W s s' | _ => True end) ->
  global φ' ws (set_value w s').
Proof.
  intros [Hl Hs Hb] HW Hheld HJ Ht. split.
  - eapply lock_inv_change; rewrite ?Ht; simpl; [done|by apply owner_mine|by apply owner_eq|congruence|done].
  - eapply slots_inv_frame; rewrite ?Ht; done.
  - eapply blocked_inv_change; rewrite ?Ht; simpl; eauto; [|done].
    intros t' Hne Hw. destruct (ws t' s') eqn:Hw'; [by left|right; right].
    destruct Hheld as [[s|] Hheld]; rewrite Hheld; [|done].
    apply (lk_value _ _ Hl) in Hheld. subst s. intros Hharm.
    rewrite (Hharm (ws t')) in Hw'; [done|apply HW|done].
Qed.

(** ** The calls on waiters and the registry *)

Lemma new_waiter_global ws w :
  global φ ws w -> slot (φ t) = NoSlot ->
  φ' t = MkLocal (held (φ t)) (Fresh (next_waiter w)) (pend (φ t)) (debt (φ t)) ->
  global φ' ws (set_signalled w (<[next_waiter w := false]> (signalled w)) (S (next_waiter w))).
Proof.
  intros [Hl [Hr He Hlo Hi Hli Hii Hs] Hb] Hslot Ht. split.
  - eapply lock_inv_frame; rewrite ?Ht; done.
  - assert (Hold : forall t' l id, slot (φ' t') = Registered l id -> t' <> t /\ slot (φ t') = Registered l id).
    { apply (forall_change (fun t' x => forall l id, slot x = Registered l id -> _));
        [done|by rewrite Ht]. }
    assert (Hloc : forall t' l, slot_loc (slot (φ' t')) = Some l ->
      (t' = t /\ l = next_waiter w) \/ (t' <> t /\ slot_loc (slot (φ t')) = Some l)).
    { apply (forall_change (fun t' x => forall l, slot_loc (slot x) = Some l -> _));
        [by right|]. rewrite Ht. simpl. left. split; [done|congruence]. }
    split; simpl; try done.
    + intros id l Hin. apply He in Hin. apply (exists_change (fun x => slot x = Registered l id)); [done|].
      by rewrite Hslot.
    + intros t' l [[_ ->]|[_ Hl']]%Hloc; [lia|]. apply Hlo in Hl'. lia.
    + intros t' l id [_ Hx]%Hold. eauto.
    + intros t1 t2 l [[-> ->]|[? H1]]%Hloc [[-> ?]|[? H2]]%Hloc; [done| | |by eapply Hli].
      * apply Hlo in H2. lia.
      * subst l. apply Hlo in H1. lia.
    + intros t1 t2 l l' id [? H1]%Hold [? H2]%Hold. by eapply Hii.
    + intros t' l id [? H1]%Hold. destruct (Hs _ _ _ H1) as [?|[Hsig|Hp]]; [by left| |].
      * right; left. rewrite lookup_insert_ne; [done|].
        assert (l < next_waiter w) by (apply (Hlo t'); by rewrite H1). lia.
      * right; right. apply (exists_change (fun x => l ∈ pend x)); [done|]. by rewrite Ht.
  - eapply blocked_inv_change; rewrite ?Ht; simpl; eauto. done.
Qed.

Lemma signal_global ws w l rest :
  global φ ws w -> pend (φ t) = l :: rest ->
  φ' t = MkLocal (held (φ t)) (slot (φ t)) rest (debt (φ t)) ->
  global φ' ws (set_signalled w (<[l := true]> (signalled w)) (next_waiter w)).
Proof.
  intros [Hl [Hr He Hlo Hi Hli Hii Hs] Hb] Hpend Ht.
  assert (Hsl : forall t', slot (φ' t') = slot (φ t')).
  { apply (forall_change (fun t' x => slot x = slot (φ t'))); [done|by rewrite Ht]. }
  split.
  - eapply lock_inv_frame; rewrite ?Ht; done.
  - split; simpl; try done; intros *; rewrite ?Hsl; eauto.
    + intros (t' & Ht')%He. exists t'. by rewrite Hsl.
    + intros Hreg. destruct (decide (l0 = l)) as [->|Hne].
      { right; left. by rewrite lookup_insert_eq. }
      rewrite lookup_insert_ne by done.
      destruct (Hs _ _ _ Hreg) as [?|[?|Hp]]; [by left|by right; left|right; right].
      apply (exists_change (fun x => l0 ∈ pend x)); [done|]. rewrite Hpend, Ht. simpl.
      rewrite elem_of_cons. by intros [?|?].
  - eapply blocked_inv_change; rewrite ?Ht; simpl; eauto.
    intros. eapply blocked_self; rewrite ?Ht; eauto.
Qed.

Lemma register_global ws w l r id :
  global φ ws w -> slot (φ t) = Fresh l -> is_Some (held (φ t)) ->
  WaiterRegistry.register (registry w) l = (r, Returned id) ->
  φ' t = MkLocal (held (φ t)) (Registered l id) (pend (φ t)) (debt (φ t)) ->
  global φ' ws (set_registry w r).
Proof.
  intros [Hl [Hr He Hlo Hi Hli Hii Hs] Hb] Hslot [k Hheld] Hreg Ht.
  pose proof (register_ok (registry w) l Hr) as Hr'. rewrite Hreg in Hr'. simpl in Hr'.
  destruct (register_inv _ _ _ _ Hr Hreg) as [(Hlt & Hid & Hn & Hw)|(_ & _ & [=])].
  injection Hid as ->.
  assert (Hsl : forall t' l' id', slot (φ' t') = Registered l' id' ->
     (t' = t /\ l' = l /\ id' = next_waiter_id (registry w)) \/
     (t' <> t /\ slot (φ t') = Registered l' id')).
  { apply (forall_change (fun t' x => forall l' id', slot x = Registered l' id' -> _));
      [by right|]. rewrite Ht. simpl. left. naive_solver. }
  assert (Hloc : forall t', slot_loc (slot (φ' t')) = slot_loc (slot (φ t'))).
  { apply (forall_change (fun t' x => slot_loc (slot x) = slot_loc (slot (φ t')))); [done|].
    by rewrite Ht, Hslot. }
  split.
  - eapply lock_inv_frame; rewrite ?Ht; done.
  - split; simpl; try done; intros *; rewrite ?Hloc; eauto.
    + rewrite Hw, elem_of_app, list_elem_of_singleton. intros [Hin|[= -> ->]].
      * apply He in Hin as Hex. apply (exists_change (fun x => slot x = Registered l0 id)); [done|].
        by rewrite Hslot.
      * exists t. by rewrite Ht.
    + intros [(_ & _ & ->)|[_ Hx]]%Hsl; [lia|]. apply Hi in Hx. lia.
    + intros [(-> & _ & ->)|[? H1]]%Hsl [(-> & _ & ?)|[? H2]]%Hsl; [done| | |by eapply Hii].
      * apply Hi in H2. lia.
      * subst id. apply Hi in H1. lia.
    + rewrite Hw, elem_of_app, list_elem_of_singleton.
      intros [(-> & -> & ->)|[_ Hx]]%Hsl; [by left; right|].
      destruct (Hs _ _ _ Hx) as [?|[?|Hp]]; [by left; left|by right; left|right; right].
      apply (exists_change (fun x => l0 ∈ pend x)); [done|]. by rewrite Ht.
  - eapply blocked_inv_change; rewrite ?Ht; simpl; eauto; [|by rewrite Hheld].
    intros t' l' id' Hne Hs'. rewrite Hw, elem_of_app, list_elem_of_singleton.
    intros [?|[= -> ->]]; [done|]. apply Hi in Hs'. lia.
Qed.

(** Registrations leave the registry: some are selected, and [t] may drop its
    own. *)
Lemma leave_global ws w r :
  global φ ws w -> registry_ok r -> next_waiter_id r = next_waiter_id (registry w) ->
  (forall p, p ∈ waiters r -> p ∈ waiters (registry w)) ->
  (slot (φ' t) = slot (φ t) \/
   slot (φ' t) = NoSlot /\ forall id l, slot (φ t) = Registered l id -> (id, l) ∉ waiters r) ->
  (forall id l, (id, l) ∈ waiters (registry w) ->
     (id, l) ∈ waiters r \/ l ∈ pend (φ' t) \/ slot (φ t) = Registered l id /\ slot (φ' t) = NoSlot) ->
  (forall l, l ∈ pend (φ t) -> l ∈ pend (φ' t)) ->
  held (φ' t) = held (φ t) ->
  (debt (φ t) -> debt (φ' t) \/ waiters r = []) ->
  global φ' ws (set_registry w r).
Proof.
  intros [Hl [Hr He Hlo Hi Hli Hii Hs] Hb] Hr' Hn Hsub Hslot Hcover Hpend Hheld Hdebt.
  assert (Hsl : forall t' l id, slot (φ' t') = Registered l id -> slot (φ t') = Registered l id).
  { apply (forall_change (fun t' x => forall l id, slot x = Registered l id -> _)); [done|].
    destruct Hslot as [-> | [-> _]]; done. }
  assert (Hloc : forall t' l, slot_loc (slot (φ' t')) = Some l -> slot_loc (slot (φ t')) = Some l).
  { apply (forall_change (fun t' x => forall l, slot_loc (slot x) = Some l -> _)); [done|].
    destruct Hslot as [-> | [-> _]]; done. }
  split.
  - by eapply lock_inv_frame.
  - split; simpl; eauto.
    + intros id l Hin. apply Hsub in Hin as Hold. apply He in Hold.
      apply (exists_change (fun x => slot x = Registered l id)); [done|].
      destruct Hslot as [-> | [_ Hno]]; [done|]. intros Hreg. by apply Hno in Hreg.
    + intros t' l id Hx%Hsl. rewrite Hn. eauto.
    + intros t' l id Hx. apply Hsl in Hx as Hold.
      destruct (Hs _ _ _ Hold) as [Hin|[?|Hp]]; [|by right; left|right; right].
      * destruct (Hcover _ _ Hin) as [?|[?|[Ho Hno]]]; [by left|by right; right; exists t|].
        assert (t' = t) as -> by (by eapply Hii). rewrite Hno in Hx. done.
      * apply (exists_change (fun x => l ∈ pend x)); [done|auto].
  - eapply blocked_inv_change; simpl; eauto.
    intros l id Hx Hh Hin. apply Hsl in Hx. rewrite Hheld in Hh.
    eapply blocked_self; eauto. intros [?|Hnil]%Hdebt; [done|]. rewrite Hnil in Hin.
    by apply not_elem_of_nil in Hin.
Qed.

(** Calls that change neither the ghost state nor what the invariant reads. *)
Lemma still_global ws w p :
  global φ ws w -> φ' t = φ t -> global φ' ws (set_lock w (state_owner w) p).
Proof.
  intros [Hl Hs Hb] Ht. split.
  - eapply lock_inv_frame; rewrite ?Ht; done.
  - eapply slots_inv_frame; rewrite ?Ht; done.
  - eapply blocked_inv_change; rewrite ?Ht; simpl; eauto.
    intros. eapply blocked_self; rewrite ?Ht; eauto.
Qed.

Lemma unchanged_global ws w : global φ ws w -> φ' t = φ t -> global φ' ws w.
Proof.
  destruct w as [v o p r s n]. intros Hg Ht. by apply (still_global ws (MkWorld v o p r s n) p).
Qed.

Lemma take_one_global ws w r o :
  global φ ws w -> pend (φ t) = [] -> take_one (registry w) = (r, o) ->
  φ' t = MkLocal (held (φ t)) (slot (φ t)) (match o with Some l => [l] | None => [] end) (debt (φ t)) ->
  global φ' ws (set_registry w r).
Proof.
  intros Hg Hpend Htake Ht. pose proof (take_one_ok _ (sl_reg _ _ (g_slots _ _ _ Hg))) as Hr.
  rewrite Htake in Hr. unfold take_one in Htake.
  destruct (registry w) as [n [|[id l] rest]] eqn:Hreg; simpl in *; simplify_eq; simpl in *;
    eapply leave_global; rewrite ?Ht, ?Hreg, ?Hpend; simpl; auto using list_elem_of_further.
  intros id' l'. rewrite elem_of_cons. intros [[= -> ->]|?]; [|by left].
  right; left. by constructor.
Qed.

Lemma take_all_global ws w :
  global φ ws w -> pend (φ t) = [] ->
  φ' t = MkLocal (held (φ t)) (slot (φ t)) (waiters (registry w)).*2 False ->
  global φ' ws (set_registry w (take_all (registry w)).1).
Proof.
  intros Hg Hpend Ht. pose proof (take_all_ok _ (sl_reg _ _ (g_slots _ _ _ Hg))) as Hr.
  eapply leave_global; rewrite ?Ht, ?Hpend; simpl; auto.
  - intros p Hp. by apply not_elem_of_nil in Hp.
  - intros id l Hin. right; left. apply list_elem_of_fmap. by exists (id, l).
  - intros l Hin. by apply not_elem_of_nil in Hin.
Qed.

Lemma unregister_global ws w l id :
  global φ ws w -> slot (φ t) = Registered l id ->
  φ' t = MkLocal (held (φ t)) NoSlot (pend (φ t)) (debt (φ t)) ->
  global φ' ws (set_registry w (unregister (registry w) id).1).
Proof.
  intros Hg Hslot Ht. pose proof (g_slots _ _ _ Hg) as Hs.
  pose proof (unregister_ok _ id (sl_reg _ _ Hs)) as Hr. unfold unregister in *.
  rewrite remove_filter in * by (by apply ok_sorted, (sl_reg _ _ Hs)). simpl in *.
  eapply leave_global; rewrite ?Ht; simpl; auto.
  - intros p. rewrite list_elem_of_filter. by intros [_ ?].
  - right. split; [done|]. intros id' l'. rewrite Hslot. intros [= -> ->].
    rewrite list_elem_of_filter. by intros [? _].
  - intros id' l' Hin. destruct (decide (id' = id)) as [->|Hne].
    + right; right. split; [|done]. destruct (sl_entry _ _ Hs _ _ Hin) as [t' Ht'].
      by rewrite (sl_id_inj _ _ Hs _ _ _ _ _ Hslot Ht').
    + left. rewrite list_elem_of_filter. done.
Qed.

Lemma register_fails_global ws w l :
  global φ ws w -> slot (φ t) = Fresh l ->
  φ' t = MkLocal (held (φ t)) NoSlot (pend (φ t)) (debt (φ t)) ->
  global φ' ws (set_registry w (registry w)).
Proof.
  intros Hg Hslot Ht. eapply leave_global; rewrite ?Ht; simpl; auto.
  - by apply (g_slots _ _ _ Hg).
  - right. split; [done|]. by rewrite Hslot.
Qed.

(** ** Every call the protocol allows keeps the invariant *)
Lemma handle_global ws w (o : answers T) (e : monitor_op T) r w' :
  global φ ws w -> (forall t, W (ws t)) -> may J (ws t) (φ t) e ->
  handle t w o e = Some (r, w') -> φ' t = moves W (φ t) e r ->
  relies J (φ t) e r /\ global φ' ws w'.
Proof.
  intros Hg HW Hmay Hh Ht. destruct e; simpl in Hmay, Hh, Ht; destruct_ands;
    try case_decide; simplify_eq; try (split; [exact I|]); try by apply unchanged_global.
  - destruct (state_owner w) eqn:Ho; simplify_eq. by apply lock_global.
  - apply (unlock_global ws w); try done. intros l id Hslot. rewrite Hslot in *. destruct_ands.
    match goal with Hs : held _ = Some (Some _) |- _ => by rewrite (lk_value _ _ (g_lock _ _ _ Hg) _ _ Hs) end.
  - split; [|by apply get_global]. simpl. split; [apply (g_lock _ _ _ Hg)|].
    apply (lk_value _ _ (g_lock _ _ _ Hg)).
  - by eapply set_global.
  - by apply still_global.
  - by apply new_waiter_global.
  - match goal with Hp : pend _ = _ :: _ |- _ => rewrite Hp in Ht; simpl in Ht end.
    by eapply signal_global.
  - destruct (WaiterRegistry.register _ _) as [r' [id|c]] eqn:Hreg; simplify_eq.
    + by eapply register_global.
    + destruct (register_inv _ _ _ _ (sl_reg _ _ (g_slots _ _ _ Hg)) Hreg)
        as [(_ & [=] & _)|(_ & -> & _)]. by eapply register_fails_global.
  - destruct (take_one _) as [r' o'] eqn:Htake; simplify_eq. by eapply take_one_global.
  - by apply take_all_global.
  - destruct (WaiterRegistry.unregister _ _) as [r' o'] eqn:Hu; simplify_eq.
    assert (r' = (unregister (registry w) id).1) as -> by (by rewrite Hu).
    by eapply unregister_global.
Qed.

End Change.

End Handshake.
