(* ===== verification/Threads.v ===== *)
(** * Any number of threads

    The invariant of [Handshake.v] lifted to configurations: threads whose tasks
    obey the protocol keep it whatever the scheduler, the timer and the clock do.
    The theorems at the end are what the invariant says of every reachable
    configuration. *)
From S2P Require Import Prelude Program WaiterRegistry Primitives World Protocol Handshake.

Section Threads.
Context `{QubitClock} {T : Type}.
Abbreviation Σ := (MonitorSig T).
Context (W : (T -> bool) -> Prop) (J : T -> Prop).

(** A task waits on a predicate of the family and obeys the protocol. *)
Definition task_ok (tk : task T) : Prop :=
  W (task_waits tk) /\ obeys W J (task_waits tk) (task_code tk).

Definition thread_ok (l : local T) (ws : T -> bool) (th : thread T) : Prop :=
  match th with
  | Running code waits todo =>
      ws = waits /\ Forall task_ok todo /\
      forall n, safe (protocol W J waits) n l code (fun l' _ => settled l')
  | Finished _ => settled l
  end.

Definition threads_ok (φ : nat -> local T) (ws : nat -> T -> bool) (ths : list (thread T)) : Prop :=
  forall t, match ths !! t with
            | Some th => thread_ok (φ t) (ws t) th
            | None => settled (φ t)
            end.

Definition system_ok (c : config T) : Prop :=
  exists φ ws, global J φ ws (shared c) /\ (forall t, W (ws t)) /\ threads_ok φ ws (threads c).

(** ** Preservation *)
Definition upd {A} (f : nat -> A) (t : nat) (a : A) : nat -> A :=
  fun t' => if decide (t' = t) then a else f t'.

Lemma upd_eq {A} (f : nat -> A) t a : upd f t a t = a.
Proof. unfold upd. by rewrite decide_True. Qed.

Lemma upd_ne {A} (f : nat -> A) t a t' : t' <> t -> upd f t a t' = f t'.
Proof. intros. unfold upd. by rewrite decide_False. Qed.

Lemma threads_ok_insert φ ws φ' ws' ths t th :
  threads_ok φ ws ths -> is_Some (ths !! t) ->
  (forall t', t' <> t -> φ' t' = φ t') -> (forall t', t' <> t -> ws' t' = ws t') ->
  thread_ok (φ' t) (ws' t) th ->
  threads_ok φ' ws' (<[t := th]> ths).
Proof.
  intros Hths Hsome Hφ Hws Hth t'. destruct (decide (t' = t)) as [->|Hne].
  - rewrite list_lookup_insert_eq; [done|]. by apply lookup_lt_is_Some.
  - rewrite list_lookup_insert_ne by done. rewrite Hφ, Hws by done. apply Hths.
Qed.

(** A settled thread may start to wait on another predicate. *)
Lemma global_new_waits φ ws w t wt :
  global J φ ws w -> slot (φ t) = NoSlot -> global J φ (upd ws t wt) w.
Proof.
  intros [Hl Hs Hb] Hslot. split; [done|done|]. intros t' l id Hreg.
  destruct (decide (t' = t)) as [->|Hne]; [congruence|]. rewrite upd_ne by done. by apply Hb.
Qed.

Lemma wake_global φ ws w l :
  global J φ ws w -> global J φ ws (set_signalled w (<[l := true]> (signalled w)) (next_waiter w)).
Proof.
  intros [Hl [Hr He Hlo Hi Hli Hii Hs] Hb]. split; [by destruct Hl| |done].
  split; simpl; try done. intros t l' id Hreg.
  destruct (decide (l' = l)) as [->|Hne]; [right; left; by rewrite lookup_insert_eq|].
  rewrite lookup_insert_ne by done. by eapply Hs.
Qed.

Lemma step_thread_ok t o c c' : system_ok c -> step_thread t o c = Some c' -> system_ok c'.
Proof.
  intros (φ & ws & Hg & HW & Hths) Hst. unfold step_thread in Hst.
  destruct (threads c !! t) as [[code waits todo|]|] eqn:Ht; [|done..].
  pose proof (Hths t) as Hth. rewrite Ht in Hth. destruct Hth as (Hws & Htodo & Hsafe).
  assert (Hsome : is_Some (threads c !! t)) by (rewrite Ht; eauto).
  destruct (next code) as [[[]|cause]|e k|p] eqn:Hnext.
  - assert (Hsettled : settled (φ t)) by (specialize (Hsafe 1); simpl in Hsafe; by rewrite Hnext in Hsafe).
    destruct todo as [|tk todo]; simplify_eq; simpl.
    + exists φ, ws. split; [done|split; [done|]]. by eapply threads_ok_insert.
    + apply Forall_cons in Htodo as [[HWt Hobeys] Htodo].
      exists φ, (upd ws t (task_waits tk)). split; [|split].
      * apply global_new_waits; [exact Hg|apply Hsettled].
      * intros t'. unfold upd. by case_decide.
      * eapply threads_ok_insert; [done|done|done|intros; by apply upd_ne|].
        rewrite upd_eq. split; [done|split; [done|]]. intros n. by apply Hobeys.
  - assert (Hsettled : settled (φ t)) by (specialize (Hsafe 1); simpl in Hsafe; by rewrite Hnext in Hsafe).
    simplify_eq; simpl. exists φ, ws. split; [done|split; [done|]]. by eapply threads_ok_insert.
  - destruct (handle t (shared c) o e) as [[r w]|] eqn:Hh; simplify_eq; simpl.
    set (l' := moves W (φ t) e r).
    destruct (handle_global W J φ (upd φ t l') t (upd_ne φ t l') ws (shared c) o e r w)
      as [Hrel Hg']; [exact Hg|exact HW| |exact Hh|apply upd_eq|].
    { specialize (Hsafe 1). simpl in Hsafe. rewrite Hnext in Hsafe. apply Hsafe. }
    exists (upd φ t l'), ws. split; [done|split; [done|]].
    eapply threads_ok_insert; [done|done|apply upd_ne|done|].
    rewrite upd_eq. split; [done|split; [done|]]. intros n. specialize (Hsafe (S n)).
    simpl in Hsafe. rewrite Hnext in Hsafe. by apply Hsafe.
  - simplify_eq; simpl. exists φ, ws. split; [done|split; [done|]].
    eapply threads_ok_insert; [done..|]. split; [done|split; [done|]]. intros n.
    specialize (Hsafe (S n)). simpl in Hsafe. by rewrite Hnext in Hsafe.
Qed.

(** A poll that nobody asked for leaves the ghost state as it is. *)
Lemma repoll_thread_ok t c c' : system_ok c -> repoll_thread t c = Some c' -> system_ok c'.
Proof.
  intros (φ & ws & Hg & HW & Hths) Hst. unfold repoll_thread in Hst.
  destruct (threads c !! t) as [[code waits todo|]|] eqn:Ht; [|done..].
  pose proof (Hths t) as Hth. rewrite Ht in Hth. destruct Hth as (Hws & Htodo & Hsafe).
  destruct (next code) as [?|e k|?] eqn:Hnext; [done| |done]. destruct e; try done. simplify_eq; simpl.
  exists φ, ws. split; [done|split; [done|]].
  eapply threads_ok_insert; [done|by rewrite Ht|done..|]. split; [done|split; [done|]]. intros n.
  specialize (Hsafe (S n)). simpl in Hsafe. rewrite Hnext in Hsafe. by apply (proj2 Hsafe tt).
Qed.

Lemma step_ok c c' : system_ok c -> step c c' -> system_ok c'.
Proof.
  intros Hok Hstep. revert Hok. destruct Hstep as [t o c c' Hst|l c Hl|t c c' Hst]; intros Hok;
    [by eapply step_thread_ok| |by eapply repoll_thread_ok].
  destruct Hok as (φ & ws & Hg & HW & Hths). exists φ, ws. split; [|done]. by apply wake_global.
Qed.

(** ** What the invariant says of a configuration *)

(** The thread has finished all its tasks, or panicked. *)
Definition finished (th : thread T) : Prop := match th with Finished _ => True | Running _ _ _ => False end.

#[export] Instance finished_dec th : Decision (finished th).
Proof. destruct th; simpl; apply _. Defined.

(** The call a thread is about to make. *)
Definition about_to (th : thread T) (e : monitor_op T) : Prop :=
  match th with
  | Running code _ _ => match next code with HVis e' _ => e' = e | _ => False end
  | Finished _ => False
  end.

(** The thread or task sleeps until the waiter's latch or signal is set. *)
Definition asleep_on (th : thread T) (l : waiter_ref) : Prop :=
  about_to th (AwaitSignal l) \/ about_to th (Park l).

Lemma about_to_may φ ws c t th e :
  threads_ok φ ws (threads c) -> threads c !! t = Some th -> about_to th e ->
  may J (ws t) (φ t) e.
Proof.
  intros Hths Ht Habout. specialize (Hths t). rewrite Ht in Hths.
  destruct th as [code waits todo|]; [|done]. simpl in *. destruct Hths as (-> & _ & Hsafe).
  specialize (Hsafe 1). simpl in Hsafe. destruct (next code); [done| |done].
  subst. apply Hsafe.
Qed.

(** A call that does not depend on other threads is never refused. *)
Definition may_block (e : monitor_op T) : Prop :=
  match e with LockState | AwaitSignal _ | Park _ => True | _ => False end.

Lemma handle_progress φ ws c t o e :
  global J φ ws (shared c) -> may J (ws t) (φ t) e -> ~ may_block e ->
  is_Some (handle t (shared c) o e).
Proof.
  intros [[Ho _ _] _ _] Hmay Hnb. destruct e; simpl in *; try done; try tauto;
    try (by repeat case_match; eauto);
    rewrite decide_True by (apply Ho; tauto); eauto.
Qed.

Lemma stuck_thread φ ws c t th (o : answers T) :
  global J φ ws (shared c) -> threads_ok φ ws (threads c) -> stuck c ->
  threads c !! t = Some th ->
  finished th \/ exists e, about_to th e /\ may_block e /\ may J (ws t) (φ t) e /\
                           handle t (shared c) o e = None.
Proof.
  intros Hg Hths Hstuck Ht. destruct th as [code waits todo|r]; [right|by left].
  specialize (Hstuck t o). unfold step_thread in Hstuck. rewrite Ht in Hstuck.
  destruct (next code) as [[[]|]|e k|p] eqn:Hn; [by destruct todo|done| |done].
  exists e. assert (Hab : about_to (Running code waits todo) e) by (simpl; by rewrite Hn).
  pose proof (about_to_may φ ws c t _ _ Hths Ht Hab) as Hmay. split; [done|].
  destruct (handle t (shared c) o e) as [[r w]|] eqn:Hh; [done|].
  split; [|done]. destruct e; try exact I;
    destruct (handle_progress φ ws c t o _ Hg Hmay (fun f => f)) as [? Hx]; by rewrite Hx in Hh.
Qed.

Lemma stuck_parked φ ws c (o : answers T) :
  global J φ ws (shared c) -> threads_ok φ ws (threads c) -> stuck c ->
  forall t, settled (φ t) \/ exists th l, threads c !! t = Some th /\ may J (ws t) (φ t) (AwaitSignal l)
                /\ asleep_on th l /\ signalled (shared c) !! l <> Some true.
Proof.
  intros Hg Hths Hstuck.
  assert (Hnotheld : forall t, held (φ t) = None).
  { intros t. pose proof (Hths t) as Ht. destruct (threads c !! t) as [th|] eqn:Hth; [|apply Ht].
    destruct (stuck_thread φ ws c t th o Hg Hths Hstuck Hth) as [Hf|(e & _ & Hb & Hmay & _)].
    - destruct th; [done|apply Ht].
    - destruct e; try done; apply Hmay. }
  intros t. pose proof (Hths t) as Ht. destruct (threads c !! t) as [th|] eqn:Hth; [|by left].
  destruct (stuck_thread φ ws c t th o Hg Hths Hstuck Hth) as [Hf|(e & Hab & Hb & Hmay & Hh)].
  - left. by destruct th.
  - destruct e; try done; simpl in Hh.
    + destruct (state_owner (shared c)) as [t'|] eqn:Ho; [|done].
      apply (lk_owner _ _ _ (g_lock _ _ _ _ Hg)) in Ho as [? Ho]. by rewrite Hnotheld in Ho.
    + right. exists th. eexists. split; [done|split; [done|split; [by left|]]]. by case_decide.
    + right. exists th. eexists. split; [done|split; [exact Hmay|split; [by right|]]]. by case_decide.
Qed.

(** *** Consequences *)

(** A waiter asleep in a configuration where nobody moves. *)
Lemma parked_waits φ ws c t l (o : answers T) :
  global J φ ws (shared c) -> threads_ok φ ws (threads c) -> stuck c ->
  may J (ws t) (φ t) (AwaitSignal l) -> signalled (shared c) !! l <> Some true ->
  exists id, (id, l) ∈ waiters (registry (shared c)) /\ ws t (state_value (shared c)) = true.
Proof.
  intros Hg Hths Hstuck (Hheld & _ & _ & id & Hslot) Hsig.
  pose proof (stuck_parked φ ws c o Hg Hths Hstuck) as Hpark.
  exists id. assert (Hin : (id, l) ∈ waiters (registry (shared c))).
  { destruct (sl_select _ _ (g_slots _ _ _ _ Hg) _ _ _ Hslot) as [?|[?|[t' Hp]]]; [done|done|].
    assert (Hnil : pend (φ t') = []) by (destruct (Hpark t') as [Hs|(? & ? & _ & Hm & _)]; [apply Hs|apply Hm]).
    rewrite Hnil in Hp. by apply not_elem_of_nil in Hp. }
  split; [done|].
  destruct (g_blocked _ _ _ _ Hg _ _ _ Hslot Hheld Hin) as [?|[t' Hd]]; [done|].
  destruct (Hpark t') as [Hs|(? & ? & _ & Hm & _)]; [by apply Hs in Hd|by apply Hm in Hd].
Qed.

(** What [stuck] means: the lock is free, and whoever has not finished sleeps on
    a selectable registration with a predicate that blocks now. *)
Lemma stuck_blocked c (o : answers T) :
  system_ok c -> stuck c ->
  state_owner (shared c) = None /\
  forall t code waits todo, threads c !! t = Some (Running code waits todo) ->
    exists l id, asleep_on (Running code waits todo) l /\
      (id, l) ∈ waiters (registry (shared c)) /\ waits (state_value (shared c)) = true.
Proof.
  intros (φ & ws & Hg & HW & Hths) Hstuck.
  pose proof (stuck_parked φ ws c o Hg Hths Hstuck) as Hpark. split.
  - destruct (state_owner (shared c)) as [t|] eqn:Ho; [|done].
    apply (lk_owner _ _ _ (g_lock _ _ _ _ Hg)) in Ho as [? Hh].
    destruct (Hpark t) as [Hs|(? & ? & _ & Hm & _)]; destruct Hs || destruct Hm; congruence.
  - intros t code waits todo Ht. pose proof (Hths t) as Hth. rewrite Ht in Hth.
    destruct Hth as (Hws & _ & Hsafe).
    destruct (stuck_thread φ ws c t _ o Hg Hths Hstuck Ht) as [[]|(e & Hab & Hb & Hmay & Hh)].
    destruct e; try done; simpl in Hh.
    + destruct (state_owner (shared c)) as [t'|] eqn:Ho; [|done].
      apply (lk_owner _ _ _ (g_lock _ _ _ _ Hg)) in Ho as [? Hh'].
      destruct (Hpark t') as [Hs|(? & ? & _ & Hm & _)]; destruct Hs || destruct Hm; congruence.
    + destruct (parked_waits φ ws c t w o) as (id & Hin & Hw); try done; [by case_decide|].
      exists w, id. rewrite <- Hws. split; [by left|done].
    + destruct (parked_waits φ ws c t w o) as (id & Hin & Hw); try done; [by case_decide|].
      exists w, id. rewrite <- Hws. split; [by right|done].
Qed.

(** The calls that touch the state. *)
Definition touches_state (e : monitor_op T) : Prop :=
  match e with GetState _ | SetState _ _ | UnlockState _ _ => True | _ => False end.

Lemma touches_owner c t th e :
  system_ok c -> threads c !! t = Some th -> about_to th e -> touches_state e ->
  state_owner (shared c) = Some t.
Proof.
  intros (φ & ws & Hg & HW & Hths) Ht Hab He.
  pose proof (about_to_may φ ws c t th e Hths Ht Hab) as Hmay.
  apply (lk_owner _ _ _ (g_lock _ _ _ _ Hg)). destruct e; try done; simpl in Hmay; tauto.
Qed.

Lemma all_finished c :
  system_ok c -> Forall finished (threads c) ->
  waiters (registry (shared c)) = [] /\ state_owner (shared c) = None.
Proof.
  intros (φ & ws & Hg & HW & Hths) Hfin.
  assert (Hset : forall t, settled (φ t)).
  { intros t. specialize (Hths t). destruct (threads c !! t) as [[]|] eqn:Ht; [|done|done].
    rewrite Forall_lookup in Hfin. by apply Hfin in Ht. }
  split.
  - destruct (waiters (registry (shared c))) as [|[id l] rest] eqn:Hw; [done|].
    destruct (sl_entry _ _ (g_slots _ _ _ _ Hg) id l) as [t Ht]; [rewrite Hw; constructor|].
    destruct (Hset t) as (_ & Hn & _). congruence.
  - destruct (state_owner (shared c)) as [t|] eqn:Ho; [|done].
    apply (lk_owner _ _ _ (g_lock _ _ _ _ Hg)) in Ho as [? Ho]. destruct (Hset t). congruence.
Qed.

Lemma state_ok c : system_ok c -> J (state_value (shared c)).
Proof. intros (φ & ws & [[_ _ HJ] _ _] & _). exact HJ. Qed.

(** ** Every reachable configuration *)
Context (state : T) (tm : Timer) (tasks : list (list (task T))).
Hypothesis W_idle : W (fun _ => false).
Hypothesis J_state : J state.
Hypothesis tasks_ok : Forall (Forall task_ok) tasks.

Lemma initial_ok : system_ok (initial state tm tasks).
Proof.
  exists (fun _ => Out False), (fun _ _ => false). split; [|split; [done|]].
  - split.
    + split; simpl; [|done|done]. intros t. split; [done|by intros []].
    + split; simpl; try done; [apply new_ok|]. intros id l Hin. by apply not_elem_of_nil in Hin.
    + intros t l id [=].
  - intros t. simpl. rewrite list_lookup_fmap. destruct (tasks !! t) as [todo|] eqn:Ht; simpl.
    + split; [done|split].
      * rewrite Forall_forall in tasks_ok. apply tasks_ok. by eapply list_elem_of_lookup_2.
      * intros n. apply safe_ret. repeat split; simpl; tauto.
    + repeat split; simpl; tauto.
Qed.

Lemma reachable_ok c : reachable state tm tasks c -> system_ok c.
Proof.
  intros Hr. eapply (rtc_ind_r (fun c => system_ok c)); [apply initial_ok| |exact Hr].
  intros c1 c2 _ Hst Hok. by eapply step_ok.
Qed.

End Threads.
