(* ===== verification/GuardWaitSpec.v ===== *)
(** * The suspensions keep the monitor protocol

    [wait_for_notification] and [wait_with_timer] over any slot that owns the
    state lock and any way to reacquire it, and the notifications. *)
From S2P Require Import Prelude Program WaitResult Primitives BlockingWaiter GuardWait Protocol.

Section Specs.
Context `{QubitClock} {T : Type}.
Abbreviation Σ := (MonitorSig T).
Context (W : (T -> bool) -> Prop) (J : T -> Prop) (waits : T -> bool).
Abbreviation safe' := (safe (protocol W J waits)).

(** One call, with the protocol's rules spelled out. *)
Lemma mcall n l (e : monitor_op T) (Q : local T -> outcome (monitor_resp e) -> Prop) :
  may J waits l e -> (forall r, relies J l e r -> Q (moves W l e r) (Returned r)) ->
  safe' n l (call (Σ := Σ) e) Q.
Proof. exact (safe_call_c (protocol W J waits) n l e Q). Qed.

(** An acquisition of the state mutex. *)
Definition acquires (reacquire : comp Σ MutexGuard) : Prop :=
  forall n d (Q : local T -> outcome MutexGuard -> Prop),
    Q (Holding None d) (Returned TheGuard) -> safe' n (Out d) reacquire Q.

Context (msg : string) (reacquire : comp Σ MutexGuard) (reacquires : acquires reacquire).

(** ** The registration around a suspension *)
Lemma register_spec n k d (Q : local T -> outcome BlockingWaiterRegistration -> Prop) :
  (forall id l, Q (MkLocal (Some k) (Registered l id) [] d)
                  (Returned {| waiter_id := id; waiter := l |})) ->
  (forall c, Q (Holding k d) (Unwinding c)) ->
  safe' n (Holding k d) register Q.
Proof.
  intros HQ HQc. apply safe_cbind, (mcall _ _ NewWaiter); [done|]. intros l _ i _.
  apply safe_cbind. eapply safe_bind; [apply safe_call with (Q := fun l' r =>
    l' = moves W (MkLocal (Some k) (Fresh l) [] d) (RegistryRegister l) r)|].
  - split; [done|by exists k].
  - done.
  - intros j l' [id|c] _ ->; apply safe_ret; [|apply HQc]. intros j' _. apply safe_return, HQ.
Qed.

Lemma drop_registration_spec n h id l p d (Q : local T -> outcome unit -> Prop) :
  Q (MkLocal h NoSlot p d) (Returned tt) ->
  safe' n (MkLocal h (Registered l id) p d)
    (drop_registration {| waiter_id := id; waiter := l |}) Q.
Proof.
  intros HQ. apply safe_cbind, (mcall _ _ (RegistryUnregister id)); [by exists l|]. intros r _ i _. by apply safe_return.
Qed.

Lemma release_spec n s id l d (Q : local T -> option MutexGuard * outcome unit -> Prop) :
  ~ d -> waits s = true ->
  Q (MkLocal None (Registered l id) [] d) (None, Returned tt) ->
  safe' n (MkLocal (Some (Some s)) (Registered l id) [] d)
    (release_guard drop_mutex_guard msg (Some TheGuard)) Q.
Proof.
  intros Hd Hs HQ. apply safe_sbind, safe_ret. intros i1 _. apply safe_sbind, safe_ret. intros i2 _.
  apply safe_sbind, safe_lift, safe_ret. intros i3 _. apply safe_lift, (mcall _ _ (UnlockState TheGuard false)); [|by intros [] _].
  split; [by exists (Some s)|]. split; [done|]. split; [done|]. by exists s.
Qed.

Lemma await_spec {S} n l id d (s : S) (Q : local T -> S * outcome unit -> Prop) :
  ~ d -> Q (MkLocal None (Registered l id) [] d) (s, Returned tt) ->
  safe' n (MkLocal None (Registered l id) [] d) (lift (wait l) s) Q.
Proof.
  intros Hd HQ. apply safe_lift, (mcall _ _ (AwaitSignal l)); [|by intros [] _].
  split; [done|split; [done|split; [done|]]]. by exists id.
Qed.

Lemma poll_spec {S} n l waker future (s : S) (Q : local T -> S * outcome (Poll (Result unit TimeError)) -> Prop) :
  (forall r, Q l (s, Returned r)) ->
  safe' n l (lift (call (Σ := Σ) (TimerPoll future waker)) s) Q.
Proof. intros HQ. apply safe_lift, (mcall _ _ (TimerPoll future waker)); [done|]. intros r _. apply HQ. Qed.

(** The slot owns the lock before and after, also when the suspension unwinds. *)
Lemma wait_for_notification_spec n s d (Q : local T -> option MutexGuard * outcome unit -> Prop) :
  waits s = true -> ~ d -> (forall k o, Q (Holding k d) (Some TheGuard, o)) ->
  safe' n (Holding (Some s) d) (wait_for_notification drop_mutex_guard msg reacquire (Some TheGuard)) Q.
Proof.
  intros Hs Hd HQ. apply safe_sbind, safe_lift, register_spec; [|by intros; apply HQ].
  intros id l i1 _. apply safe_sbind, safe_scoped_in, safe_sbind, release_spec; [done..|].
  intros i2 _. apply await_spec; [done|]. intros i3 _. apply drop_registration_spec. intros i4 _.
  apply safe_sbind, safe_lift, reacquires. intros i5 _. apply safe_ret. by apply HQ.
Qed.

Lemma wait_with_timer_spec n s d future
    (Q : local T -> option MutexGuard * outcome (Result WaitTimeoutStatus TimeError) -> Prop) :
  waits s = true -> ~ d -> (forall k o, Q (Holding k d) (Some TheGuard, o)) ->
  safe' n (Holding (Some s) d) (wait_with_timer drop_mutex_guard future msg reacquire (Some TheGuard)) Q.
Proof.
  intros Hs Hd HQ. apply safe_sbind, poll_spec. intros [r|] i1 _.
  { apply safe_ret. by apply HQ. }
  apply safe_sbind, safe_lift, register_spec; [|by intros; apply HQ].
  intros id l i2 _. apply safe_sbind, safe_scoped_in, safe_sbind, poll_spec. intros [r|] i3 _.
  { apply safe_ret. intros i4 _. apply drop_registration_spec. intros i5 _.
    apply safe_ret. by apply HQ. }
  apply safe_sbind, release_spec; [done..|]. intros i4 _. apply safe_sbind, await_spec; [done|].
  intros i5 _. apply safe_ret. intros i6 _. apply drop_registration_spec. intros i7 _.
  apply safe_sbind, safe_lift, reacquires. intros i8 _.
  apply safe_sbind, safe_ret. intros i9 _. apply safe_sbind, poll_spec.
  intros [r|] i10 _; apply safe_ret; by apply HQ.
Qed.

(** Release for good, before a notification. *)
Lemma release_for_good_spec n k d (Q : local T -> option MutexGuard * outcome unit -> Prop) :
  Q (Out d) (None, Returned tt) ->
  safe' n (Holding k d) (release_guard drop_mutex_guard msg (Some TheGuard)) Q.
Proof.
  intros HQ. apply safe_sbind, safe_ret. intros i1 _. apply safe_sbind, safe_ret. intros i2 _.
  apply safe_sbind, safe_lift, safe_ret. intros i3 _.
  apply safe_lift, (mcall _ _ (UnlockState TheGuard false)); [by split; [exists k|]|]. by intros [] _.
Qed.

(** ** Notification *)
Lemma wake_each_spec n ls d (Q : local T -> outcome unit -> Prop) h :
  Q (MkLocal h NoSlot [] d) (Returned tt) ->
  safe' n (MkLocal h NoSlot ls d) (wake_each ls) Q.
Proof.
  intros HQ. revert n. induction ls as [|l ls IH]; intros n; [by apply safe_return|].
  apply safe_cbind, (mcall _ _ (SignalWaiter l)); [by exists ls|]. intros [] _ i _. apply IH.
Qed.

Lemma notify_all_spec n d h (Q : local T -> outcome unit -> Prop) :
  Q (MkLocal h NoSlot [] False) (Returned tt) ->
  safe' n (MkLocal h NoSlot [] d) BlockingWaiter.notify_all Q.
Proof.
  intros HQ. apply safe_cbind, (mcall _ _ RegistryTakeAll); [done|]. intros ls _ i _. by apply wake_each_spec.
Qed.

Lemma notify_one_spec n d h (Q : local T -> outcome unit -> Prop) :
  Q (MkLocal h NoSlot [] d) (Returned tt) ->
  safe' n (MkLocal h NoSlot [] d) BlockingWaiter.notify_one Q.
Proof.
  intros HQ. apply safe_cbind, (mcall _ _ RegistryTakeOne); [done|]. intros [l|] _ i _; [|by apply safe_return].
  apply (mcall _ _ (SignalWaiter l)); [by exists []|]. by intros [] _.
Qed.

End Specs.
