(* ===== verification/ConditionWaitSpec.v ===== *)
(** * The predicate waits keep the monitor protocol

    [GuardLaws] is what the waits of [ConditionWait.v] need of a guard type, and
    [suspends] what they need of a suspension operation. Under these, every wait
    obeys the protocol, runs its action at most once, on a state whose predicate
    does not block, and gives the lock back on every exit. *)
From S2P Require Import Prelude Program WaitResult Primitives GuardWait ConditionWait Protocol GuardWaitSpec.

(** Whether a predicate's answer is to block. *)
Definition blocks {T} (w : T -> outcome bool) (s : T) : bool :=
  match w s with Returned b => b | Unwinding _ => false end.

(** What a guard type promises its clients: [owns], while its thread owns the
    lock, and [gone], when an unwinding suspension has given it up. *)
Class GuardLaws `{QubitClock} {T G : Type} `{!MonitorGuard T G} (W : (T -> bool) -> Prop) (J : T -> Prop)
    (waits : T -> bool) (owns gone : G -> Prop) : Prop := {
  law_deref n k d g (Q : local T -> outcome T -> Prop) :
    owns g ->
    (forall s, J s -> (forall s0, k = Some s0 -> s = s0) -> Q (Holding (Some s) d) (Returned s)) ->
    safe (protocol W J waits) n (Holding k d) (deref g) Q;
  law_deref_mut n s d g s' (Q : local T -> outcome unit -> Prop) :
    owns g -> J s' ->
    Q (Holding (Some s') (d \/ ~ harmless W s s')) (Returned tt) ->
    safe (protocol W J waits) n (Holding (Some s) d) (deref_mut g s') Q;
  law_drop n k d g panicking (Q : local T -> outcome unit -> Prop) :
    owns g -> Q (Out d) (Returned tt) ->
    safe (protocol W J waits) n (Holding k d) (drop_guard g panicking) Q;
  law_drop_gone n d g panicking (Q : local T -> outcome unit -> Prop) :
    gone g -> Q (Out d) (Returned tt) ->
    safe (protocol W J waits) n (Out d) (drop_guard g panicking) Q
}.

(** What the waits need of the operations they are given. *)
Section Interfaces.
Context `{QubitClock} {T G : Type} (W : (T -> bool) -> Prop) (J : T -> Prop) (waits : T -> bool) (owns gone : G -> Prop).

(** A suspension is entered with the lock, on a state known to block, and comes
    back with the lock when it returns; when it unwinds it may have lost it. *)
Definition suspends {A} (wait : stateful (MonitorSig T) G A) : Prop :=
  forall n s d g (Q : local T -> G * outcome A -> Prop),
    owns g -> waits s = true -> ~ d ->
    (forall k g' o, owns g' -> Q (Holding k d) (g', o)) ->
    (forall g' c, gone g' -> Q (Out d) (g', Unwinding c)) ->
    safe (protocol W J waits) n (Holding (Some s) d) (wait g) Q.

(** An acquisition of the lock. *)
Definition locks (lock : comp (MonitorSig T) G) : Prop :=
  forall n d (Q : local T -> outcome G -> Prop),
    (forall g, owns g -> Q (Holding None d) (Returned g)) ->
    safe (protocol W J waits) n (Out d) lock Q.

(** A notification that consumes the guard and leaves the debt [after d]. *)
Definition consumes (after : Prop -> Prop) (notify : G -> comp (MonitorSig T) unit) : Prop :=
  forall n k d g (Q : local T -> outcome unit -> Prop),
    owns g -> Q (Out (after d)) (Returned tt) ->
    safe (protocol W J waits) n (Holding k d) (notify g) Q.
End Interfaces.

Section Specs.
Context `{QubitClock} {T G R : Type} `{!MonitorGuard T G}.
Context (W : (T -> bool) -> Prop) (J : T -> Prop).
Context (w : T -> outcome bool) (owns gone : G -> Prop) `{!GuardLaws W J (blocks w) owns gone}.
Context (f : T -> T * outcome R) (f_keeps : forall s, J s -> w s = Returned false -> J (f s).1).
Abbreviation Σ := (MonitorSig T).
(* the predicate's program, without calls of its own *)
Context (waiting : T -> comp Σ bool) (waiting_is : forall s, next (waiting s) = HRet (w s)).
Abbreviation safe' := (safe (protocol W J (blocks w))).

(** The debt after [f] ran on [s]. *)
Definition acted (d : Prop) (s : T) : Prop := d \/ ~ harmless W s (f s).1.

(** How a wait ends: the action ran on a state that does not block, or the wait
    unwound before the action. *)
Definition ended (d d' : Prop) (o : outcome R) : Prop :=
  (exists s, J s /\ w s = Returned false /\ o = (f s).2 /\ d' = acted d s) \/
  (is_unwinding o = true /\ d' = d).

Definition ready_outcome (o : outcome R) : outcome (Result (WaitTimeoutResult R) TimeError) :=
  match o with
  | Returned r => Returned (Ok (WaitReady r))
  | Unwinding c => Unwinding c
  end.

Definition timed_ended (d d' : Prop)
    (o : outcome (Result (WaitTimeoutResult R) TimeError)) : Prop :=
  (exists s, J s /\ w s = Returned false /\ o = ready_outcome (f s).2 /\ d' = acted d s) \/
  ((forall r, o <> Returned (Ok (WaitReady r))) /\ d' = d).

(** ** The steps of a wait *)
Lemma check_spec n k d g (Q : local T -> G * outcome bool -> Prop) :
  owns g ->
  (forall s, J s -> Q (Holding (Some s) d) (g, w s)) ->
  safe' n (Holding k d) (check waiting g) Q.
Proof.
  intros Hg HQ. apply safe_sbind, safe_ret. intros i _. apply safe_sbind, safe_lift.
  eapply law_deref; [done|]. intros s HJ _ j _. apply safe_lift.
  eapply safe_next; [apply waiting_is|]. by apply HQ.
Qed.

Lemma apply_mut_spec n s d g (Q : local T -> G * outcome R -> Prop) :
  owns g -> J s -> w s = Returned false ->
  Q (Holding (Some (f s).1) (acted d s)) (g, (f s).2) ->
  safe' n (Holding (Some s) d) (apply_mut (action f) g) Q.
Proof.
  intros Hg HJ Hw HQ. apply safe_sbind, safe_ret. intros i _. apply safe_sbind, safe_lift.
  eapply law_deref; [done|]. intros s' _ Hs'. rewrite (Hs' s eq_refl). intros j _.
  apply safe_sbind, safe_run_on, safe_ret. intros j' _.
  apply safe_sbind, safe_lift. eapply law_deref_mut; [done|by apply f_keeps|].
  intros j'' _. apply safe_lift, safe_ret. unfold acted in HQ.
  destruct (f s) as [s2 o]. exact HQ.
Qed.

(** How a body leaves its guard: with the lock, or without it when the guard is
    gone. Then the guard is dropped and [Q] is to hold. *)
Definition leaves {A} (Q : local T -> outcome A -> Prop) (l : local T) (g : G) (o : outcome A) : Prop :=
  (owns g /\ exists k d, l = Holding k d /\ Q (Out d) o) \/ (gone g /\ exists d, l = Out d /\ Q (Out d) o).

Lemma drop_leaves {A} n l g (o : outcome A) panicking (Q : local T -> outcome A -> Prop)
    (Q' : local T -> outcome unit -> Prop) :
  leaves Q l g o -> (forall d, Q (Out d) o -> Q' (Out d) (Returned tt)) ->
  safe' n l (drop_guard g panicking) Q'.
Proof.
  intros [(Hg & k & d & -> & HQ)|(Hg & d & -> & HQ)] HQ'; [eapply law_drop|eapply law_drop_gone]; eauto.
Qed.

(** A body between acquiring the guard and dropping it. *)
Lemma scoped_guard_spec {A} n k d g (m : stateful Σ G A) (Q : local T -> outcome A -> Prop) :
  safe' n (Holding k d) (m g) (fun l '(g', o) => leaves Q l g' o) ->
  safe' n (Holding k d) (scoped g drop_guard m) Q.
Proof.
  intros Hm. apply safe_scoped. eapply safe_mono; [reflexivity|exact Hm|].
  intros l [g' o] Hl i _. eapply drop_leaves; [exact Hl|]. intros d' HQ. by destruct o.
Qed.

Lemma while_spec n k d g (wait : stateful Σ G unit) (Q : local T -> G * outcome unit -> Prop) :
  suspends W J (blocks w) owns gone wait -> ~ d -> owns g ->
  (forall s g', owns g' -> J s -> w s = Returned false -> Q (Holding (Some s) d) (g', Returned tt)) ->
  (forall k' g' c, owns g' -> Q (Holding k' d) (g', Unwinding c)) ->
  (forall g' c, gone g' -> Q (Out d) (g', Unwinding c)) ->
  safe' n (Holding k d) (while (check waiting) wait g) Q.
Proof.
  intros Hwait Hd Hg HQ HQc HQg.
  apply (safe_sloop _ (fun l g => owns g /\ exists k, l = Holding k d)); [eauto|].
  intros m l g0 _ (Hg0 & k0 & ->). apply safe_sbind, check_spec; [done|]. intros s HJ.
  destruct (w s) as [[]|c] eqn:Hw; [| |by apply HQc].
  - intros i _. apply safe_sbind. apply Hwait; [done|unfold blocks; by rewrite Hw|done| |done].
    intros k' g' [[]|c] Hg'; [|by apply HQc]. intros j _. apply safe_ret. eauto.
  - intros i _. apply safe_ret. by apply HQ.
Qed.

Lemma wait_while_locked_spec n k d g (wait : stateful Σ G unit) (Q : local T -> outcome R -> Prop) :
  suspends W J (blocks w) owns gone wait -> ~ d -> owns g ->
  (forall d' o, ended d d' o -> Q (Out d') o) ->
  safe' n (Holding k d) (wait_while_locked g waiting (action f) wait) Q.
Proof.
  intros Hwait Hd Hg HQ. apply scoped_guard_spec, safe_sbind. apply while_spec; try done.
  - intros s g' Hg' HJ Hw i _. apply apply_mut_spec; [done..|]. left. split; [done|].
    exists (Some (f s).1), (acted d s). split; [done|]. apply HQ. left. eauto.
  - intros k' g' c Hg'. left. split; [done|]. exists k', d. split; [done|]. apply HQ. by right.
  - intros g' c Hg'. right. split; [done|]. exists d. split; [done|]. apply HQ. by right.
Qed.

(** ** Timed waits *)
Context (wait : TimerFuture -> stateful Σ G (Result WaitTimeoutStatus TimeError)).
Hypothesis wait_suspends : forall future, suspends W J (blocks w) owns gone (wait future).

Abbreviation Timed := (Result (WaitTimeoutResult R) TimeError).

(** Checked states: the predicate was evaluated on [s], and the lock not
    released since. *)
Lemma ready_spec n s d g (Q : local T -> outcome Timed -> Prop) :
  owns g -> J s -> w s = Returned false ->
  (forall d' o, timed_ended d d' o -> Q (Out d') o) ->
  safe' n (Holding (Some s) d) (apply_mut (action f) g)
    (fun l '(g', o) => leaves (fun l _ => Q l (ready_outcome o)) l g' o).
Proof.
  intros Hg HJ Hw HQ. apply apply_mut_spec; [done..|]. left. split; [done|].
  exists (Some (f s).1), (acted d s). split; [done|]. apply HQ. left. eauto.
Qed.

Lemma wait_while_with_timer_locked_spec n s d g future (Q : local T -> outcome Timed -> Prop) :
  blocks w s = true -> ~ d -> owns g ->
  (forall d' o, timed_ended d d' o -> Q (Out d') o) ->
  safe' n (Holding (Some s) d)
    (wait_while_with_timer_locked g future waiting (action f) wait) Q.
Proof.
  intros Hs Hd Hg HQ. apply scoped_guard_spec.
  assert (HQ' : forall o, (forall r, o <> Returned (Ok (WaitReady r))) -> Q (Out d) o)
    by (intros; apply HQ; by right).
  apply (safe_sloop _ (fun l g => owns g /\ exists s, l = Holding (Some s) d /\ blocks w s = true));
    [eauto|].
  assert (Hleave : forall (k : option T) g' o, owns g' -> (forall r, o <> Returned (Ok (WaitReady r))) ->
    leaves Q (Holding k d) g' o) by (left; eauto 7).
  intros m l g0 _ (Hg0 & s0 & -> & Hs0). apply safe_sbind, wait_suspends; [done..| |].
  2: { intros g1 c Hg1. right. split; [done|]. eauto. }
  intros k g1 [[status|e]|c] Hg1; [intros i _|intros i _; apply safe_ret; by apply Hleave|by apply Hleave].
  apply safe_sbind, check_spec; [done|]. intros s1 HJ1.
  destruct (w s1) as [[]|c] eqn:Hw; [intros j _; simpl|intros j _; simpl|].
  - destruct (status_is_timed_out status); apply safe_ret.
    + by apply Hleave.
    + split; [done|]. exists s1. split; [done|]. unfold blocks. by rewrite Hw.
  - apply safe_sbind. eapply safe_mono; [reflexivity|by apply (ready_spec _ s1 d g1 Q)|].
    intros l [g2 [r|c]] HR; [intros j' _; by apply safe_ret|exact HR].
  - by apply Hleave.
Qed.

(** The prefix of a timed wait either decides the wait or leaves a blocked state
    to wait on. *)
Lemma then_wait_spec n k d g (m : stateful Σ G (Timed + TimerFuture)) (Q : local T -> outcome Timed -> Prop) :
  ~ d ->
  (forall d' o, timed_ended d d' o -> Q (Out d') o) ->
  safe' n (Holding k d) (m g) (fun l '(g', o) =>
     match o with
     | Returned (inl r) => leaves Q l g' (Returned r)
     | Returned (inr _) => owns g' /\ exists s, l = Holding (Some s) d /\ blocks w s = true
     | Unwinding c => leaves Q l g' (Unwinding c)
     end) ->
  safe' n (Holding k d) (owned g drop_guard m (then_wait waiting (action f) wait)) Q.
Proof.
  intros Hd HQ Hm. apply safe_owned. eapply safe_mono; [reflexivity|exact Hm|].
  intros l [g' [[r|future]|c]] Hx; intros i _.
  - apply safe_cbind. eapply drop_leaves; [exact Hx|]. intros d' HR j _. by apply safe_ret.
  - destruct Hx as (Hg' & s & -> & Hs). by apply wait_while_with_timer_locked_spec.
  - eapply drop_leaves; [exact Hx|]. done.
Qed.

(** Calls to the clock and the timer, and polls, do not change the ghost state. *)
Definition is_timer_op (e : monitor_op T) : Prop :=
  match e with
  | TimerClockNow _ | TimerDeadlineAfter _ _ | TimerAt _ _ | TimerAfter _ _ | TimerPoll _ _ => True
  | _ => False
  end.

Lemma timer_call_spec {S} n l (e : monitor_op T) (s : S) (Q : local T -> S * outcome (monitor_resp e) -> Prop) :
  is_timer_op e -> (forall r, Q l (s, Returned r)) ->
  safe' n l (lift (S := S) (call (Σ := Σ) e) s) Q.
Proof.
  intros He HQ. apply safe_lift, safe_call_c; [by destruct e|].
  intros r _. simpl in *. assert (moves W l e r = l) as -> by (by destruct e). apply HQ.
Qed.

Context (lock : comp Σ G) (lock_locks : locks W J (blocks w) owns lock).

Lemma wait_while_for_spec n d timer timeout (Q : local T -> outcome Timed -> Prop) :
  ~ d -> (forall d' o, timed_ended d d' o -> Q (Out d') o) ->
  safe' n (Out d) (wait_while_for timer timeout lock waiting (action f) wait) Q.
Proof.
  intros Hd HQ. apply safe_cbind, lock_locks. intros g Hg i _. apply then_wait_spec; [done..|].
  assert (Hleave : forall s o, (forall r, o <> Returned (Ok (WaitReady r))) -> leaves Q (Holding (Some s) d) g o).
  { intros s o Ho. left. split; [done|]. exists (Some s), d. split; [done|]. apply HQ. by right. }
  apply safe_sbind, timer_call_spec; [exact I|]. intros started j _.
  apply safe_sbind, check_spec; [done|]. intros s HJ. destruct (w s) as [[]|c] eqn:Hw.
  - intros j' _. simpl. destruct (Duration_is_zero timeout); [apply safe_ret; by apply Hleave|].
    destruct (instant_checked_add _ _) as [deadline|e]; [|apply safe_ret; by apply Hleave].
    apply safe_sbind, (timer_call_spec _ _ (TimerAt timer deadline)); [exact I|]. intros [future|e] j'' _; apply safe_ret; [|by apply Hleave].
    split; [done|]. exists s. unfold blocks. by rewrite Hw.
  - intros j' _. simpl. apply safe_sbind. eapply safe_mono; [reflexivity|by apply (ready_spec _ s d g Q)|].
    intros l [g' [r|c]] HR; [|exact HR]. intros j'' _. by apply safe_ret.
  - by apply Hleave.
Qed.

Lemma wait_while_with_deadline_spec n d timer deadline (Q : local T -> outcome Timed -> Prop) :
  ~ d -> (forall d' o, timed_ended d d' o -> Q (Out d') o) ->
  safe' n (Out d) (wait_while_with_deadline timer deadline lock waiting (action f) wait) Q.
Proof.
  intros Hd HQ. apply safe_cbind, lock_locks. intros g Hg i _. apply then_wait_spec; [done..|].
  assert (Hleave : forall s o, (forall r, o <> Returned (Ok (WaitReady r))) -> leaves Q (Holding (Some s) d) g o).
  { intros s o Ho. left. split; [done|]. exists (Some s), d. split; [done|]. apply HQ. by right. }
  apply safe_sbind, check_spec; [done|]. intros s HJ. destruct (w s) as [[]|c] eqn:Hw.
  - intros j' _. simpl. apply safe_sbind, (timer_call_spec _ _ (TimerAt timer deadline)); [exact I|].
    intros [future|e] j'' _; [|apply safe_ret; by apply Hleave].
    apply safe_sbind, (timer_call_spec _ _ (TimerPoll future None)); [exact I|]. intros [[u|e]|] j3 _; apply safe_ret; [by apply Hleave..|].
    split; [done|]. exists s. unfold blocks. by rewrite Hw.
  - intros j' _. simpl. apply safe_sbind. eapply safe_mono; [reflexivity|by apply (ready_spec _ s d g Q)|].
    intros l [g' [r|c]] HR; [|exact HR]. intros j'' _. by apply safe_ret.
  - by apply Hleave.
Qed.

(** The deadline is asked for before the lock is taken. *)
Lemma total_timeout_spec n d timer timeout (Q : local T -> outcome Timed -> Prop) :
  ~ d -> (forall d' o, timed_ended d d' o -> Q (Out d') o) ->
  safe' n (Out d)
    (try_bind (call (Σ := Σ) (TimerDeadlineAfter timer timeout))
       (fun deadline => wait_while_with_deadline timer deadline lock waiting (action f) wait)) Q.
Proof.
  intros Hd HQ. apply safe_cbind, (mcall _ _ _ _ _ (TimerDeadlineAfter timer timeout)); [done|].
  intros [deadline|e] _ i _; [by apply wait_while_with_deadline_spec|].
  apply safe_return, HQ. by right.
Qed.

(** The unconditional wait. *)
Lemma wait_while_spec n d (wait' : stateful Σ G unit) (Q : local T -> outcome R -> Prop) :
  suspends W J (blocks w) owns gone wait' -> ~ d -> (forall d' o, ended d d' o -> Q (Out d') o) ->
  safe' n (Out d) (guard ← lock; wait_while_locked guard waiting (action f) wait') Q.
Proof. intros Hw Hd HQ. apply safe_cbind, lock_locks. intros g Hg i _. by apply wait_while_locked_spec. Qed.

End Specs.

(** ** Critical sections without waiting *)
Section Sections.
Context `{QubitClock} {T G R : Type} `{!MonitorGuard T G}.
Context (W : (T -> bool) -> Prop) (J : T -> Prop) (waits : T -> bool) (owns gone : G -> Prop)
  `{!GuardLaws W J waits owns gone} (lock : comp (MonitorSig T) G) (lock_locks : locks W J waits owns lock).
Abbreviation Σ := (MonitorSig T).
Abbreviation safe' := (safe (protocol W J waits)).

Lemma scoped_section_spec {A} n k d g (m : stateful Σ G A) (Q : local T -> outcome A -> Prop) :
  safe' n (Holding k d) (m g)
    (fun l '(g', o) => owns g' /\ exists k' d', l = Holding k' d' /\ Q (Out d') o) ->
  safe' n (Holding k d) (scoped g drop_guard m) Q.
Proof.
  intros Hm. apply safe_scoped. eapply safe_mono; [reflexivity|exact Hm|].
  intros l [g' o] (Hg' & k' & d' & -> & HQ) i _.
  eapply law_drop; [done|]. by destruct o.
Qed.

Lemma read_spec n d (f : T -> outcome R) (Q : local T -> outcome R -> Prop) :
  (forall s, J s -> Q (Out d) (f s)) ->
  safe' n (Out d)
    (guard ← lock; scoped guard drop_guard (s ← lift (deref guard); lift (Ret (f s)))) Q.
Proof.
  intros HQ. apply safe_cbind, lock_locks. intros g Hg i _. apply scoped_section_spec.
  apply safe_sbind, safe_lift. eapply law_deref; [done|].
  intros s HJ _ i1 _. apply safe_lift, safe_ret. split; [done|]. exists (Some s), d. auto.
Qed.

Context (f : T -> T * outcome R) (f_keeps : forall s, J s -> J (f s).1).

Lemma update_spec n d g (Q : local T -> G * outcome R -> Prop) :
  owns g ->
  (forall s, J s -> Q (Holding (Some (f s).1) (acted W f d s)) (g, (f s).2)) ->
  safe' n (Holding None d) (apply_mut (action f) g) Q.
Proof.
  intros Hg HQ. apply safe_sbind, safe_ret. intros i _. apply safe_sbind, safe_lift.
  eapply law_deref; [done|]. intros s HJ _ i1 _.
  apply safe_sbind, safe_run_on, safe_ret. intros i2 _. apply safe_sbind, safe_lift.
  eapply law_deref_mut; [done|by apply f_keeps|].
  intros i3 _. apply safe_lift, safe_ret. specialize (HQ s HJ). unfold acted in HQ.
  destruct (f s) as [s2 o]. exact HQ.
Qed.

Lemma write_spec n d (Q : local T -> outcome R -> Prop) :
  (forall s, J s -> Q (Out (acted W f d s)) (f s).2) ->
  safe' n (Out d) (guard ← lock; scoped guard drop_guard (apply_mut (action f))) Q.
Proof.
  intros HQ. apply safe_cbind, lock_locks. intros g Hg i _. apply scoped_section_spec.
  apply update_spec; [done|]. intros s HJ. split; [done|]. eauto.
Qed.

Lemma write_notify_spec n d (notify : G -> comp Σ unit) (after : Prop -> Prop)
    (Q : local T -> outcome R -> Prop) :
  consumes W J waits owns after notify ->
  (forall s, J s -> match (f s).2 with
                    | Returned r => Q (Out (after (acted W f d s))) (Returned r)
                    | Unwinding c => Q (Out (acted W f d s)) (Unwinding c)
                    end) ->
  safe' n (Out d)
    (guard ← lock;
     owned guard drop_guard (apply_mut (action f))
       (fun result guard => notify guard ≫= fun _ => ret result)) Q.
Proof.
  intros Hn HQ. apply safe_cbind, lock_locks. intros g Hg i _. apply safe_owned, update_spec; [done|].
  intros s HJ. specialize (HQ s HJ). destruct (f s).2 as [r|c]; intros i1 _.
  - apply safe_cbind, Hn; [done|]. intros i2 _. by apply safe_return.
  - by apply law_drop.
Qed.
End Sections.
