(* ===== verification/Clients.v ===== *)
(** * Threads that use a monitor through its public operations

    A [script] is a client that chooses its next operation from the previous
    results. [OpSpec] says what the operations of an interface require and how
    they may end; [MonitorImpl] is what an implementation discharges
    ([StdMonitorSpec.v], [ParkingLotMonitorSpec.v], [TokioMonitorSpec.v]).
    [well_notified] is the usage rule of the documentation: a client that may have
    unblocked a waiter notifies all before it waits again or ends. The theorems
    hold for any implementation of any interface and any number of threads (or
    asynchronous tasks) running such scripts. *)
From S2P Require Import Prelude Program WaiterRegistry WaitResult Primitives World Protocol Handshake Threads ConditionWaitSpec.

(** What an operation requires and how it may end: its result and whether an
    unblocking write is left without a notification. *)
Record call_spec (R : Type) : Type := MkCallSpec {
  cs_pre : Prop -> Prop;
  cs_post : Prop -> outcome R -> Prop -> Prop
}.

(** The operations [O] of an interface on a state [T], each with its
    specification. Every wait of a client blocks on the client's predicate [w]. *)
Class OpSpec (T : Type) (O : Type -> Type) : Type :=
  op_spec : forall (W : (T -> bool) -> Prop) (J : T -> Prop) (w : T -> outcome bool) {R}, O R -> call_spec R.

Section Scripts.
Context {T : Type} {O : Type -> Type}.

Inductive script (A : Type) : Type :=
| Done (a : A)
| Do {R} (c : O R) (k : R -> script A).
Arguments Done {A} a.
Arguments Do {A R} c k.

(** ** The usage rule *)
Context `{!OpSpec T O} (W : (T -> bool) -> Prop) (J : T -> Prop) (w : T -> outcome bool).

Fixpoint well_notified {A} (d : Prop) (p : script A) : Prop :=
  match p with
  | Done _ => ~ d
  | Do c k =>
      cs_pre _ (op_spec W J w c) d /\
      forall o d', cs_post _ (op_spec W J w c) d o d' ->
        match o with Returned r => well_notified d' (k r) | Unwinding _ => ~ d' end
  end.
End Scripts.
Arguments script O A : clear implicits.
Arguments Done {O A} a.
Arguments Do {O A R} c k.

(** ** Implementations *)
Class MonitorImpl `{QubitClock} (T : Type) (O : Type -> Type) `{!OpSpec T O} : Type := {
  interp : forall {R}, (T -> outcome bool) -> O R -> comp (MonitorSig T) R;
  interp_spec : forall (W : (T -> bool) -> Prop) (J : T -> Prop) w n d R (c : O R)
      (Q : local T -> outcome R -> Prop),
    cs_pre _ (op_spec W J w c) d -> (forall o d', cs_post _ (op_spec W J w c) d o d' -> Q (Out d') o) ->
    safe (protocol W J (blocks w)) n (Out d) (interp w c) Q
}.

Section Client.
Context `{QubitClock} {T : Type} {O : Type -> Type} `{!OpSpec T O} `{!MonitorImpl T O}.
Abbreviation Σ := (MonitorSig T).

Fixpoint run_script {A} (w : T -> outcome bool) (p : script O A) : comp Σ A :=
  match p with
  | Done a => ret a
  | Do c k => r ← interp w c; run_script w (k r)
  end.

(** A client: the predicate it may wait on, and its script. *)
Record client : Type := MkClient {
  client_result : Type;
  client_waiting : T -> outcome bool;
  client_script : script O client_result
}.

Definition client_task (cl : client) : task T :=
  MkTask (_ ← run_script (client_waiting cl) (client_script cl); ret tt)
    (blocks (client_waiting cl)).

(** A well-notified script obeys the protocol. *)
Lemma run_script_spec {A} W J w n d (p : script O A) :
  well_notified W J w d p ->
  safe (protocol W J (blocks w)) n (Out d) (run_script w p) (fun l _ => settled l).
Proof.
  revert n d. induction p as [a|R c k IH]; intros n d; simpl.
  - intros Hd. by apply safe_return.
  - intros [Hpre Hpost]. apply safe_cbind, interp_spec; [done|]. intros o d' Hc.
    specialize (Hpost o d' Hc). destruct o; [|done]. intros i _. by apply IH.
Qed.

Lemma harmless_refl (W : (T -> bool) -> Prop) (s : T) : harmless W s s.
Proof. by intros w _. Qed.

Lemma settled_Out (l : local T) : settled l -> exists d : Prop, ~ d /\ l = Out d.
Proof. destruct l as [h s p d]. intros (? & ? & ? & ?). simpl in *. subst. by exists d. Qed.

(** ** Systems of clients *)
Section System.
Context (J : T -> Prop) (threads : list (list client)).

(** The predicates anybody may wait on. *)
Definition waited : (T -> bool) -> Prop := fun p =>
  p = (fun _ => false) \/ exists cls cl, cls ∈ threads /\ cl ∈ cls /\ p = blocks (client_waiting cl).

(** Every script of every thread follows the usage rule. *)
Definition disciplined : Prop :=
  forall cls cl, cls ∈ threads -> cl ∈ cls ->
    forall d, ~ d -> well_notified waited J (client_waiting cl) d (client_script cl).

Definition client_tasks : list (list (task T)) := List.map (List.map client_task) threads.

Lemma client_tasks_ok : disciplined -> Forall (Forall (task_ok waited J)) client_tasks.
Proof.
  intros Hd. unfold client_tasks. rewrite !Forall_forall.
  intros tks (cls & <- & Hcls)%list_elem_of_In%in_map_iff. rewrite Forall_forall.
  intros tk (cl & <- & Hcl)%list_elem_of_In%in_map_iff. apply list_elem_of_In in Hcls, Hcl.
  split; simpl; [right; eauto|]. intros n l Hl.
  apply settled_Out in Hl as (d & Hnd & ->). apply safe_cbind.
  eapply safe_mono; [reflexivity|apply run_script_spec; by eapply Hd|].
  intros l [a|c] Hl; [|done]. intros i _. by apply safe_return.
Qed.

Context (state : T) (tm : Timer).

Lemma clients_ok c : disciplined -> J state -> reachable state tm client_tasks c ->
  system_ok waited J c.
Proof.
  intros Hd HJ Hr. eapply reachable_ok; [by left|exact HJ|by apply client_tasks_ok|exact Hr].
Qed.

(** A running thread waits on the predicate of one of the clients. *)
Lemma running_waits c t code waits todo :
  disciplined -> J state -> reachable state tm client_tasks c ->
  World.threads c !! t = Some (Running code waits todo) -> waited waits.
Proof.
  intros Hd HJ Hr Ht. destruct (clients_ok c Hd HJ Hr) as (φ & ws & _ & HW & Hths).
  specialize (Hths t). rewrite Ht in Hths. destruct Hths as (<- & _). apply HW.
Qed.

(** C1: no lost wakeup. Any number of threads run disciplined scripts over the
    whole public interface, plain and timed waits included, under any schedule,
    any timer and any interleaving of the unlocked steps between registering,
    releasing the lock, selecting and signalling. If the system gets stuck, the
    state lock is free and every unfinished thread sleeps on a registration that
    the next notification can still select, with a predicate that blocks on the
    current state: nobody sleeps although it could go on. *)
Theorem no_lost_wakeup (o : answers T) c :
  disciplined -> J state -> reachable state tm client_tasks c -> stuck c ->
  state_owner (shared c) = None /\
  forall t code waits todo, World.threads c !! t = Some (Running code waits todo) ->
    exists l id, asleep_on (Running code waits todo) l /\
      (id, l) ∈ waiters (registry (shared c)) /\ waits (state_value (shared c)) = true.
Proof. intros Hd HJ Hr. apply (stuck_blocked waited J c o). by apply clients_ok. Qed.

(** C16: mutual exclusion and progress of the critical sections: a thread whose
    next call reads, writes or unlocks the state is the owner of the state lock
    (so at most one thread is), and that call is never refused. *)
Theorem state_access_is_exclusive c t th e (o : answers T) :
  disciplined -> J state -> reachable state tm client_tasks c ->
  World.threads c !! t = Some th -> about_to th e -> touches_state e ->
  state_owner (shared c) = Some t /\ is_Some (handle t (shared c) o e).
Proof.
  intros Hd HJ Hr Ht Hab He. pose proof (clients_ok c Hd HJ Hr) as Hok.
  assert (Ho : state_owner (shared c) = Some t) by (by eapply (touches_owner waited J)).
  split; [done|]. destruct e; try done; simpl; rewrite decide_True by done; eauto.
Qed.

(** C17: no leaks. When every thread has finished (by returning or by a panic of
    a closure, of a predicate or of the registry), no registration is left in
    the registry and nobody owns the state lock. *)
Theorem nothing_left_behind c :
  disciplined -> J state -> reachable state tm client_tasks c ->
  Forall finished (World.threads c) ->
  waiters (registry (shared c)) = [] /\ state_owner (shared c) = None.
Proof. intros Hd HJ Hr. apply (all_finished waited J). by apply clients_ok. Qed.

(** C18: an invariant of the state that every action keeps, on panicking paths
    too, holds in every reachable configuration, whoever owns the lock. *)
Theorem state_invariant_holds c :
  disciplined -> J state -> reachable state tm client_tasks c ->
  J (state_value (shared c)).
Proof. intros Hd HJ Hr. apply (state_ok waited). by apply clients_ok. Qed.

End System.
End Client.
Arguments client T O : clear implicits.
