(* ===== verification/MonitorApi.v ===== *)
(** * The public operations of a blocking monitor

    [api] lists the guard-free operations of the blocking monitors as data and
    gives each a specification: an interface in the sense of [Clients.v]. *)
From S2P Require Import Prelude Program WaitResult Primitives ConditionWait Protocol ConditionWaitSpec Clients.

(** [|state| !ready(state)], on what the closure computes. *)
Definition outcome_negb (o : outcome bool) : outcome bool :=
  match o with Returned b => Returned (negb b) | Unwinding c => Unwinding c end.

Section Api.
Context `{QubitClock} {T : Type}.
Abbreviation Σ := (MonitorSig T).

(* operations that only one implementation has, and that neither change the
   state nor notify *)
Context (X : Type -> Type).

(** The operations. Every wait of a script blocks on the script's predicate;
    the [Until] forms are given its negation. *)
Inductive api : Type -> Type :=
| WithRead {R} (f : T -> outcome R) : api R
| WithWrite {R} (f : T -> T * outcome R) : api R
| WithWriteNotifyOne {R} (f : T -> T * outcome R) : api R
| WithWriteNotifyAll {R} (f : T -> T * outcome R) : api R
| NotifyOne : api unit
| NotifyAll : api unit
| WaitWhile {R} (f : T -> T * outcome R) : api R
| WaitUntil {R} (f : T -> T * outcome R) : api R
| WaitUntilReady : api unit
| WaitWhileFor {R} (timeout : Duration) (f : T -> T * outcome R)
    : api (Result (WaitTimeoutResult R) TimeError)
| WaitUntilFor {R} (timeout : Duration) (f : T -> T * outcome R)
    : api (Result (WaitTimeoutResult R) TimeError)
| WaitUntilReadyFor (timeout : Duration) : api (Result (WaitTimeoutResult unit) TimeError)
| WaitWhileWithDeadline {R} (deadline : MonotonicInstant) (f : T -> T * outcome R)
    : api (Result (WaitTimeoutResult R) TimeError)
| WaitUntilWithDeadline {R} (deadline : MonotonicInstant) (f : T -> T * outcome R)
    : api (Result (WaitTimeoutResult R) TimeError)
| WaitUntilReadyWithDeadline (deadline : MonotonicInstant)
    : api (Result (WaitTimeoutResult unit) TimeError)
| WaitWhileWithTotalTimeout {R} (timeout : Duration) (f : T -> T * outcome R)
    : api (Result (WaitTimeoutResult R) TimeError)
| WaitUntilWithTotalTimeout {R} (timeout : Duration) (f : T -> T * outcome R)
    : api (Result (WaitTimeoutResult R) TimeError)
| WaitUntilReadyWithTotalTimeout (timeout : Duration)
    : api (Result (WaitTimeoutResult unit) TimeError)
| Extra {R} (e : X R) : api R.

(** ** Their specifications *)
Section Rule.
Context (W : (T -> bool) -> Prop) (J : T -> Prop) (w : T -> outcome bool).

Definition keeps {R} (f : T -> T * outcome R) : Prop := forall s, J s -> J (f s).1.

(** The action of a wait runs on states that do not block only. *)
Definition keeps_ready {R} (f : T -> T * outcome R) : Prop :=
  forall s, J s -> w s = Returned false -> J (f s).1.

Definition spec_quiet {R} (possible : outcome R -> Prop) : call_spec R :=
  {| cs_pre := fun _ => True; cs_post := fun d o d' => possible o /\ d' = d |}.

Definition spec_write {R} (f : T -> T * outcome R) (notified : Prop -> outcome R -> Prop) : call_spec R :=
  {| cs_pre := fun _ => keeps f;
     cs_post := fun d o d' => exists s, J s /\ o = (f s).2 /\ d' = notified (acted W f d s) o |}.

Definition spec_wait {R} (f : T -> T * outcome R) : call_spec R :=
  {| cs_pre := fun d => keeps_ready f /\ ~ d; cs_post := fun d o d' => ended W J w f d d' o |}.

Definition spec_timed {R} (f : T -> T * outcome R) : call_spec (Result (WaitTimeoutResult R) TimeError) :=
  {| cs_pre := fun d => keeps_ready f /\ ~ d; cs_post := fun d o d' => timed_ended W J w f d d' o |}.

(** [|_| ()], as a function. *)
Definition nothing : T -> T * outcome unit := fun s => (s, Returned tt).

Definition spec_of {R} (c : api R) : call_spec R :=
  match c in api R return call_spec R with
  | WithRead f => spec_quiet (fun o => exists s, J s /\ o = f s)
  | WithWrite f | WithWriteNotifyOne f => spec_write f (fun d _ => d)
  | WithWriteNotifyAll f =>
      spec_write f (fun d o => match o with Returned _ => False | Unwinding _ => d end)
  | NotifyOne => spec_quiet (fun o => o = Returned tt)
  | NotifyAll => {| cs_pre := fun _ => True; cs_post := fun _ o d' => o = Returned tt /\ d' = False |}
  | WaitWhile f | WaitUntil f => spec_wait f
  | WaitUntilReady => spec_wait nothing
  | WaitWhileFor _ f | WaitUntilFor _ f | WaitWhileWithDeadline _ f | WaitUntilWithDeadline _ f
  | WaitWhileWithTotalTimeout _ f | WaitUntilWithTotalTimeout _ f => spec_timed f
  | WaitUntilReadyFor _ | WaitUntilReadyWithDeadline _ | WaitUntilReadyWithTotalTimeout _ =>
      spec_timed nothing
  | Extra _ => spec_quiet (fun _ => True)
  end.

Lemma keeps_nothing : keeps_ready nothing.
Proof. intros s HJ _; exact HJ. Qed.
End Rule.
End Api.
Arguments api {_} T X _.
Arguments WithRead {_ T X R} f.
Arguments WithWrite {_ T X R} f.
Arguments WithWriteNotifyOne {_ T X R} f.
Arguments WithWriteNotifyAll {_ T X R} f.
Arguments NotifyOne {_ T X}.
Arguments NotifyAll {_ T X}.
Arguments WaitWhile {_ T X R} f.
Arguments WaitUntil {_ T X R} f.
Arguments WaitUntilReady {_ T X}.
Arguments WaitWhileFor {_ T X R} timeout f.
Arguments WaitUntilFor {_ T X R} timeout f.
Arguments WaitUntilReadyFor {_ T X} timeout.
Arguments WaitWhileWithDeadline {_ T X R} deadline f.
Arguments WaitUntilWithDeadline {_ T X R} deadline f.
Arguments WaitUntilReadyWithDeadline {_ T X} deadline.
Arguments WaitWhileWithTotalTimeout {_ T X R} timeout f.
Arguments WaitUntilWithTotalTimeout {_ T X R} timeout f.
Arguments WaitUntilReadyWithTotalTimeout {_ T X} timeout.
Arguments Extra {_ T X R} e.
Arguments spec_of {_ T X} W J w {R} c.

#[export] Instance api_spec `{QubitClock} {T X} : OpSpec T (api T X) := fun W J w R c => spec_of W J w c.
