(* ===== verification/BackendSpec.v ===== *)
(** * Every blocking backend implements the monitor interface

    The two blocking monitors differ in their mutex only. [Backend] collects what
    distinguishes them, with the laws of [ConditionWaitSpec.v]; [backend_interp]
    is the body that their operations share, and meets the specification of
    [MonitorApi.v]. An implementation shows that its own operations are these. *)
From S2P Require Import Prelude Program WaitResult Primitives BlockingWaiter GuardWait ConditionWait Protocol GuardWaitSpec ConditionWaitSpec Clients MonitorApi.

Class Backend `{QubitClock} (T G : Type) `{!MonitorGuard T G} : Type := {
  be_timer : Timer;
  be_owns : G -> Prop;
  be_gone : G -> Prop;
  be_lock : comp (MonitorSig T) G;
  be_wait : stateful (MonitorSig T) G unit;
  be_wait_with_timer : TimerFuture -> stateful (MonitorSig T) G (Result WaitTimeoutStatus TimeError);
  be_notify_one : G -> comp (MonitorSig T) unit;
  be_notify_all : G -> comp (MonitorSig T) unit;
  be_laws W J waits :: GuardLaws W J waits be_owns be_gone;
  be_locks W J waits : locks W J waits be_owns be_lock;
  be_suspends W J waits : suspends W J waits be_owns be_gone be_wait;
  be_timed_suspends W J waits future : suspends W J waits be_owns be_gone (be_wait_with_timer future);
  be_notifies_one W J waits : consumes W J waits be_owns (fun d => d) be_notify_one;
  be_notifies_all W J waits : consumes W J waits be_owns (fun _ => False) be_notify_all
}.

Section Interp.
Context `{QubitClock} {T G : Type} `{!MonitorGuard T G} `{!Backend T G}.
Context {X : Type -> Type} (interp_extra : forall {R}, X R -> comp (MonitorSig T) R).
Abbreviation Σ := (MonitorSig T).

(** A notifying write. *)
Definition be_write {R} (f : T -> T * outcome R) (notify : G -> comp Σ unit) : comp Σ R :=
  guard ← be_lock;
  owned guard drop_guard (apply_mut (action f))
    (fun result guard => notify guard ≫= fun _ => ret result).

Definition be_plain {R} (waiting : T -> comp Σ bool) (f : T -> T * outcome R) : comp Σ R :=
  guard ← be_lock;
  wait_while_locked guard waiting (action f) be_wait.

Definition be_for {R} timeout (waiting : T -> comp Σ bool) (f : T -> T * outcome R) :=
  wait_while_for be_timer timeout be_lock waiting (action f) be_wait_with_timer.

Definition be_deadline {R} deadline (waiting : T -> comp Σ bool) (f : T -> T * outcome R) :=
  wait_while_with_deadline be_timer deadline be_lock waiting (action f) be_wait_with_timer.

Definition be_total {R} timeout (waiting : T -> comp Σ bool) (f : T -> T * outcome R) :=
  try_bind (call (Σ := Σ) (TimerDeadlineAfter be_timer timeout))
    (fun deadline => be_deadline deadline waiting f).

(** The [Until] forms negate the predicate they are given. *)
Definition until (w : T -> outcome bool) : T -> comp Σ bool := fun s =>
  b ← predicate (fun s => outcome_negb (w s)) s;
  ret (negb b).

Definition backend_interp {R} (w : T -> outcome bool) (c : api T X R) : comp Σ R :=
  match c in api _ _ R return comp Σ R with
  | WithRead f =>
      guard ← be_lock; scoped guard drop_guard (s ← lift (deref guard); lift (Ret (f s)))
  | WithWrite f => guard ← be_lock; scoped guard drop_guard (apply_mut (action f))
  | WithWriteNotifyOne f => be_write f be_notify_one
  | WithWriteNotifyAll f => be_write f be_notify_all
  | NotifyOne => BlockingWaiter.notify_one
  | NotifyAll => BlockingWaiter.notify_all
  | WaitWhile f => be_plain (predicate w) f
  | WaitUntil f => be_plain (until w) f
  | WaitUntilReady => be_plain (until w) nothing
  | WaitWhileFor d f => be_for d (predicate w) f
  | WaitUntilFor d f => be_for d (until w) f
  | WaitUntilReadyFor d => be_for d (until w) nothing
  | WaitWhileWithDeadline d f => be_deadline d (predicate w) f
  | WaitUntilWithDeadline d f => be_deadline d (until w) f
  | WaitUntilReadyWithDeadline d => be_deadline d (until w) nothing
  | WaitWhileWithTotalTimeout d f => be_total d (predicate w) f
  | WaitUntilWithTotalTimeout d f => be_total d (until w) f
  | WaitUntilReadyWithTotalTimeout d => be_total d (until w) nothing
  | Extra e => interp_extra _ e
  end.

(** ** Every operation meets its specification *)
Section Meets.
Context (W : (T -> bool) -> Prop) (J : T -> Prop) (w : T -> outcome bool).
Abbreviation safe' := (safe (protocol W J (blocks w))).
Hypothesis extra_quiet : forall n d R (e : X R) (Q : local T -> outcome R -> Prop),
  (forall o, Q (Out d) o) -> safe' n (Out d) (interp_extra _ e) Q.

Lemma until_is s : next (until w s) = HRet (w s).
Proof. unfold until, predicate, bind, comp_bind. simpl. by destruct (w s) as [[]|]. Qed.

(** Both forms of the predicate. *)
Definition either_form (waiting : T -> comp Σ bool) : Prop := forall s, next (waiting s) = HRet (w s).

Lemma be_plain_spec n d waiting {R} (f : T -> T * outcome R) (Q : local T -> outcome R -> Prop) :
  either_form waiting -> keeps_ready J w f -> ~ d ->
  (forall d' o, ended W J w f d d' o -> Q (Out d') o) -> safe' n (Out d) (be_plain waiting f) Q.
Proof.
  intros Hw Hf Hd HQ. eapply wait_while_spec; [apply be_laws|done..|apply be_locks|apply be_suspends|done|done].
Qed.

Lemma be_for_spec n timeout d waiting {R} (f : T -> T * outcome R) Q :
  either_form waiting -> keeps_ready J w f -> ~ d ->
  (forall d' o, timed_ended W J w f d d' o -> Q (Out d') o) -> safe' n (Out d) (be_for timeout waiting f) Q.
Proof.
  intros Hw Hf Hd HQ. eapply wait_while_for_spec;
    [apply be_laws|done..|apply be_timed_suspends|apply be_locks|done|done].
Qed.

Lemma be_deadline_spec n deadline d waiting {R} (f : T -> T * outcome R) Q :
  either_form waiting -> keeps_ready J w f -> ~ d ->
  (forall d' o, timed_ended W J w f d d' o -> Q (Out d') o) -> safe' n (Out d) (be_deadline deadline waiting f) Q.
Proof.
  intros Hw Hf Hd HQ. eapply wait_while_with_deadline_spec;
    [apply be_laws|done..|apply be_timed_suspends|apply be_locks|done|done].
Qed.

Lemma be_total_spec n timeout d waiting {R} (f : T -> T * outcome R) Q :
  either_form waiting -> keeps_ready J w f -> ~ d ->
  (forall d' o, timed_ended W J w f d d' o -> Q (Out d') o) -> safe' n (Out d) (be_total timeout waiting f) Q.
Proof.
  intros Hw Hf Hd HQ. eapply total_timeout_spec;
    [apply be_laws|done..|apply be_timed_suspends|apply be_locks|done|done].
Qed.

Lemma backend_interp_spec n d {R} (c : api T X R) (Q : local T -> outcome R -> Prop) :
  cs_pre _ (spec_of W J w c) d -> (forall o d', cs_post _ (spec_of W J w c) d o d' -> Q (Out d') o) ->
  safe' n (Out d) (backend_interp w c) Q.
Proof.
  pose proof until_is as Hu. assert (Hp : either_form (predicate w)) by done.
  intros Hpre HQ. destruct c; simpl in Hpre, HQ |- *; destruct_ands.
  - eapply read_spec; [apply be_laws|apply be_locks|]. eauto 6.
  - eapply write_spec; [apply be_laws|apply be_locks|done|]. eauto 6.
  - eapply write_notify_spec; [apply be_laws|apply be_locks|done|apply be_notifies_one|].
    intros s HJ. specialize (HQ (f s).2 (acted W f d s)). destruct (f s).2 eqn:Ho; eauto 6.
  - eapply write_notify_spec; [apply be_laws|apply be_locks|done|apply be_notifies_all|].
    intros s HJ. destruct (f s).2 as [r|c] eqn:Ho; apply HQ; exists s; by rewrite Ho.
  - apply notify_one_spec. eauto.
  - apply notify_all_spec. eauto.
  - apply be_plain_spec; eauto.
  - apply be_plain_spec; eauto.
  - apply be_plain_spec; eauto.
  - apply be_for_spec; eauto.
  - apply be_for_spec; eauto.
  - apply be_for_spec; eauto.
  - apply be_deadline_spec; eauto.
  - apply be_deadline_spec; eauto.
  - apply be_deadline_spec; eauto.
  - apply be_total_spec; eauto.
  - apply be_total_spec; eauto.
  - apply be_total_spec; eauto.
  - apply extra_quiet. eauto.
Qed.
End Meets.

(** Soundness for one execution: it keeps the protocol, and ends as specified. *)
Lemma backend_exec_spec W J w d {R} (c : api T X R) tr o :
  (forall n d R (e : X R) (Q : local T -> outcome R -> Prop),
     (forall o, Q (Out d) o) -> safe (protocol W J (blocks w)) n (Out d) (interp_extra _ e) Q) ->
  cs_pre _ (spec_of W J w c) d ->
  exec (backend_interp w c) tr o -> answers_ok (protocol W J (blocks w)) (Out d) tr ->
  calls_ok (protocol W J (blocks w)) (Out d) tr /\
  exists d', ghost_run (protocol W J (blocks w)) (Out d) tr = Out d' /\
             cs_post _ (spec_of W J w c) d o d'.
Proof.
  intros Hx Hpre Hex Hok.
  assert (Hsafe : forall n, safe (protocol W J (blocks w)) n (Out d) (backend_interp w c)
    (fun l o => exists d', l = Out d' /\ cs_post _ (spec_of W J w c) d o d')).
  { intros n. apply backend_interp_spec; [exact Hx|done|]. eauto. }
  split; [by eapply safe_exec_calls|].
  exact (safe_exec _ _ _ _ _ _ Hex Hok Hsafe).
Qed.
End Interp.
