(* ===== verification/ParkingLotMonitorSpec.v ===== *)
(** * [ParkingLotMonitor] implements the interface of a blocking monitor

    [ParkingLotMonitorGuard] keeps the laws of [ConditionWaitSpec.v], its suspensions
    and its consuming notifications keep the protocol, and every operation meets
    the specification that [MonitorApi.v] gives it. *)
From S2P Require Import Prelude Program WaitResult Primitives BlockingWaiter GuardWait ConditionWait ParkingLotMonitor Protocol GuardWaitSpec ConditionWaitSpec Clients MonitorApi BackendSpec.

(** A guard that owns the lock: its slot is occupied. *)
Definition holds_lock `{QubitClock} (g : ParkingLotMonitorGuard) : Prop := inner g = Some TheGuard.

(** A guard that has given the lock up: its slot is empty. *)
Definition lost_lock `{QubitClock} (g : ParkingLotMonitorGuard) : Prop := inner g = None.

Section Specs.
Context `{QubitClock} {T : Type}.
Abbreviation Σ := (MonitorSig T).
Context (W : (T -> bool) -> Prop) (J : T -> Prop) (waits : T -> bool).
Abbreviation safe' := (safe (protocol W J waits)).

#[export] Instance parking_lot_guard_laws :
  GuardLaws (G := ParkingLotMonitorGuard) W J waits holds_lock lost_lock.
Proof.
  split.
  - intros n k d g Q Hg HQ. cbn [deref ParkingLotMonitorGuard_guard]. unfold guard_deref. rewrite Hg.
    apply safe_cbind, safe_ret. intros i _. apply (mcall _ _ _ _ _ (GetState TheGuard)); [by exists k|].
    intros r [HJ Hr]. apply HQ; [done|]. intros s0 ->. by apply Hr.
  - intros n s d g s' Q Hg HJ HQ. cbn [deref_mut ParkingLotMonitorGuard_guard]. unfold guard_deref_mut.
    rewrite Hg. apply safe_cbind, safe_ret. intros i _.
    apply (mcall _ _ _ _ _ (SetState TheGuard s')); [split; [by exists (Some s)|done]|]. by intros [] _.
  - intros n k d g panicking Q Hg HQ. cbn [drop_guard ParkingLotMonitorGuard_guard].
    unfold drop_parking_lot_guard. rewrite Hg.
    apply (mcall _ _ _ _ _ (UnlockState TheGuard panicking)); [|by intros [] _]. split; [by exists k|done].
  - intros n d g panicking Q Hg HQ. cbn [drop_guard ParkingLotMonitorGuard_guard].
    unfold drop_parking_lot_guard. rewrite Hg. by apply safe_return.
Qed.

Lemma parking_lot_lock_state_acquires self : acquires W J waits (lock_state self).
Proof.
  intros n d Q HQ. apply safe_cbind, (mcall _ _ _ _ _ LockState); [done|]. intros r _ i _.
  apply safe_return. by destruct r as [[]|[[]]].
Qed.

Lemma parking_lot_lock_spec self : locks W J waits holds_lock (lock self).
Proof.
  intros n d Q HQ. apply safe_cbind, parking_lot_lock_state_acquires. intros i _. apply safe_return. by apply HQ.
Qed.

Lemma parking_lot_guard_wait_suspends : suspends W J waits holds_lock lost_lock guard_wait.
Proof.
  intros n s d g Q Hg Hs Hd HQ _. apply safe_sbind, safe_ret. intros i _.
  apply safe_zoom. rewrite Hg. apply wait_for_notification_spec; [apply parking_lot_lock_state_acquires|done..|].
  intros k o. by apply HQ.
Qed.

Lemma parking_lot_guard_wait_with_timer_suspends future :
  suspends W J waits holds_lock lost_lock (guard_wait_with_timer future).
Proof.
  intros n s d g Q Hg Hs Hd HQ _. apply safe_sbind, safe_ret. intros i _.
  apply safe_zoom. rewrite Hg. apply wait_with_timer_spec; [apply parking_lot_lock_state_acquires|done..|].
  intros k o. by apply HQ.
Qed.

(** A consuming notification releases the lock first. *)
Lemma parking_lot_guard_notify_one_consumes : consumes W J waits holds_lock (fun d => d) guard_notify_one.
Proof.
  intros n k d g Q Hg HQ. apply safe_scoped, safe_sbind, safe_zoom. rewrite Hg.
  apply release_for_good_spec. intros i _. apply safe_lift, notify_one_spec.
  intros i1 _. by apply safe_return.
Qed.

Lemma parking_lot_guard_notify_all_consumes : consumes W J waits holds_lock (fun _ => False) guard_notify_all.
Proof.
  intros n k d g Q Hg HQ. apply safe_scoped, safe_sbind, safe_zoom. rewrite Hg.
  apply release_for_good_spec. intros i _. apply safe_lift, notify_all_spec.
  intros i1 _. by apply safe_return.
Qed.
End Specs.

(** ** [ParkingLotMonitor] as an implementation *)
Section ParkingLot.
Context `{QubitClock} {T : Type} (self : ParkingLotMonitor).
Abbreviation Σ := (MonitorSig T).

Definition parking_lot_backend : Backend T ParkingLotMonitorGuard := {|
  be_timer := timer self;
  be_owns := holds_lock;
  be_gone := lost_lock;
  be_lock := lock self;
  be_wait := guard_wait;
  be_wait_with_timer := guard_wait_with_timer;
  be_notify_one := guard_notify_one;
  be_notify_all := guard_notify_all;
  be_laws := parking_lot_guard_laws;
  be_locks W J waits := parking_lot_lock_spec W J waits self;
  be_suspends := parking_lot_guard_wait_suspends;
  be_timed_suspends := parking_lot_guard_wait_with_timer_suspends;
  be_notifies_one := parking_lot_guard_notify_one_consumes;
  be_notifies_all := parking_lot_guard_notify_all_consumes
|}.

(** No further operations. *)
Definition parking_lot_extra : Type -> Type := fun _ => Empty_set.

Definition parking_lot_extra_interp {R} (e : parking_lot_extra R) : comp Σ R := match e with end.

(** Each operation by the method of the source. *)
Definition parking_lot_interp {R} (w : T -> outcome bool) (c : api T parking_lot_extra R) : comp Σ R :=
  let waiting := predicate w in
  let ready := predicate (fun s => outcome_negb (w s)) in
  match c in api _ _ R return comp Σ R with
  | WithRead f => with_read self (fun s => Ret (f s))
  | WithWrite f => with_write self (action f)
  | WithWriteNotifyOne f => with_write_notify_one self (action f)
  | WithWriteNotifyAll f => with_write_notify_all self (action f)
  | NotifyOne => notify_one self
  | NotifyAll => notify_all self
  | WaitWhile f => wait_while self waiting (action f)
  | WaitUntil f => wait_until self ready (action f)
  | WaitUntilReady => wait_until_ready self ready
  | WaitWhileFor d f => wait_while_for self d waiting (action f)
  | WaitUntilFor d f => wait_until_for self d ready (action f)
  | WaitUntilReadyFor d => wait_until_ready_for self d ready
  | WaitWhileWithDeadline d f => wait_while_with_deadline self d waiting (action f)
  | WaitUntilWithDeadline d f => wait_until_with_deadline self d ready (action f)
  | WaitUntilReadyWithDeadline d => wait_until_ready_with_deadline self d ready
  | WaitWhileWithTotalTimeout d f => wait_while_with_total_timeout self d waiting (action f)
  | WaitUntilWithTotalTimeout d f => wait_until_with_total_timeout self d ready (action f)
  | WaitUntilReadyWithTotalTimeout d => wait_until_ready_with_total_timeout self d ready
  | Extra e => parking_lot_extra_interp e
  end.

Lemma parking_lot_interp_backend {R} w (c : api T parking_lot_extra R) :
  parking_lot_interp w c = backend_interp (Backend0 := parking_lot_backend) (@parking_lot_extra_interp) w c.
Proof. by destruct c. Qed.

Lemma parking_lot_extra_quiet W J w n d R (e : parking_lot_extra R) (Q : local T -> outcome R -> Prop) :
  (forall o, Q (Out d) o) -> safe (protocol W J (blocks w)) n (Out d) (parking_lot_extra_interp e) Q.
Proof.
  by destruct e.
Qed.

Definition parking_lot_impl : MonitorImpl T (api T parking_lot_extra).
Proof.
  refine {| interp := @parking_lot_interp |}.
  intros W J w n d R c Q Hpre HQ. rewrite parking_lot_interp_backend.
  by apply (backend_interp_spec _ W J w (parking_lot_extra_quiet W J w)).
Defined.

(** C15: refinement. Every operation of [ParkingLotMonitor] implements its specification:
    started outside the lock where its precondition holds, each of its calls is
    one the monitor protocol allows (state access under the lock, registration
    before release, suspension only while the predicate blocks, unregistration
    before relocking, every selected waiter signalled), and it ends outside the
    lock with a result and a notification debt that the specification admits. *)
Theorem parking_lot_implements_api W J w d {R} (c : api T parking_lot_extra R) tr o :
  cs_pre _ (spec_of W J w c) d ->
  exec (parking_lot_interp w c) tr o -> answers_ok (protocol W J (blocks w)) (Out d) tr ->
  calls_ok (protocol W J (blocks w)) (Out d) tr /\
  exists d', ghost_run (protocol W J (blocks w)) (Out d) tr = Out d' /\
             cs_post _ (spec_of W J w c) d o d'.
Proof.
  intros Hpre. rewrite parking_lot_interp_backend.
  apply (backend_exec_spec (Backend0 := parking_lot_backend)); [|done].
  intros n d0 R0 e Q. apply parking_lot_extra_quiet.
Qed.
End ParkingLot.

(** A gate opened by [with_write_notify_all], with one waiter registered. *)
Section Run.
#[local] Existing Instance test_clock.

Definition parking_lot_opening : api bool parking_lot_extra unit := WithWriteNotifyAll (fun _ => (true, Returned tt)).

Definition parking_lot_calls : list (item (MonitorSig bool)) :=
  [Ev (Σ := MonitorSig bool) LockState (Ok TheGuard); Ev (Σ := MonitorSig bool) (GetState TheGuard) false;
   Ev (Σ := MonitorSig bool) (SetState TheGuard true) tt;
   Ev (Σ := MonitorSig bool) (UnlockState TheGuard false) tt;
   Ev (Σ := MonitorSig bool) RegistryTakeAll [3]; Ev (Σ := MonitorSig bool) (SignalWaiter 3) tt].

Lemma parking_lot_implements_api_witness :
  calls_ok (protocol (fun p => p = negb) (fun _ => True) (fun _ => false)) (Out False) parking_lot_calls /\
  exists d', ghost_run (protocol (fun p => p = negb) (fun _ => True) (fun _ => false)) (Out False) parking_lot_calls = Out d' /\
             cs_post _ (spec_of (fun p => p = negb) (fun _ => True) (fun _ => Returned false) parking_lot_opening)
               False (Returned tt) d'.
Proof.
  apply (parking_lot_implements_api test_parking_lot_monitor (fun p => p = negb) (fun _ => True) (fun _ => Returned false) False
    parking_lot_opening parking_lot_calls (Returned tt)).
  - by intros s _.
  - repeat (eapply exec_vis; [reflexivity|]). by apply exec_ret.
  - simpl. repeat split; congruence.
Defined.
End Run.
