(* ===== verification/StdClient.v ===== *)
(** * The theorems of [Clients.v] on concrete runs of a [StdMonitor] *)
From S2P Require Import Prelude Program WaiterRegistry WaitResult Primitives BlockingWaiter GuardWait ConditionWait StdMonitor World Protocol Handshake Threads GuardWaitSpec ConditionWaitSpec StdMonitorSpec Clients MonitorApi.

(** ** Concrete runs

    A test_monitor: one thread waits until the state is [true], another opens it with
    [with_write_notify_all]. *)
Section Gate.
#[local] Existing Instance test_clock.
#[local] Instance gate_impl : MonitorImpl bool (api bool std_extra) := std_impl test_monitor.

Definition enter : client bool (api bool std_extra) :=
  {| client_waiting := fun b => Returned (negb b);
     client_script := Do (WaitWhile nothing) (fun _ => Done tt) |}.

Definition open_gate : client bool (api bool std_extra) :=
  {| client_waiting := fun _ => Returned false;
     client_script := Do (WithWriteNotifyAll (fun _ => (true, Returned tt))) (fun _ => Done tt) |}.

Definition gate_run (threads : list (list (client bool (api bool std_extra)))) (ts : list nat) : config bool :=
  run_schedule (test_answers false 0) ts (initial false (timer test_monitor) (client_tasks threads)).

Lemma gate_reachable threads ts :
  reachable false (timer test_monitor) (client_tasks threads) (gate_run threads ts).
Proof. apply run_schedule_steps. Qed.

Lemma gate_disciplined (J : bool -> Prop) threads :
  (forall cls cl, cls ∈ threads -> cl ∈ cls -> cl = enter \/ cl = open_gate /\ J true) ->
  disciplined J threads.
Proof.
  intros Hall cls cl Hcls Hcl d Hd. destruct (Hall cls cl Hcls Hcl) as [-> |[-> HJ]]; simpl.
  - split; [split; [by intros s|done]|]. intros o d' [(s & _ & _ & -> & ->)|[Ho ->]]; [|by destruct o].
    intros [?|Hh]; [done|]. apply Hh, harmless_refl.
  - split; [by intros s|]. intros o d' (s & _ & -> & ->) [].
Qed.

(** The waiter alone gets stuck, asleep on a closed test_monitor. *)
Definition asleep : config bool := gate_run [[enter]] (repeat 0 10).

Lemma asleep_stuck : stuck asleep.
Proof. intros [|t] o; reflexivity. Qed.

Lemma gate_ok_1 (J : bool -> Prop) : disciplined J [[enter]].
Proof.
  apply gate_disciplined. intros cls cl Hcls Hcl. apply list_elem_of_singleton in Hcls as ->.
  apply list_elem_of_singleton in Hcl as ->. by left.
Qed.

Lemma gate_ok_2 : disciplined (fun _ => True) [[enter]; [open_gate]].
Proof.
  apply gate_disciplined. intros cls cl Hcls Hcl.
  apply elem_of_cons in Hcls as [-> |Hcls]; [|apply list_elem_of_singleton in Hcls as ->];
    apply list_elem_of_singleton in Hcl as ->; auto.
Qed.

(** With both threads: the waiter goes to sleep, the other opens the test_monitor. *)
Definition done_run : config bool := gate_run [[enter]; [open_gate]] (repeat 0 10 ++ repeat 1 20 ++ repeat 0 20).

(** A thread about to read the state it has locked. *)
Definition inside : config bool := gate_run [[enter]] (repeat 0 2).
Definition visitor : thread bool := List.hd (Finished (Returned tt)) (World.threads inside).

Lemma no_lost_wakeup_witness :
  stuck asleep /\ state_owner (shared asleep) = None /\
  forall t code waits todo, World.threads asleep !! t = Some (Running code waits todo) ->
    exists l id, asleep_on (Running code waits todo) l /\
      (id, l) ∈ waiters (registry (shared asleep)) /\ waits (state_value (shared asleep)) = true.
Proof.
  split; [apply asleep_stuck|].
  apply (no_lost_wakeup (fun _ => True) [[enter]] false (timer test_monitor) (test_answers false 0) asleep);
    [apply gate_ok_1|exact I|apply gate_reachable|apply asleep_stuck].
Defined.

Lemma state_access_is_exclusive_witness :
  state_owner (shared inside) = Some 0 /\
  is_Some (handle 0 (shared inside) (test_answers false 0) (GetState TheGuard)).
Proof.
  apply (state_access_is_exclusive (fun _ => True) [[enter]] false (timer test_monitor) inside 0 visitor (GetState TheGuard));
    [apply gate_ok_1|exact I|apply gate_reachable|apply lookup_hd; vm_compute; lia|vm_cast_no_check (eq_refl (GetState (H := test_clock) (T := bool) TheGuard))|exact I].
Defined.

Lemma nothing_left_behind_witness :
  waiters (registry (shared done_run)) = [] /\ state_owner (shared done_run) = None.
Proof.
  apply (nothing_left_behind (fun _ => True) [[enter]; [open_gate]] false (timer test_monitor) done_run);
    [apply gate_ok_2|exact I|apply gate_reachable|].
  apply (bool_decide_eq_true_1 (Forall finished (World.threads done_run))).
  vm_cast_no_check (eq_refl true).
Defined.

Lemma state_invariant_holds_witness : state_value (shared asleep) = false.
Proof.
  apply (state_invariant_holds (fun b => b = false) [[enter]] false (timer test_monitor) asleep);
    [apply gate_ok_1|reflexivity|apply gate_reachable].
Defined.
End Gate.
