(* ===== verification/BoundedQueue.v ===== *)
(** * [src/examples/bounded_queue.rs]

    The closable bounded queue of the user guide, as scripts over the monitor
    operations. Like the example, which is generic in the [Monitor] and
    [TimedMonitor] traits, it runs on any implementation of the interface of
    [Clients.v] with the operations of [MonitorApi.v]. *)
From S2P Require Import Prelude Program WaitResult Primitives StdMonitor World Protocol Threads ConditionWaitSpec Clients MonitorApi StdMonitorSpec.

Section BoundedQueue.
Context `{QubitClock} {A : Type}.
(* operations of the monitor that the queue does not use *)
Context {X : Type -> Type}.

Record QueueState : Type := MkQueueState {
  items : list A;
  capacity : nat;
  closed : bool
}.

Definition QueueState_new (capacity : nat) : QueueState :=
  {| items := []; capacity := capacity; closed := false |}.

Definition set_items (state : QueueState) (l : list A) : QueueState :=
  {| items := l; capacity := capacity state; closed := closed state |}.

(** The [ready] closures, negated: what the calls wait on. *)
Definition push_waiting (state : QueueState) : outcome bool :=
  Returned (negb (closed state || bool_decide (length (items state) < capacity state))).

Definition pop_waiting (state : QueueState) : outcome bool :=
  Returned (negb (closed state || negb (bool_decide (items state = [])))).

(** The action closures. *)
Definition push_action (item : A) (state : QueueState) : QueueState * outcome (Result unit A) :=
  if closed state then (state, Returned (Err item))
  else (set_items state (items state ++ [item]), Returned (Ok tt)).

Definition pop_front (state : QueueState) : QueueState * outcome (option A) :=
  (set_items state (tail (items state)), Returned (hd_error (items state))).

Definition push (item : A) : script (api QueueState X) (Result unit A) :=
  Do (WaitUntil (push_action item)) (fun result =>
    match result with
    | Ok _ => Do NotifyAll (fun _ => Done result)
    | Err _ => Done result
    end).

Definition pop : script (api QueueState X) (option A) :=
  Do (WaitUntil pop_front) (fun item =>
    match item with
    | Some _ => Do NotifyAll (fun _ => Done item)
    | None => Done item
    end).

Definition pop_for (timeout : Duration)
    : script (api QueueState X) (Result (WaitTimeoutResult (option A)) TimeError) :=
  Do (WaitUntilFor timeout pop_front) (fun result =>
    match result with
    | Ok (WaitReady (Some _)) => Do NotifyAll (fun _ => Done result)
    | _ => Done result
    end).

Definition close : script (api QueueState X) unit :=
  Do (WithWriteNotifyAll (fun state =>
        ({| items := items state; capacity := capacity state; closed := true |}, Returned tt)))
     (fun _ => Done tt).

End BoundedQueue.
Arguments QueueState A : clear implicits.

(** ** Threads of queue operations *)
Section Threads.
Context `{QubitClock} {A : Type} {X : Type -> Type} `{!MonitorImpl (QueueState A) (api (QueueState A) X)}.

Inductive queue_op : Type :=
| Push (item : A)
| Pop
| PopFor (timeout : Duration)
| Close.

Definition queue_client (op : queue_op) : client (QueueState A) (api (QueueState A) X) :=
  match op with
  | Push item => MkClient _ push_waiting (push item)
  | Pop => MkClient _ pop_waiting pop
  | PopFor timeout => MkClient _ pop_waiting (pop_for timeout)
  | Close => MkClient _ (fun _ => Returned false) close
  end.

Definition queue_threads (ops : list (list queue_op)) : list (list (client (QueueState A) (api (QueueState A) X))) :=
  List.map (List.map queue_client) ops.

(** The queue never holds more than its capacity, which never changes. *)
Definition queue_inv (cap : nat) (state : QueueState A) : Prop :=
  capacity state = cap /\ 0 < cap /\ length (items state) <= cap.

(** ** The operations follow the usage rule *)
Section Discipline.
Context (W : (QueueState A -> bool) -> Prop) (cap : nat).
Abbreviation J := (queue_inv cap).

Lemma push_keeps item : keeps_ready J push_waiting (push_action item).
Proof.
  intros s (Hc & Hpos & Hlen) Hw. unfold push_action, push_waiting in *.
  destruct (closed s); simpl in *; [done|]. case_bool_decide; simplify_eq.
  split; [done|split; [done|]]. simpl. rewrite length_app. simpl. lia.
Qed.

Lemma pop_keeps w : keeps_ready J w pop_front.
Proof.
  intros s (Hc & Hpos & Hlen) _. split; [done|split; [done|]]. simpl.
  destruct (items s); simpl in *; lia.
Qed.

Lemma push_well_notified item d : ~ d -> well_notified (O := api (QueueState A) X) W J push_waiting d (push item).
Proof.
  intros Hd. split; [split; [apply push_keeps|done]|].
  intros o d' [(s & HJ & Hw & -> & ->)|(Ho & ->)]; [|by destruct o].
  unfold push_action at 1. unfold acted, push_action. destruct (closed s); simpl.
  - intros [?|Hh]; [done|]. apply Hh, harmless_refl.
  - split; [done|]. intros o d' [-> ->] [].
Qed.

Lemma pop_well_notified d : ~ d -> well_notified (O := api (QueueState A) X) W J pop_waiting d pop.
Proof.
  intros Hd. split; [split; [apply pop_keeps|done]|].
  intros o d' [(s & HJ & Hw & -> & ->)|(Ho & ->)]; [|by destruct o].
  unfold acted, pop_front, set_items. destruct s as [[|x l] c b]; simpl.
  - intros [?|Hh]; [done|]. apply Hh, harmless_refl.
  - split; [done|]. intros o d' [-> ->] [].
Qed.

Lemma pop_for_well_notified timeout d : ~ d -> well_notified (O := api (QueueState A) X) W J pop_waiting d (pop_for timeout).
Proof.
  intros Hd. split; [split; [apply pop_keeps|done]|].
  intros o d' [(s & HJ & Hw & -> & ->)|(Ho & ->)].
  - unfold acted, pop_front, set_items. destruct s as [[|x l] c b]; simpl.
    + intros [?|Hh]; [done|]. apply Hh, harmless_refl.
    + split; [done|]. intros o d' [-> ->] [].
  - destruct o as [[[r|]|]|]; try done. by destruct (Ho r).
Qed.

Lemma close_well_notified w d : well_notified (O := api (QueueState A) X) W J w d close.
Proof.
  split; [by intros s|]. intros o d' (s & HJ & -> & ->) []. 
Qed.

End Discipline.

Section System.
Context (tm : Timer) (cap : nat) (ops : list (list queue_op)).
Hypothesis cap_positive : 0 < cap.

Lemma queue_disciplined : disciplined (queue_inv cap) (queue_threads ops).
Proof.
  intros cls cl Hcls Hcl d Hd. apply list_elem_of_In, in_map_iff in Hcls as (l & <- & _).
  apply list_elem_of_In, in_map_iff in Hcl as (op & <- & _). destruct op; simpl.
  - by apply push_well_notified.
  - by apply pop_well_notified.
  - by apply (pop_for_well_notified _ cap timeout).
  - exact (close_well_notified _ cap (fun _ => Returned false) d).
Qed.

Lemma queue_inv_new : queue_inv cap (QueueState_new cap).
Proof. split; [done|split; [done|simpl; lia]]. Qed.

(** The configurations the threads of [ops] reach from an empty queue. *)
Definition reachable_queue : config (QueueState A) -> Prop :=
  reachable (QueueState_new cap) tm (client_tasks (queue_threads ops)).

Lemma queue_waits c t code waits todo :
  reachable_queue c -> threads c !! t = Some (Running code waits todo) ->
  waits = (fun _ => false) \/ waits = blocks push_waiting \/ waits = blocks pop_waiting.
Proof.
  intros Hr Ht. destruct (running_waits (queue_inv cap) _ _ tm c t code waits todo
    queue_disciplined queue_inv_new Hr Ht) as [?|(cls & cl & Hcls & Hcl & ->)]; [by left|].
  apply list_elem_of_In, in_map_iff in Hcls as (l & <- & _).
  apply list_elem_of_In, in_map_iff in Hcl as (op & <- & _). destruct op; simpl; auto.
Qed.

(** What the two predicates say of a state. *)
Lemma push_blocks (state : QueueState A) :
  queue_inv cap state -> blocks push_waiting state = true ->
  closed state = false /\ length (items state) = cap.
Proof.
  unfold blocks, push_waiting. intros (Hc & _ & Hl). destruct (closed state); [done|]. simpl.
  case_bool_decide; [done|]. split; [done|lia].
Qed.

Lemma pop_blocks (state : QueueState A) :
  blocks pop_waiting state = true -> closed state = false /\ items state = [].
Proof.
  unfold blocks, pop_waiting. destruct (closed state); [done|]. simpl. by case_bool_decide.
Qed.

(** The reason why an unfinished thread of a stuck queue sleeps. *)
Lemma queue_sleeper c (o : answers (QueueState A)) t code waits todo :
  reachable_queue c -> stuck c -> threads c !! t = Some (Running code waits todo) ->
  closed (state_value (shared c)) = false /\
  (waits = blocks pop_waiting /\ items (state_value (shared c)) = [] \/
   waits = blocks push_waiting /\ length (items (state_value (shared c))) = cap).
Proof.
  intros Hr Hs Ht.
  destruct (stuck_blocked _ _ c o (clients_ok (queue_inv cap) _ _ tm c
    queue_disciplined queue_inv_new Hr) Hs) as [_ Hall].
  destruct (Hall _ _ _ _ Ht) as (l & id & _ & _ & Hw).
  pose proof (state_ok _ _ c (clients_ok (queue_inv cap) _ _ tm c
    queue_disciplined queue_inv_new Hr)) as HJ.
  destruct (queue_waits _ _ _ _ _ Hr Ht) as [-> |[-> | ->]]; [done| |].
  - apply push_blocks in Hw as [? ?]; [|done]. auto.
  - apply pop_blocks in Hw as [? ?]. auto.
Qed.

(** C31: the queue never exceeds its capacity, whatever producers, consumers,
    timed consumers and closers run and however they are scheduled. *)
Theorem queue_stays_bounded c :
  reachable_queue c ->
  capacity (state_value (shared c)) = cap /\ length (items (state_value (shared c))) <= cap.
Proof.
  intros Hr. by destruct (state_ok _ _ c (clients_ok (queue_inv cap) _ _ tm c
    queue_disciplined queue_inv_new Hr)) as (? & _ & ?).
Qed.

(** C2: the queue never wedges. If nobody can move, either all threads have
    finished, or the queue is open and the sleepers have a reason: it is empty
    and all of them are consumers, or it is full and all of them are producers.
    After [close] every thread finishes. *)
Theorem queue_never_wedges c (o : answers (QueueState A)) :
  reachable_queue c -> stuck c ->
  let state := state_value (shared c) in
  let all_wait w := forall t code waits todo,
    threads c !! t = Some (Running code waits todo) -> waits = blocks w in
  Forall finished (threads c) \/
  closed state = false /\
    (items state = [] /\ all_wait pop_waiting \/ length (items state) = cap /\ all_wait push_waiting).
Proof.
  intros Hr Hs state all_wait.
  assert (Hw : forall t code waits todo, threads c !! t = Some (Running code waits todo) -> _)
    by (intros *; exact (queue_sleeper c o t code waits todo Hr Hs)).
  destruct (decide (Forall finished (threads c))) as [?|Hex]; [by left|right].
  apply not_Forall_Exists, Exists_exists in Hex as (th & Hin & Hrun); [|apply _].
  apply list_elem_of_lookup in Hin as [t Ht]. destruct th as [code waits todo|]; [|by destruct Hrun].
  destruct (Hw _ _ _ _ Ht) as (Hopen & [(-> & Hi)|(-> & Hi)]); (split; [done|]).
  - left. split; [done|]. intros t' code' waits' todo' Ht'.
    destruct (Hw _ _ _ _ Ht') as (_ & [(-> & _)|(_ & Hf)]); [done|]. rewrite Hi in Hf. simpl in Hf. lia.
  - right. split; [done|]. intros t' code' waits' todo' Ht'.
    destruct (Hw _ _ _ _ Ht') as (_ & [(_ & He)|(-> & _)]); [|done]. rewrite He in Hi. simpl in Hi. lia.
Qed.

End System.
End Threads.
Arguments queue_op A : clear implicits.

(** ** A concrete run

    Capacity one, two producers: the second goes to sleep on the full queue. *)
Section Run.
#[local] Existing Instance test_clock.
#[local] Instance queue_impl : MonitorImpl (QueueState nat) (api (QueueState nat) std_extra) := std_impl test_monitor.

Definition producers : list (list (queue_op nat)) := [[Push 7]; [Push 8]].

Definition full_run : config (QueueState nat) :=
  run_schedule (test_answers (QueueState_new 1) 0) (repeat 0 20 ++ repeat 1 20)
    (initial (QueueState_new 1) (timer test_monitor) (client_tasks (queue_threads producers))).

Lemma full_stuck : stuck full_run.
Proof. intros [|[|t]] o; reflexivity. Qed.

Lemma full_reachable :
  reachable (QueueState_new 1) (timer test_monitor) (client_tasks (queue_threads producers)) full_run.
Proof. apply run_schedule_steps. Qed.

Lemma queue_stays_bounded_witness :
  items (state_value (shared full_run)) = [7] /\
  capacity (state_value (shared full_run)) = 1 /\
  length (items (state_value (shared full_run))) <= 1.
Proof.
  split; [vm_cast_no_check (eq_refl [7])|].
  apply (queue_stays_bounded (timer test_monitor) 1 producers); [lia|apply full_reachable].
Defined.

Lemma queue_never_wedges_witness :
  closed (state_value (shared full_run)) = false /\
  (Forall finished (threads full_run) \/
   closed (state_value (shared full_run)) = false /\
    (items (state_value (shared full_run)) = [] /\
       (forall t code waits todo,
          threads full_run !! t = Some (Running code waits todo) -> waits = blocks pop_waiting) \/
     length (items (state_value (shared full_run))) = 1 /\
       (forall t code waits todo,
          threads full_run !! t = Some (Running code waits todo) -> waits = blocks push_waiting))).
Proof.
  split; [vm_cast_no_check (eq_refl false)|].
  apply (queue_never_wedges (timer test_monitor) 1 producers);
    [lia|exact (test_answers (QueueState_new 1) 0)|apply full_reachable|apply full_stuck].
Defined.
End Run.
