(* ===== verification/TimedWaits.v ===== *)
(** * What a timed wait did, from the trace of its calls

    [observed] records what an observer of the calls knows: the lock, the last
    state read, the clock's and the timer's answers and the writes. The theorems
    explain every result of the three timed waits by these observations,
    whatever the lock, the timer and the other threads answer. *)
From S2P Require Import Prelude Program WaitResult Primitives BlockingWaiter GuardWait ConditionWait StdMonitor World Protocol ConditionWaitSpec StdMonitorSpec.

Section Observe.
Context `{QubitClock} {T R : Type}.
Abbreviation Σ := (MonitorSig T).
Context (w : T -> outcome bool) (f : T -> T * outcome R).
Abbreviation Timed := (Result (WaitTimeoutResult R) TimeError).

Record observed : Type := MkObserved {
  ob_held : bool;
  ob_known : option T;                             (* read or written under the current lock, or the last one *)
  ob_last : option T;                              (* the last state read *)
  ob_now : option MonotonicInstant;                (* answer of the clock *)
  ob_total : option (Result MonotonicInstant TimeError);   (* answer of [deadline_after] *)
  ob_timers : list MonotonicInstant;               (* deadlines given to the timer *)
  ob_future : option (Result TimerFuture TimeError);       (* the timer's answer *)
  ob_poll : option (Poll (Result unit TimeError)); (* answer of the last poll *)
  ob_writes : list T;
  ob_locks : nat;                                  (* acquisitions of the lock *)
  ob_fresh : bool                                  (* a state was read after the last poll *)
}.

Definition nothing_observed : observed := MkObserved false None None None None [] None None [] 0 false.

Definition observe (ob : observed) (e : monitor_op T) : monitor_resp e -> observed :=
  let '(MkObserved held known last now total timers future poll writes locks fresh) := ob in
  match e return monitor_resp e -> observed with
  | LockState => fun _ => MkObserved true None last now total timers future poll writes (S locks) fresh
  | UnlockState _ _ => fun _ => MkObserved false known last now total timers future poll writes locks fresh
  | GetState _ => fun s => MkObserved held (Some s) (Some s) now total timers future poll writes locks true
  | SetState _ s => fun _ => MkObserved held (Some s) last now total timers future poll (s :: writes) locks fresh
  | TimerClockNow _ => fun i => MkObserved held known last (Some i) total timers future poll writes locks fresh
  | TimerDeadlineAfter _ _ => fun r => MkObserved held known last now (Some r) timers future poll writes locks fresh
  | TimerAt _ d => fun r => MkObserved held known last now total (d :: timers) (Some r) poll writes locks fresh
  | TimerPoll _ _ => fun r => MkObserved held known last now total timers future (Some r) writes locks false
  | _ => fun _ => ob
  end.

(** When each call is justified. *)
Definition justified (ob : observed) (e : monitor_op T) : Prop :=
  match e with
  | LockState => ob_held ob = false
  | UnlockState _ _ | GetState _ => ob_held ob = true
  (* the action's write: once, on a state that does not block *)
  | SetState _ s' =>
      ob_held ob = true /\ ob_writes ob = [] /\
      exists s, ob_known ob = Some s /\ w s = Returned false /\ s' = (f s).1
  (* a budget starts under the lock, before the first check *)
  | TimerClockNow _ => ob_held ob = true /\ ob_locks ob = 1 /\ ob_last ob = None
  (* a total budget starts before the lock *)
  | TimerDeadlineAfter _ _ => ob_locks ob = 0
  (* the one timer: after a check that blocks *)
  | TimerAt _ _ =>
      ob_held ob = true /\ ob_timers ob = [] /\
      exists s, ob_known ob = Some s /\ w s = Returned true
  | TimerAfter _ _ => False
  | TimerPoll future _ => ob_held ob = true /\ ob_future ob = Some (Ok future)
  (* no registration and no suspension unless the last poll was pending *)
  | NewWaiter => ob_poll ob = Some Pending
  | AwaitSignal _ => ob_held ob = false /\ ob_poll ob = Some Pending
  (* a waiter notifies nobody *)
  | SignalWaiter _ | RegistryTakeOne | RegistryTakeAll => False
  | _ => True
  end.

(** The lock protects the state: two reads under one lock agree. *)
Definition consistent (ob : observed) (e : monitor_op T) : monitor_resp e -> Prop :=
  match e return monitor_resp e -> Prop with
  | GetState _ => fun s => forall s', ob_known ob = Some s' -> s = s'
  | _ => fun _ => True
  end.

Definition observer : rules Σ observed :=
  {| allowed := justified : observed -> Op Σ -> Prop;
     assume := consistent : observed -> forall e : Op Σ, Resp e -> Prop;
     after := observe : observed -> forall e : Op Σ, Resp e -> observed |}.

Abbreviation safe' := (safe observer).

(** Which errors come before any timer. *)
Definition setup_error : Type := observed -> TimeError -> Prop.

(** The result [o] follows from what was observed: [shortcut] and [setup] say
    which timeouts need no check after the timer, and which errors no timer. A
    state that decides a timeout was read under the last lock. *)
Definition explained (shortcut : observed -> Prop) (setup : setup_error) (ob : observed)
    (o : outcome Timed) : Prop :=
  ob_held ob = false /\
  (forall e, ob_poll ob = Some (Ready (Err e)) -> o = Returned (Err e)) /\
  match o with
  | Returned (Ok (WaitReady r)) =>
      exists s, ob_last ob = Some s /\ w s = Returned false /\ (f s).2 = Returned r /\
                ob_writes ob = [(f s).1]
  | Returned (Ok WaitTimedOut) =>
      ob_writes ob = [] /\ (exists s, ob_known ob = Some s /\ w s = Returned true) /\
      (shortcut ob \/ ob_poll ob = Some (Ready (Ok tt)) /\ ob_fresh ob = true)
  | Returned (Err e) =>
      ob_writes ob = [] /\
      (setup ob e \/ ob_future ob = Some (Err e) \/ ob_poll ob = Some (Ready (Err e)))
  | Unwinding c =>
      ob_writes ob = [] \/
      exists s, ob_last ob = Some s /\ w s = Returned false /\ (f s).2 = Unwinding c /\
                ob_writes ob = [(f s).1]
  end.

(** ** The steps *)
Lemma ocall n ob (e : monitor_op T) (Q : observed -> outcome (monitor_resp e) -> Prop) :
  justified ob e -> (forall r, consistent ob e r -> Q (observe ob e r) (Returned r)) ->
  safe' n ob (call (Σ := Σ) e) Q.
Proof. exact (safe_call_c observer n ob e Q). Qed.

Lemma ocall_lift {S} n ob (e : monitor_op T) (s : S) (Q : observed -> S * outcome (monitor_resp e) -> Prop) :
  justified ob e -> (forall r, consistent ob e r -> Q (observe ob e r) (s, Returned r)) ->
  safe' n ob (lift (call (Σ := Σ) e) s) Q.
Proof. intros. by apply safe_lift, ocall. Qed.

(** Same clock, timer and writes. *)
Definition same_plan (ob ob' : observed) : Prop :=
  ob_now ob' = ob_now ob /\ ob_total ob' = ob_total ob /\ ob_timers ob' = ob_timers ob /\
  ob_future ob' = ob_future ob /\ ob_writes ob' = ob_writes ob.

Lemma same_plan_trans ob1 ob2 ob3 : same_plan ob1 ob2 -> same_plan ob2 ob3 -> same_plan ob1 ob3.
Proof. unfold same_plan. intuition congruence. Qed.

Lemma lock_obs n self ob (Q : observed -> outcome StdMonitorGuard -> Prop) :
  ob_held ob = false ->
  (forall g, occupied g -> Q (observe ob LockState (Ok TheGuard)) (Returned g)) ->
  safe' n ob (lock self) Q.
Proof.
  intros Hh HQ. apply safe_cbind, safe_cbind, (ocall _ _ LockState); [done|].
  intros r _ i _. apply safe_return. intros j _. apply safe_return.
  assert (observe ob LockState r = observe ob LockState (Ok TheGuard)) as -> by (by destruct ob).
  apply HQ. by destruct (recover r).
Qed.

Lemma deref_obs n ob g (Q : observed -> outcome T -> Prop) :
  occupied g -> ob_held ob = true ->
  (forall s, (forall s', ob_known ob = Some s' -> s = s') ->
     Q (observe ob (GetState TheGuard) s) (Returned s)) ->
  safe' n ob (guard_deref g) Q.
Proof.
  intros Hg Hh HQ. unfold guard_deref. rewrite Hg. apply safe_cbind, safe_ret. intros i _.
  by apply (ocall _ _ (GetState TheGuard)).
Qed.

Lemma drop_obs n ob g b (Q : observed -> outcome unit -> Prop) :
  occupied g -> ob_held ob = true -> Q (observe ob (UnlockState TheGuard b) tt) (Returned tt) ->
  safe' n ob (drop_std_guard g b) Q.
Proof.
  intros Hg Hh HQ. unfold drop_std_guard. rewrite Hg.
  apply (ocall _ _ (UnlockState TheGuard b)); [done|]. by intros [] _.
Qed.

Lemma check_obs n ob g waiting (Q : observed -> StdMonitorGuard * outcome bool -> Prop) :
  (forall s, next (waiting s) = HRet (w s)) ->
  occupied g -> ob_held ob = true ->
  (forall s, Q (observe ob (GetState TheGuard) s) (g, w s)) ->
  safe' n ob (check waiting g) Q.
Proof.
  intros Hw Hg Hh HQ. apply safe_sbind, safe_ret. intros i _. apply safe_sbind, safe_lift, deref_obs; [done..|].
  intros s _ j _. apply safe_lift. by eapply safe_next.
Qed.

(** The action's write. *)
Lemma apply_mut_obs n ob g s (Q : observed -> StdMonitorGuard * outcome R -> Prop) :
  occupied g -> ob_held ob = true -> ob_known ob = Some s -> ob_writes ob = [] ->
  w s = Returned false ->
  Q (observe (observe ob (GetState TheGuard) s) (SetState TheGuard (f s).1) tt) (g, (f s).2) ->
  safe' n ob (apply_mut (action f) g) Q.
Proof.
  intros Hg Hh Hk Hwr Hw HQ. apply safe_sbind, safe_ret. intros i _. apply safe_sbind, safe_lift, deref_obs; [done..|].
  intros s' Hs'. rewrite (Hs' s Hk). intros j _. apply safe_sbind, safe_run_on, safe_ret. intros j' _.
  apply safe_sbind, safe_lift. cbn [deref_mut StdMonitorGuard_guard]. unfold guard_deref_mut.
  rewrite Hg. apply safe_cbind, safe_ret. intros j2 _.
  apply (ocall _ _ (SetState TheGuard (f s).1)).
  - destruct ob. simpl in *. eauto 6.
  - intros [] _ j3 _. by apply safe_lift, safe_ret.
Qed.

Lemma lock_state_obs n self ob (Q : observed -> outcome MutexGuard -> Prop) :
  ob_held ob = false -> Q (observe ob LockState (Ok TheGuard)) (Returned TheGuard) ->
  safe' n ob (lock_state self) Q.
Proof.
  intros Hh HQ. apply safe_cbind, (ocall _ _ LockState); [done|]. intros r _ i _. apply safe_return.
  assert (observe ob LockState r = observe ob LockState (Ok TheGuard)) as -> by (by destruct ob).
  by destruct (recover r).
Qed.

(** What one suspension of a timed wait observes. *)
Definition waited (ob ob' : observed) (g : StdMonitorGuard)
    (o : outcome (Result WaitTimeoutStatus TimeError)) : Prop :=
  occupied g /\ ob_held ob' = true /\ same_plan ob ob' /\
  ob_poll ob' = Some (match o with
                      | Returned (Ok TimedOut) => Ready (Ok tt)
                      | Returned (Err e) => Ready (Err e)
                      | Returned (Ok Woken) | Unwinding _ => Pending
                      end).

Lemma completed_poll (r : Result unit TimeError) :
  Ready r = match completed r with Ok TimedOut => Ready (Ok tt) | Ok Woken => Pending | Err e => Ready (Err e) end.
Proof. by destruct r as [[]|e]. Qed.

Lemma completed_waited ob ob' g r :
  occupied g -> ob_held ob' = true -> same_plan ob ob' -> ob_poll ob' = Some (Ready r) ->
  waited ob ob' g (Returned (completed r)).
Proof.
  intros Hg Hh Hp Hpoll. split; [done|split; [done|split; [done|]]]. rewrite Hpoll.
  by destruct r as [[]|e].
Qed.

Lemma guard_wait_with_timer_obs n ob g future
    (Q : observed -> StdMonitorGuard * outcome (Result WaitTimeoutStatus TimeError) -> Prop) :
  occupied g -> ob_held ob = true -> ob_future ob = Some (Ok future) ->
  (forall ob' g' o, waited ob ob' g' o -> Q ob' (g', o)) ->
  safe' n ob (guard_wait_with_timer future g) Q.
Proof.
  intros Hg Hh Hf HQ. apply safe_sbind, safe_ret. intros i _. apply safe_zoom. rewrite Hg.
  destruct ob as [held known last now total timers fut poll writes locks fresh]. simpl in *. subst held fut.
  apply safe_sbind, (ocall_lift _ _ (TimerPoll future None)); [done|]. intros [r|] _ i1 _.
  { apply safe_ret, HQ, completed_waited; done. }
  apply safe_sbind, safe_lift, safe_cbind, (ocall _ _ NewWaiter); [done|]. intros l _ i2 _.
  apply safe_cbind. eapply safe_bind; [apply (safe_call _ _ _ (RegistryRegister l : Op Σ))
    with (Q := fun ob' _ => ob' = MkObserved true known last now total timers (Some (Ok future)) (Some Pending) writes locks false); done|].
  intros i3 ob' [id|c] _ ->; apply safe_ret; [|by apply HQ].
  intros i4 _. apply safe_return. intros i5 _.
  apply safe_sbind, safe_scoped_in, safe_sbind, (ocall_lift _ _ (TimerPoll future (Some l))); [done|].
  intros [r|] _ i6 _.
  { apply safe_ret. intros i7 _. apply safe_cbind, (ocall _ _ (RegistryUnregister id)); [done|].
    intros ? _ i8 _. apply safe_return. intros i9 _. apply safe_ret, HQ, completed_waited; done. }
  apply safe_sbind, safe_sbind, safe_ret. intros i7 _. apply safe_sbind, safe_ret. intros i8 _.
  apply safe_sbind, safe_lift, safe_ret. intros i9 _.
  apply (ocall_lift _ _ (UnlockState TheGuard false)); [done|]. intros [] _ j1 _.
  apply safe_sbind, (ocall_lift _ _ (AwaitSignal l)); [done|]. intros [] _ j2 _.
  apply safe_ret. intros j3 _. apply safe_cbind, (ocall _ _ (RegistryUnregister id)); [done|].
  intros ? _ j4 _. apply safe_return. intros j5 _. apply safe_sbind, safe_lift, lock_state_obs; [done|].
  intros j6 _. apply safe_sbind, safe_ret. intros j7 _.
  apply safe_sbind, (ocall_lift _ _ (TimerPoll future (Some l))); [done|].
  intros [r2|] _ j8 _; apply safe_ret, HQ; [by apply completed_waited|done].
Qed.

(** The clock's and the timer's part of an observation. *)
Definition plan (ob : observed) := (ob_now ob, ob_total ob, ob_timers ob, ob_future ob).

Definition no_setup : setup_error := fun _ _ => False.

(** Every timeout needs a check after the timer. *)
Definition no_shortcut : observed -> Prop := fun _ => False.

Lemma explained_weaken shortcut setup ob o :
  explained no_shortcut no_setup ob o -> explained shortcut setup ob o.
Proof.
  intros (Hh & He & Ho). split; [done|split; [done|]]. unfold no_setup, no_shortcut in Ho.
  destruct o as [[[r|]|e]|c]; tauto.
Qed.

(** The end of a scope that owns the guard: the body left [ob] and [o] behind. *)
Definition before_drop (shortcut : observed -> Prop) (setup : setup_error) (ob0 : observed)
    (ob : observed) (g : StdMonitorGuard) (o : outcome Timed) : Prop :=
  occupied g /\ ob_held ob = true /\ plan ob = plan ob0 /\
  explained shortcut setup (observe ob (UnlockState TheGuard false) tt) o.

Lemma unlock_observed ob b :
  observe ob (UnlockState TheGuard b) tt = observe ob (UnlockState TheGuard false) tt.
Proof. by destruct ob. Qed.

Lemma plan_unlock ob b : plan (observe ob (UnlockState TheGuard b) tt) = plan ob.
Proof. by destruct ob. Qed.

Lemma scoped_obs n ob shortcut setup (g : StdMonitorGuard) (m : stateful Σ StdMonitorGuard Timed)
    (Q : observed -> outcome Timed -> Prop) :
  safe' n ob (m g) (fun ob' '(g', o) => before_drop shortcut setup ob ob' g' o) ->
  (forall ob' o, plan ob' = plan ob -> explained shortcut setup ob' o -> Q ob' o) ->
  safe' n ob (scoped g drop_std_guard m) Q.
Proof.
  intros Hm HQ. apply safe_scoped. eapply safe_mono; [reflexivity|exact Hm|].
  intros ob' [g' o] (Hg & Hh & Hp & Hex) i _. apply drop_obs; [done..|].
  rewrite unlock_observed. specialize (HQ _ o (eq_trans (plan_unlock _ _) Hp) Hex). by destruct o.
Qed.

(** After a check that does not block, the action decides the wait. *)
Lemma ready_obs n ob0 ob g s shortcut setup (Q : observed -> StdMonitorGuard * outcome R -> Prop) :
  occupied g -> ob_held ob = true -> ob_known ob = Some s -> ob_writes ob = [] ->
  w s = Returned false -> plan ob = plan ob0 -> (forall e, ob_poll ob <> Some (Ready (Err e))) ->
  (forall ob' g' o, before_drop shortcut setup ob0 ob' g' (ready_outcome o) -> Q ob' (g', o)) ->
  safe' n ob (apply_mut (action f) g) Q.
Proof.
  intros Hg Hh Hk Hwr Hw Hp Hpoll HQ. eapply apply_mut_obs; [done..|]. apply HQ.
  split; [done|]. destruct ob as [held known last now total timers fut poll writes].
  simpl in *. subst. split; [done|split; [done|]]. split; [done|split].
  - intros e He. by apply Hpoll in He.
  - destruct (f s).2 as [r|c] eqn:Ho; simpl; [by eexists|]. right. by eexists.
Qed.

(** How a body that has not written ends. *)
Lemma no_write_obs shortcut setup ob0 ob g (o : outcome Timed) :
  occupied g -> ob_held ob = true -> ob_writes ob = [] -> plan ob = plan ob0 ->
  (forall e, ob_poll ob = Some (Ready (Err e)) -> o = Returned (Err e)) ->
  match o with
  | Returned (Ok (WaitReady _)) => False
  | Returned (Ok WaitTimedOut) =>
      (exists s, ob_known ob = Some s /\ w s = Returned true) /\
      (shortcut (observe ob (UnlockState TheGuard false) tt) \/ ob_poll ob = Some (Ready (Ok tt)) /\ ob_fresh ob = true)
  | Returned (Err e) =>
      setup (observe ob (UnlockState TheGuard false) tt) e \/ ob_future ob = Some (Err e) \/ ob_poll ob = Some (Ready (Err e))
  | Unwinding _ => True
  end ->
  before_drop shortcut setup ob0 ob g o.
Proof.
  destruct ob as [held known last now total timers fut poll writes locks fresh]. simpl.
  intros Hg Hh Hwr Hp He Ho. split; [done|split; [done|split; [done|]]]. split; [done|split; [done|]].
  simpl. destruct o as [[[r|]|e]|c]; [done|done|done|by left].
Qed.

(** ** The wait loop *)
Context (waiting : T -> comp Σ bool) (waiting_is : forall s, next (waiting s) = HRet (w s)).

Lemma timer_loop_obs n ob g future (Q : observed -> outcome Timed -> Prop) :
  occupied g -> ob_held ob = true -> ob_future ob = Some (Ok future) -> ob_writes ob = [] ->
  (forall ob' o, plan ob' = plan ob -> explained no_shortcut no_setup ob' o -> Q ob' o) ->
  safe' n ob (wait_while_with_timer_locked g future waiting (action f) guard_wait_with_timer) Q.
Proof.
  intros Hg Hh Hf Hwr HQ. apply (scoped_obs _ _ no_shortcut no_setup); [|exact HQ].
  apply (safe_sloop _ (fun ob' g => occupied g /\ ob_held ob' = true /\ plan ob' = plan ob /\ ob_writes ob' = []));
    [done|].
  intros m ob1 g1 _ (Hg1 & Hh1 & Hp1 & Hwr1).
  assert (Hf1 : ob_future ob1 = Some (Ok future)) by (unfold plan in Hp1; congruence).
  apply safe_sbind, guard_wait_with_timer_obs; [done..|].
  intros ob2 g2 o (Hg2 & Hh2 & (? & ? & ? & ? & ?) & Hpoll).
  assert (Hp2 : plan ob2 = plan ob) by (rewrite <- Hp1; unfold plan; congruence).
  assert (Hwr2 : ob_writes ob2 = []) by congruence.
  destruct o as [[status|e]|c].
  - intros i _. apply safe_sbind, check_obs; [done..|]. intros s.
    assert (Hs : ob_held (observe ob2 (GetState TheGuard) s) = true /\
      ob_known (observe ob2 (GetState TheGuard) s) = Some s /\
      ob_last (observe ob2 (GetState TheGuard) s) = Some s /\
      ob_writes (observe ob2 (GetState TheGuard) s) = [] /\
      plan (observe ob2 (GetState TheGuard) s) = plan ob /\
      ob_poll (observe ob2 (GetState TheGuard) s) = ob_poll ob2 /\
      ob_fresh (observe ob2 (GetState TheGuard) s) = true) by (by destruct ob2).
    destruct Hs as (Hh3 & Hk3 & Hl3 & Hw3 & Hp3 & Hq3 & Hf3).
    assert (Hne : forall e, ob_poll (observe ob2 (GetState TheGuard) s) <> Some (Ready (Err e)))
      by (intros e; rewrite Hq3, Hpoll; by destruct status).
    destruct (w s) as [[]|c] eqn:Hw.
    + intros j _. simpl. destruct status; simpl; apply safe_ret; [done|].
      apply no_write_obs; try done; [by intros e He; apply Hne in He|]. split; [by exists s|].
      right. by rewrite Hq3, Hpoll, Hf3.
    + intros j _. simpl. apply safe_sbind. eapply (ready_obs _ ob); [done..|].
      intros ob4 g4 [r|c] Hb; [|exact Hb]. intros j1 _. by apply safe_ret.
    + apply no_write_obs; try done. by intros e He; apply Hne in He.
  - intros i _. apply safe_ret, no_write_obs; try done; [congruence|by right; right].
  - apply no_write_obs; try done. congruence.
Qed.

(** A prefix that runs under the guard: it decides the wait, or leaves a future
    to wait on. *)
Definition prefix_end (shortcut : observed -> Prop) (setup : setup_error) (planned : observed -> Prop)
    (ob : observed) (g : StdMonitorGuard) (o : outcome (Timed + TimerFuture)) : Prop :=
  planned ob /\
  match o with
  | Returned (inr future) =>
      occupied g /\ ob_held ob = true /\ ob_future ob = Some (Ok future) /\ ob_writes ob = []
  | Returned (inl r) => before_drop shortcut setup ob ob g (Returned r)
  | Unwinding c => before_drop shortcut setup ob ob g (Unwinding c)
  end.

Lemma owned_obs n ob g shortcut setup (planned : observed -> Prop)
    (m : stateful Σ StdMonitorGuard (Timed + TimerFuture)) (Q : observed -> outcome Timed -> Prop) :
  safe' n ob (m g) (fun ob' '(g', o) => prefix_end shortcut setup planned ob' g' o) ->
  (forall ob1 ob2, plan ob1 = plan ob2 -> planned ob1 -> planned ob2) ->
  (forall ob' o, planned ob' -> explained shortcut setup ob' o -> Q ob' o) ->
  safe' n ob (owned g drop_std_guard m (then_wait waiting (action f) guard_wait_with_timer)) Q.
Proof.
  intros Hm Hpl HQ. apply safe_owned. eapply safe_mono; [reflexivity|exact Hm|].
  intros ob1 [g1 [[r|future]|c]] (Hplan & Hx).
  - destruct Hx as (Hg & Hh & _ & Hex). intros i _. apply safe_cbind, drop_obs; [done..|].
    intros j _. apply safe_return, HQ; [|exact Hex].
    eapply Hpl; [|done]. by rewrite plan_unlock.
  - destruct Hx as (Hg & Hh & Hf & Hwr). intros i _. apply timer_loop_obs; [done..|].
    intros ob' o Hp Hex. apply HQ; [by eapply Hpl; [symmetry|]|by apply explained_weaken].
  - destruct Hx as (Hg & Hh & _ & Hex). intros i _. apply drop_obs; [done..|].
    apply HQ; [|by rewrite unlock_observed]. eapply Hpl; [|done]. by rewrite plan_unlock.
Qed.

(** ** The three timed waits *)

(** At most one timer was created, for [deadline ob] fixed when the budget
    started. *)
Definition one_timer (deadline : observed -> Result MonotonicInstant TimeError -> Prop)
    (ob : observed) : Prop :=
  ob_timers ob = [] \/ exists d, deadline ob (Ok d) /\ ob_timers ob = [d].

Definition budget_deadline (timeout : Duration) (ob : observed) (r : Result MonotonicInstant TimeError) : Prop :=
  exists started_at, ob_now ob = Some started_at /\ instant_checked_add started_at timeout = r.

(** The end of the budget overflows: before any timer, under the first lock. *)
Definition budget_setup (timeout : Duration) : setup_error := fun ob e =>
  ob_timers ob = [] /\ ob_locks ob = 1 /\
  exists started_at, ob_now ob = Some started_at /\ instant_checked_add started_at timeout = Err e.

(** A zero budget: after the first check, without a timer. *)
Definition zero_budget (timeout : Duration) (ob : observed) : Prop :=
  Duration_is_zero timeout = true /\ ob_timers ob = [] /\ ob_locks ob = 1.

(** The deadline has passed: the first poll after the first check, the lock held
    throughout. *)
Definition already_over (ob : observed) : Prop := ob_poll ob = Some (Ready (Ok tt)) /\ ob_locks ob = 1.

Lemma wait_while_for_obs n self timeout (Q : observed -> outcome Timed -> Prop) :
  (forall ob o, one_timer (budget_deadline timeout) ob ->
     explained (zero_budget timeout) (budget_setup timeout) ob o -> Q ob o) ->
  safe' n nothing_observed (wait_while_for self timeout waiting (action f)) Q.
Proof.
  intros HQ. apply safe_cbind, lock_obs; [done|]. intros g Hg i _.
  eapply (owned_obs _ _ _ _ _ (one_timer (budget_deadline timeout))); [|intros [] []; by unfold plan, one_timer, budget_deadline; simpl; intros [= -> -> -> ->]|exact HQ].
  apply safe_sbind, (ocall_lift _ _ (TimerClockNow (timer self))); [done|]. intros started _ i1 _.
  apply safe_sbind, check_obs; [done..|]. intros s. cbn [observe nothing_observed].
  assert (Hno : forall e : TimeError, @None (Poll (Result unit TimeError)) = Some (Ready (Err e)) -> False) by done.
  destruct (w s) as [[]|c] eqn:Hw.
  - intros i2 _. simpl. destruct (Duration_is_zero timeout) eqn:Hz.
    { apply safe_ret. split; [by left|]. apply no_write_obs; try done. simpl. split; [by exists s|by left]. }
    destruct (instant_checked_add started timeout) as [deadline|e] eqn:Hadd.
    2: { apply safe_ret. split; [by left|]. apply no_write_obs; try done. left. split; [done|split; [done|by exists started]]. }
    apply safe_sbind, (ocall_lift _ _ (TimerAt (timer self) deadline)); [simpl; eauto 6|].
    assert (Hone : forall r, one_timer (budget_deadline timeout)
      (MkObserved true (Some s) (Some s) (Some started) None [deadline] r None [] 1 true)) by
      (intros r; right; exists deadline; split; [by exists started|done]).
    intros [future|e] _ i3 _; apply safe_ret; (split; [apply Hone|]); [done|].
    apply no_write_obs; try done. by right; left.
  - intros i2 _. simpl. apply safe_sbind. eapply ready_obs; [done..|].
    intros ob g1 o (Hg1 & Hh1 & Hp1 & Hex).
    assert (Hone : one_timer (budget_deadline timeout) ob) by (left; unfold plan in Hp1; simpl in Hp1; congruence).
    destruct o as [r|c]; [intros i3 _; apply safe_ret|]; (split; [done|]); done.
  - split; [by left|]. by apply no_write_obs.
Qed.

(** The deadline was given. *)
Definition given_deadline (total : option (Result MonotonicInstant TimeError)) (deadline : MonotonicInstant)
    (ob : observed) : Prop :=
  ob_total ob = total /\ (ob_timers ob = [] \/ ob_timers ob = [deadline]).

Lemma wait_while_with_deadline_obs n self deadline setup total (Q : observed -> outcome Timed -> Prop) :
  (forall ob o, given_deadline total deadline ob -> explained already_over setup ob o -> Q ob o) ->
  safe' n (MkObserved false None None None total [] None None [] 0 false)
    (wait_while_with_deadline self deadline waiting (action f)) Q.
Proof.
  intros HQ. apply safe_cbind, lock_obs; [done|]. intros g Hg i _.
  eapply (owned_obs _ _ _ _ _ (given_deadline total deadline));
    [|intros [] []; by unfold plan, given_deadline; simpl; intros [= -> -> -> ->]|exact HQ].
  apply safe_sbind, check_obs; [done..|]. intros s. cbn [observe].
  destruct (w s) as [[]|c] eqn:Hw.
  - intros i2 _. simpl. apply safe_sbind, (ocall_lift _ _ (TimerAt (timer self) deadline)); [simpl; eauto 6|].
    assert (Hone : forall r p fresh, given_deadline total deadline
      (MkObserved true (Some s) (Some s) None total [deadline] r p [] 1 fresh)) by (by split; [|right]).
    intros [future|e] _ i3 _.
    2: { apply safe_ret. split; [apply Hone|]. apply no_write_obs; try done. by right; left. }
    apply safe_sbind, (ocall_lift _ _ (TimerPoll future None)); [done|].
    intros [[u|e]|] _ i4 _; apply safe_ret; (split; [apply Hone|]); [| |done].
    + apply no_write_obs; try done. split; [by exists s|]. left. by destruct u.
    + apply no_write_obs; try done; [by intros ? [= ->]|by right; right].
  - intros i2 _. simpl. apply safe_sbind. eapply ready_obs; [done..|].
    intros ob g1 o (Hg1 & Hh1 & Hp1 & Hex).
    assert (Hone : given_deadline total deadline ob) by (unfold plan, given_deadline in *; simpl in *; split; [|left]; congruence).
    destruct o as [r|c]; [intros i3 _; apply safe_ret|]; (split; [done|]); done.
  - split; [split; [done|by left]|]. by apply no_write_obs.
Qed.




End Observe.

(** ** Properties *)
Section Properties.
Context `{QubitClock} {T R : Type} (w : T -> outcome bool) (f : T -> T * outcome R) (self : StdMonitor).

(** C6: [wait_while_for], explained by its calls, for every execution and all
    answers of lock, timer and clock. The budget starts under the lock before
    the first check; the deadline [started_at + timeout] is fixed once and at
    most one timer is created, after a check that blocks; a zero timeout times
    out without a timer; the result is ready exactly when the action ran, once,
    on a state that does not block; any other timeout is reported only after the
    timer completed and, after that poll and under the last acquisition of the
    lock, a check that still blocks; an overflow or timer error is returned as is,
    without running the action; the lock is free at the end. *)
Theorem wait_while_for_explained timeout tr o :
  exec (wait_while_for self timeout (predicate w) (action f)) tr o ->
  answers_ok (observer w f) nothing_observed tr ->
  calls_ok (observer w f) nothing_observed tr /\
  one_timer (budget_deadline timeout) (ghost_run (observer w f) nothing_observed tr) /\
  explained w f (zero_budget timeout) (budget_setup timeout)
    (ghost_run (observer w f) nothing_observed tr) o.
Proof.
  intros Hex Hok.
  pose proof (fun n => wait_while_for_obs w f (predicate w) (fun s => eq_refl) n self timeout
    _ (fun ob o H1 H2 => conj H1 H2)) as Hsafe.
  split; [by eapply safe_exec_calls|]. by apply (safe_exec _ _ _ _ _ _ Hex Hok Hsafe).
Qed.

(** C19: [wait_while_with_deadline] likewise: the timer is created for the given
    deadline, after a check that blocks; no registration and no suspension
    follows a poll that says it is complete. A timeout is reported if the first
    poll says so, the lock being held since a check that blocks, or else after a
    check under the last acquisition of the lock, after the last poll. *)
Theorem wait_while_with_deadline_explained deadline tr o :
  exec (wait_while_with_deadline self deadline (predicate w) (action f)) tr o ->
  answers_ok (observer w f) nothing_observed tr ->
  calls_ok (observer w f) nothing_observed tr /\
  given_deadline None deadline (ghost_run (observer w f) nothing_observed tr) /\
  explained w f already_over no_setup (ghost_run (observer w f) nothing_observed tr) o.
Proof.
  intros Hex Hok.
  pose proof (fun n => wait_while_with_deadline_obs w f (predicate w) (fun s => eq_refl) n self
    deadline no_setup None _ (fun ob o H1 H2 => conj H1 H2)) as Hsafe.
  split; [by eapply safe_exec_calls|]. by apply (safe_exec _ _ _ _ _ _ Hex Hok Hsafe).
Qed.

End Properties.

Arguments observed : clear implicits.
Arguments observed {_} T.

(** ** Concrete runs

    A timer that completes at its third poll, and a state that always blocks. *)
Section Run.
#[local] Existing Instance test_clock.

Definition never : bool -> outcome bool := fun b => Returned (negb b).
Definition close_gate : bool -> bool * outcome nat := fun _ => (false, Returned 5).

Definition polls (hist : list (item (MonitorSig bool))) : nat :=
  length (List.filter (fun i : item (MonitorSig bool) =>
    match i with Ev e _ => match (e : monitor_op bool) with TimerPoll _ _ => true | _ => false end end) hist).

(** Completes after [k] polls. *)
Definition slow_timer (state : bool) (k : nat) : oracle (MonitorSig bool) := fun hist (e : monitor_op bool) =>
  match e as e return monitor_resp e with
  | TimerPoll f wk => if decide (k <= polls hist) then Ready (Ok tt) else Pending
  | e => World.test_answers state 100 e
  end.

Definition ten_seconds : Duration := {| secs := 10; nanos := 0 |}.

Definition run_of {R} (p : comp (MonitorSig bool) R) (state : bool) : list (item (MonitorSig bool)) :=
  (run_with (slow_timer state 3) 60 [] p).1.

Definition timed_out : outcome (Result (WaitTimeoutResult nat) TimeError) := Returned (Ok WaitTimedOut).

Definition run_for := run_of (wait_while_for test_monitor ten_seconds (predicate never) (action close_gate)) false.

(** At instant 100 the deadline is ten seconds later. *)
Lemma wait_while_for_explained_witness :
  calls_ok (observer never close_gate) nothing_observed run_for /\
  one_timer (budget_deadline ten_seconds) (ghost_run (observer never close_gate) nothing_observed run_for) /\
  explained never close_gate (zero_budget ten_seconds) (budget_setup ten_seconds)
    (ghost_run (observer never close_gate) nothing_observed run_for) timed_out.
Proof.
  apply (wait_while_for_explained never close_gate test_monitor ten_seconds run_for timed_out).
  - apply run_exec. vm_cast_no_check (eq_refl (Some timed_out)).
  - vm_compute. repeat split; congruence.
Defined.

Definition in_a_while : @MonotonicInstant test_clock := 500%Z.

Definition run_deadline := run_of
  (wait_while_with_deadline test_monitor in_a_while (predicate never) (action close_gate)) false.

Lemma wait_while_with_deadline_explained_witness :
  calls_ok (observer never close_gate) nothing_observed run_deadline /\
  given_deadline None in_a_while (ghost_run (observer never close_gate) nothing_observed run_deadline) /\
  explained never close_gate already_over no_setup
    (ghost_run (observer never close_gate) nothing_observed run_deadline) timed_out.
Proof.
  apply (wait_while_with_deadline_explained never close_gate test_monitor in_a_while run_deadline timed_out).
  - apply run_exec. vm_cast_no_check (eq_refl (Some timed_out)).
  - vm_compute. repeat split; congruence.
Defined.





End Run.
