(* ===== verification/Simulation.v ===== *)
(** * Programs that make the same visible calls

    [sim R p q]: [p] and [q] make the same calls, up to calls of [p] that are
    hidden, and end with related results, as long as the answers to the hidden
    calls are good. With nothing hidden, and equality, this is [same]. *)
From S2P Require Import Prelude Program.

(** ** Executions of a loop *)
Section Iterates.
Context {Σ : Sig} {S B : Type} (round : S -> list (item Σ) -> S + B -> Prop).

Inductive iterates : S -> list (item Σ) -> B -> Prop :=
| it_leave s tr b : round s tr (inr b) -> iterates s tr b
| it_again s s' tr1 tr2 b : round s tr1 (inl s') -> iterates s' tr2 b -> iterates s (tr1 ++ tr2) b.
End Iterates.

Section Loops.
Context {Σ : Sig}.

Lemma execn_bind {A B} n (p : prog Σ A) (k : A -> prog Σ B) tr b :
  execn n (Bind p k) tr b ->
  exists m tr1 tr2 a, m <= n /\ tr = tr1 ++ tr2 /\ exec p tr1 a /\ execn m (k a) tr2 b.
Proof.
  revert p tr. induction n as [|n IH]; intros p tr Hn; [done|]. cbn [execn next] in Hn.
  destruct (next p) as [a|e k'|p'] eqn:Hp.
  - exists (S n), [], tr, a. split; [done|split; [done|split; [by apply exec_ret|done]]].
  - destruct tr as [|i tr]; [done|]. destruct Hn as (r & -> & Hn).
    destruct (IH _ _ Hn) as (m & tr1 & tr2 & a & Hm & -> & Hx & Hk). exists m, (Ev e r :: tr1), tr2, a.
    split; [lia|split; [done|split; [by eapply exec_vis|done]]].
  - destruct (IH _ _ Hn) as (m & tr1 & tr2 & a & Hm & -> & Hx & Hk). exists m, tr1, tr2, a.
    split; [lia|split; [done|split; [by eapply exec_tau|done]]].
Qed.

Lemma loop_k_exec {S B} (body : S -> prog Σ (S + B)) s tr b :
  exec (Bind (body s) (loop_k body)) tr b -> exec (Loop body s) tr b.
Proof.
  intros He. rewrite exec_step. rewrite exec_step in He. cbn [next] in He |- *.
  destruct (next (body s)) as [[s'|b']|e k|p] eqn:Hn; cbn [loop_k] in He; [|exact He..].
  by apply exec_step.
Qed.

Lemma exec_loop {S B} (body : S -> prog Σ (S + B)) s tr b :
  exec (Loop body s) tr b <-> iterates (fun s tr r => exec (body s) tr r) s tr b.
Proof.
  split.
  - rewrite exec_execn. intros [n Hn]. revert s tr Hn.
    induction n as [n IH] using lt_wf_ind. intros s tr Hn. destruct n as [|n]; [done|].
    assert (Hk : forall m r tr1 tr2, m <= n -> exec (body s) tr1 r -> execn m (loop_k body r) tr2 b ->
      iterates (fun s tr r => exec (body s) tr r) s (tr1 ++ tr2) b).
    { intros m [s'|b'] tr1 tr2 Hm Hx Hr; [eapply it_again; [exact Hx|apply (IH m); [lia|done]]|].
      destruct m as [|m]; [done|]. destruct Hr as [-> <-]. rewrite app_nil_r. by apply it_leave. }
    cbn [execn next] in Hn. destruct (next (body s)) as [[s'|b']|e k|p] eqn:Hx.
    + apply (Hk n (inl s') [] tr); [done|by apply exec_ret|done].
    + destruct Hn as [-> ->]. by apply it_leave, exec_ret.
    + destruct tr as [|i tr]; [done|]. destruct Hn as (r & -> & Hn).
      destruct (execn_bind _ _ _ _ _ Hn) as (m & tr1 & tr2 & a & Hm & -> & Hp & Hr).
      rewrite app_comm_cons. eapply Hk; [exact Hm| |exact Hr]. by eapply exec_vis.
    + destruct (execn_bind _ _ _ _ _ Hn) as (m & tr1 & tr2 & a & Hm & -> & Hp & Hr).
      eapply Hk; [exact Hm| |exact Hr]. by eapply exec_tau.
  - induction 1 as [s tr b Hx|s s' tr1 tr2 b Hx _ IH]; apply loop_k_exec, exec_bind.
    + exists tr, [], (inr b). rewrite app_nil_r. split; [done|split; [done|by apply exec_ret]].
    + by exists tr1, tr2, (inl s').
Qed.
End Loops.

(** ** Simulation *)
Section Sim.
Context {Σ : Sig} (hidden : item Σ -> bool) (good : item Σ -> Prop).

Definition erase (tr : list (item Σ)) : list (item Σ) := List.filter (fun i => negb (hidden i)) tr.

Lemma erase_app tr1 tr2 : erase (tr1 ++ tr2) = erase tr1 ++ erase tr2.
Proof. apply List.filter_app. Qed.

Definition sim {A B} (R : A -> B -> Prop) (p : prog Σ A) (q : prog Σ B) : Prop :=
  (forall tr a, exec p tr a -> Forall good tr -> exists b, R a b /\ exec q (erase tr) b) /\
  (forall tr b, exec q tr b -> exists tr' a, erase tr' = tr /\ Forall good tr' /\ R a b /\ exec p tr' a).

(** *** One step *)
Lemma sim_ret {A B} (R : A -> B -> Prop) p q a b :
  next p = HRet a -> next q = HRet b -> R a b -> sim R p q.
Proof.
  intros Hp Hq HR. split.
  - intros tr x He _. rewrite exec_step, Hp in He. destruct He as [-> <-]. exists b. split; [done|by apply exec_ret].
  - intros tr x He. rewrite exec_step, Hq in He. destruct He as [-> <-].
    exists [], a. split; [done|split; [done|split; [done|by apply exec_ret]]].
Qed.

Lemma sim_vis {A B} (R : A -> B -> Prop) p q e k k' :
  next p = HVis e k -> next q = HVis e k' ->
  (forall r, hidden (Ev e r) = false /\ good (Ev e r)) ->
  (forall r, sim R (k r) (k' r)) -> sim R p q.
Proof.
  intros Hp Hq He Hk. split.
  - intros tr x Hx Hg. rewrite exec_step, Hp in Hx. destruct Hx as (r & tr' & -> & Hx).
    apply Forall_cons in Hg as [_ Hg]. destruct (proj1 (Hk r) _ _ Hx Hg) as (b & HR & Hb).
    exists b. split; [done|]. unfold erase. simpl. rewrite (proj1 (He r)). simpl. by eapply exec_vis.
  - intros tr x Hx. rewrite exec_step, Hq in Hx. destruct Hx as (r & tr' & -> & Hx).
    destruct (proj2 (Hk r) _ _ Hx) as (tr1 & a & <- & Hg & HR & Ha). exists (Ev e r :: tr1), a.
    split; [unfold erase; simpl; by rewrite (proj1 (He r))|].
    split; [constructor; [apply He|done]|]. split; [done|by eapply exec_vis].
Qed.

(** A hidden call has one good answer. *)
Lemma sim_hidden {A B} (R : A -> B -> Prop) p q e k r :
  next p = HVis e k -> (forall r, hidden (Ev e r) = true) -> (forall r', good (Ev e r') <-> r' = r) ->
  sim R (k r) q -> sim R p q.
Proof.
  intros Hp Hh Hr [H1 H2]. split.
  - intros tr x Hx Hg. rewrite exec_step, Hp in Hx. destruct Hx as (r' & tr' & -> & Hx).
    apply Forall_cons in Hg as [Hg Hg']. apply Hr in Hg as ->. unfold erase. simpl. rewrite Hh. by apply H1.
  - intros tr x Hx. destruct (H2 _ _ Hx) as (tr1 & a & <- & Hg & HR & Ha). exists (Ev e r :: tr1), a.
    split; [unfold erase; simpl; by rewrite Hh|]. split; [constructor; [by apply Hr|done]|].
    split; [done|by eapply exec_vis].
Qed.

(** *** Structure *)
Lemma sim_bind {A A' B B'} (R : A -> A' -> Prop) (R' : B -> B' -> Prop) p q k k' :
  sim R p q -> (forall a a', R a a' -> sim R' (k a) (k' a')) -> sim R' (Bind p k) (Bind q k').
Proof.
  intros [H1 H2] Hk. split.
  - intros tr b Hx Hg. apply exec_bind in Hx as (tr1 & tr2 & a & -> & Hp & Hx).
    apply Forall_app in Hg as [Hg1 Hg2]. destruct (H1 _ _ Hp Hg1) as (a' & HR & Hq).
    destruct (proj1 (Hk _ _ HR) _ _ Hx Hg2) as (b' & HR' & Hb). exists b'. split; [done|].
    rewrite erase_app. apply exec_bind. eauto 7.
  - intros tr b' Hx. apply exec_bind in Hx as (tr1 & tr2 & a' & -> & Hq & Hx).
    destruct (H2 _ _ Hq) as (t1 & a & <- & Hg1 & HR & Hp).
    destruct (proj2 (Hk _ _ HR) _ _ Hx) as (t2 & b & <- & Hg2 & HR' & Hb). exists (t1 ++ t2), b.
    split; [apply erase_app|]. split; [by apply Forall_app|]. split; [done|]. apply exec_bind. eauto 7.
Qed.

Definition sum_rel {A A' B B'} (R : A -> A' -> Prop) (R' : B -> B' -> Prop) (x : A + B) (y : A' + B') : Prop :=
  match x, y with inl a, inl a' => R a a' | inr b, inr b' => R' b b' | _, _ => False end.

Lemma sim_loop {S S' B B'} (I : S -> S' -> Prop) (R : B -> B' -> Prop)
    (body : S -> prog Σ (S + B)) (body' : S' -> prog Σ (S' + B')) s s' :
  I s s' -> (forall s s', I s s' -> sim (sum_rel I R) (body s) (body' s')) ->
  sim R (Loop body s) (Loop body' s').
Proof.
  intros HI Hb. split.
  - intros tr b Hx. rewrite exec_loop in Hx. revert s' HI.
    induction Hx as [s tr b Hx|s s1 tr1 tr2 b Hx _ IH]; intros s' HI Hg.
    + destruct (proj1 (Hb _ _ HI) _ _ Hx Hg) as ([?|b'] & HR & Hy); [done|]. exists b'.
      split; [done|]. by apply exec_loop, it_leave.
    + apply Forall_app in Hg as [Hg1 Hg2].
      destruct (proj1 (Hb _ _ HI) _ _ Hx Hg1) as ([s1'|?] & HR & Hy); [|done].
      destruct (IH s1' HR Hg2) as (b' & HR' & Hz). exists b'. split; [done|].
      rewrite erase_app. apply exec_loop. eapply it_again; [exact Hy|by apply exec_loop].
  - intros tr b' Hx. rewrite exec_loop in Hx. revert s HI.
    induction Hx as [s' tr b' Hx|s' s1' tr1 tr2 b' Hx _ IH]; intros s HI.
    + destruct (proj2 (Hb _ _ HI) _ _ Hx) as (t & [?|b] & Ht & Hg & HR & Hy); [done|].
      exists t, b. split; [done|split; [done|split; [done|]]]. by apply exec_loop, it_leave.
    + destruct (proj2 (Hb _ _ HI) _ _ Hx) as (t1 & [s1|?] & <- & Hg1 & HR & Hy); [|done].
      destruct (IH s1 HR) as (t2 & b & <- & Hg2 & HR' & Hz). exists (t1 ++ t2), b.
      split; [apply erase_app|]. split; [by apply Forall_app|]. split; [done|].
      apply exec_loop. eapply it_again; [exact Hy|by apply exec_loop].
Qed.

Lemma sim_same_r {A B} (R : A -> B -> Prop) p q q' : same q q' -> sim R p q' -> sim R p q.
Proof.
  intros Hq [H1 H2]. split.
  - intros tr a Hx Hg. destruct (H1 _ _ Hx Hg) as (b & HR & Hb). exists b. split; [done|by apply Hq].
  - intros tr b Hx. by apply H2, Hq.
Qed.
End Sim.

(** Nothing hidden. *)
Lemma sim_same {Σ A} (p q : prog Σ A) : sim (fun _ => false) (fun _ => True) eq p q -> same p q.
Proof.
  assert (He : forall tr : list (item Σ), erase (fun _ => false) tr = tr).
  { induction tr as [|i tr IH]; [done|]. cbn. f_equal. exact IH. }
  intros [H1 H2] tr a. split; intros Hx.
  - destruct (H1 _ _ Hx) as (b & -> & Hb); [by apply Forall_true|]. by rewrite He in Hb.
  - destruct (H2 _ _ Hx) as (tr' & b & Ht & _ & <- & Hb). rewrite He in Ht. by subst.
Qed.
