(* ===== verification/MonitorTraits.v ===== *)
(** * The monitor traits

    [notifier.rs], [condition_waiter.rs], [monitor.rs] and
    [timeout_condition_waiter.rs]: the traits as type classes, their default
    methods as definitions over them, and the instances for [StdMonitor],
    for [ParkingLotMonitor] and for [Arc<M>]. *)
From S2P Require Import Prelude Program WaitResult Primitives BlockingWaiter GuardWait ConditionWait StdMonitor ParkingLotMonitor.

Section Traits.
Context `{QubitClock} (Σ : Sig) (T : Type).
Abbreviation Timed R := (Result (WaitTimeoutResult R) TimeError).

Class Notifier (M : Type) : Type := {
  trait_notify_one : M -> comp Σ unit;
  trait_notify_all : M -> comp Σ unit
}.

(** Required methods. *)
Class ConditionWaiter (M : Type) : Type := {
  trait_wait_while : forall {R}, M -> (T -> comp Σ bool) -> stateful Σ T R -> comp Σ R
}.

Class Monitor (M : Type) `{!Notifier M, !ConditionWaiter M} : Type := {
  trait_with_read : forall {R}, M -> (T -> comp Σ R) -> comp Σ R;
  trait_with_write : forall {R}, M -> stateful Σ T R -> comp Σ R
}.

Class TimeoutConditionWaiter (M : Type) `{!ConditionWaiter M} : Type := {
  trait_wait_while_with_deadline : forall {R},
    M -> MonotonicInstant -> (T -> comp Σ bool) -> stateful Σ T R -> comp Σ (Timed R);
  trait_wait_while_with_total_timeout : forall {R},
    M -> Duration -> (T -> comp Σ bool) -> stateful Σ T R -> comp Σ (Timed R);
  trait_wait_while_for : forall {R},
    M -> Duration -> (T -> comp Σ bool) -> stateful Σ T R -> comp Σ (Timed R)
}.

(** ** Default methods *)
Section Defaults.
Context {M : Type} `{!Notifier M, !ConditionWaiter M, !Monitor M, !TimeoutConditionWaiter M}.

(** [|state| !predicate(state)]. *)
Definition not_predicate (predicate : T -> comp Σ bool) : T -> comp Σ bool := fun s =>
  b ← predicate s;
  ret (negb b).

(** [|_| ()]. *)
Definition unit_action : stateful Σ T unit := fun s => Ret (s, Returned tt).

Definition trait_wait_until {R} (self : M) (predicate : T -> comp Σ bool) (action : stateful Σ T R) :=
  trait_wait_while self (not_predicate predicate) action.

Definition trait_wait_until_ready (self : M) (predicate : T -> comp Σ bool) : comp Σ unit :=
  trait_wait_until self predicate unit_action.

Definition trait_with_write_notify_one {R} (self : M) (f : stateful Σ T R) : comp Σ R :=
  result ← trait_with_write self f;
  _ ← trait_notify_one self;
  ret result.

Definition trait_with_write_notify_all {R} (self : M) (f : stateful Σ T R) : comp Σ R :=
  result ← trait_with_write self f;
  _ ← trait_notify_all self;
  ret result.

Definition trait_wait_until_with_deadline {R} (self : M) (deadline : MonotonicInstant)
    (predicate : T -> comp Σ bool) (action : stateful Σ T R) : comp Σ (Timed R) :=
  trait_wait_while_with_deadline self deadline (not_predicate predicate) action.

Definition trait_wait_until_ready_with_deadline (self : M) (deadline : MonotonicInstant)
    (predicate : T -> comp Σ bool) : comp Σ (Timed unit) :=
  trait_wait_until_with_deadline self deadline predicate unit_action.

Definition trait_wait_until_with_total_timeout {R} (self : M) (timeout : Duration)
    (predicate : T -> comp Σ bool) (action : stateful Σ T R) : comp Σ (Timed R) :=
  trait_wait_while_with_total_timeout self timeout (not_predicate predicate) action.

Definition trait_wait_until_ready_with_total_timeout (self : M) (timeout : Duration)
    (predicate : T -> comp Σ bool) : comp Σ (Timed unit) :=
  trait_wait_until_with_total_timeout self timeout predicate unit_action.

Definition trait_wait_until_for {R} (self : M) (timeout : Duration)
    (predicate : T -> comp Σ bool) (action : stateful Σ T R) : comp Σ (Timed R) :=
  trait_wait_while_for self timeout (not_predicate predicate) action.

Definition trait_wait_until_ready_for (self : M) (timeout : Duration)
    (predicate : T -> comp Σ bool) : comp Σ (Timed unit) :=
  trait_wait_until_for self timeout predicate unit_action.
End Defaults.

(** ** [Arc<M>]: every method goes to the shared value *)
#[export] Instance Arc_Notifier {M} `{!Notifier M} : Notifier (Arc M) := {
  trait_notify_one self := trait_notify_one (as_ref self);
  trait_notify_all self := trait_notify_all (as_ref self)
}.

#[export] Instance Arc_ConditionWaiter {M} `{!ConditionWaiter M} : ConditionWaiter (Arc M) := {
  trait_wait_while R self predicate action := trait_wait_while (as_ref self) predicate action
}.

#[export] Instance Arc_Monitor {M} `{!Notifier M, !ConditionWaiter M, !Monitor M} : Monitor (Arc M) := {
  trait_with_read R self f := trait_with_read (as_ref self) f;
  trait_with_write R self f := trait_with_write (as_ref self) f
}.

#[export] Instance Arc_TimeoutConditionWaiter {M}
    `{!ConditionWaiter M, !TimeoutConditionWaiter M} : TimeoutConditionWaiter (Arc M) := {
  trait_wait_while_with_deadline R self deadline predicate action :=
    trait_wait_while_with_deadline (as_ref self) deadline predicate action;
  trait_wait_while_with_total_timeout R self timeout predicate action :=
    trait_wait_while_with_total_timeout (as_ref self) timeout predicate action;
  trait_wait_while_for R self timeout predicate action :=
    trait_wait_while_for (as_ref self) timeout predicate action
}.
End Traits.

(** ** A write that notifies after its guard is dropped, or through its guard *)
Section Consuming.
Context `{QubitClock} {T G R : Type} `{!MonitorGuard T G}.
Abbreviation Σ := (MonitorSig T).
Abbreviation free' := (safe (free_rules Σ)).

Lemma apply_mut_keeps_guard n (f : stateful Σ T R) (g : G) :
  free' n tt (apply_mut f g) (fun _ '(g', _) => g' = g).
Proof.
  assert (Hfree : forall {A} n (p : prog Σ A) (Q : unit -> A -> Prop), (forall a, Q tt a) -> free' n tt p Q).
  { intros A n0 p Q HQ. eapply safe_mono; [reflexivity|apply safe_free|]. by intros [] a _. }
  apply safe_sbind, safe_ret. intros i _.
  apply safe_sbind, safe_lift, Hfree. intros [s|c]; [|done]. intros j _.
  apply safe_sbind, safe_run_on, Hfree. intros [s' o] j1 _.
  apply safe_sbind, safe_lift, Hfree. intros [[]|c]; [|done]. intros j2 _. by apply safe_lift, Hfree.
Qed.

(** After the release, the scope of the consumed guard has nothing to drop. *)
Lemma notify_after_release (notify : comp Σ unit) (drop : G -> bool -> comp Σ unit) (g : G) (result : R) :
  (forall b, next (drop g b) = HRet (Returned tt)) ->
  same (Bind notify (fun o => match o with Returned _ => ret result | Unwinding c => Ret (Unwinding c) end))
    (Bind (Bind (lift notify g) (fun '(g', o) =>
        match o with
        | Returned a => drop g' false ≫= fun _ => ret a
        | Unwinding c => Bind (drop g' true) (fun _ => Ret (Unwinding c))
        end)) (fun o => match o with Returned _ => ret result | Unwinding c => Ret (Unwinding c) end)).
Proof.
  intros Hd. unfold lift. rewrite !Bind_assoc. apply Bind_proper; [done|].
  intros [[]|c]; apply same_next; unfold bind, comp_bind; simpl; by rewrite Hd.
Qed.

(** [lock] returns guards that are [good]; [guard_notify] consumes one. *)
Lemma write_notify_same (lock : comp Σ G) (good : G -> Prop) (f : stateful Σ T R) (notify : comp Σ unit)
    (guard_notify : G -> comp Σ unit) :
  (forall n, free' n tt lock (fun _ o => match o with Returned g => good g | Unwinding _ => False end)) ->
  (forall g result, good g ->
     same (_ ← drop_guard g false; _ ← notify; ret result) (_ ← guard_notify g; ret (A := R) result)) ->
  same (result ← (guard ← lock; scoped guard drop_guard (apply_mut f)); _ ← notify; ret result)
    (guard ← lock;
     owned guard drop_guard (apply_mut f) (fun result guard => guard_notify guard ≫= fun _ => ret result)).
Proof.
  intros Hlock Hn. unfold bind, comp_bind. rewrite Bind_assoc.
  eapply (same_bind_under (free_rules Σ) _ _ _ tt); [done|exact Hlock|].
  intros [g|c] Hg; [|done]. unfold scoped, owned. rewrite !Bind_assoc.
  eapply (same_bind_under (free_rules Σ) _ _ _ tt); [done|intros n; apply apply_mut_keeps_guard|].
  intros [g' [r|c]] ->.
  - etransitivity; [|by apply (Hn g r)]. unfold bind, comp_bind.
    rewrite Bind_assoc. apply Bind_proper; [done|]. intros [[]|c]; by apply same_next.
  - rewrite Bind_assoc. apply Bind_proper; [done|]. intros o. by apply same_next.
Qed.
End Consuming.

(** ** [StdMonitor] *)
Section Std.
Context `{QubitClock} {T : Type}.
Abbreviation Σ := (MonitorSig T).

#[export] Instance StdMonitor_Notifier : Notifier Σ StdMonitor := {
  trait_notify_one self := StdMonitor.notify_one self;
  trait_notify_all self := StdMonitor.notify_all self
}.

#[export] Instance StdMonitor_ConditionWaiter : ConditionWaiter Σ T StdMonitor := {
  trait_wait_while R self predicate action := StdMonitor.wait_while self predicate action
}.

#[export] Instance StdMonitor_Monitor : Monitor Σ T StdMonitor := {
  trait_with_read R self f := StdMonitor.with_read self f;
  trait_with_write R self f := StdMonitor.with_write self f
}.

#[export] Instance StdMonitor_TimeoutConditionWaiter : TimeoutConditionWaiter Σ T StdMonitor := {
  trait_wait_while_with_deadline R self deadline predicate action :=
    StdMonitor.wait_while_with_deadline self deadline predicate action;
  trait_wait_while_with_total_timeout R self timeout predicate action :=
    StdMonitor.wait_while_with_total_timeout self timeout predicate action;
  trait_wait_while_for R self timeout predicate action :=
    StdMonitor.wait_while_for self timeout predicate action
}.

Lemma std_lock_free n self :
  safe (free_rules Σ) n tt (StdMonitor.lock self) (fun _ o => match o with
     | Returned g => g = StdMonitor.guard_new self TheGuard | Unwinding _ => False end).
Proof.
  apply safe_cbind, safe_cbind. eapply safe_call_c; [done|]. intros r _ i _. apply safe_return.
  intros j _. apply safe_return. by destruct (recover r).
Qed.

Lemma std_write_notify_same {R} (self : StdMonitor) (f : stateful Σ T R) (notify : comp Σ unit)
    (guard_notify : StdMonitorGuard -> comp Σ unit) :
  (forall g, guard_notify g = scoped g StdMonitor.drop_std_guard
      (_ ← StdMonitor.on_inner (release_guard drop_mutex_guard StdMonitor.missing_guard); lift notify)) ->
  same (result ← StdMonitor.with_write self f; _ ← notify; ret result)
    (guard ← StdMonitor.lock self;
     owned guard StdMonitor.drop_std_guard (apply_mut f)
       (fun result guard => guard_notify guard ≫= fun _ => ret result)).
Proof.
  intros Hn. refine (write_notify_same _ _ f notify guard_notify (fun n => std_lock_free n self) _).
  intros g result ->. rewrite Hn. eapply same_vis; [reflexivity|reflexivity|]. intros [].
  etransitivity; [|etransitivity; [apply (notify_after_release notify StdMonitor.drop_std_guard
    {| StdMonitor.monitor := self; StdMonitor.inner := None |} result)|]];
    [by apply same_next|done|by apply same_next].
Qed.
End Std.

(** ** [ParkingLotMonitor] *)
Section ParkingLot.
Context `{QubitClock} {T : Type}.
Abbreviation Σ := (MonitorSig T).

#[export] Instance ParkingLotMonitor_Notifier : Notifier Σ ParkingLotMonitor := {
  trait_notify_one self := ParkingLotMonitor.notify_one self;
  trait_notify_all self := ParkingLotMonitor.notify_all self
}.

#[export] Instance ParkingLotMonitor_ConditionWaiter : ConditionWaiter Σ T ParkingLotMonitor := {
  trait_wait_while R self predicate action := ParkingLotMonitor.wait_while self predicate action
}.

#[export] Instance ParkingLotMonitor_Monitor : Monitor Σ T ParkingLotMonitor := {
  trait_with_read R self f := ParkingLotMonitor.with_read self f;
  trait_with_write R self f := ParkingLotMonitor.with_write self f
}.

#[export] Instance ParkingLotMonitor_TimeoutConditionWaiter : TimeoutConditionWaiter Σ T ParkingLotMonitor := {
  trait_wait_while_with_deadline R self deadline predicate action :=
    ParkingLotMonitor.wait_while_with_deadline self deadline predicate action;
  trait_wait_while_with_total_timeout R self timeout predicate action :=
    ParkingLotMonitor.wait_while_with_total_timeout self timeout predicate action;
  trait_wait_while_for R self timeout predicate action :=
    ParkingLotMonitor.wait_while_for self timeout predicate action
}.

Lemma parking_lot_lock_free n self :
  safe (free_rules Σ) n tt (ParkingLotMonitor.lock self) (fun _ o => match o with
     | Returned g => g = ParkingLotMonitor.guard_new self TheGuard | Unwinding _ => False end).
Proof.
  apply safe_cbind, safe_cbind. eapply safe_call_c; [done|]. intros r _ i _. apply safe_return.
  intros j _. apply safe_return. by destruct r as [[]|[[]]].
Qed.

Lemma parking_lot_write_notify_same {R} (self : ParkingLotMonitor) (f : stateful Σ T R) (notify : comp Σ unit)
    (guard_notify : ParkingLotMonitorGuard -> comp Σ unit) :
  (forall g, guard_notify g = scoped g ParkingLotMonitor.drop_parking_lot_guard
      (_ ← ParkingLotMonitor.on_inner (release_guard drop_mutex_guard ParkingLotMonitor.missing_guard); lift notify)) ->
  same (result ← ParkingLotMonitor.with_write self f; _ ← notify; ret result)
    (guard ← ParkingLotMonitor.lock self;
     owned guard ParkingLotMonitor.drop_parking_lot_guard (apply_mut f)
       (fun result guard => guard_notify guard ≫= fun _ => ret result)).
Proof.
  intros Hn. refine (write_notify_same _ _ f notify guard_notify (fun n => parking_lot_lock_free n self) _).
  intros g result ->. rewrite Hn. eapply same_vis; [reflexivity|reflexivity|]. intros [].
  etransitivity; [|etransitivity; [apply (notify_after_release notify ParkingLotMonitor.drop_parking_lot_guard
    {| ParkingLotMonitor.monitor := self; ParkingLotMonitor.inner := None |} result)|]];
    [by apply same_next|done|by apply same_next].
Qed.
End ParkingLot.

(** ** The defaults agree with the inherent methods *)
Section Agreement.
Context `{QubitClock} {T : Type}.
Abbreviation Σ := (MonitorSig T).
Abbreviation Timed R := (Result (WaitTimeoutResult R) TimeError).

(** The default methods of the traits, with their arguments and result types. *)
Inductive default_method : Type -> Type :=
| DefaultWithWriteNotifyOne {R} (f : stateful Σ T R) : default_method R
| DefaultWithWriteNotifyAll {R} (f : stateful Σ T R) : default_method R
| DefaultWaitUntil {R} (predicate : T -> comp Σ bool) (action : stateful Σ T R) : default_method R
| DefaultWaitUntilReady (predicate : T -> comp Σ bool) : default_method unit
| DefaultWaitUntilFor {R} (timeout : Duration) (predicate : T -> comp Σ bool) (action : stateful Σ T R) : default_method (Timed R)
| DefaultWaitUntilReadyFor (timeout : Duration) (predicate : T -> comp Σ bool) : default_method (Timed unit)
| DefaultWaitUntilWithDeadline {R} (deadline : MonotonicInstant) (predicate : T -> comp Σ bool) (action : stateful Σ T R)
    : default_method (Timed R)
| DefaultWaitUntilReadyWithDeadline (deadline : MonotonicInstant) (predicate : T -> comp Σ bool) : default_method (Timed unit)
| DefaultWaitUntilWithTotalTimeout {R} (timeout : Duration) (predicate : T -> comp Σ bool) (action : stateful Σ T R)
    : default_method (Timed R)
| DefaultWaitUntilReadyWithTotalTimeout (timeout : Duration) (predicate : T -> comp Σ bool) : default_method (Timed unit).

(** The default method, on any implementation of the required ones. *)
Definition by_default {M R} `{!Notifier Σ M, !ConditionWaiter Σ T M, !Monitor Σ T M, !TimeoutConditionWaiter Σ T M}
    (self : M) (m : default_method R) : comp Σ R :=
  match m with
  | DefaultWithWriteNotifyOne f => trait_with_write_notify_one Σ T self f
  | DefaultWithWriteNotifyAll f => trait_with_write_notify_all Σ T self f
  | DefaultWaitUntil p f => trait_wait_until Σ T self p f
  | DefaultWaitUntilReady p => trait_wait_until_ready Σ T self p
  | DefaultWaitUntilFor d p f => trait_wait_until_for Σ T self d p f
  | DefaultWaitUntilReadyFor d p => trait_wait_until_ready_for Σ T self d p
  | DefaultWaitUntilWithDeadline d p f => trait_wait_until_with_deadline Σ T self d p f
  | DefaultWaitUntilReadyWithDeadline d p => trait_wait_until_ready_with_deadline Σ T self d p
  | DefaultWaitUntilWithTotalTimeout d p f => trait_wait_until_with_total_timeout Σ T self d p f
  | DefaultWaitUntilReadyWithTotalTimeout d p => trait_wait_until_ready_with_total_timeout Σ T self d p
  end.

(** The inherent methods of the same names. *)
Definition inherent_std {R} (self : StdMonitor) (m : default_method R) : comp Σ R :=
  match m with
  | DefaultWithWriteNotifyOne f => StdMonitor.with_write_notify_one self f
  | DefaultWithWriteNotifyAll f => StdMonitor.with_write_notify_all self f
  | DefaultWaitUntil p f => StdMonitor.wait_until self p f
  | DefaultWaitUntilReady p => StdMonitor.wait_until_ready self p
  | DefaultWaitUntilFor d p f => StdMonitor.wait_until_for self d p f
  | DefaultWaitUntilReadyFor d p => StdMonitor.wait_until_ready_for self d p
  | DefaultWaitUntilWithDeadline d p f => StdMonitor.wait_until_with_deadline self d p f
  | DefaultWaitUntilReadyWithDeadline d p => StdMonitor.wait_until_ready_with_deadline self d p
  | DefaultWaitUntilWithTotalTimeout d p f => StdMonitor.wait_until_with_total_timeout self d p f
  | DefaultWaitUntilReadyWithTotalTimeout d p => StdMonitor.wait_until_ready_with_total_timeout self d p
  end.

Definition inherent_parking_lot {R} (self : ParkingLotMonitor) (m : default_method R) : comp Σ R :=
  match m with
  | DefaultWithWriteNotifyOne f => ParkingLotMonitor.with_write_notify_one self f
  | DefaultWithWriteNotifyAll f => ParkingLotMonitor.with_write_notify_all self f
  | DefaultWaitUntil p f => ParkingLotMonitor.wait_until self p f
  | DefaultWaitUntilReady p => ParkingLotMonitor.wait_until_ready self p
  | DefaultWaitUntilFor d p f => ParkingLotMonitor.wait_until_for self d p f
  | DefaultWaitUntilReadyFor d p => ParkingLotMonitor.wait_until_ready_for self d p
  | DefaultWaitUntilWithDeadline d p f => ParkingLotMonitor.wait_until_with_deadline self d p f
  | DefaultWaitUntilReadyWithDeadline d p => ParkingLotMonitor.wait_until_ready_with_deadline self d p
  | DefaultWaitUntilWithTotalTimeout d p f => ParkingLotMonitor.wait_until_with_total_timeout self d p f
  | DefaultWaitUntilReadyWithTotalTimeout d p => ParkingLotMonitor.wait_until_ready_with_total_timeout self d p
  end.

(** C29: generic code and concrete code cannot be told apart. Each of the ten
    default methods of the traits, called on a [StdMonitor], on a
    [ParkingLotMonitor] or on an [Arc] of one, makes the same calls and ends the
    same way as the monitor's inherent method of that name, for every closure,
    panicking ones included. The waits are the same functions; the notifying
    writes differ: the defaults notify after the write has dropped its guard, the
    inherent methods consume the guard to notify. *)
Theorem default_methods_agree {R} (m : default_method R) (std : StdMonitor) (pl : ParkingLotMonitor) :
  same (by_default std m) (inherent_std std m) /\
  same (by_default (MkArc std) m) (inherent_std std m) /\
  same (by_default pl m) (inherent_parking_lot pl m) /\
  same (by_default (MkArc pl) m) (inherent_parking_lot pl m).
Proof.
  destruct m; split_and!; try reflexivity;
    first [by apply std_write_notify_same|by apply parking_lot_write_notify_same].
Qed.
End Agreement.
