(* ===== verification/AsyncTraits.v ===== *)
(** * The asynchronous monitor traits

    [async_condition_waiter.rs], [async_monitor.rs] and
    [async_timeout_condition_waiter.rs]: the traits as type classes over futures
    (programs of the task that awaits them), their default methods, and the
    instances for [TokioMonitor] and for [Arc<M>]; also the empty traits
    [TimedMonitor], [SharedMonitor], [SharedAsyncMonitor] and [AsyncTimedMonitor]
    with their blanket implementations. *)
From S2P Require Import Prelude Program WaitResult Primitives BlockingWaiter GuardWait ConditionWait StdMonitor World TokioMonitor MonitorTraits.

Section Traits.
Context `{QubitClock} (Σ : Sig) (T : Type).
Abbreviation Timed R := (Result (WaitTimeoutResult R) TimeError).

(** Required methods. *)
Class AsyncConditionWaiter (M : Type) : Type := {
  trait_wait_while_async : forall {R}, M -> (T -> comp Σ bool) -> stateful Σ T R -> comp Σ R
}.

Class AsyncMonitor (M : Type) `{!Notifier Σ M, !AsyncConditionWaiter M} : Type := {
  trait_with_read_async : forall {R}, M -> (T -> comp Σ R) -> comp Σ R;
  trait_with_write_async : forall {R}, M -> stateful Σ T R -> comp Σ R
}.

Class AsyncTimeoutConditionWaiter (M : Type) `{!AsyncConditionWaiter M} : Type := {
  trait_wait_while_with_deadline_async : forall {R},
    M -> MonotonicInstant -> (T -> comp Σ bool) -> stateful Σ T R -> comp Σ (Timed R);
  trait_wait_while_for_async : forall {R},
    M -> Duration -> (T -> comp Σ bool) -> stateful Σ T R -> comp Σ (Timed R)
}.

(** ** Default methods *)
Section Defaults.
Context {M : Type} `{!Notifier Σ M, !AsyncConditionWaiter M, !AsyncMonitor M, !AsyncTimeoutConditionWaiter M}.
Abbreviation negated := (MonitorTraits.not_predicate Σ T).
Abbreviation no_action := (MonitorTraits.unit_action Σ T).

Definition trait_wait_until_async {R} (self : M) (predicate : T -> comp Σ bool) (action : stateful Σ T R) :=
  trait_wait_while_async self (negated predicate) action.

Definition trait_wait_until_ready_async (self : M) (predicate : T -> comp Σ bool) : comp Σ unit :=
  trait_wait_until_async self predicate no_action.

Definition trait_with_write_notify_one_async {R} (self : M) (f : stateful Σ T R) : comp Σ R :=
  result ← trait_with_write_async self f;
  _ ← trait_notify_one Σ self;
  ret result.

Definition trait_with_write_notify_all_async {R} (self : M) (f : stateful Σ T R) : comp Σ R :=
  result ← trait_with_write_async self f;
  _ ← trait_notify_all Σ self;
  ret result.

Definition trait_wait_until_with_deadline_async {R} (self : M) (deadline : MonotonicInstant)
    (predicate : T -> comp Σ bool) (action : stateful Σ T R) : comp Σ (Timed R) :=
  trait_wait_while_with_deadline_async self deadline (negated predicate) action.

Definition trait_wait_until_ready_with_deadline_async (self : M) (deadline : MonotonicInstant)
    (predicate : T -> comp Σ bool) : comp Σ (Timed unit) :=
  trait_wait_until_with_deadline_async self deadline predicate no_action.

Definition trait_wait_until_for_async {R} (self : M) (timeout : Duration)
    (predicate : T -> comp Σ bool) (action : stateful Σ T R) : comp Σ (Timed R) :=
  trait_wait_while_for_async self timeout (negated predicate) action.

Definition trait_wait_until_ready_for_async (self : M) (timeout : Duration)
    (predicate : T -> comp Σ bool) : comp Σ (Timed unit) :=
  trait_wait_until_for_async self timeout predicate no_action.
End Defaults.

(** ** [Arc<M>] *)
#[export] Instance Arc_AsyncConditionWaiter {M} `{!AsyncConditionWaiter M} : AsyncConditionWaiter (Arc M) := {
  trait_wait_while_async R self predicate action := trait_wait_while_async (as_ref self) predicate action
}.

#[export] Instance Arc_AsyncMonitor {M} `{!Notifier Σ M, !AsyncConditionWaiter M, !AsyncMonitor M}
    : AsyncMonitor (Arc M) := {
  trait_with_read_async R self f := trait_with_read_async (as_ref self) f;
  trait_with_write_async R self f := trait_with_write_async (as_ref self) f
}.

#[export] Instance Arc_AsyncTimeoutConditionWaiter {M}
    `{!AsyncConditionWaiter M, !AsyncTimeoutConditionWaiter M} : AsyncTimeoutConditionWaiter (Arc M) := {
  trait_wait_while_with_deadline_async R self deadline predicate action :=
    trait_wait_while_with_deadline_async (as_ref self) deadline predicate action;
  trait_wait_while_for_async R self timeout predicate action :=
    trait_wait_while_for_async (as_ref self) timeout predicate action
}.

(** ** Traits without methods *)
Class TimedMonitor (M : Type) `{!Notifier Σ M, !ConditionWaiter Σ T M, !Monitor Σ T M,
  !TimeoutConditionWaiter Σ T M} : Prop := {}.

Class AsyncTimedMonitor (M : Type) `{!Notifier Σ M, !AsyncConditionWaiter M, !AsyncMonitor M,
  !AsyncTimeoutConditionWaiter M} : Prop := {}.

(** [Clone] of a handle shares the monitor; [Send], [Sync] and ['static] have no
    content here. *)
Class Clone (M : Type) : Type := { clone : M -> M }.

#[export] Instance Arc_Clone {M} : Clone (Arc M) := {| clone self := self |}.

Class SharedMonitor (M : Type) `{!Notifier Σ M, !ConditionWaiter Σ T M, !Monitor Σ T M, !Clone M} : Prop := {}.

Class SharedAsyncMonitor (M : Type) `{!Notifier Σ M, !AsyncConditionWaiter M, !AsyncMonitor M, !Clone M} : Prop := {}.

(** The blanket implementations. *)
#[export] Instance all_TimedMonitor {M} `{!Notifier Σ M, !ConditionWaiter Σ T M, !Monitor Σ T M,
  !TimeoutConditionWaiter Σ T M} : TimedMonitor M := {}.

#[export] Instance all_AsyncTimedMonitor {M} `{!Notifier Σ M, !AsyncConditionWaiter M, !AsyncMonitor M,
  !AsyncTimeoutConditionWaiter M} : AsyncTimedMonitor M := {}.

#[export] Instance all_SharedMonitor {M} `{!Notifier Σ M, !ConditionWaiter Σ T M, !Monitor Σ T M, !Clone M}
  : SharedMonitor M := {}.

#[export] Instance all_SharedAsyncMonitor {M} `{!Notifier Σ M, !AsyncConditionWaiter M, !AsyncMonitor M, !Clone M}
  : SharedAsyncMonitor M := {}.
End Traits.

(** ** [TokioMonitor] *)
Section Tokio.
Context `{QubitClock} {T : Type}.
Abbreviation Σ := (MonitorSig T).
Abbreviation Timed R := (Result (WaitTimeoutResult R) TimeError).

#[export] Instance TokioMonitor_Notifier : Notifier Σ TokioMonitor := {
  trait_notify_one self := TokioMonitor.notify_one self;
  trait_notify_all self := TokioMonitor.notify_all self
}.

#[export] Instance TokioMonitor_AsyncConditionWaiter : AsyncConditionWaiter Σ T TokioMonitor := {
  trait_wait_while_async R self predicate action := TokioMonitor.wait_while_async self predicate action
}.

#[export] Instance TokioMonitor_AsyncMonitor : AsyncMonitor Σ T TokioMonitor := {
  trait_with_read_async R self f := TokioMonitor.with_read_async self f;
  trait_with_write_async R self f := TokioMonitor.with_write_async self f
}.

#[export] Instance TokioMonitor_AsyncTimeoutConditionWaiter : AsyncTimeoutConditionWaiter Σ T TokioMonitor := {
  trait_wait_while_with_deadline_async R self deadline predicate action :=
    TokioMonitor.wait_while_with_deadline_async self deadline predicate action;
  trait_wait_while_for_async R self timeout predicate action :=
    TokioMonitor.wait_while_for_async self timeout predicate action
}.

(** The inherent deadline methods, which call the trait's. *)
Definition wait_until_with_deadline_async {R} (self : TokioMonitor) (deadline : MonotonicInstant)
    (ready : T -> comp Σ bool) (f : stateful Σ T R) : comp Σ (Timed R) :=
  trait_wait_until_with_deadline_async Σ T self deadline ready f.

Definition wait_until_ready_with_deadline_async (self : TokioMonitor) (deadline : MonotonicInstant)
    (ready : T -> comp Σ bool) : comp Σ (Timed unit) :=
  trait_wait_until_ready_with_deadline_async Σ T self deadline ready.

Definition inherent_wait_while_with_deadline_async {R} (self : TokioMonitor) (deadline : MonotonicInstant)
    (predicate : T -> comp Σ bool) (f : stateful Σ T R) : comp Σ (Timed R) :=
  trait_wait_while_with_deadline_async Σ T self deadline predicate f.

(** On a [TokioMonitor], and through an [Arc] of one, the methods that the
    implementation overrides or repeats make the same calls and end the same way
    as the default methods of the traits. *)
Lemma async_default_methods_agree {R} (self : TokioMonitor) (predicate : T -> comp Σ bool)
    (f : stateful Σ T R) (timeout : Duration) (deadline : MonotonicInstant) :
  let arc := MkArc self in
  same (TokioMonitor.with_write_notify_one_async self f) (trait_with_write_notify_one_async Σ T self f) /\
  same (TokioMonitor.with_write_notify_all_async self f) (trait_with_write_notify_all_async Σ T arc f) /\
  same (TokioMonitor.wait_until_async self predicate f) (trait_wait_until_async Σ T arc predicate f) /\
  same (TokioMonitor.wait_until_for_async self timeout predicate f)
       (trait_wait_until_for_async Σ T arc timeout predicate f) /\
  same (inherent_wait_while_with_deadline_async self deadline (TokioMonitor.not_predicate predicate) f)
       (wait_until_with_deadline_async self deadline predicate f).
Proof. repeat split; done. Qed.
End Tokio.
