(* ===== verification/AsyncMonitorApi.v ===== *)
(** * The public operations of an asynchronous monitor

    [async_api] lists the operations of the asynchronous traits as data, with the
    specification of each: an interface in the sense of [Clients.v]. A future that
    is dropped before its critical section has done nothing. *)
From S2P Require Import Prelude Program WaitResult Primitives Protocol ConditionWaitSpec Clients MonitorApi.

Section Api.
Context `{QubitClock} {T : Type}.
Abbreviation Timed R := (Result (WaitTimeoutResult R) TimeError).

Inductive async_api : Type -> Type :=
| WithReadAsync {R} (f : T -> outcome R) : async_api R
| WithWriteAsync {R} (f : T -> T * outcome R) : async_api R
| WithWriteNotifyOneAsync {R} (f : T -> T * outcome R) : async_api R
| WithWriteNotifyAllAsync {R} (f : T -> T * outcome R) : async_api R
| NotifyOneWaiter : async_api unit
| NotifyAllWaiters : async_api unit
| WaitWhileAsync {R} (f : T -> T * outcome R) : async_api R
| WaitUntilAsync {R} (f : T -> T * outcome R) : async_api R
| WaitUntilReadyAsync : async_api unit
| WaitWhileForAsync {R} (timeout : Duration) (f : T -> T * outcome R) : async_api (Timed R)
| WaitUntilForAsync {R} (timeout : Duration) (f : T -> T * outcome R) : async_api (Timed R)
| WaitUntilReadyForAsync (timeout : Duration) : async_api (Timed unit)
| WaitWhileWithDeadlineAsync {R} (deadline : MonotonicInstant) (f : T -> T * outcome R) : async_api (Timed R)
| WaitUntilWithDeadlineAsync {R} (deadline : MonotonicInstant) (f : T -> T * outcome R) : async_api (Timed R)
| WaitUntilReadyWithDeadlineAsync (deadline : MonotonicInstant) : async_api (Timed unit).

(** ** Their specifications *)
Section Rule.
Context (W : (T -> bool) -> Prop) (J : T -> Prop) (w : T -> outcome bool).

(** The operation was dropped before it acted. *)
Definition or_cancelled {R} (spec : call_spec R) : call_spec R :=
  {| cs_pre := cs_pre _ spec;
     cs_post := fun d o d' => cs_post _ spec d o d' \/ (o = Unwinding Cancelled /\ d' = d) |}.

Definition async_spec_of {R} (c : async_api R) : call_spec R :=
  match c in async_api R return call_spec R with
  | WithReadAsync f => or_cancelled (spec_quiet (fun o => exists s, J s /\ o = f s))
  | WithWriteAsync f | WithWriteNotifyOneAsync f => or_cancelled (spec_write W J f (fun d _ => d))
  | WithWriteNotifyAllAsync f =>
      or_cancelled (spec_write W J f (fun d o => match o with Returned _ => False | Unwinding _ => d end))
  | NotifyOneWaiter => spec_quiet (fun o => o = Returned tt)
  | NotifyAllWaiters => {| cs_pre := fun _ => True; cs_post := fun _ o d' => o = Returned tt /\ d' = False |}
  | WaitWhileAsync f | WaitUntilAsync f => spec_wait W J w f
  | WaitUntilReadyAsync => spec_wait W J w nothing
  | WaitWhileForAsync _ f | WaitUntilForAsync _ f | WaitWhileWithDeadlineAsync _ f
  | WaitUntilWithDeadlineAsync _ f => spec_timed W J w f
  | WaitUntilReadyForAsync _ | WaitUntilReadyWithDeadlineAsync _ => spec_timed W J w nothing
  end.
End Rule.
End Api.
Arguments async_api {_} T _.

#[export] Instance async_api_spec `{QubitClock} {T} : OpSpec T (async_api T) :=
  fun W J w R c => async_spec_of W J w c.
