(* ===== verification/TokioMonitorSpec.v ===== *)
(** * [TokioMonitor] implements the interface of an asynchronous monitor

    The local guard of the waits keeps the laws of [ConditionWaitSpec.v], an
    awaited notification is a suspension in their sense, and every operation
    meets the specification that [AsyncMonitorApi.v] gives it, whether its future
    runs to the end or is dropped at one of its awaits. *)
From S2P Require Import Prelude Program WaitResult Primitives GuardWait ConditionWait TokioMonitor Protocol GuardWaitSpec ConditionWaitSpec Clients MonitorApi AsyncMonitorApi MonitorTraits AsyncTraits.

Definition owns_local (g : option MutexGuard) : Prop := g = Some TheGuard.
Definition gone_local (g : option MutexGuard) : Prop := g = None.

Section Specs.
Context `{QubitClock} {T : Type} (self : TokioMonitor).
Abbreviation Σ := (MonitorSig T).
Context (W : (T -> bool) -> Prop) (J : T -> Prop) (waits : T -> bool).
Abbreviation safe' := (safe (protocol W J waits)).

#[export] Instance local_guard_laws :
  GuardLaws (G := option MutexGuard) W J waits owns_local gone_local.
Proof.
  split.
  - intros n k d g Q -> HQ. apply safe_cbind, safe_ret. intros i _.
    apply (mcall _ _ _ _ _ (GetState TheGuard)); [by exists k|].
    intros r [HJ Hr]. apply HQ; [done|]. intros s0 ->. by apply Hr.
  - intros n s d g s' Q -> HJ HQ. apply safe_cbind, safe_ret. intros i _.
    apply (mcall _ _ _ _ _ (SetState TheGuard s')); [split; [by exists (Some s)|done]|]. by intros [] _.
  - intros n k d g panicking Q -> HQ.
    apply (mcall _ _ _ _ _ (UnlockState TheGuard panicking)); [|by intros [] _]. split; [by exists k|done].
  - intros n d g panicking Q -> HQ. by apply safe_return.
Qed.

(** ** Awaiting *)
Lemma await_point_spec n l (Q : local T -> outcome unit -> Prop) :
  Q l (Returned tt) -> Q l (Unwinding Cancelled) -> safe' n l await_point Q.
Proof.
  intros HQ HQc. apply safe_cbind, (mcall _ _ _ _ _ AwaitPoint); [done|]. intros [] _ i _.
  - by apply safe_ret.
  - by apply safe_return.
Qed.

Lemma lock_async_spec n d (Q : local T -> outcome MutexGuard -> Prop) :
  Q (Holding None d) (Returned TheGuard) -> Q (Out d) (Unwinding Cancelled) ->
  safe' n (Out d) (lock_async self) Q.
Proof.
  intros HQ HQc. apply safe_cbind, await_point_spec; [|done]. intros i _.
  apply safe_cbind, (mcall _ _ _ _ _ LockState); [done|]. intros r _ j _. apply safe_return.
  by destruct r as [[]|[[]]].
Qed.

(** A registered task that has given up the lock. *)
Definition parked (id : Z) (l : waiter_ref) (d : Prop) : local T := MkLocal None (Registered l id) [] d.

Lemma notified_spec n id l d (Q : local T -> outcome unit -> Prop) :
  ~ d -> (forall o, Q (parked id l d) o) -> safe' n (parked id l d) (notified l) Q.
Proof.
  intros Hd HQ. apply safe_cbind, await_point_spec; [|done]. intros i _.
  apply (mcall _ _ _ _ _ (AwaitSignal l)); [|by intros]. split; [done|split; [done|split; [done|]]].
  by exists id.
Qed.

(** Polls until one is ready; each poll leaves the protocol where it is. *)
Lemma poll_fn_spec {A} n id l d (poll : comp Σ (Poll A)) (Q : local T -> outcome A -> Prop) :
  ~ d ->
  (forall m (R : local T -> outcome (Poll A) -> Prop), (forall o, R (parked id l d) o) ->
     safe' m (parked id l d) poll R) ->
  (forall o, Q (parked id l d) o) -> safe' n (parked id l d) (poll_fn l poll) Q.
Proof.
  intros Hd Hpoll HQ. apply (safe_loop _ (fun l' _ => l' = parked id l d)); [done|].
  intros m ? _ _ ->. eapply safe_bind with (R := fun l' _ => l' = parked id l d).
  - apply safe_cbind, Hpoll. intros [[a|]|c]; [intros i _; by apply safe_return| |done].
    intros i _. apply safe_cbind, await_point_spec; [|done]. intros j _.
    apply safe_cbind, (mcall _ _ _ _ _ (Park l)); [|intros [] _ j' _; by apply safe_return].
    split; [done|split; [done|split; [done|]]]. by exists id.
  - intros i ? [[a|]|c] _ ->; by apply safe_ret.
Qed.

Lemma wait_until_signalled_or_deadline_spec n id l d deadline
    (Q : local T -> outcome (Result WaitTimeoutStatus TimeError) -> Prop) :
  ~ d -> (forall o, Q (parked id l d) o) ->
  safe' n (parked id l d) (wait_until_signalled_or_deadline (MkTokioRegistration id l) deadline) Q.
Proof.
  intros Hd HQ. apply poll_fn_spec; [done| |done]. intros m R HR.
  apply safe_cbind, (mcall _ _ _ _ _ (TimerPoll deadline None)); [done|].
  intros [r|] _ i _; [by apply safe_return|].
  apply safe_cbind, (mcall _ _ _ _ _ (PollSignal l)); [done|]. intros b _ j _. by apply safe_return.
Qed.

Lemma deadline_reached_spec n l deadline (Q : local T -> outcome (Result bool TimeError) -> Prop) :
  (forall r, Q l (Returned r)) -> safe' n l (deadline_reached deadline) Q.
Proof.
  intros HQ. apply safe_cbind, (mcall _ _ _ _ _ (TimerPoll deadline None)); [done|].
  intros r _ i _. by apply safe_return.
Qed.

(** ** Registration *)
Lemma register_waiter_spec n k d (Q : local T -> outcome TokioConditionWaiterRegistration -> Prop) :
  (forall id l, Q (MkLocal (Some k) (Registered l id) [] d) (Returned (MkTokioRegistration id l))) ->
  (forall c, Q (Holding k d) (Unwinding c)) ->
  safe' n (Holding k d) (register_waiter self) Q.
Proof.
  intros HQ HQc. apply safe_cbind, (mcall _ _ _ _ _ NewWaiter); [done|]. intros l _ i _.
  apply safe_cbind. eapply safe_bind; [apply safe_call with (Q := fun l' r =>
    l' = moves W (MkLocal (Some k) (Fresh l) [] d) (RegistryRegister l) r)|].
  - split; [done|by exists k].
  - done.
  - intros j l' [id|c] _ ->; apply safe_ret; [|apply HQc]. intros j' _. apply safe_return, HQ.
Qed.

Lemma drop_tokio_registration_spec n id l d (Q : local T -> outcome unit -> Prop) :
  Q (Out d) (Returned tt) ->
  safe' n (parked id l d) (drop_tokio_registration (MkTokioRegistration id l)) Q.
Proof.
  intros HQ. apply safe_cbind, (mcall _ _ _ _ _ (RegistryUnregister id)); [by exists l|].
  intros r _ i _. by apply safe_return.
Qed.

(** The part that both loops share: register, release the lock, await, drop the
    registration, lock again. The awaited future keeps the registration. *)
Lemma registered_await_spec {A B} n s d (await : TokioConditionWaiterRegistration -> comp Σ A)
    (k : A -> stateful Σ (option MutexGuard) B) (Q : local T -> option MutexGuard * outcome B -> Prop) :
  waits s = true -> ~ d ->
  (forall m id l (R : local T -> outcome A -> Prop), (forall o, R (parked id l d) o) ->
     safe' m (parked id l d) (await (MkTokioRegistration id l)) R) ->
  (forall k' c, Q (Holding k' d) (Some TheGuard, Unwinding c)) ->
  (forall c, Q (Out d) (None, Unwinding c)) ->
  (forall m a, safe' m (Holding None d) (k a (Some TheGuard)) Q) ->
  safe' n (Holding (Some s) d)
    ((registration ← lift (register_waiter self);
      a ← scoped_in (fun _ => drop_tokio_registration registration)
            (_ ← move_out; lift (await registration));
      guard ← lift (lock_async self);
      _ ← assign (Some guard);
      k a) (Some TheGuard)) Q.
Proof.
  intros Hs Hd Hawait HQ HQc Hk. apply safe_sbind, safe_lift, register_waiter_spec; [|by intros].
  intros id l i _. apply safe_sbind, safe_scoped_in, safe_sbind, release_spec; [done..|]. intros i1 _.
  apply safe_lift, Hawait. intros o i2 _. apply drop_tokio_registration_spec.
  destruct o as [a|c]; [|by apply HQc]. intros i3 _.
  apply safe_sbind, safe_lift, lock_async_spec; [|by apply HQc]. intros i4 _.
  apply safe_sbind, safe_ret. intros i5 _. apply Hk.
Qed.
End Specs.

(** ** The waits *)
Section Waits.
Context `{QubitClock} {T : Type} (self : TokioMonitor).
Abbreviation Σ := (MonitorSig T).
Context (W : (T -> bool) -> Prop) (J : T -> Prop) (w : T -> outcome bool).
Abbreviation safe' := (safe (protocol W J (blocks w))).
Abbreviation suspends_local := (suspends W J (blocks w) owns_local gone_local).

Lemma await_notification_suspends : suspends_local (await_notification self).
Proof.
  intros n s d g Q -> Hs Hd HQ HQg. apply registered_await_spec; [done|done| |intros; by apply HQ|intros; by apply HQg|].
  - intros m id l R HR. by apply notified_spec.
  - intros m []. apply safe_ret. by apply HQ.
Qed.

Context {R : Type} (f : T -> T * outcome R) (waiting : T -> comp Σ bool).
Context (waiting_is : forall s, next (waiting s) = HRet (w s)) (f_keeps : keeps_ready J w f).

Lemma wait_while_async_spec n d (Q : local T -> outcome R -> Prop) :
  ~ d -> (forall d' o, ended W J w f d d' o -> Q (Out d') o) ->
  safe' n (Out d) (wait_while_async self waiting (action f)) Q.
Proof.
  intros Hd HQ. apply safe_cbind, lock_async_spec; [|apply HQ; by right]. intros i _.
  change (safe' i (Holding None d)
    (wait_while_locked (Some TheGuard) waiting (action f) (await_notification self)) Q).
  eapply wait_while_locked_spec; [apply local_guard_laws|done..|apply await_notification_suspends|done|done|done].
Qed.

(** *** The loop of the timed waits *)
Abbreviation Timed := (Result (WaitTimeoutResult R) TimeError).

(** Ending a timed wait with the lock, other than by the action. *)
Lemma leave_timed d (Q : local T -> outcome Timed -> Prop) k o :
  (forall d' o, timed_ended W J w f d d' o -> Q (Out d') o) ->
  (forall r, o <> Returned (Ok (WaitReady r))) -> leaves owns_local gone_local Q (Holding k d) (Some TheGuard) o.
Proof. intros HQ Ho. left. split; [done|]. exists k, d. split; [done|]. apply HQ. by right. Qed.

Lemma leave_gone d (Q : local T -> outcome Timed -> Prop) c :
  (forall d' o, timed_ended W J w f d d' o -> Q (Out d') o) ->
  leaves owns_local gone_local Q (Out d) None (Unwinding c).
Proof. intros HQ. right. split; [done|]. exists d. split; [done|]. apply HQ. by right. Qed.

(** The action on a state that was just found ready. *)
Lemma ready_async_spec {B} n s d (fin : R -> B) (Q : local T -> outcome Timed -> Prop)
    (Q' : local T -> option MutexGuard * outcome B -> Prop) :
  J s -> w s = Returned false -> (forall d' o, timed_ended W J w f d d' o -> Q (Out d') o) ->
  (forall l g r, leaves owns_local gone_local Q l g (Returned (Ok (WaitReady r))) -> Q' l (g, Returned (fin r))) ->
  (forall l g c, leaves owns_local gone_local Q l g (Unwinding c) -> Q' l (g, Unwinding c)) ->
  safe' n (Holding (Some s) d) ((r ← apply_mut (action f); ret (fin r)) (Some TheGuard)) Q'.
Proof.
  intros HJ Hw HQ Hr Hc. apply safe_sbind. eapply safe_mono; [reflexivity| |].
  - by apply (ready_spec W J w owns_local gone_local f f_keeps n s d (Some TheGuard) Q).
  - intros l [g [r|c]] HR; [intros i _; apply safe_ret; by apply Hr|by apply Hc].
Qed.

Lemma deadline_loop_spec n s d deadline (Q : local T -> outcome Timed -> Prop) :
  blocks w s = true -> ~ d -> (forall d' o, timed_ended W J w f d d' o -> Q (Out d') o) ->
  safe' n (Holding (Some s) d) (deadline_loop self deadline waiting (action f) (Some TheGuard))
    (fun l '(g, o) => leaves owns_local gone_local Q l g o).
Proof.
  intros Hs Hd HQ.
  apply (safe_sloop _ (fun l g => g = Some TheGuard /\ exists s, l = Holding (Some s) d /\ blocks w s = true));
    [by eauto|].
  intros m l g _ (-> & s0 & -> & Hs0). apply registered_await_spec; [done|done| | | |].
  - intros m' id l R' HR. by apply wait_until_signalled_or_deadline_spec.
  - intros k c. by apply leave_timed.
  - intros c. by apply leave_gone.
  - intros m' [status|e]; [|apply safe_ret; by apply leave_timed].
    apply safe_sbind. apply safe_mono with (n := m') (Q := fun l '(g, o) =>
      g = Some TheGuard /\ l = Holding None d /\ exists r, o = Returned r); [done| |].
    { destruct (status_is_timed_out status); [by apply safe_ret; eauto|].
      apply safe_lift, deadline_reached_spec. eauto. }
    intros l [g ?] (-> & -> & [reached|e] & ->) i _; [|apply safe_ret; by apply leave_timed].
    apply safe_sbind, (check_spec W J w owns_local gone_local waiting waiting_is); [done|].
    intros s1 HJ. destruct (w s1) as [[]|c] eqn:Hw; [intros i1 _; simpl|intros i1 _; simpl|by apply leave_timed].
    + destruct reached; apply safe_ret; [by apply leave_timed|].
      split; [done|]. exists s1. split; [done|]. unfold blocks. by rewrite Hw.
    + by eapply (ready_async_spec _ s1 d (fun r => inr (Ok (WaitReady r))) Q).
Qed.

(** A timed wait: what follows the acquisition of the guard. *)
Lemma timed_async_spec n d (m : stateful Σ (option MutexGuard) Timed) (Q : local T -> outcome Timed -> Prop) :
  (forall d' o, timed_ended W J w f d d' o -> Q (Out d') o) ->
  (forall i, safe' i (Holding None d) (m (Some TheGuard)) (fun l '(g, o) => leaves owns_local gone_local Q l g o)) ->
  safe' n (Out d) (guard ← lock_async self; scoped (Some guard) drop_local m) Q.
Proof.
  intros HQ Hm. apply safe_cbind, lock_async_spec; [|apply HQ; by right]. intros i _.
  change (@drop_local _ T) with (drop_guard (T := T) (G := option MutexGuard)).
  eapply (scoped_guard_spec W J w owns_local gone_local). apply Hm.
Qed.

(** The first predicate check decides, or leaves a state to wait on. *)
Lemma first_check_spec n d (m : stateful Σ (option MutexGuard) Timed) (Q : local T -> outcome Timed -> Prop) :
  (forall d' o, timed_ended W J w f d d' o -> Q (Out d') o) ->
  (forall i s, blocks w s = true ->
    safe' i (Holding (Some s) d) (m (Some TheGuard)) (fun l '(g, o) => leaves owns_local gone_local Q l g o)) ->
  safe' n (Holding None d)
    ((blocked ← check waiting;
      if negb blocked then (r ← apply_mut (action f); ret (Ok (WaitReady r))) else m) (Some TheGuard))
    (fun l '(g, o) => leaves owns_local gone_local Q l g o).
Proof.
  intros HQ Hm. apply safe_sbind, (check_spec W J w owns_local gone_local waiting waiting_is); [done|].
  intros s HJ. destruct (w s) as [[]|c] eqn:Hw; [intros i1 _; simpl|intros i1 _; simpl|by apply leave_timed].
  - apply Hm. unfold blocks. by rewrite Hw.
  - by eapply (ready_async_spec _ s d (fun r => Ok (WaitReady r)) Q).
Qed.

Lemma wait_while_with_deadline_async_spec n deadline d (Q : local T -> outcome Timed -> Prop) :
  ~ d -> (forall d' o, timed_ended W J w f d d' o -> Q (Out d') o) ->
  safe' n (Out d) (wait_while_with_deadline_async self deadline waiting (action f)) Q.
Proof.
  intros Hd HQ. apply timed_async_spec; [done|]. intros i. apply first_check_spec; [done|]. intros i1 s Hs.
  apply safe_sbind, (timer_call_spec W J w _ _ (TimerAt (timer self) deadline)); [exact I|].
  intros [future|e] i2 _; [|apply safe_ret; by apply leave_timed].
  apply safe_sbind, safe_lift, deadline_reached_spec.
  intros [[]|e] i3 _; [apply safe_ret; by apply leave_timed| |apply safe_ret; by apply leave_timed].
  by apply deadline_loop_spec.
Qed.

Lemma wait_while_for_async_spec n timeout d (Q : local T -> outcome Timed -> Prop) :
  ~ d -> (forall d' o, timed_ended W J w f d d' o -> Q (Out d') o) ->
  safe' n (Out d) (wait_while_for_async self timeout waiting (action f)) Q.
Proof.
  intros Hd HQ. apply timed_async_spec; [done|]. intros i.
  apply safe_sbind, (timer_call_spec W J w _ _ (TimerClockNow (timer self))); [exact I|]. intros started i0 _.
  apply first_check_spec; [done|]. intros i1 s Hs.
  destruct (Duration_is_zero timeout); [apply safe_ret; by apply leave_timed|].
  destruct (instant_checked_add started timeout) as [at_|e]; [|apply safe_ret; by apply leave_timed].
  apply safe_sbind, (timer_call_spec W J w _ _ (TimerAt (timer self) at_)); [exact I|].
  intros [future|e] i2 _; [|apply safe_ret; by apply leave_timed]. by apply deadline_loop_spec.
Qed.
End Waits.

(** ** Critical sections and notifications *)
Section Sections.
Context `{QubitClock} {T : Type} (self : TokioMonitor).
Abbreviation Σ := (MonitorSig T).
Context (W : (T -> bool) -> Prop) (J : T -> Prop) (waits : T -> bool).
Abbreviation safe' := (safe (protocol W J waits)).

Lemma notify_each_spec n ls d (Q : local T -> outcome unit -> Prop) :
  Q (Out d) (Returned tt) -> safe' n (MkLocal None NoSlot ls d) (notify_each ls) Q.
Proof.
  intros HQ. revert n. induction ls as [|l ls IH]; intros n; [by apply safe_return|].
  apply safe_cbind, (mcall _ _ _ _ _ (SignalWaiter l)); [by exists ls|]. intros [] _ i _. apply IH.
Qed.

Lemma tokio_notify_one_spec n d (Q : local T -> outcome unit -> Prop) :
  Q (Out d) (Returned tt) -> safe' n (Out d) (notify_one self) Q.
Proof.
  intros HQ. apply safe_cbind, (mcall _ _ _ _ _ RegistryTakeOne); [done|]. intros [l|] _ i _; [|by apply safe_return].
  apply (mcall _ _ _ _ _ (SignalWaiter l)); [by exists []|]. by intros [] _.
Qed.

Lemma tokio_notify_all_spec n d (Q : local T -> outcome unit -> Prop) :
  Q (Out False) (Returned tt) -> safe' n (Out d) (notify_all self) Q.
Proof.
  intros HQ. apply safe_cbind, (mcall _ _ _ _ _ RegistryTakeAll); [done|]. intros ls _ i _. by apply notify_each_spec.
Qed.

Context {R : Type}.

Lemma with_read_async_spec n d (f : T -> outcome R) (Q : local T -> outcome R -> Prop) :
  (forall s, J s -> Q (Out d) (f s)) -> Q (Out d) (Unwinding Cancelled) ->
  safe' n (Out d) (with_read_async self (fun s => Ret (f s))) Q.
Proof.
  intros HQ HQc. apply safe_cbind, lock_async_spec; [|done]. intros i _.
  change (@drop_local _ T) with (drop_guard (T := T) (G := option MutexGuard)).
  eapply (scoped_section_spec W J waits owns_local gone_local).
  apply safe_sbind, safe_ret. intros i0 _. apply safe_sbind, safe_lift.
  eapply (law_deref (owns := owns_local) (gone := gone_local)); [done|]. intros s HJ _ i1 _.
  apply safe_lift, safe_ret. split; [done|]. exists (Some s), d. auto.
Qed.

Context (f : T -> T * outcome R) (f_keeps : forall s, J s -> J (f s).1).

Lemma with_write_async_spec n d (Q : local T -> outcome R -> Prop) :
  (forall s, J s -> Q (Out (acted W f d s)) (f s).2) -> Q (Out d) (Unwinding Cancelled) ->
  safe' n (Out d) (with_write_async self (action f)) Q.
Proof.
  intros HQ HQc. apply safe_cbind, lock_async_spec; [|done]. intros i _.
  change (@drop_local _ T) with (drop_guard (T := T) (G := option MutexGuard)).
  eapply (scoped_section_spec W J waits owns_local gone_local).
  eapply (update_spec W J waits owns_local gone_local f f_keeps); [done|]. intros s HJ. split; [done|]. eauto.
Qed.

Lemma with_write_notify_async_spec n d (notify : comp Σ unit) (after : Prop -> Prop) (Q : local T -> outcome R -> Prop) :
  (forall m d (Q' : local T -> outcome unit -> Prop), Q' (Out (after d)) (Returned tt) -> safe' m (Out d) notify Q') ->
  (forall s, J s -> match (f s).2 with
                    | Returned r => Q (Out (after (acted W f d s))) (Returned r)
                    | Unwinding c => Q (Out (acted W f d s)) (Unwinding c)
                    end) ->
  Q (Out d) (Unwinding Cancelled) ->
  safe' n (Out d) (result ← with_write_async self (action f); _ ← notify; ret result) Q.
Proof.
  intros Hn HQ HQc. apply safe_cbind, with_write_async_spec; [|done]. intros s HJ. specialize (HQ s HJ).
  destruct (f s).2 as [r|c]; [|done]. intros i _. apply safe_cbind, Hn. intros i1 _. by apply safe_return.
Qed.
End Sections.

(** ** [TokioMonitor] as an implementation *)
Section Tokio.
Context `{QubitClock} {T : Type} (self : TokioMonitor).
Abbreviation Σ := (MonitorSig T).

(** Each operation by the method of the source. *)
Definition tokio_interp {R} (w : T -> outcome bool) (c : async_api T R) : comp Σ R :=
  let waiting := predicate w in
  let ready := predicate (fun s => outcome_negb (w s)) in
  match c in async_api _ R return comp Σ R with
  | WithReadAsync f => with_read_async self (fun s => Ret (f s))
  | WithWriteAsync f => with_write_async self (action f)
  | WithWriteNotifyOneAsync f => with_write_notify_one_async self (action f)
  | WithWriteNotifyAllAsync f => with_write_notify_all_async self (action f)
  | NotifyOneWaiter => notify_one self
  | NotifyAllWaiters => notify_all self
  | WaitWhileAsync f => wait_while_async self waiting (action f)
  | WaitUntilAsync f => wait_until_async self ready (action f)
  | WaitUntilReadyAsync => trait_wait_until_ready_async Σ T self ready
  | WaitWhileForAsync d f => wait_while_for_async self d waiting (action f)
  | WaitUntilForAsync d f => wait_until_for_async self d ready (action f)
  | WaitUntilReadyForAsync d => trait_wait_until_ready_for_async Σ T self d ready
  | WaitWhileWithDeadlineAsync d f => wait_while_with_deadline_async self d waiting (action f)
  | WaitUntilWithDeadlineAsync d f => wait_until_with_deadline_async self d ready (action f)
  | WaitUntilReadyWithDeadlineAsync d => wait_until_ready_with_deadline_async self d ready
  end.

Lemma not_predicate_is (w : T -> outcome bool) s :
  next (TokioMonitor.not_predicate (predicate (fun s => outcome_negb (w s))) s) = HRet (w s).
Proof. unfold TokioMonitor.not_predicate, predicate, bind, comp_bind. simpl. by destruct (w s) as [[]|]. Qed.

Lemma tokio_interp_spec W J w n d {R} (c : async_api T R) (Q : local T -> outcome R -> Prop) :
  cs_pre _ (async_spec_of W J w c) d ->
  (forall o d', cs_post _ (async_spec_of W J w c) d o d' -> Q (Out d') o) ->
  safe (protocol W J (blocks w)) n (Out d) (tokio_interp w c) Q.
Proof.
  pose proof (not_predicate_is w) as Hn.
  intros Hpre HQ. destruct c; simpl in Hpre, HQ |- *; destruct_ands.
  - apply with_read_async_spec; eauto 7.
  - apply with_write_async_spec; eauto 7.
  - eapply (with_write_notify_async_spec _ _ _ _ _ Hpre _ _ _ (fun d => d)); eauto using tokio_notify_one_spec.
    intros s HJ. specialize (HQ (f s).2 (acted W f d s)). destruct (f s).2 eqn:Ho; eauto 7.
  - eapply (with_write_notify_async_spec _ _ _ _ _ Hpre _ _ _ (fun _ => False)); eauto using tokio_notify_all_spec.
    intros s HJ. destruct (f s).2 as [r|c] eqn:Ho; apply HQ; left; exists s; by rewrite Ho.
  - apply tokio_notify_one_spec. eauto.
  - apply tokio_notify_all_spec. eauto.
  - by apply wait_while_async_spec; eauto.
  - by apply wait_while_async_spec; eauto.
  - by apply (wait_while_async_spec self W J w nothing); eauto.
  - by apply wait_while_for_async_spec; eauto.
  - by apply wait_while_for_async_spec; eauto.
  - by apply (wait_while_for_async_spec self W J w nothing); eauto.
  - by apply wait_while_with_deadline_async_spec; eauto.
  - by apply wait_while_with_deadline_async_spec; eauto.
  - by apply (wait_while_with_deadline_async_spec self W J w nothing); eauto.
Qed.

Definition tokio_impl : MonitorImpl T (async_api T).
Proof.
  refine {| interp := @tokio_interp |}.
  intros W J w n d R c Q Hpre HQ. by apply tokio_interp_spec.
Defined.

(** C4: refinement. Every operation of [TokioMonitor] implements its specification,
    whatever the schedule of its polls and wherever its future is dropped: each of
    its calls is one the monitor protocol allows (registration before release,
    suspension only while the predicate blocks, unregistration before relocking,
    every selected waiter signalled), and it ends outside the lock with a result
    and a notification debt that the specification admits. *)
Theorem tokio_implements_api W J w d {R} (c : async_api T R) tr o :
  cs_pre _ (async_spec_of W J w c) d ->
  exec (tokio_interp w c) tr o -> answers_ok (protocol W J (blocks w)) (Out d) tr ->
  calls_ok (protocol W J (blocks w)) (Out d) tr /\
  exists d', ghost_run (protocol W J (blocks w)) (Out d) tr = Out d' /\
             cs_post _ (async_spec_of W J w c) d o d'.
Proof.
  intros Hpre Hex Hok.
  assert (Hsafe : forall n, safe (protocol W J (blocks w)) n (Out d) (tokio_interp w c)
    (fun l o => exists d', l = Out d' /\ cs_post _ (async_spec_of W J w c) d o d')).
  { intros n. apply tokio_interp_spec; [done|]. eauto. }
  split; [by eapply safe_exec_calls|exact (safe_exec _ _ _ _ _ _ Hex Hok Hsafe)].
Qed.
End Tokio.

(** A wait whose future is dropped while it sleeps. *)
Section Run.
#[local] Existing Instance test_clock.
Abbreviation Σ := (MonitorSig bool).

Definition test_tokio_monitor : TokioMonitor := {| TokioMonitor.timer := tt |}.

Definition enter_async : async_api bool unit := WaitWhileAsync nothing.

Definition dropped_calls : list (item Σ) :=
  [Ev (Σ := Σ) AwaitPoint false; Ev (Σ := Σ) LockState (Ok TheGuard); Ev (Σ := Σ) (GetState TheGuard) false;
   Ev (Σ := Σ) NewWaiter 3; Ev (Σ := Σ) (RegistryRegister 3) (Returned 1%Z);
   Ev (Σ := Σ) (UnlockState TheGuard false) tt; Ev (Σ := Σ) AwaitPoint true;
   Ev (Σ := Σ) (RegistryUnregister 1) (Some 3)].

Lemma dropped_exec :
  exec (tokio_interp test_tokio_monitor (fun b => Returned (negb b)) enter_async) dropped_calls (Unwinding Cancelled).
Proof. repeat (eapply exec_vis; [reflexivity|]). by apply exec_ret. Defined.

Lemma tokio_implements_api_witness :
  calls_ok (protocol (fun p => p = negb) (fun _ => True) negb) (Out False) dropped_calls /\
  exists d', ghost_run (protocol (fun p => p = negb) (fun _ => True) negb) (Out False) dropped_calls = Out d' /\
             cs_post _ (async_spec_of (fun p => p = negb) (fun _ => True) (fun b => Returned (negb b)) enter_async)
               False (Unwinding Cancelled) d'.
Proof.
  apply (tokio_implements_api test_tokio_monitor (fun p => p = negb) (fun _ => True) (fun b => Returned (negb b)) False
    enter_async dropped_calls (Unwinding Cancelled)).
  - split; [by intros s|by intros []].
  - apply dropped_exec.
  - simpl. repeat split; congruence.
Defined.
End Run.
