(* ===== verification/Cancellation.v ===== *)
(** * Dropping the future of an asynchronous operation

    [tally] summarises the calls of a task: does it own the lock, is one of its
    waiters registered, has it written the state or notified somebody, has its
    future been dropped. [cancel_rules] says when a task may suspend and what it
    may still do once its future is dropped; every operation of [TokioMonitor]
    keeps these rules. *)
From S2P Require Import Prelude Program WaitResult Primitives GuardWait ConditionWait TokioMonitor Protocol MonitorApi AsyncMonitorApi MonitorTraits AsyncTraits TokioMonitorSpec.

Record tally : Type := MkTally {
  t_locked : bool;
  t_registered : option Z;
  t_acted : bool;
  t_dropped : bool
}.

Definition untouched : tally := {| t_locked := false; t_registered := None; t_acted := false; t_dropped := false |}.

Section Rules.
Context `{QubitClock} {T : Type}.
Abbreviation Σ := (MonitorSig T).

Definition tally_step (t : tally) (e : monitor_op T) : monitor_resp e -> tally :=
  match e return monitor_resp e -> tally with
  | LockState => fun _ => MkTally true (t_registered t) (t_acted t) (t_dropped t)
  | UnlockState _ _ => fun _ => MkTally false (t_registered t) (t_acted t) (t_dropped t)
  | SetState _ _ | RegistryTakeOne | RegistryTakeAll | SignalWaiter _ => fun _ =>
      MkTally (t_locked t) (t_registered t) true (t_dropped t)
  | RegistryRegister _ => fun r =>
      MkTally (t_locked t) (match r with Returned id => Some id | Unwinding _ => t_registered t end)
        (t_acted t) (t_dropped t)
  | RegistryUnregister _ => fun _ => MkTally (t_locked t) None (t_acted t) (t_dropped t)
  | AwaitPoint => fun r => MkTally (t_locked t) (t_registered t) (t_acted t) (t_dropped t || r)
  | _ => fun _ => t
  end.

(** A task suspends without the lock and before it has acted; a dropped one only
    unregisters the waiter it had registered. *)
Definition may_after (t : tally) (e : monitor_op T) : Prop :=
  match e with
  | RegistryUnregister id => t_registered t = Some id
  | AwaitPoint | AwaitSignal _ | Park _ => t_dropped t = false /\ t_locked t = false /\ t_acted t = false
  | _ => t_dropped t = false
  end.

(** The registry fails with a panic only. *)
Definition registry_panics (t : tally) (e : monitor_op T) : monitor_resp e -> Prop :=
  match e return monitor_resp e -> Prop with
  | RegistryRegister _ => fun r => r <> Unwinding Cancelled
  | _ => fun _ => True
  end.

Definition cancel_rules : rules Σ tally :=
  {| allowed := may_after : tally -> Op Σ -> Prop;
     assume := registry_panics : tally -> forall e : Op Σ, Resp e -> Prop;
     after := tally_step : tally -> forall e : Op Σ, Resp e -> tally |}.

Definition tally_of (tr : list (item Σ)) : tally := ghost_run cancel_rules untouched tr.

(** How an operation may leave the tally: nothing held, and dropped before it
    acted, or not dropped. *)
Definition clean_end {R} (t : tally) (o : outcome R) : Prop :=
  t_locked t = false /\ t_registered t = None /\
  (if t_dropped t then o = Unwinding Cancelled /\ t_acted t = false else o <> Unwinding Cancelled).

(** ** The steps *)
Context (self : TokioMonitor).
Abbreviation safe' := (safe cancel_rules).

Lemma ccall n t (e : monitor_op T) (Q : tally -> outcome (monitor_resp e) -> Prop) :
  may_after t e -> (forall r, registry_panics t e r -> Q (tally_step t e r) (Returned r)) ->
  safe' n t (call (Σ := Σ) e) Q.
Proof. exact (safe_call_c cancel_rules n t e Q). Qed.

(** A tally of a task that may suspend, and of one that owns the lock. *)
Definition idle (id : option Z) : tally := MkTally false id false false.
Definition inside (acted : bool) : tally := MkTally true None acted false.
Definition gone (id : option Z) : tally := MkTally false id false true.

Lemma await_point_cancels n id (Q : tally -> outcome unit -> Prop) :
  Q (idle id) (Returned tt) -> Q (gone id) (Unwinding Cancelled) -> safe' n (idle id) await_point Q.
Proof.
  intros HQ HQc. apply safe_cbind, (ccall _ _ AwaitPoint); [done|]. intros [] _ i _.
  - by apply safe_ret.
  - by apply safe_return.
Qed.

Lemma lock_async_cancels n (Q : tally -> outcome MutexGuard -> Prop) :
  Q (inside false) (Returned TheGuard) -> Q (gone None) (Unwinding Cancelled) ->
  safe' n (idle None) (lock_async self) Q.
Proof.
  intros HQ HQc. apply safe_cbind, await_point_cancels; [|done]. intros i _.
  apply safe_cbind, (ccall _ _ LockState); [done|]. intros r _ j _. apply safe_return.
  by destruct r as [[]|[[]]].
Qed.

Definition awaits {A} (m : comp Σ A) (id : Z) : Prop := forall n (Q : tally -> outcome A -> Prop),
  (forall a, Q (idle (Some id)) (Returned a)) -> Q (gone (Some id)) (Unwinding Cancelled) ->
  safe' n (idle (Some id)) m Q.

Lemma notified_cancels id l : awaits (notified l) id.
Proof.
  intros n Q HQ HQc. apply safe_cbind, await_point_cancels; [|done]. intros i _.
  by apply (ccall _ _ (AwaitSignal l)).
Qed.

Lemma deadline_await_cancels id l deadline :
  awaits (wait_until_signalled_or_deadline (MkTokioRegistration id l) deadline) id.
Proof.
  intros n Q HQ HQc. apply (safe_loop _ (fun t _ => t = idle (Some id))); [done|].
  intros m t _ _ ->. eapply safe_bind with (R := fun t o =>
    match o with Returned _ => t = idle (Some id) | Unwinding c => t = gone (Some id) /\ c = Cancelled end).
  - apply safe_cbind, safe_cbind, (ccall _ _ (TimerPoll deadline None)); [done|].
    intros [r|] _ i _; [apply safe_return; intros j _; by apply safe_return|].
    apply safe_cbind, (ccall _ _ (PollSignal l)); [done|]. intros [] _ j _; apply safe_return; intros j1 _.
    + by apply safe_return.
    + apply safe_cbind, await_point_cancels; [|done]. intros j2 _.
      apply safe_cbind, (ccall _ _ (Park l)); [done|]. intros [] _ j3 _. by apply safe_return.
  - intros i t [[a|]|c] _; [intros ->|intros ->|intros [-> ->]]; by apply safe_ret.
Qed.

(** The body of both wait loops. *)
Lemma registered_await_cancels {A B} n (await : TokioConditionWaiterRegistration -> comp Σ A)
    (k : A -> stateful Σ (option MutexGuard) B) (Q : tally -> option MutexGuard * outcome B -> Prop) :
  (forall id l, awaits (await (MkTokioRegistration id l)) id) ->
  (forall c, c <> Cancelled -> Q (inside false) (Some TheGuard, Unwinding c)) ->
  Q (gone None) (None, Unwinding Cancelled) ->
  (forall m a, safe' m (inside false) (k a (Some TheGuard)) Q) ->
  safe' n (inside false)
    ((registration ← lift (register_waiter self);
      a ← scoped_in (fun _ => drop_tokio_registration registration)
            (_ ← move_out; lift (await registration));
      guard ← lift (lock_async self);
      _ ← assign (Some guard);
      k a) (Some TheGuard)) Q.
Proof.
  intros Hawait HQ HQc Hk. apply safe_sbind, safe_lift, safe_cbind, (ccall _ _ NewWaiter); [done|].
  intros l _ i _. apply safe_cbind. eapply safe_bind; [apply safe_call with (Q := fun t r =>
    t = tally_step (inside false) (RegistryRegister l) r /\ r <> Unwinding Cancelled); done|].
  intros j t [id|c] _ [-> Hc]; apply safe_ret; [|apply HQ; congruence]. intros j' _. apply safe_return.
  intros i0 _. apply safe_sbind, safe_scoped_in, safe_sbind.
  apply safe_sbind, safe_ret. intros i1 _. apply safe_sbind, safe_ret. intros i2 _.
  apply safe_sbind, safe_lift, safe_ret. intros i3 _.
  apply safe_lift, (ccall _ _ (UnlockState TheGuard false)); [done|]. intros [] _ i4 _.
  apply safe_lift, Hawait.
  - intros a i5 _. apply safe_cbind, (ccall _ _ (RegistryUnregister id)); [done|]. intros r _ i6 _.
    apply safe_return. intros i7 _. apply safe_sbind, safe_lift, lock_async_cancels; [|done]. intros i8 _.
    apply safe_sbind, safe_ret. intros i9 _. apply Hk.
  - intros i5 _. apply safe_cbind, (ccall _ _ (RegistryUnregister id)); [done|]. intros r _ i6 _.
    by apply safe_return.
Qed.
End Rules.

(** ** The operations *)
Section Operations.
Context `{QubitClock} {T : Type} (self : TokioMonitor).
Abbreviation Σ := (MonitorSig T).
Abbreviation safe' := (safe cancel_rules).

(** How the body of a critical section may end, with the guard [g]. *)
Definition section_end {R} (t : tally) (g : option MutexGuard) (o : outcome R) : Prop :=
  (g = Some TheGuard /\ (exists acted, t = inside acted) /\ o <> Unwinding Cancelled) \/
  (g = None /\ t = gone None /\ o = Unwinding Cancelled).

Lemma critical_section_cancels {R} n (m : stateful Σ (option MutexGuard) R) (Q : tally -> outcome R -> Prop) :
  (forall t o, clean_end t o -> Q t o) ->
  (forall i, safe' i (inside false) (m (Some TheGuard)) (fun t '(g, o) => section_end t g o)) ->
  safe' n (idle None) (guard ← lock_async self; scoped (Some guard) drop_local m) Q.
Proof.
  intros HQ Hm. apply safe_cbind, lock_async_cancels; [|by apply HQ]. intros i _.
  apply safe_scoped. eapply safe_mono; [reflexivity|apply Hm|].
  intros t [g o] [(-> & (b & ->) & Ho)|(-> & -> & ->)] j _.
  - apply (ccall _ _ (UnlockState TheGuard (is_unwinding o))); [done|]. intros [] _.
    destruct o as [a|c]; by apply HQ.
  - by apply safe_return, HQ.
Qed.

Context (w : T -> outcome bool) (w_runs : forall s, w s <> Unwinding Cancelled).
Context (waiting : T -> comp Σ bool) (waiting_is : forall s, next (waiting s) = HRet (w s)).

Lemma check_cancels n b (Q : tally -> option MutexGuard * outcome bool -> Prop) :
  (forall o, o <> Unwinding Cancelled -> Q (inside b) (Some TheGuard, o)) ->
  safe' n (inside b) (check waiting (Some TheGuard)) Q.
Proof.
  intros HQ. apply safe_sbind, safe_ret. intros i _. apply safe_sbind, safe_lift, safe_cbind, safe_ret.
  intros i1 _. apply (ccall _ _ (GetState TheGuard)); [done|]. intros s _ i2 _.
  apply safe_lift. eapply safe_next; [apply waiting_is|]. by apply HQ.
Qed.

Context {R : Type} (f : T -> T * outcome R) (f_runs : forall s, (f s).2 <> Unwinding Cancelled).

Lemma apply_mut_cancels n b (Q : tally -> option MutexGuard * outcome R -> Prop) :
  (forall o, o <> Unwinding Cancelled -> Q (inside true) (Some TheGuard, o)) ->
  safe' n (inside b) (apply_mut (action f) (Some TheGuard)) Q.
Proof.
  intros HQ. apply safe_sbind, safe_ret. intros i _. apply safe_sbind, safe_lift, safe_cbind, safe_ret.
  intros i1 _. apply (ccall _ _ (GetState TheGuard)); [done|]. intros s _ i2 _.
  apply safe_sbind, safe_run_on, safe_ret. intros i3 _. apply safe_sbind, safe_lift, safe_cbind, safe_ret.
  intros i4 _. apply (ccall _ _ (SetState TheGuard (f s).1)); [done|]. intros [] _ i5 _.
  apply safe_lift, safe_ret, HQ, f_runs.
Qed.

Lemma in_section {A} (o : outcome A) b : o <> Unwinding Cancelled -> section_end (inside b) (Some TheGuard) o.
Proof. left. eauto. Qed.

Lemma await_loop_cancels n (Q : tally -> option MutexGuard * outcome unit -> Prop) :
  (forall o, o <> Unwinding Cancelled -> Q (inside false) (Some TheGuard, o)) ->
  Q (gone None) (None, Unwinding Cancelled) ->
  safe' n (inside false) (while (check waiting) (await_notification self) (Some TheGuard)) Q.
Proof.
  intros HQ HQc. apply (safe_sloop _ (fun t g => t = inside false /\ g = Some TheGuard)); [done|].
  intros m t g _ (-> & ->). apply safe_sbind, check_cancels. intros [[]|c] Ho; [| |by apply HQ; congruence].
  - intros i _. apply safe_sbind, registered_await_cancels; [intros; apply notified_cancels| |done|].
    + intros c Hc. apply HQ. congruence.
    + intros m' []. apply safe_ret. intros j _. by apply safe_ret.
  - intros i _. apply safe_ret. by apply HQ.
Qed.

Lemma deadline_loop_cancels n deadline :
  safe' n (inside false) (deadline_loop self deadline waiting (action f) (Some TheGuard))
    (fun t '(g, o) => section_end t g o).
Proof.
  apply (safe_sloop _ (fun t g => t = inside false /\ g = Some TheGuard)); [done|].
  intros m t g _ (-> & ->). apply registered_await_cancels; [intros; apply deadline_await_cancels| |by right|].
  { intros c Hc. apply in_section. congruence. }
  intros m' [status|e]; [|by apply safe_ret, in_section]. apply safe_sbind.
  apply safe_mono with (n := m') (Q := fun t '(g, o) => t = inside false /\ g = Some TheGuard /\ exists r, o = Returned r);
    [done| |].
  { destruct (status_is_timed_out status); [apply safe_ret; by eauto|].
    apply safe_lift, safe_cbind, (ccall _ _ (TimerPoll deadline None)); [done|]. intros r _ i _.
    apply safe_return. eauto. }
  intros t [g ?] (-> & -> & [reached|e] & ->) i _; [|by apply safe_ret, in_section].
  apply safe_sbind, check_cancels. intros [[]|c] Hc; [intros i1 _; simpl..|apply in_section; congruence].
  - destruct reached; apply safe_ret; [by apply in_section|done].
  - apply safe_sbind, apply_mut_cancels. intros [r|c] Ho; [intros i2 _; by apply safe_ret, in_section|].
    apply in_section. congruence.
Qed.

(** The first check of a timed wait. *)
Lemma first_check_cancels n (m : stateful Σ (option MutexGuard) (Result (WaitTimeoutResult R) TimeError)) :
  (forall i, safe' i (inside false) (m (Some TheGuard)) (fun t '(g, o) => section_end t g o)) ->
  safe' n (inside false)
    ((blocked ← check waiting;
      if negb blocked then (r ← apply_mut (action f); ret (Ok (WaitReady r))) else m) (Some TheGuard))
    (fun t '(g, o) => section_end t g o).
Proof.
  intros Hm. apply safe_sbind, check_cancels. intros [[]|c] Hc; [intros i _; apply Hm|intros i _|].
  - apply safe_sbind, apply_mut_cancels. intros [r|c] Ho; [intros i1 _; by apply safe_ret, in_section|].
    apply in_section. congruence.
  - apply in_section. congruence.
Qed.

Lemma wait_while_async_cancels n (Q : tally -> outcome R -> Prop) :
  (forall t o, clean_end t o -> Q t o) ->
  safe' n (idle None) (wait_while_async self waiting (action f)) Q.
Proof.
  intros HQ. apply critical_section_cancels; [done|]. intros i. apply safe_sbind, await_loop_cancels.
  - intros [[]|c] Hc; [intros i1 _|apply in_section; congruence].
    apply apply_mut_cancels. intros o Ho. by apply in_section.
  - by right.
Qed.

Lemma wait_while_with_deadline_async_cancels n deadline (Q : tally -> outcome _ -> Prop) :
  (forall t o, clean_end t o -> Q t o) ->
  safe' n (idle None) (wait_while_with_deadline_async self deadline waiting (action f)) Q.
Proof.
  intros HQ. apply critical_section_cancels; [done|]. intros i. apply first_check_cancels. intros i1.
  apply safe_sbind, safe_lift, (ccall _ _ (TimerAt (timer self) deadline)); [done|].
  intros [future|e] _ i2 _; [|by apply safe_ret, in_section].
  apply safe_sbind, safe_lift, safe_cbind, (ccall _ _ (TimerPoll future None)); [done|].
  intros [[u|e]|] _ i3 _; apply safe_return; intros i4 _; [by apply safe_ret, in_section..|].
  apply deadline_loop_cancels.
Qed.

Lemma wait_while_for_async_cancels n timeout (Q : tally -> outcome _ -> Prop) :
  (forall t o, clean_end t o -> Q t o) ->
  safe' n (idle None) (wait_while_for_async self timeout waiting (action f)) Q.
Proof.
  intros HQ. apply critical_section_cancels; [done|]. intros i.
  apply safe_sbind, safe_lift, (ccall _ _ (TimerClockNow (timer self))); [done|]. intros started _ i0 _.
  apply first_check_cancels. intros i1. destruct (Duration_is_zero timeout); [by apply safe_ret, in_section|].
  destruct (instant_checked_add started timeout) as [deadline|e]; [|by apply safe_ret, in_section].
  apply safe_sbind, safe_lift, (ccall _ _ (TimerAt (timer self) deadline)); [done|].
  intros [future|e] _ i2 _; [|by apply safe_ret, in_section]. apply deadline_loop_cancels.
Qed.

Lemma with_write_async_cancels n (Q : tally -> outcome R -> Prop) :
  (forall t o, clean_end t o -> Q t o) -> safe' n (idle None) (with_write_async self (action f)) Q.
Proof.
  intros HQ. apply critical_section_cancels; [done|]. intros i. apply apply_mut_cancels. intros o Ho.
  by apply in_section.
Qed.
End Operations.

(** ** Notifications never suspend *)
Section Notifications.
Context `{QubitClock} {T : Type} (self : TokioMonitor).
Abbreviation Σ := (MonitorSig T).
Abbreviation safe' := (safe cancel_rules).

(** A task that has not been dropped. *)
Definition unlocked (t : tally) : Prop := t_locked t = false /\ t_registered t = None /\ t_dropped t = false.

Definition quiet (m : comp Σ unit) : Prop := forall n t (Q : tally -> outcome unit -> Prop),
  unlocked t -> (forall t', unlocked t' -> Q t' (Returned tt)) -> safe' n t m Q.

Lemma signal_quiet l : quiet (notify_signal l).
Proof. intros n t Q (Hl & Hr & Hd) HQ. apply (ccall _ _ (SignalWaiter l)); [done|]. intros [] _. by apply HQ. Qed.

Lemma notify_each_quiet ls : quiet (notify_each ls).
Proof.
  induction ls as [|l ls IH]; intros n t Q Ht HQ; [by apply safe_return, HQ|].
  apply safe_cbind, signal_quiet; [done|]. intros t' Ht' i _. by apply IH.
Qed.

Lemma notify_one_quiet : quiet (notify_one self).
Proof.
  intros n t Q (Hl & Hr & Hd) HQ. apply safe_cbind, (ccall _ _ RegistryTakeOne); [done|].
  intros [l|] _ i _; [by apply signal_quiet|by apply safe_return, HQ].
Qed.

Lemma notify_all_quiet : quiet (notify_all self).
Proof.
  intros n t Q (Hl & Hr & Hd) HQ. apply safe_cbind, (ccall _ _ RegistryTakeAll); [done|].
  intros ls _ i _. by apply notify_each_quiet.
Qed.

Lemma quiet_clean n (notify : comp Σ unit) (Q : tally -> outcome unit -> Prop) :
  quiet notify -> (forall t o, clean_end t o -> Q t o) -> safe' n (idle None) notify Q.
Proof. intros Hn HQ. apply Hn; [done|]. intros t (Hl & Hr & Hd). apply HQ. split; [done|]. by rewrite Hd. Qed.

Lemma write_notify_cancels {R} n (f : T -> T * outcome R) (notify : comp Σ unit) (Q : tally -> outcome R -> Prop) :
  (forall s, (f s).2 <> Unwinding Cancelled) -> quiet notify -> (forall t o, clean_end t o -> Q t o) ->
  safe' n (idle None) (result ← with_write_async self (action f); _ ← notify; ret result) Q.
Proof.
  intros Hf Hn HQ. apply safe_cbind, with_write_async_cancels; [done|].
  intros t [r|c] Ht; [|by apply HQ]. intros i _. destruct Ht as (Hl & Hr & Ht).
  destruct (t_dropped t) eqn:Hd; [by destruct Ht|]. apply safe_cbind, Hn; [done|].
  intros t' (Hl' & Hr' & Hd') i1 _. apply safe_return, HQ. split; [done|]. by rewrite Hd'.
Qed.
End Notifications.

(** ** The theorem *)
Section Dropped.
Context `{QubitClock} {T : Type} (self : TokioMonitor).
Abbreviation Σ := (MonitorSig T).

(** A closure runs within one poll: dropping the future does not unwind it. *)
Definition runs {R} (f : T -> T * outcome R) : Prop := forall s, (f s).2 <> Unwinding Cancelled.

Definition closures_run {R} (c : async_api T R) : Prop :=
  match c with
  | WithReadAsync f => forall s, f s <> Unwinding Cancelled
  | WithWriteAsync f | WithWriteNotifyOneAsync f | WithWriteNotifyAllAsync f | WaitWhileAsync f
  | WaitUntilAsync f | WaitWhileForAsync _ f | WaitUntilForAsync _ f | WaitWhileWithDeadlineAsync _ f
  | WaitUntilWithDeadlineAsync _ f => runs f
  | _ => True
  end.

Lemma nothing_runs : runs nothing.
Proof. done. Qed.

Lemma tokio_interp_cancels {R} w n (c : async_api T R) :
  (forall s, w s <> Unwinding Cancelled) -> closures_run c ->
  safe cancel_rules n untouched (tokio_interp self w c) clean_end.
Proof.
  pose proof (not_predicate_is w) as Hn. pose proof nothing_runs as H0. intros Hw Hc.
  change untouched with (idle None). destruct c; simpl in Hc |- *.
  - apply critical_section_cancels; [done|]. intros i. apply safe_sbind, safe_ret. intros i1 _.
    apply safe_sbind, safe_lift, safe_cbind, safe_ret. intros i2 _.
    apply (ccall _ _ (GetState TheGuard)); [done|]. intros s _ i3 _. by apply safe_lift, safe_ret, in_section.
  - by apply with_write_async_cancels.
  - by apply write_notify_cancels; [|apply notify_one_quiet|].
  - by apply write_notify_cancels; [|apply notify_all_quiet|].
  - by apply quiet_clean; [apply notify_one_quiet|].
  - by apply quiet_clean; [apply notify_all_quiet|].
  - by apply (wait_while_async_cancels self w Hw).
  - by apply (wait_while_async_cancels self w Hw _ Hn).
  - by apply (wait_while_async_cancels self w Hw _ Hn nothing).
  - by apply (wait_while_for_async_cancels self w Hw).
  - by apply (wait_while_for_async_cancels self w Hw _ Hn).
  - by apply (wait_while_for_async_cancels self w Hw _ Hn nothing).
  - by apply (wait_while_with_deadline_async_cancels self w Hw).
  - by apply (wait_while_with_deadline_async_cancels self w Hw _ Hn).
  - by apply (wait_while_with_deadline_async_cancels self w Hw _ Hn nothing).
Qed.

(** C3: dropping a future at any await. An operation of [TokioMonitor] never
    suspends with the state lock or after it has written or notified; once its
    future is dropped it makes at most one more call, which removes the
    registration it still has. However it ends, it leaves no lock and no
    registration behind, and it ends as dropped exactly when it was dropped, and
    then it has neither written the state nor notified anybody. *)
Theorem cancellation_is_clean {R} w (c : async_api T R) tr o :
  (forall s, w s <> Unwinding Cancelled) -> closures_run c ->
  exec (tokio_interp self w c) tr o -> answers_ok cancel_rules untouched tr ->
  calls_ok cancel_rules untouched tr /\
  t_locked (tally_of tr) = false /\ t_registered (tally_of tr) = None /\
  (o = Unwinding Cancelled <-> t_dropped (tally_of tr) = true) /\
  (t_dropped (tally_of tr) = true -> t_acted (tally_of tr) = false).
Proof.
  intros Hw Hc Hex Hok. pose proof (fun n => tokio_interp_cancels w n c Hw Hc) as Hs.
  split; [by eapply safe_exec_calls|]. destruct (safe_exec _ _ _ _ _ _ Hex Hok Hs) as (Hl & Hr & Hd).
  fold (tally_of tr) in Hl, Hr, Hd. split; [done|]. split; [done|].
  destruct (t_dropped (tally_of tr)); [by destruct Hd|]. split; [|done]. by split.
Qed.
End Dropped.

Section Run.
#[local] Existing Instance test_clock.

Lemma cancellation_is_clean_witness :
  t_dropped (tally_of dropped_calls) = true /\
  calls_ok cancel_rules untouched dropped_calls /\
  t_locked (tally_of dropped_calls) = false /\ t_registered (tally_of dropped_calls) = None /\
  (Unwinding (A := unit) Cancelled = Unwinding Cancelled <-> t_dropped (tally_of dropped_calls) = true) /\
  (t_dropped (tally_of dropped_calls) = true -> t_acted (tally_of dropped_calls) = false).
Proof.
  split; [reflexivity|].
  apply (cancellation_is_clean test_tokio_monitor (fun b => Returned (negb b)) enter_async dropped_calls
    (Unwinding Cancelled)).
  - done.
  - by intros s.
  - apply dropped_exec.
  - simpl. repeat split; congruence.
Defined.
End Run.
