(* ===== verification/AsyncTimedWaits.v ===== *)
(** * What an asynchronous timed wait did, from the trace of its calls

    As [TimedWaits.v], for the waits of [TokioMonitor] with a deadline: when each
    call is justified, polls of the deadline and of the signal included, and what
    explains each result. *)
From S2P Require Import Prelude Program WaitResult Primitives GuardWait ConditionWait World TokioMonitor Protocol ConditionWaitSpec TokioMonitorSpec TimedWaits.

Section Observe.
Context `{QubitClock} {T R : Type} (self : TokioMonitor).
Abbreviation Σ := (MonitorSig T).
Context (w : T -> outcome bool) (f : T -> T * outcome R).
Abbreviation Timed := (Result (WaitTimeoutResult R) TimeError).
Abbreviation explained := (TimedWaits.explained w f).

Definition async_justified (ob : observed T) (e : monitor_op T) : Prop :=
  match e with
  | LockState | AwaitPoint => ob_held ob = false
  | UnlockState _ _ | GetState _ => ob_held ob = true
  (* the action's write: once, on a state that does not block *)
  | SetState _ s' =>
      ob_held ob = true /\ ob_writes ob = [] /\
      exists s, ob_known ob = Some s /\ w s = Returned false /\ s' = (f s).1
  (* a budget starts under the lock, before the first check *)
  | TimerClockNow _ => ob_held ob = true /\ ob_locks ob = 1 /\ ob_last ob = None
  (* the one timer: after a check that blocks *)
  | TimerAt _ _ =>
      ob_held ob = true /\ ob_timers ob = [] /\
      exists s, ob_known ob = Some s /\ w s = Returned true
  | TimerDeadlineAfter _ _ | TimerAfter _ _ => False
  (* a completed future is not polled again *)
  | TimerPoll future _ =>
      ob_future ob = Some (Ok future) /\ (ob_poll ob = None \/ ob_poll ob = Some Pending)
  (* a waiter is registered after a check that blocks *)
  | NewWaiter => ob_held ob = true /\ exists s, ob_known ob = Some s /\ w s = Returned true
  (* the deadline is polled before the signal, and before the task is parked *)
  | PollSignal _ | Park _ => ob_held ob = false /\ ob_poll ob = Some Pending
  (* no wait without the deadline *)
  | AwaitSignal _ => False
  (* a waiter notifies nobody *)
  | SignalWaiter _ | RegistryTakeOne | RegistryTakeAll => False
  | _ => True
  end.

Definition async_observer : rules Σ (observed T) :=
  {| allowed := async_justified : observed T -> Op Σ -> Prop;
     assume := consistent : observed T -> forall e : Op Σ, Resp e -> Prop;
     after := observe : observed T -> forall e : Op Σ, Resp e -> observed T |}.

Abbreviation safe' := (safe async_observer).

(** The result is explained as that of a blocking wait, or the future was dropped
    before the action. *)
Definition async_explained (shortcut : observed T -> Prop) (setup : observed T -> TimeError -> Prop) (ob : observed T) (o : outcome Timed) : Prop :=
  explained shortcut setup ob o \/
  (o = Unwinding Cancelled /\ ob_held ob = false /\ ob_writes ob = []).

Section Wait.
Context (shortcut : observed T -> Prop) (setup : observed T -> TimeError -> Prop) (planned : observed T -> Prop).
Context (planned_plan : forall ob ob', plan ob = plan ob' -> planned ob -> planned ob').

(** How the body of the wait may end, with the guard [g]. *)
Definition body_end (ob : observed T) (g : option MutexGuard) (o : outcome Timed) : Prop :=
  planned ob /\
  ((g = Some TheGuard /\ ob_held ob = true /\ explained shortcut setup (observe ob (UnlockState TheGuard false) tt) o) \/
   (g = None /\ o = Unwinding Cancelled /\ ob_held ob = false /\ ob_writes ob = [])).

Lemma acall n ob (e : monitor_op T) (Q : observed T -> outcome (monitor_resp e) -> Prop) :
  async_justified ob e -> (forall r, consistent ob e r -> Q (observe ob e r) (Returned r)) ->
  safe' n ob (call (Σ := Σ) e) Q.
Proof. exact (safe_call_c async_observer n ob e Q). Qed.

(** The two answers of an await. *)
Lemma await_point_obs n ob (Q : observed T -> outcome unit -> Prop) :
  ob_held ob = false -> Q ob (Returned tt) -> Q ob (Unwinding Cancelled) -> safe' n ob await_point Q.
Proof.
  intros Hh HQ HQc. assert (Hob : forall b, observe ob AwaitPoint b = ob) by (by destruct ob).
  apply safe_cbind, (acall _ _ AwaitPoint); [done|]. intros b _. rewrite Hob. destruct b; by walk.
Qed.

(** Under the lock, with a state read under it. *)
Definition locked (s : T) now timers future poll locks fresh : observed T :=
  MkObserved true (Some s) (Some s) now None timers future poll [] locks fresh.

Lemma lock_async_obs n known last now timers future poll locks fresh (Q : observed T -> outcome MutexGuard -> Prop) :
  Q (MkObserved true None last now None timers future poll [] (S locks) fresh) (Returned TheGuard) ->
  Q (MkObserved false known last now None timers future poll [] locks fresh) (Unwinding Cancelled) ->
  safe' n (MkObserved false known last now None timers future poll [] locks fresh) (lock_async self) Q.
Proof.
  intros HQ HQc. apply safe_cbind, await_point_obs; [done| |done]. walk.
  apply (acall _ _ LockState); [done|]. intros [[]|[[]]] _; by walk.
Qed.

(** The wait ends under the lock without having run the action. *)
Lemma no_write_end s now timers future poll locks fresh o :
  planned (locked s now timers future poll locks fresh) ->
  (forall e, poll = Some (Ready (Err e)) -> o = Returned (Err e)) ->
  match o with
  | Returned (Ok (WaitReady _)) => False
  | Returned (Ok WaitTimedOut) =>
      w s = Returned true /\
      (shortcut (observe (locked s now timers future poll locks fresh) (UnlockState TheGuard false) tt) \/
       poll = Some (Ready (Ok tt)) /\ fresh = true)
  | Returned (Err e) =>
      setup (observe (locked s now timers future poll locks fresh) (UnlockState TheGuard false) tt) e \/
      future = Some (Err e) \/ poll = Some (Ready (Err e))
  | Unwinding _ => True
  end ->
  body_end (locked s now timers future poll locks fresh) (Some TheGuard) o.
Proof.
  intros Hp He Ho. split; [done|]. left. split; [done|split; [done|]]. split; [done|split; [done|]].
  destruct o as [[[r|]|e]|c]; [done| |done|by left]. destruct Ho as [Hs Ho]. split; [done|]. eauto.
Qed.

Lemma check_local_obs n s0 now timers future poll locks fresh waiting (Q : observed T -> option MutexGuard * outcome bool -> Prop) :
  (forall s, next (waiting s) = HRet (w s)) ->
  (forall s, Q (locked s now timers future poll locks true) (Some TheGuard, w s)) ->
  safe' n (MkObserved true None s0 now None timers future poll [] locks fresh) (check waiting (Some TheGuard)) Q.
Proof.
  intros Hw HQ. unfold check. walk. cbn [deref local_guard expect]. walk.
  apply (acall _ _ (GetState TheGuard)); [done|]. intros s _. walk. eapply safe_next; [apply Hw|apply HQ].
Qed.

(** After a check that does not block, the action decides the wait. *)
Lemma ready_async_obs {B} n s now timers future poll locks fresh (fin : R -> B)
    (Q : observed T -> option MutexGuard * outcome B -> Prop) :
  planned (locked s now timers future poll locks fresh) -> w s = Returned false ->
  (forall e, poll <> Some (Ready (Err e))) ->
  (forall ob r, body_end ob (Some TheGuard) (Returned (Ok (WaitReady r))) -> Q ob (Some TheGuard, Returned (fin r))) ->
  (forall ob c, body_end ob (Some TheGuard) (Unwinding c) -> Q ob (Some TheGuard, Unwinding c)) ->
  safe' n (locked s now timers future poll locks fresh) ((r ← apply_mut (action f); ret (fin r)) (Some TheGuard)) Q.
Proof.
  intros Hp Hw He HQ HQc. unfold apply_mut. walk. cbn [deref local_guard expect]. walk.
  apply (acall _ _ (GetState TheGuard)); [done|]. intros s' Hs'. rewrite (Hs' s eq_refl). walk.
  unfold action. walk. cbn [deref_mut local_guard expect]. walk.
  apply (acall _ _ (SetState TheGuard (f s).1)); [simpl; eauto 7|]. intros [] _. walk.
  assert (Hend : forall o : outcome Timed,
    match o with Returned (Ok (WaitReady r)) => (f s).2 = Returned r | Unwinding c => (f s).2 = Unwinding c | _ => False end ->
    body_end (MkObserved true (Some (f s).1) (Some s) now None timers future poll [(f s).1] locks true) (Some TheGuard) o).
  { intros o Ho. split; [apply (planned_plan (locked s now timers future poll locks fresh)); [reflexivity|exact Hp]|]. left. split; [done|split; [done|]]. split; [done|].
    split; [intros e Hpoll; by apply He in Hpoll|]. destruct o as [[[r|]|e]|c]; [by eexists|done|done|right; by eexists]. }
  destruct (f s).2 as [r|c] eqn:Ho; [walk|]; [by apply HQ, Hend|by apply HQc, Hend].
Qed.

(** ** The loop *)

(** The last poll of the deadline, when a poll round ended with [r]. *)
Definition poll_of (r : Result WaitTimeoutStatus TimeError) : Poll (Result unit TimeError) :=
  match r with Ok Woken => Pending | Ok TimedOut => Ready (Ok tt) | Err e => Ready (Err e) end.

Definition unfinished (poll : option (Poll (Result unit TimeError))) : Prop := poll = None \/ poll = Some Pending.

Definition asleep known last now timers future poll locks fresh : observed T :=
  MkObserved false known last now None timers (Some (Ok future)) poll [] locks fresh.

Lemma deadline_await_obs n known last now timers future poll locks fresh id l
    (Q : observed T -> outcome (Result WaitTimeoutStatus TimeError) -> Prop) :
  unfinished poll ->
  (forall r, Q (asleep known last now timers future (Some (poll_of r)) locks false) (Returned r)) ->
  Q (asleep known last now timers future (Some Pending) locks false) (Unwinding Cancelled) ->
  safe' n (asleep known last now timers future poll locks fresh)
    (wait_until_signalled_or_deadline (MkTokioRegistration id l) future) Q.
Proof.
  intros Hpoll HQ HQc.
  apply (safe_loop _ (fun ob _ => exists poll fresh,
    ob = asleep known last now timers future poll locks fresh /\ unfinished poll)); [eauto|].
  intros m ? _ _ (p & fr & -> & Hp). eapply safe_bind with (R := fun ob o =>
    match o with
    | Returned None => ob = asleep known last now timers future (Some Pending) locks false
    | Returned (Some r) => ob = asleep known last now timers future (Some (poll_of r)) locks false
    | Unwinding c => ob = asleep known last now timers future (Some Pending) locks false /\ c = Cancelled
    end).
  - walk. apply (acall _ _ (TimerPoll future None)); [done|]. intros [r|] _; walk; [by destruct r as [[]|e]|].
    apply (acall _ _ (PollSignal l)); [done|]. intros [] _; walk; [done|].
    apply await_point_obs; [done| |done]. walk. apply (acall _ _ (Park l)); [done|]. intros [] _. by walk.
  - intros i ob [[r|]|c] _; [intros ->|intros ->|intros [-> ->]]; apply safe_ret; [apply HQ| |apply HQc].
    exists (Some Pending), false. split; [done|by right].
Qed.

Lemma registered_round_obs {B} n s now timers future poll locks fresh
    (k : Result WaitTimeoutStatus TimeError -> stateful Σ (option MutexGuard) B)
    (Q : observed T -> option MutexGuard * outcome B -> Prop) :
  w s = Returned true -> unfinished poll ->
  (forall c, Q (locked s now timers (Some (Ok future)) poll locks fresh) (Some TheGuard, Unwinding c)) ->
  (forall poll, Q (asleep (Some s) (Some s) now timers future poll locks false) (None, Unwinding Cancelled)) ->
  (forall m r, safe' m (MkObserved true None (Some s) now None timers (Some (Ok future)) (Some (poll_of r)) [] (S locks) false)
     (k r (Some TheGuard)) Q) ->
  safe' n (locked s now timers (Some (Ok future)) poll locks fresh)
    ((registration ← lift (register_waiter self);
      r ← scoped_in (fun _ => drop_tokio_registration registration)
            (_ ← move_out; lift (wait_until_signalled_or_deadline registration future));
      guard ← lift (lock_async self);
      _ ← assign (Some guard);
      k r) (Some TheGuard)) Q.
Proof.
  intros Hs Hp HQ HQc Hk. unfold register_waiter, TokioConditionWaiter_new. walk.
  apply (acall _ _ NewWaiter); [simpl; eauto|]. intros l _. walk.
  eapply safe_bind; [apply (safe_call _ _ _ (RegistryRegister l : Op Σ))
    with (Q := fun ob _ => ob = locked s now timers (Some (Ok future)) poll locks fresh); done|].
  intros i3 ob [rid|c] _ ->; walk; unfold id; [walk|apply HQ].
  unfold move_out, release_guard, drop_tokio_registration, drop_mutex_guard. walk. cbn [expect]. walk.
  apply (acall _ _ (UnlockState TheGuard false)); [done|]. intros [] _. walk.
  apply deadline_await_obs; [done| |]; [intros r|]; walk;
    (apply (acall _ _ (RegistryUnregister rid)); [done|]); intros ? _; walk; [|by apply HQc].
  apply lock_async_obs; [|by apply HQc]. walk. by apply Hk.
Qed.

Context (waiting : T -> comp Σ bool) (waiting_is : forall s, next (waiting s) = HRet (w s)).

Lemma deadline_loop_obs n s now timers future poll locks fresh :
  (forall s poll locks fresh, planned (locked s now timers (Some (Ok future)) poll locks fresh)) ->
  w s = Returned true -> unfinished poll ->
  safe' n (locked s now timers (Some (Ok future)) poll locks fresh)
    (deadline_loop self future waiting (action f) (Some TheGuard)) (fun ob '(g, o) => body_end ob g o).
Proof.
  intros Hplan Hs Hp.
  apply (safe_sloop _ (fun ob g => g = Some TheGuard /\ exists s poll locks fresh,
    ob = locked s now timers (Some (Ok future)) poll locks fresh /\ w s = Returned true /\ unfinished poll)); [by eauto 8|].
  intros m ? g _ (-> & s1 & p1 & n1 & f1 & -> & Hs1 & Hp1). apply registered_round_obs; [done..| | |].
  - intros c. apply no_write_end; [done| |done]. intros e ->. by destruct Hp1.
  - intros p2. split; [by apply (planned_plan (locked s1 now timers (Some (Ok future)) p2 0 false))|by right].
  - intros m' [status|e].
    2: { walk. change (Some (poll_of (Err e))) with (Some (Ready (A := Result unit TimeError) (Err e))).
         split; [apply (planned_plan (locked s1 now timers (Some (Ok future)) None 0 false)); [reflexivity|done]|].
         left. split; [done|split; [done|]]. split; [done|split; [by intros e' [= ->]|]]. split; [done|by right; right]. }
    apply safe_sbind. eapply safe_mono with (n := m') (Q := fun ob '(g, o) => g = Some TheGuard /\ exists r : Result bool TimeError,
        o = Returned r /\ ob = MkObserved true None (Some s1) now None timers (Some (Ok future))
          (Some (match r with Ok true => Ready (Ok tt) | Ok false => Pending | Err e => Ready (Err e) end)) [] (S n1) false);
      [done| |].
    { destruct status; cbn [status_is_timed_out]; [|walk; split; [done|]; by exists (Ok true)].
      unfold deadline_reached. walk.
      apply (acall _ _ (TimerPoll future None)); [by split; [|right]|]. intros r _. walk. split; [done|].
      eexists. split; [done|]. by destruct r as [[[]|e]|]. }
    intros ? [g ?] (-> & [reached|e] & -> & ->) i _; cbv beta iota.
    2: { walk. split; [apply (planned_plan (locked s1 now timers (Some (Ok future)) None 0 false)); [reflexivity|done]|].
         left. split; [done|split; [done|]]. split; [done|split; [by intros e' [= ->]|]]. split; [done|by right; right]. }
    walk. apply check_local_obs; [done|]. intros s2. destruct (w s2) as [[]|c] eqn:Hw; [intros i1 _; cbn [negb]..|].
    + destruct reached; walk.
      * apply no_write_end; [done|done|]. split; [done|by right].
      * split; [done|]. exists s2, (Some Pending), (S n1), true. split; [done|split; [done|by right]].
    + eapply ready_async_obs; [done|done|by destruct reached|done|done].
    + apply no_write_end; [done| |done]. intros e. by destruct reached.
Qed.

(** A timed wait: acquisition of the guard, body, drop. *)
Lemma scoped_async_obs n (m : stateful Σ (option MutexGuard) Timed) (Q : observed T -> outcome Timed -> Prop) :
  (forall ob o, planned ob -> async_explained shortcut setup ob o -> Q ob o) ->
  planned nothing_observed ->
  (forall i, safe' i (MkObserved true None None None None [] None None [] 1 false) (m (Some TheGuard))
     (fun ob '(g, o) => body_end ob g o)) ->
  safe' n nothing_observed (guard ← lock_async self; scoped (Some guard) drop_local m) Q.
Proof.
  intros HQ H0 Hm. apply safe_cbind, lock_async_obs; [|apply HQ; [done|by right]]. intros i _.
  apply safe_scoped. eapply safe_mono; [reflexivity|apply Hm|].
  intros ob [g o] (Hp & [(-> & Hh & Hex)|(-> & -> & Hh & Hwr)]) j _.
  - apply (acall _ _ (UnlockState TheGuard (is_unwinding o))); [done|]. intros [] _.
    assert (Hu : forall b, observe ob (UnlockState TheGuard b) tt = observe ob (UnlockState TheGuard false) tt)
      by (by destruct ob).
    rewrite Hu. specialize (HQ (observe ob (UnlockState TheGuard false) tt) o).
    destruct o; apply HQ; [|by left| |by left]; (eapply planned_plan; [|exact Hp]); by destruct ob.
  - apply safe_return, HQ; [done|by right].
Qed.
End Wait.

Lemma given_plan deadline (ob ob' : observed T) : plan ob = plan ob' -> given_deadline None deadline ob -> given_deadline None deadline ob'.
Proof. destruct ob, ob'. unfold plan, given_deadline. simpl. by intros [= -> -> -> ->]. Qed.

Lemma budget_plan timeout (ob ob' : observed T) :
  plan ob = plan ob' -> one_timer (budget_deadline timeout) ob -> one_timer (budget_deadline timeout) ob'.
Proof. destruct ob, ob'. unfold plan, one_timer, budget_deadline. simpl. by intros [= -> -> -> ->]. Qed.

Context (waiting : T -> comp Σ bool) (waiting_is : forall s, next (waiting s) = HRet (w s)).

Lemma wait_while_with_deadline_async_obs n deadline (Q : observed T -> outcome Timed -> Prop) :
  (forall ob o, given_deadline None deadline ob -> async_explained already_over no_setup ob o -> Q ob o) ->
  safe' n nothing_observed (wait_while_with_deadline_async self deadline waiting (action f)) Q.
Proof.
  intros HQ. apply (scoped_async_obs already_over no_setup (given_deadline None deadline) (given_plan deadline)); [done|by split; [|left]|].
  intros i. apply safe_sbind, check_local_obs; [done|]. intros s. destruct (w s) as [[]|c] eqn:Hw; [intros i1 _; cbn [negb]..|].
  - walk. apply (acall _ _ (TimerAt (timer self) deadline)); [simpl; eauto 6|].
    assert (Hg : forall s r p locks fresh, given_deadline None deadline (locked s None [deadline] r p locks fresh)) by (by split; [|right]).
    intros [future|e] _; walk; [|by apply no_write_end; [| |right; left]].
    unfold deadline_reached. walk. apply (acall _ _ (TimerPoll future None)); [by split; [|left]|].
    intros [[[]|e]|] _; walk; cbn [Result_map]; walk.
    + apply no_write_end; [done|done|]. split; [done|by left].
    + apply no_write_end; [done|by intros ? [= ->]|by right; right].
    + apply (deadline_loop_obs already_over no_setup _ (given_plan deadline)); [done..|by right].
  - eapply ready_async_obs; [by apply given_plan|by split; [|left]|done..].
  - apply no_write_end; [by split; [|left]|done..].
Qed.

Lemma wait_while_for_async_obs n timeout (Q : observed T -> outcome Timed -> Prop) :
  (forall ob o, one_timer (budget_deadline timeout) ob ->
     async_explained (zero_budget timeout) (budget_setup timeout) ob o -> Q ob o) ->
  safe' n nothing_observed (wait_while_for_async self timeout waiting (action f)) Q.
Proof.
  intros HQ. apply (scoped_async_obs (zero_budget timeout) (budget_setup timeout)
    (one_timer (budget_deadline timeout)) (budget_plan timeout)); [done|by left|].
  intros i. apply safe_sbind, safe_lift, (acall _ _ (TimerClockNow (timer self))); [done|]. intros started _ i0 _.
  apply safe_sbind, check_local_obs; [done|]. intros s. destruct (w s) as [[]|c] eqn:Hw; [intros i1 _; cbn [negb]..|].
  - destruct (Duration_is_zero timeout) eqn:Hz; [walk; by apply no_write_end; [left| |split; [|left]]|].
    destruct (instant_checked_add started timeout) as [deadline|e] eqn:Hadd.
    2: { walk. apply no_write_end; [by left|done|]. left. split; [done|split; [done|by exists started]]. }
    walk. apply (acall _ _ (TimerAt (timer self) deadline)); [simpl; eauto 6|].
    assert (Hg : forall s r p locks fresh, one_timer (budget_deadline timeout) (locked s (Some started) [deadline] r p locks fresh))
      by (intros; right; exists deadline; split; [by exists started|done]).
    intros [future|e] _; walk; [|by apply no_write_end; [| |right; left]].
    apply (deadline_loop_obs _ _ _ (budget_plan timeout)); [done..|by left].
  - eapply ready_async_obs; [by apply budget_plan|by left|done..].
  - apply no_write_end; [by left|done..].
Qed.
End Observe.

(** ** Property *)
Section Properties.
Context `{QubitClock} {T R : Type} (w : T -> outcome bool) (f : T -> T * outcome R) (self : TokioMonitor).
Abbreviation Timed := (Result (WaitTimeoutResult R) TimeError).

(** What limits a wait. *)
Inductive limit : Type :=
| Within (timeout : Duration)
| Until (deadline : MonotonicInstant).

Definition limited_wait (l : limit) : comp (MonitorSig T) Timed :=
  match l with
  | Within timeout => wait_while_for_async self timeout (predicate w) (action f)
  | Until deadline => wait_while_with_deadline_async self deadline (predicate w) (action f)
  end.

(** Its timers, and when it needs none. *)
Definition limit_planned (l : limit) (ob : observed T) : Prop :=
  match l with
  | Within timeout => one_timer (budget_deadline timeout) ob
  | Until deadline => given_deadline None deadline ob
  end.

Definition limit_shortcut (l : limit) : observed T -> Prop :=
  match l with Within timeout => zero_budget timeout | Until _ => already_over end.

Definition limit_setup (l : limit) : observed T -> TimeError -> Prop :=
  match l with Within timeout => budget_setup timeout | Until _ => no_setup end.

(** C9: the asynchronous timed waits, explained by their calls, for all answers
    of lock, timer, signal and executor. The budget of [wait_while_for_async]
    starts under the lock before the first check; at most one timer is created,
    after a check that blocks, for the deadline fixed then, or for the one given;
    its future is never polled again after it completed; in each poll it is polled
    before the signal, and the task is parked only if it is pending. The result is
    ready exactly when the action ran, once, on a state that does not block; a
    timeout is reported, except at once after the first check for a zero timeout or
    a deadline that has passed, only after the timer completed and, after that poll
    and under the last acquisition of the lock, a check that still blocks; errors
    are returned as given; a
    future dropped at an await has not run the action and holds no lock. *)
Theorem async_timed_waits_explained (l : limit) tr o :
  exec (limited_wait l) tr o ->
  answers_ok (async_observer w f) nothing_observed tr ->
  calls_ok (async_observer w f) nothing_observed tr /\
  limit_planned l (ghost_run (async_observer w f) nothing_observed tr) /\
  async_explained w f (limit_shortcut l) (limit_setup l)
    (ghost_run (async_observer w f) nothing_observed tr) o.
Proof.
  intros Hex Hok.
  assert (Hsafe : forall n, safe (async_observer w f) n nothing_observed (limited_wait l)
    (fun ob o => limit_planned l ob /\ async_explained w f (limit_shortcut l) (limit_setup l) ob o)).
  { intros n. destruct l as [timeout|deadline];
      [by apply wait_while_for_async_obs|by apply wait_while_with_deadline_async_obs]. }
  split; [by eapply safe_exec_calls|]. apply (safe_exec _ _ _ _ _ _ Hex Hok Hsafe).
Qed.
End Properties.
Arguments limit : clear implicits.
Arguments limit {_}.
Arguments limited_wait {_ T R} w f self l.

(** ** A concrete run

    A timer that completes at its third poll, and a state that always blocks. *)
Section Run.
#[local] Existing Instance test_clock.

Definition in_ten_seconds : limit := Within ten_seconds.

Definition run_async : list (item (MonitorSig bool)) :=
  run_of (limited_wait never close_gate test_tokio_monitor in_ten_seconds) false.

Lemma async_timed_waits_explained_witness :
  calls_ok (async_observer never close_gate) nothing_observed run_async /\
  limit_planned in_ten_seconds (ghost_run (async_observer never close_gate) nothing_observed run_async) /\
  async_explained never close_gate (limit_shortcut in_ten_seconds) (limit_setup in_ten_seconds)
    (ghost_run (async_observer never close_gate) nothing_observed run_async) timed_out.
Proof.
  apply (async_timed_waits_explained never close_gate test_tokio_monitor in_ten_seconds run_async timed_out).
  - apply run_exec. vm_cast_no_check (eq_refl (Some timed_out)).
  - vm_compute. repeat split; congruence.
Defined.
End Run.
