(* ===== verification/Latch.v ===== *)
(** * [BlockingConditionWaiter]: the latch behind a suspension

    [wait] and [signal] of [blocking_condition_waiter.rs] at the level of their
    mutex and condition variable, with spurious wakeups. Each waiter is private
    to one wait, so one thread waits on it and any number signal it (notifiers
    and the timer's waker). The refinement theorem justifies the atomic
    [BlockingWaiter.wait] and [BlockingWaiter.signal] that the rest of the
    development runs on the machine of [World.v]. *)
From S2P Require Import Prelude Program Primitives BlockingWaiter StdMonitor World.

(** ** The mutex and the condition variable *)
Inductive latch_op : Type :=
| LatchLock
| LatchUnlock (guard : MutexGuard)
| LatchGet (guard : MutexGuard)                (* reads [signalled] *)
| LatchSet (guard : MutexGuard) (b : bool)     (* writes [signalled] *)
| CondRelease (guard : MutexGuard)             (* [Condvar::wait]: unlock and enqueue *)
| CondReacquire                                (* [Condvar::wait]: lock once dequeued *)
| CondNotifyOne.

Definition latch_resp (e : latch_op) : Type :=
  match e with
  | LatchLock | CondReacquire => LockResult MutexGuard
  | LatchGet _ => bool
  | _ => unit
  end.

Definition LatchSig : Sig := MkSig latch_op latch_resp.

Abbreviation Σ := LatchSig.

(** ** The code *)
Definition drop_latch_guard (g : MutexGuard) (panicking : bool) : comp Σ unit :=
  call (Σ := Σ) (LatchUnlock g).

Definition lock_latch : comp Σ MutexGuard :=
  result ← call (Σ := Σ) LatchLock;
  ret (recover result).

(** [recover(self.changed.wait(state))]. *)
Definition cond_wait (g : MutexGuard) : comp Σ MutexGuard :=
  _ ← call (Σ := Σ) (CondRelease g);
  result ← call (Σ := Σ) CondReacquire;
  ret (recover result).

Definition latch_wait : comp Σ unit :=
  state ← lock_latch;
  scoped state drop_latch_guard
    (while
      (state ← read_var; signalled ← lift (call (Σ := Σ) (LatchGet state)); ret (negb signalled))
      (state ← read_var; state' ← lift (cond_wait state); assign state')).

Definition latch_signal : comp Σ unit :=
  state ← lock_latch;
  scoped state drop_latch_guard
    (_ ← lift (call (Σ := Σ) (LatchSet state true));
     lift (call (Σ := Σ) CondNotifyOne)).

(** ** The machine *)
Record latch : Type := MkLatch {
  latch_owner : option nat;
  latch_signalled : bool;
  latch_queue : list nat     (* threads enqueued in the condition variable *)
}.

Definition latch_new : latch := {| latch_owner := None; latch_signalled := false; latch_queue := [] |}.

Definition latch_handle (t : nat) (s : latch) (e : latch_op) : option (latch_resp e * latch) :=
  let '(MkLatch owner signalled queue) := s in
  match e return option (latch_resp e * latch) with
  | LatchLock =>
      if decide (owner = None) then Some (Ok TheGuard, MkLatch (Some t) signalled queue) else None
  | LatchUnlock _ =>
      if decide (owner = Some t) then Some (tt, MkLatch None signalled queue) else None
  | LatchGet _ => if decide (owner = Some t) then Some (signalled, s) else None
  | LatchSet _ b => if decide (owner = Some t) then Some (tt, MkLatch owner b queue) else None
  | CondRelease _ =>
      if decide (owner = Some t) then Some (tt, MkLatch None signalled (queue ++ [t])) else None
  | CondReacquire =>
      if decide (owner = None /\ t ∉ queue) then Some (Ok TheGuard, MkLatch (Some t) signalled queue)
      else None
  | CondNotifyOne => Some (tt, MkLatch owner signalled (tail queue))
  end.

Record latch_config : Type := MkLatchConfig { the_latch : latch; codes : list (comp Σ unit) }.

Definition latch_step_thread (t : nat) (c : latch_config) : option latch_config :=
  match codes c !! t with
  | Some p =>
      match next p with
      | HRet _ => None
      | HTau p' => Some (MkLatchConfig (the_latch c) (<[t := p']> (codes c)))
      | HVis e k =>
          match latch_handle t (the_latch c) e with
          | Some (r, s) => Some (MkLatchConfig s (<[t := k r]> (codes c)))
          | None => None
          end
      end
  | None => None
  end.

Inductive latch_step : latch_config -> latch_config -> Prop :=
| latch_run t c c' : latch_step_thread t c = Some c' -> latch_step c c'
(* a spurious wakeup *)
| latch_spurious t c :
    latch_step c
      (MkLatchConfig (MkLatch (latch_owner (the_latch c)) (latch_signalled (the_latch c))
                        (filter (fun t' => t' <> t) (latch_queue (the_latch c)))) (codes c)).

(** One waiter, [n] signallers. *)
Definition latch_initial (n : nat) : latch_config :=
  MkLatchConfig latch_new (latch_wait :: replicate n latch_signal).

Definition latch_reachable (n : nat) : latch_config -> Prop := rtc latch_step (latch_initial n).

Definition returned (p : comp Σ unit) : Prop := next p = HRet (Returned tt).

Definition latch_stuck (c : latch_config) : Prop := forall t, latch_step_thread t c = None.

(** ** Where a thread is *)
Inductive place : Type :=
| WOut | WHeld | WSeen (b : bool) | WWaiting | WDone
| SOut | SHeld | SSet | SNotified | SDone.

Definition latch_may (l : place) (e : latch_op) : Prop :=
  match l, e with
  | (WOut | SOut), LatchLock | WHeld, LatchGet _ | WSeen false, CondRelease _
  | WWaiting, CondReacquire | (WSeen true | SNotified), LatchUnlock _
  | SHeld, LatchSet _ true | SSet, CondNotifyOne => True
  | _, _ => False
  end.

Definition latch_move (l : place) (e : latch_op) : latch_resp e -> place :=
  match e return latch_resp e -> place with
  | LatchLock => fun _ => match l with WOut => WHeld | _ => SHeld end
  | LatchGet _ => fun b => WSeen b
  | CondRelease _ => fun _ => WWaiting
  | CondReacquire => fun _ => WHeld
  | LatchUnlock _ => fun _ => match l with SNotified => SDone | _ => WDone end
  | LatchSet _ _ => fun _ => SSet
  | CondNotifyOne => fun _ => SNotified
  end.

Definition latch_rules : rules Σ place :=
  {| allowed := latch_may : place -> Op Σ -> Prop;
     assume := fun _ _ _ => True;
     after := latch_move : place -> forall e : Op Σ, Resp e -> place |}.

Definition waiter_place (l : place) : Prop :=
  match l with WOut | WHeld | WSeen _ | WWaiting | WDone => True | _ => False end.

Definition holding (l : place) : Prop :=
  match l with WHeld | WSeen _ | SHeld | SSet | SNotified => True | _ => False end.

(** Past the write of [signalled]. *)
Definition has_set (l : place) : Prop :=
  match l with SSet | SNotified | SDone | WDone => True | _ => False end.

(** How a thread ends. *)
Definition ended (l : place) (o : outcome unit) : Prop := o = Returned tt /\ (l = WDone \/ l = SDone).

Abbreviation safe' := (safe latch_rules).

Lemma lcall n l (e : latch_op) (Q : place -> outcome (latch_resp e) -> Prop) :
  latch_may l e -> (forall r, Q (latch_move l e r) (Returned r)) -> safe' n l (call (Σ := Σ) e) Q.
Proof. intros Hm HQ. apply (safe_call_c latch_rules n l e Q); [exact Hm|]. intros r _. apply HQ. Qed.

Lemma lock_latch_spec n l (Q : place -> outcome MutexGuard -> Prop) :
  latch_may l LatchLock -> (forall g, Q (latch_move l LatchLock (Ok g)) (Returned g)) ->
  safe' n l lock_latch Q.
Proof.
  intros Hl HQ. apply safe_cbind, (lcall _ _ LatchLock); [exact Hl|]. intros r i _. exact (safe_return _ _ _ _ _ (HQ (recover r))).
Qed.

Lemma latch_wait_spec n : safe' n WOut latch_wait ended.
Proof.
  apply safe_cbind, lock_latch_spec; [done|]. intros g i _. apply safe_scoped.
  apply (safe_sloop _ (fun l _ => l = WHeld)); [done|]. intros m l g1 _ ->.
  apply safe_sbind, safe_sbind, safe_ret. intros i1 _.
  apply safe_sbind, safe_lift, (lcall _ _ (LatchGet g1)); [done|]. intros [] i2 _; apply safe_ret; intros i3 _; simpl.
  - apply safe_ret. intros i4 _. apply (lcall _ _ (LatchUnlock g1)); [done|].
    intros []. split; [done|by left].
  - apply safe_sbind, safe_sbind, safe_ret. intros i4 _. apply safe_sbind, safe_lift, safe_cbind.
    apply (lcall _ _ (CondRelease g1)); [done|]. intros [] i5 _.
    apply safe_cbind, (lcall _ _ CondReacquire); [done|]. intros r i6 _. apply safe_return.
    intros i7 _. apply safe_ret. intros i8 _. by apply safe_ret.
Qed.

Lemma latch_signal_spec n : safe' n SOut latch_signal ended.
Proof.
  apply safe_cbind, lock_latch_spec; [done|]. intros g i _. apply safe_scoped.
  apply safe_sbind, safe_lift, (lcall _ _ (LatchSet g true)); [done|]. intros [] i1 _.
  apply safe_lift, (lcall _ _ CondNotifyOne); [done|]. intros [] i2 _.
  apply (lcall _ _ (LatchUnlock g)); [done|]. intros []. split; [done|by right].
Qed.

(** ** The invariant *)
Section Invariant.
Implicit Types (φ : nat -> place).

Record latch_inv φ (s : latch) : Prop := {
  li_owner : forall t, latch_owner s = Some t <-> holding (φ t);
  li_seen : forall t b, φ t = WSeen b -> latch_signalled s = b;
  li_set : forall t, has_set (φ t) -> latch_signalled s = true;
  li_queue : forall t, t ∈ latch_queue s -> t = 0 /\ φ t = WWaiting;
  (* an enqueued waiter that has been signalled is about to be notified *)
  li_wake : latch_queue s <> [] -> latch_signalled s = true -> exists t, φ t = SSet;
  li_single : length (latch_queue s) <= 1;
  li_role : forall t, waiter_place (φ t) <-> t = 0
}.

Lemma latch_handle_inv φ φ' s t e r s' :
  latch_inv φ s -> (forall t', t' <> t -> φ' t' = φ t') ->
  latch_may (φ t) e -> latch_handle t s e = Some (r, s') -> φ' t = latch_move (φ t) e r ->
  latch_inv φ' s'.
Proof.
  intros [Ho Hseen Hset Hq Hw H1 Hrole] Hsame Hmay Hh Ht.
  assert (Hcase : forall P : nat -> place -> Prop,
    P t (φ' t) -> (forall t', t' <> t -> P t' (φ t')) -> forall t', P t' (φ' t')).
  { intros P Hpt Hp t'. destruct (decide (t' = t)) as [->|Hne]; [done|]. rewrite Hsame by done. auto. }
  assert (Hrole' : waiter_place (φ' t) <-> waiter_place (φ t)).
  { rewrite Ht. destruct (φ t) as [| |[]| | | | | | |], e as [| | |? []| | |]; simpl in *; tauto. }
  destruct s as [owner sg q]. simpl in *.
  assert (Hroles : forall t', waiter_place (φ' t') <-> t' = 0).
  { apply (Hcase (fun t' l => waiter_place l <-> t' = 0)); [by rewrite Hrole'|auto]. }
  assert (Hq' : forall t', t' ∈ q -> t' <> t \/ φ t = WWaiting).
  { intros t' Hin. destruct (Hq t' Hin) as [_ Hp]. destruct (decide (t' = t)) as [->|]; auto. }
  assert (Hqnil : waiter_place (φ t) -> φ t <> WWaiting -> q = []).
  { intros Ht0%Hrole Hne. destruct q as [|t' q']; [done|]. destruct (Hq t') as [-> Hp]; [left|]. by subst. }
  assert (Htail : tail q = []) by (destruct q as [|? []]; simpl in *; [done|done|lia]).
  destruct e; simpl in Hh; repeat case_decide; simplify_eq; destruct_ands; subst; split; simpl; try done;
    try (apply (Hcase (fun t' l => _ <-> holding l));
         [rewrite Ht; destruct (φ t) as [| |[]| | | | | | |]; simpl in *; try tauto; split; done || congruence
         |intros t' Hne; specialize (Ho t'); intuition congruence]).
  all: try (apply (Hcase (fun t' l => forall b, l = WSeen b -> _ = b));
    [rewrite Ht; destruct (φ t) as [| |[]| | | | | | |]; simpl in *; (done || intros ? [=]; congruence)
    |intros t' Hne b' Hb; (by apply (Hseen t')) ||
      (exfalso; assert (Some t = Some t') by (apply Ho; by rewrite Hb); congruence)]).
  all: try (apply (Hcase (fun t' l => has_set l -> _ = true));
    [rewrite Ht; specialize (Hset t); specialize (Hseen t);
       destruct (φ t) as [| |[]| | | | | | |]; simpl in *; auto; (done || by destruct b)
    |intros t' Hne Hb; specialize (Hset t' Hb);
       (done || by destruct (φ t) as [| |[]| | | | | | |], b)]).
  all: try (apply (Hcase (fun t' l => t' ∈ _ -> t' = 0 /\ l = WWaiting));
    [intros Hin; exfalso; apply Hq in Hin as Hin'; destruct Hin' as [_ Hin']; rewrite Hin' in Hmay; simpl in Hmay; done
    |intros t' Hne Hin; by apply Hq]).
  all: try (intros Hne Hs; destruct (Hw Hne Hs) as [t0 Ht0]; exists t0; rewrite Hsame;
    [exact Ht0|intros ->; rewrite Ht0 in Hmay; exact Hmay]).
  - intros _ _. exists t. by rewrite Ht.
  - assert (Hp : φ t = WSeen false) by (by destruct (φ t) as [| |[]| | | | | | |]; simpl in Hmay).
    rewrite Hqnil by (by rewrite Hp). intros t' ->%list_elem_of_singleton.
    split; [apply Hrole; by rewrite Hp|by rewrite Ht].
  - assert (Hp : φ t = WSeen false) by (by destruct (φ t) as [| |[]| | | | | | |]; simpl in Hmay).
    intros _ Hs. by rewrite (Hseen t false Hp) in Hs.
  - assert (Hp : φ t = WSeen false) by (by destruct (φ t) as [| |[]| | | | | | |]; simpl in Hmay).
    by rewrite Hqnil by (by rewrite Hp).
  - assert (Hp : φ t = SSet) by (by destruct (φ t) as [| |[]| | | | | | |]; simpl in Hmay).
    apply (Hcase (fun t' l => _ <-> holding l)); [|auto]. rewrite Ht, Ho, Hp. done.
  - rewrite Htail. intros t' Hin. by apply not_elem_of_nil in Hin.
  - rewrite Htail. simpl. lia.
Qed.

(** The threads are where [φ] says. *)
Definition latch_at φ (n : nat) (c : latch_config) : Prop :=
  latch_inv φ (the_latch c) /\ length (codes c) = S n /\
  (forall t p, codes c !! t = Some p -> forall m, safe' m (φ t) p ended) /\
  (forall t, codes c !! t = None -> φ t = SOut).

Definition latch_ok (n : nat) (c : latch_config) : Prop := exists φ, latch_at φ n c.

Definition places_initial (t : nat) : place := if decide (t = 0) then WOut else SOut.

Lemma latch_initial_at n : latch_at places_initial n (latch_initial n).
Proof.
  unfold places_initial. split; [|split; [|split]].
  - split; simpl; try done.
    + intros t. case_decide; split; done.
    + intros t b. by case_decide.
    + intros t. by case_decide.
    + intros t Hin. by apply not_elem_of_nil in Hin.
    + lia.
    + intros t. case_decide; simpl; tauto.
  - simpl. by rewrite length_replicate.
  - intros [|t] p Hp m; simpl in Hp; simplify_eq.
    + apply latch_wait_spec.
    + apply lookup_replicate in Hp as [-> _]. apply latch_signal_spec.
  - by intros [|t].
Qed.

(** One thread's code is replaced by a safe one. *)
Lemma codes_insert φ φ' (ths : list (comp Σ unit)) t p :
  is_Some (ths !! t) -> (forall t', t' <> t -> φ' t' = φ t') -> (forall m, safe' m (φ' t) p ended) ->
  (forall t p, ths !! t = Some p -> forall m, safe' m (φ t) p ended) ->
  (forall t, ths !! t = None -> φ t = SOut) ->
  (forall t' p', <[t:=p]> ths !! t' = Some p' -> forall m, safe' m (φ' t') p' ended) /\
  (forall t', <[t:=p]> ths !! t' = None -> φ' t' = SOut).
Proof.
  intros Hsome Hsame Hp Hc Hn. apply lookup_lt_is_Some in Hsome as Hlt. split; intros t'.
  - destruct (decide (t' = t)) as [->|Hne].
    + rewrite list_lookup_insert_eq by done. by intros p' [= <-].
    + rewrite list_lookup_insert_ne, Hsame by done. apply Hc.
  - destruct (decide (t' = t)) as [->|Hne]; [by rewrite list_lookup_insert_eq|].
    rewrite list_lookup_insert_ne, Hsame by done. apply Hn.
Qed.

(** The write of [signalled], by a thread at [l]. *)
Definition writes_at (l l' : place) : Prop := l = SHeld /\ l' = SSet.

(** One thread moves: either it sets [signalled], or [signalled] stays and no
    signaller passes its write. *)
Lemma latch_run_at φ n c t c' :
  latch_at φ n c -> latch_step_thread t c = Some c' ->
  exists φ' p p', codes c !! t = Some p /\ (forall o, next p <> HRet o) /\
    codes c' = <[t := p']> (codes c) /\ latch_at φ' n c' /\ (forall t', t' <> t -> φ' t' = φ t') /\
    (writes_at (φ t) (φ' t) /\ latch_signalled (the_latch c') = true \/
     latch_signalled (the_latch c') = latch_signalled (the_latch c) /\
     (t <> 0 -> has_set (φ' t) <-> has_set (φ t))).
Proof.
  intros (Hinv & Hlen & Hc & Hout) Hst.
  unfold latch_step_thread in Hst. destruct (codes c !! t) as [p|] eqn:Hp; [|done].
  assert (Hsome : is_Some (codes c !! t)) by eauto.
  pose proof (Hc t p Hp) as Hsafe.
  destruct (next p) as [o|e k|p'] eqn:Hn; [done| |]; simplify_eq.
  - destruct (latch_handle t (the_latch c) e) as [[r s]|] eqn:Hh; simplify_eq.
    set (φ' := fun t' => if decide (t' = t) then latch_move (φ t) e r else φ t').
    assert (Hsame : forall t', t' <> t -> φ' t' = φ t') by (intros t' Hne; unfold φ'; by rewrite decide_False).
    assert (Hφ' : φ' t = latch_move (φ t) e r) by (unfold φ'; by rewrite decide_True).
    assert (Hmay : latch_may (φ t) e) by (specialize (Hsafe 1); simpl in Hsafe; rewrite Hn in Hsafe; apply Hsafe).
    exists φ', p, (k r). split; [done|split; [by rewrite Hn|split; [done|split; [|split; [done|]]]]].
    + split; [by eapply latch_handle_inv|split; [by simpl; rewrite length_insert|]].
      apply (codes_insert φ); try done. intros m. rewrite Hφ'.
      specialize (Hsafe (S m)). simpl in Hsafe. rewrite Hn in Hsafe. by apply Hsafe.
    + rewrite Hφ'. destruct (li_role _ _ Hinv t) as [Hrole _]. revert Hh Hmay Hrole. unfold writes_at.
      destruct (the_latch c) as [owner sg q]. simpl.
      destruct e as [| | |? []| | |]; simpl; intros Hh Hmay Hrole; repeat case_decide; simplify_eq; simpl;
        destruct (φ t) as [| |[]| | | | | | |]; simpl in *; try done; try (right; split; [done|intros; tauto || done]).
      by left.
  - exists φ, p, p'. split; [done|split; [by rewrite Hn|split; [done|split; [|split; [done|by right]]]]].
    split; [done|split; [by simpl; rewrite length_insert|]]. apply (codes_insert φ); try done. intros m.
    specialize (Hsafe (S m)). simpl in Hsafe. by rewrite Hn in Hsafe.
Qed.

(** A spurious wakeup moves nobody. *)
Lemma latch_spurious_at φ n c t : latch_at φ n c ->
  latch_at φ n (MkLatchConfig (MkLatch (latch_owner (the_latch c)) (latch_signalled (the_latch c))
    (filter (fun t' => t' <> t) (latch_queue (the_latch c)))) (codes c)).
Proof.
  intros ([Ho Hseen Hset Hq Hw H1 Hrole] & Hc). split; [|done]. split; simpl; try done.
  - intros t' Hin. apply list_elem_of_filter in Hin as [_ Hin]. by apply Hq.
  - intros Hne. apply Hw. intros Heq. by rewrite Heq in Hne.
  - etransitivity; [apply length_filter|done].
Qed.

Lemma latch_step_ok n c c' : latch_ok n c -> latch_step c c' -> latch_ok n c'.
Proof.
  intros [φ Hat] Hst. destruct Hst as [t c c' Hst|t c].
  - destruct (latch_run_at _ _ _ _ _ Hat Hst) as (φ' & p & p' & _ & _ & _ & Hat' & _). by exists φ'.
  - exists φ. by apply latch_spurious_at.
Qed.

Lemma latch_reachable_ok n c : latch_reachable n c -> latch_ok n c.
Proof.
  intros Hr. eapply (rtc_ind_r (latch_ok n)); [exists places_initial; apply latch_initial_at| |exact Hr].
  intros c1 c2 _ Hst Hok. by eapply latch_step_ok.
Qed.

(** A thread that cannot move has returned, waits for the mutex, or is the
    waiter in the queue. *)
Lemma latch_stuck_thread φ c t p :
  latch_inv φ (the_latch c) -> (forall m, safe' m (φ t) p ended) -> codes c !! t = Some p ->
  latch_step_thread t c = None ->
  returned p /\ (φ t = WDone \/ φ t = SDone) \/
  ~ holding (φ t) /\ φ t <> SDone /\
    (latch_owner (the_latch c) <> None \/ φ t = WWaiting /\ t ∈ latch_queue (the_latch c)).
Proof.
  intros Hinv Hsafe Hp Hst. unfold latch_step_thread in Hst. rewrite Hp in Hst.
  specialize (Hsafe 1). simpl in Hsafe. unfold returned.
  destruct (next p) as [o|e k|p']; [by destruct Hsafe as [-> ?]; left| |done].
  destruct Hsafe as [Hmay _]. right.
  destruct (latch_handle t (the_latch c) e) as [[r s]|] eqn:Hh; [done|]. clear Hst.
  assert (Howner : holding (φ t) -> latch_owner (the_latch c) = Some t) by apply (li_owner _ _ Hinv).
  destruct (the_latch c) as [owner sg q]. simpl in *.
  destruct (φ t) as [| |[]| | | | | | |], e as [| | |? []| | |]; simpl in *; try done;
    repeat case_decide; try done; try (exfalso; auto; fail); try (split; [tauto|split; [done|tauto]]).
  split; [tauto|split; [done|]]. destruct (decide (owner = None)) as [->|]; [|by left].
  right. split; [done|]. destruct (decide (t ∈ q)); tauto.
Qed.

(** In a stuck configuration the mutex is free, and every thread has returned
    unless it is the waiter of a latch that nobody has set. *)
Lemma latch_stuck_ends φ n c t p :
  latch_at φ n c -> latch_stuck c -> codes c !! t = Some p ->
  returned p \/ t = 0 /\ latch_signalled (the_latch c) = false.
Proof.
  intros (Hinv & Hlen & Hc & Hout) Hstuck Hp.
  assert (Hth : forall t p, codes c !! t = Some p -> _) by
    (intros t' p' Hp'; exact (latch_stuck_thread φ c t' p' Hinv (Hc t' p' Hp') Hp' (Hstuck t'))).
  assert (Hnohold : forall t, ~ holding (φ t)).
  { intros t' Hh. destruct (codes c !! t') as [p'|] eqn:Hp'; [|by rewrite Hout in Hh].
    destruct (Hth t' p' Hp') as [[_ [Hd|Hd]]|[Hno _]]; [by rewrite Hd in Hh..|done]. }
  assert (Hfree : latch_owner (the_latch c) = None).
  { destruct (latch_owner (the_latch c)) as [t'|] eqn:Ho; [|done].
    apply (li_owner _ _ Hinv) in Ho. by apply Hnohold in Ho. }
  destruct (Hth t p Hp) as [[? _]|(_ & _ & [?|[Hw Hin]])]; [by left|done|right].
  split; [by apply (li_queue _ _ Hinv)|]. destruct (latch_signalled (the_latch c)) eqn:Hset; [|done].
  destruct (li_wake _ _ Hinv) as [t' Ht']; [intros Hq; rewrite Hq in Hin; by apply not_elem_of_nil in Hin|done|].
  destruct (Hnohold t'). by rewrite Ht'.
Qed.
End Invariant.

(** ** Properties *)

(** C7: the latch loses no signal: one thread in [BlockingConditionWaiter::wait]
    and any positive number of threads in [signal] never get stuck, not even
    without spurious wakeups, before all of them have returned; a signal that
    comes before the waiter parks is not lost either. *)
Theorem latch_never_loses_a_signal n c :
  0 < n -> latch_reachable n c -> latch_stuck c -> Forall returned (codes c).
Proof.
  intros Hn Hr Hstuck. destruct (latch_reachable_ok n c Hr) as [φ Hat]. pose proof Hat as (Hinv & Hlen & Hc & _).
  destruct (lookup_lt_is_Some_2 (codes c) 1) as [p1 Hp1]; [lia|].
  assert (Hset : latch_signalled (the_latch c) = true).
  { destruct (latch_stuck_ends φ n c 1 p1 Hat Hstuck Hp1) as [Hret|[? _]]; [|done].
    specialize (Hc 1 p1 Hp1 1). simpl in Hc. rewrite Hret in Hc. destruct Hc as [_ [Hd|Hd]];
      apply (li_set _ _ Hinv 1); by rewrite Hd. }
  apply Forall_lookup. intros t p Hp.
  destruct (latch_stuck_ends φ n c t p Hat Hstuck Hp) as [?|[_ ?]]; [done|congruence].
Qed.

(** C40: [wait] returns only after a signal, spurious wakeups notwithstanding. *)
Theorem latch_wait_needs_a_signal n c p :
  latch_reachable n c -> codes c !! 0 = Some p -> returned p ->
  latch_signalled (the_latch c) = true.
Proof.
  intros Hr Hp Hret. destruct (latch_reachable_ok n c Hr) as (φ & Hinv & Hlen & Hc & Hout).
  specialize (Hc 0 p Hp 1). simpl in Hc. rewrite Hret in Hc. destruct Hc as [_ [Hd|Hd]];
    apply (li_set _ _ Hinv 0); by rewrite Hd.
Qed.

(** *** Refinement of the atomic latch *)
Section Atomic.
Context `{QubitClock} {T : Type} (value : T) (o : answers T).

(** The address of the latch. *)
Definition the_waiter : waiter_ref := 0.

(** A thread that runs [code] once. *)
Definition runs (code : comp (MonitorSig T) unit) : thread T := Running code (fun _ => false) [].

(** The machine of [World.v] with the waiter allocated: one thread in
    [BlockingWaiter.wait], [n] threads in [BlockingWaiter.signal]. *)
Definition atomic_initial (n : nat) : config T :=
  MkConfig (set_signalled (fresh_world value) {[the_waiter := false]} 1)
    (runs (BlockingWaiter.wait the_waiter) :: replicate n (runs (BlockingWaiter.signal the_waiter))).

(** Steps of these threads only: no timer wakes the waiter. *)
Definition atomic_step (a a' : config T) : Prop := exists t, step_thread t o a = Some a'.

Definition atomic_reachable (n : nat) : config T -> Prop := rtc atomic_step (atomic_initial n).

(** The same latch, and the same threads have returned. *)
Definition latch_represents (c : latch_config) (a : config T) : Prop :=
  signalled (shared a) !! the_waiter = Some (latch_signalled (the_latch c)) /\
  Forall2 (fun p th => returned p <-> th = Finished (Returned tt)) (codes c) (threads a).

(** What is left of a call that has been answered. *)
Definition answered : prog (MonitorSig T) (outcome unit) := Bind (Ret tt) (fun r => Ret (Returned r)).

(** The atomic thread of the code [p] at [l]: a waiter calls when it returns, a
    signaller when it writes. *)
Definition atomic_thread (t : nat) (l : place) (p : comp Σ unit) : thread T :=
  match next p with
  | HRet _ => Finished (Returned tt)
  | _ =>
      if decide (t = 0) then runs (BlockingWaiter.wait the_waiter)
      else match l with
           | SSet | SNotified | SDone => runs answered
           | _ => runs (BlockingWaiter.signal the_waiter)
           end
  end.

Definition atomic_of (φ : nat -> place) (c : latch_config) : config T :=
  MkConfig (set_signalled (fresh_world value) {[the_waiter := latch_signalled (the_latch c)]} 1)
    (imap (fun t => atomic_thread t (φ t)) (codes c)).

Lemma ended_at φ n c t p x : latch_at φ n c -> codes c !! t = Some p -> next p = HRet x ->
  returned p /\ (t = 0 /\ φ t = WDone \/ t <> 0 /\ φ t = SDone).
Proof.
  intros (Hinv & _ & Hc & _) Hp Hn. specialize (Hc t p Hp 1). simpl in Hc. rewrite Hn in Hc.
  destruct Hc as [-> Hd]. split; [done|]. pose proof (li_role _ _ Hinv t) as Hrole.
  destruct Hd as [Hd|Hd]; rewrite Hd in Hrole; simpl in Hrole; [left|right]; tauto.
Qed.

Lemma atomic_of_represents φ n c : latch_at φ n c -> latch_represents c (atomic_of φ c).
Proof.
  intros Hat. split; [apply lookup_singleton_eq|].
  apply Forall2_same_length_lookup_2; [simpl; by rewrite length_imap|]. intros t p th Hp Hth.
  simpl in Hth. rewrite list_lookup_imap, Hp in Hth. injection Hth as <-. unfold returned, atomic_thread.
  destruct (next p) as [x|e k|p'] eqn:Hn.
  - destruct (ended_at _ _ _ _ _ _ Hat Hp Hn) as [Hret _]. unfold returned in Hret. by rewrite <- Hn.
  - split; [done|]. unfold runs. repeat case_match; done.
  - split; [done|]. unfold runs. repeat case_match; done.
Qed.

Lemma atomic_of_stuck φ n c : latch_at φ n c -> latch_stuck c -> stuck (atomic_of φ c).
Proof.
  intros Hat Hst t o'. unfold step_thread. simpl. rewrite list_lookup_imap.
  destruct (codes c !! t) as [p|] eqn:Hp; [simpl|done]. unfold atomic_thread.
  destruct (latch_stuck_ends _ _ _ _ _ Hat Hst Hp) as [Hret|[-> Hset]]; [by rewrite Hret|].
  rewrite Hset. destruct (next p); [done|..]; reflexivity.
Qed.

(** A thread that is back from its call finishes. *)
Lemma answered_finishes w ths t : ths !! t = Some (runs answered) ->
  atomic_step (MkConfig w ths) (MkConfig w (<[t := Finished (Returned tt)]> ths)).
Proof. intros Ht. exists t. unfold step_thread. simpl. by rewrite Ht. Qed.

Lemma atomic_of_run φ φ' n c t (p p' : comp Σ unit) c' :
  latch_at φ n c -> latch_at φ' n c' -> codes c !! t = Some p -> (forall x, next p <> HRet x) ->
  codes c' = <[t := p']> (codes c) -> (forall t', t' <> t -> φ' t' = φ t') ->
  (writes_at (φ t) (φ' t) /\ latch_signalled (the_latch c') = true \/
   latch_signalled (the_latch c') = latch_signalled (the_latch c) /\
   (t <> 0 -> has_set (φ' t) <-> has_set (φ t))) ->
  rtc atomic_step (atomic_of φ c) (atomic_of φ' c').
Proof.
  intros Hat Hat' Hp Hrun Hcodes Hsame Hcase.
  assert (Hp' : codes c' !! t = Some p') by (rewrite Hcodes; apply list_lookup_insert_eq; by eapply lookup_lt_Some).
  pose proof Hat as (Hinv & _). pose proof Hat' as (Hinv' & _).
  set (ths := imap (fun t => atomic_thread t (φ t)) (codes c)).
  assert (Hths : imap (fun t => atomic_thread t (φ' t)) (codes c') = <[t := atomic_thread t (φ' t) p']> ths).
  { rewrite Hcodes. apply list_eq. intros i. destruct (decide (i = t)) as [->|Hne].
    - rewrite list_lookup_imap, list_lookup_insert_eq, list_lookup_insert_eq; [done| |by eapply lookup_lt_Some].
      unfold ths. rewrite length_imap. by eapply lookup_lt_Some.
    - rewrite list_lookup_imap, !list_lookup_insert_ne by done. unfold ths. rewrite list_lookup_imap.
      destruct (codes c !! i); simpl; [by rewrite Hsame|done]. }
  assert (Ht : ths !! t = Some (atomic_thread t (φ t) p)) by (unfold ths; by rewrite list_lookup_imap, Hp).
  assert (Hbefore : atomic_thread t (φ t) p =
    if decide (t = 0) then runs (BlockingWaiter.wait the_waiter)
    else match φ t with SSet | SNotified | SDone => runs answered | _ => runs (BlockingWaiter.signal the_waiter) end).
  { unfold atomic_thread. destruct (next p) as [x|e k|q]; [by destruct (Hrun x)|done|done]. }
  unfold atomic_of. rewrite Hths. fold ths. rewrite Hbefore in Ht. clear Hbefore Hths.
  pose proof (li_role _ _ Hinv t) as Hrole. pose proof (li_role _ _ Hinv' t) as Hrole'.
  destruct Hcase as [[[Hf Hf'] Hset]|[Hflag Hplace]].
  - rewrite Hf in *. rewrite decide_False in Ht by (intros Ht0; by apply Hrole in Ht0).
    apply rtc_once. exists t. unfold step_thread, atomic_thread. simpl. rewrite Ht. simpl. rewrite Hset, insert_singleton_eq.
    destruct (next p') as [x|e k|q] eqn:Hn.
    { destruct (ended_at _ _ _ _ _ _ Hat' Hp' Hn) as [_ [[_ Hd]|[_ Hd]]]; congruence. }
    all: rewrite decide_False, Hf' by (intros Ht0; by apply Hrole in Ht0); done.
  - assert (Hstay : (forall x, next p' <> HRet x) -> ths !! t = Some (atomic_thread t (φ' t) p')).
    { intros Hrun'. rewrite Ht. f_equal. unfold atomic_thread.
      destruct (next p') as [x|e k|q]; [by destruct (Hrun' x)|..];
        (destruct (decide (t = 0)) as [->|Hne]; [done|]; specialize (Hplace Hne);
         destruct (φ t), (φ' t); simpl in *; (done || tauto)). }
    rewrite Hflag. destruct (next p') as [x|e k|q] eqn:Hn.
    1: destruct (ended_at _ _ _ _ _ _ Hat' Hp' Hn) as [_ [[-> Hd]|[Hne Hd]]].
    + assert (Hset : latch_signalled (the_latch c) = true) by (rewrite <- Hflag; apply (li_set _ _ Hinv' 0); by rewrite Hd).
      rewrite decide_True in Ht by done. unfold atomic_thread. rewrite Hn, Hset.
      rewrite <- (list_insert_insert_eq ths 0 (Finished (Returned tt)) (runs answered)).
      eapply rtc_l; [|apply rtc_once, answered_finishes, list_lookup_insert_eq; by eapply lookup_lt_Some].
      exists 0. unfold step_thread. simpl. rewrite Ht. simpl. done.
    + rewrite decide_False in Ht by done. unfold atomic_thread. rewrite Hn. apply rtc_once, answered_finishes.
      rewrite Ht. f_equal. destruct (Hplace Hne) as [Hhas _]. rewrite Hd in Hhas. specialize (Hhas I).
      by destruct (φ t) eqn:Hφ; simpl in *; try done; try (exfalso; tauto).
    + rewrite list_insert_id by by apply Hstay. done.
    + rewrite list_insert_id by by apply Hstay. done.
Qed.

Lemma reachable_atomic n c : latch_reachable n c -> exists φ, latch_at φ n c /\ atomic_reachable n (atomic_of φ c).
Proof.
  intros Hr. eapply (rtc_ind_r (fun c => exists φ, latch_at φ n c /\ atomic_reachable n (atomic_of φ c)));
    [|  |exact Hr].
  - exists places_initial. split; [apply latch_initial_at|]. unfold atomic_reachable, atomic_of, atomic_initial.
    match goal with |- rtc _ (MkConfig _ ?l) (MkConfig _ ?l') => assert (l' = l) as ->; [|reflexivity] end.
    simpl. f_equal. apply list_eq. intros i. rewrite list_lookup_imap. destruct (decide (i < n)).
    + by rewrite !lookup_replicate_2 by done.
    + by rewrite !lookup_ge_None_2 by (rewrite length_replicate; lia).
  - intros c1 c2 _ Hst (φ & Hat & Ha). destruct Hst as [t c1 c2 Hst|t c1].
    + destruct (latch_run_at _ _ _ _ _ Hat Hst) as (φ' & p & p' & Hp & Hrun & Hcodes & Hat' & Hsame & Hcase).
      exists φ'. split; [done|]. exact (transitivity (R := rtc atomic_step) Ha ltac:(by eapply atomic_of_run)).
    + exists φ. split; [by apply latch_spurious_at|exact Ha].
Qed.

(** C12: refinement. What any number of threads do in [wait] and [signal] over the
    mutex and the condition variable, spurious wakeups included, is what they do
    if each call of [BlockingWaiter.wait] and [BlockingWaiter.signal] is one
    atomic step: for every reachable configuration there is one of the atomic
    machine, reached by the steps of the same threads alone, with the same latch
    and in which exactly the same threads have returned. And if no thread can move
    in the first, not even after a lost signal, none can in the second. *)
Theorem latch_refines_atomic n c :
  latch_reachable n c ->
  exists a, atomic_reachable n a /\ latch_represents c a /\ (latch_stuck c -> stuck a).
Proof.
  intros Hr. destruct (reachable_atomic n c Hr) as (φ & Hat & Ha). exists (atomic_of φ c).
  split; [done|split; [by eapply atomic_of_represents|by eapply atomic_of_stuck]].
Qed.
End Atomic.

(** ** A concrete run: the waiter parks, then a signaller comes *)
Fixpoint latch_schedule (ts : list nat) (c : latch_config) : latch_config :=
  match ts with
  | [] => c
  | t :: ts => latch_schedule ts (default c (latch_step_thread t c))
  end.

Lemma latch_schedule_steps ts c : rtc latch_step c (latch_schedule ts c).
Proof.
  revert c. induction ts as [|t ts IH]; intros c; simpl; [apply rtc_refl|].
  destruct (latch_step_thread t c) eqn:Hst; simpl; [|apply IH].
  eapply rtc_l; [by eapply latch_run|apply IH].
Qed.

Definition latch_done : latch_config :=
  latch_schedule (repeat 0 5 ++ repeat 1 6 ++ repeat 0 8) (latch_initial 1).

Lemma latch_never_loses_a_signal_witness : latch_stuck latch_done /\ Forall returned (codes latch_done).
Proof.
  assert (Hstuck : latch_stuck latch_done) by (intros [|[|t]]; reflexivity).
  split; [exact Hstuck|]. apply (latch_never_loses_a_signal 1); [lia|apply latch_schedule_steps|exact Hstuck].
Defined.

Lemma latch_wait_needs_a_signal_witness : latch_signalled (the_latch latch_done) = true.
Proof.
  apply (latch_wait_needs_a_signal 1 latch_done (List.hd latch_wait (codes latch_done)));
    [apply latch_schedule_steps|apply lookup_hd; vm_compute; lia|vm_compute; reflexivity].
Defined.

(** All have returned in the atomic machine too, and it is stuck. *)
Lemma latch_refines_atomic_witness :
  exists a : @World.config test_clock bool,
    atomic_reachable (H := test_clock) true (test_answers false 0) 1 a /\ latch_represents latch_done a /\ stuck a.
Proof.
  destruct (latch_refines_atomic (H := test_clock) true (test_answers false 0) 1 latch_done
    (latch_schedule_steps _ _)) as (a & Ha & Hrep & Hstuck).
  exists a. split; [exact Ha|split; [exact Hrep|]]. apply Hstuck. intros [|[|t]]; reflexivity.
Defined.
