(* ===== verification/CriticalSections.v ===== *)
(** * Reads, writes and consuming notifications, call by call

    The complete traces of the short operations of [StdMonitor], panicking
    closures included, and their effect on the shared state: what a panic leaves
    behind, when it poisons, and who is notified. *)
From S2P Require Import Prelude Program WaiterRegistry WaitResult Primitives BlockingWaiter GuardWait ConditionWait StdMonitor World MonitorTraits.

Section Traces.
Context `{QubitClock} {T R : Type} (self : StdMonitor).
Abbreviation Σ := (MonitorSig T).
Abbreviation Did e r := (Ev (Σ := MonitorSig T) e r).

(** One call of an execution: analysed in [H], or performed. *)
Ltac call_in H r := rewrite exec_step in H; cbn in H; let tr := fresh "tr" in destruct H as (r & tr & -> & H).
Ltac ret_in H := rewrite exec_step in H; cbn in H; destruct H as [-> <-].
Ltac do_call := eapply exec_vis; [reflexivity|].
Ltac do_ret := apply exec_ret; reflexivity.

(** The calls of a critical section that read [s] and left [s']. *)
Definition section_calls (lock : LockResult MutexGuard) (s s' : T) (panicking : bool) : list (item Σ) :=
  [Did LockState lock; Did (GetState TheGuard) s; Did (SetState TheGuard s') tt;
   Did (UnlockState TheGuard panicking) tt].

(** The calls of a critical section that reads [s] and writes nothing. *)
Definition read_calls (lock : LockResult MutexGuard) (s : T) (panicking : bool) : list (item Σ) :=
  [Did LockState lock; Did (GetState TheGuard) s; Did (UnlockState TheGuard panicking) tt].

(** What a notification calls once it has selected [ls]. *)
Definition signals (ls : list waiter_ref) : list (item Σ) := map (fun l => Did (SignalWaiter l) tt) ls.

Lemma exec_op (e : monitor_op T) tr (o : outcome (monitor_resp e)) :
  exec (call (Σ := Σ) e) tr o <-> exists r, tr = [Did e r] /\ o = Returned r.
Proof. exact (exec_call (Σ := Σ) e tr o). Qed.

(** ** Notification *)
Lemma wake_exact l tr o : exec (wake (T := T) l) tr o <-> tr = signals [l] /\ o = Returned tt.
Proof.
  split.
  - by intros ([] & -> & ->)%(exec_op (SignalWaiter l)).
  - intros [-> ->]. apply (exec_op (SignalWaiter l)). by exists tt.
Qed.

Lemma wake_each_exact ls tr o : exec (wake_each (T := T) ls) tr o <-> tr = signals ls /\ o = Returned tt.
Proof.
  revert tr. induction ls as [|l ls IH]; intros tr; simpl; [apply exec_return|].
  rewrite exec_cbind. split.
  - intros [(c & -> & He)|(tr1 & tr2 & a & -> & H1 & H2)].
    + apply wake_exact in He as [_ ?]. done.
    + apply wake_exact in H1 as [-> _]. apply IH in H2 as [-> ->]. done.
  - intros [-> ->]. right. exists (signals [l]), (signals ls), tt.
    split; [done|split; [by apply wake_exact|by apply IH]].
Qed.

Lemma notify_all_exact tr o :
  exec (notify_all self) tr o <->
  exists ls, tr = Did RegistryTakeAll ls :: signals ls /\ o = Returned tt.
Proof.
  unfold notify_all, BlockingWaiter.notify_all. rewrite exec_cbind. split.
  - intros [(c & -> & He)|(tr1 & tr2 & ls & -> & H1 & H2)];
      [by apply (exec_op RegistryTakeAll) in He as (r & _ & ?)|].
    apply (exec_op RegistryTakeAll) in H1 as (r & -> & [= ->]). apply wake_each_exact in H2 as [-> ->].
    by exists r.
  - intros (ls & -> & ->). right. exists [Did RegistryTakeAll ls], (signals ls), ls.
    split; [done|split; [|by apply wake_each_exact]]. apply (exec_op RegistryTakeAll). by exists ls.
Qed.

Lemma notify_one_exact tr o :
  exec (notify_one self) tr o <->
  exists l, tr = Did RegistryTakeOne l :: signals (option_list l) /\ o = Returned tt.
Proof.
  unfold notify_one, BlockingWaiter.notify_one. rewrite exec_cbind. split.
  - intros [(c & -> & He)|(tr1 & tr2 & l & -> & H1 & H2)];
      [by apply (exec_op RegistryTakeOne) in He as (r & _ & ?)|].
    apply (exec_op RegistryTakeOne) in H1 as (r & -> & [= ->]). exists r. destruct r as [l|].
    + by apply wake_exact in H2 as [-> ->].
    + by apply exec_return in H2 as [-> ->].
  - intros (l & -> & ->). right. exists [Did RegistryTakeOne l], (signals (option_list l)), l.
    split; [done|split; [apply (exec_op RegistryTakeOne); by exists l|]].
    destruct l; [by apply wake_exact|by apply exec_return].
Qed.

(** ** Writes and reads *)
Lemma with_write_calls (f : T -> T * outcome R) tr o :
  exec (with_write self (action f)) tr o <->
  exists lk s, tr = section_calls lk s (f s).1 (is_unwinding (f s).2) /\ o = (f s).2.
Proof.
  split.
  - intros He. call_in He lk. exists lk. destruct lk as [[]|[[]]]; call_in He s; exists s;
      call_in He u; destruct u, (f s) as [s' [r|c]] eqn:Hf; call_in He u; destruct u; ret_in He; done.
  - intros (lk & s & -> & ->). destruct lk as [[]|[[]]];
      do_call; do_call; do_call; cbn; destruct (f s).2; do_call; do_ret.
Qed.

(** A write followed by a notification that runs [calls]. *)
Lemma with_write_then (f : T -> T * outcome R) (notify : comp Σ unit) (selected : list (item Σ) -> Prop) tr o :
  (forall tr o, exec notify tr o <-> selected tr /\ o = Returned tt) ->
  exec (result ← with_write self (action f); _ ← notify; ret result) tr o <->
  exists lk s, o = (f s).2 /\
    match o with
    | Returned _ => exists tr', selected tr' /\ tr = section_calls lk s (f s).1 false ++ tr'
    | Unwinding _ => tr = section_calls lk s (f s).1 true
    end.
Proof.
  intros Hn. rewrite exec_cbind. split.
  - intros [(c & -> & He)|(tr1 & tr2 & r & -> & H1 & H2)].
    + apply with_write_calls in He as (lk & s & -> & Ho). exists lk, s. by rewrite <- Ho.
    + apply with_write_calls in H1 as (lk & s & -> & Ho).
      apply exec_cbind in H2 as [(c & -> & He)|(tr3 & tr4 & [] & -> & H3 & H4)]; [by apply Hn in He as [_ ?]|].
      apply Hn in H3 as [Hsel _]. apply exec_return in H4 as [-> ->]. exists lk, s.
      rewrite <- Ho. split; [done|]. exists tr3. by rewrite app_nil_r.
  - intros (lk & s & -> & Ho). destruct (f s).2 as [r|c] eqn:Hf.
    + destruct Ho as (tr' & Hsel & ->). right. eexists _, tr', r. split; [done|split].
      * apply with_write_calls. exists lk, s. by rewrite Hf.
      * apply exec_cbind. right. exists tr', [], tt. rewrite app_nil_r.
        split; [done|split; [by apply Hn|by apply exec_return]].
    + left. exists c. split; [done|]. apply with_write_calls. exists lk, s. by rewrite Hf, Ho.
Qed.

(** C37: [with_write] locks (recovering from poison), runs the closure once on
    the current state, stores what it left, also when it panics, and unlocks;
    the unlock poisons exactly if the closure panicked; its outcome is the
    closure's. These are all its executions. *)
Theorem with_write_exact (f : T -> T * outcome R) tr o :
  exec (with_write self (action f)) tr o <->
  exists lk s, tr = section_calls lk s (f s).1 (is_unwinding (f s).2) /\ o = (f s).2.
Proof. apply with_write_calls. Qed.

(** C39: [with_read] locks, lends the current state to the closure, writes nothing
    and unlocks; a panicking closure poisons. *)
Theorem with_read_exact (f : T -> outcome R) tr o :
  exec (with_read self (fun s => Ret (f s))) tr o <->
  exists lk s, tr = read_calls lk s (is_unwinding (f s)) /\ o = f s.
Proof.
  split.
  - intros He. call_in He lk. exists lk. destruct lk as [[]|[[]]]; call_in He s; exists s;
      rewrite exec_step in He; cbn in He; destruct (f s) as [r|c];
      destruct He as ([] & tr' & -> & He); ret_in He; done.
  - intros (lk & s & -> & ->). destruct lk as [[]|[[]]];
      do_call; do_call; apply exec_step; cbn; destruct (f s); (exists tt, []; split; [done|do_ret]).
Qed.

(** C24: [with_write_notify_all]: a critical section, then, the lock released,
    one selection of all registered waiters and one signal to each, in order.
    If the closure panics, the partial update is stored, the unlock poisons and
    nobody is notified. *)
Theorem with_write_notify_all_exact (f : T -> T * outcome R) tr o :
  exec (with_write_notify_all self (action f)) tr o <->
  exists lk s, o = (f s).2 /\
    match o with
    | Returned _ => exists ls, tr = section_calls lk s (f s).1 false ++ Did RegistryTakeAll ls :: signals ls
    | Unwinding _ => tr = section_calls lk s (f s).1 true
    end.
Proof.
  rewrite <- (std_write_notify_same self (action f) (notify_all self) guard_notify_all ltac:(done) tr o).
  rewrite (with_write_then f _ (fun tr => exists ls, tr = Did RegistryTakeAll ls :: signals ls)).
  - split; intros (lk & s & Ho & Hx); exists lk, s; (split; [exact Ho|]); destruct o; try exact Hx.
    + destruct Hx as (? & (ls & ->) & ->). eauto.
    + destruct Hx as (ls & ->). eauto.
  - intros tr' o'. rewrite notify_all_exact. split; [intros (ls & -> & ->); eauto|intros ((ls & ->) & ->); eauto].
Qed.

(** C38: [with_write_notify_one]: likewise with one selection, which signals at
    most one waiter. *)
Theorem with_write_notify_one_exact (f : T -> T * outcome R) tr o :
  exec (with_write_notify_one self (action f)) tr o <->
  exists lk s, o = (f s).2 /\
    match o with
    | Returned _ => exists l, tr = section_calls lk s (f s).1 false ++
                                   Did RegistryTakeOne l :: signals (option_list l)
    | Unwinding _ => tr = section_calls lk s (f s).1 true
    end.
Proof.
  rewrite <- (std_write_notify_same self (action f) (notify_one self) guard_notify_one ltac:(done) tr o).
  rewrite (with_write_then f _ (fun tr => exists l, tr = Did RegistryTakeOne l :: signals (option_list l))).
  - split; intros (lk & s & Ho & Hx); exists lk, s; (split; [exact Ho|]); destruct o; try exact Hx.
    + destruct Hx as (? & (ls & ->) & ->). eauto.
    + destruct Hx as (ls & ->). eauto.
  - intros tr' o'. rewrite notify_one_exact. split; [intros (ls & -> & ->); eauto|intros ((ls & ->) & ->); eauto].
Qed.
End Traces.

(** ** Effects on the shared state *)
Section Effects.
Context `{QubitClock} {T R : Type} (self : StdMonitor) (t : nat) (o : answers T).
Abbreviation Σ := (MonitorSig T).

(** Thread [t] runs [p] alone, for at most [n] steps. *)
Fixpoint solo {A} (n : nat) (w : world T) (p : prog Σ A) : option (world T * A) :=
  match n with
  | 0 => None
  | S n =>
      match next p with
      | HRet a => Some (w, a)
      | HTau p' => solo n w p'
      | HVis e k =>
          match handle t w o e with
          | Some (r, w') => solo n w' (k r)
          | None => None
          end
      end
  end.

(** The world after a critical section that left [s]. *)
Definition after_section (w : world T) (s : T) (panicked : bool) : world T :=
  set_lock (set_value w s) None (state_poisoned w || panicked).

Lemma solo_with_write (f : T -> T * outcome R) w :
  state_owner w = None ->
  solo 5 w (with_write self (action f)) =
    Some (after_section w (f (state_value w)).1 (is_unwinding (f (state_value w)).2),
          (f (state_value w)).2).
Proof.
  destruct w as [v ow p reg sg nw]. simpl. intros ->. unfold after_section. cbn.
  destruct p; cbn; repeat (rewrite decide_True by done; cbn); destruct (f v) as [s' [r|c]]; cbn;
    repeat (rewrite decide_True by done; cbn); done.
Qed.

Definition signal_each (w : world T) (ls : list waiter_ref) : world T :=
  set_signalled w (foldl (fun m l => <[l := true]> m) (signalled w) ls) (next_waiter w).

(** Runs to completion. *)
Definition runs {A} (w : world T) (p : prog Σ A) (w' : world T) (a : A) : Prop :=
  exists n, solo n w p = Some (w', a).

Lemma runs_bind {A B} w w1 w2 (p : prog Σ A) a (k : A -> prog Σ B) b :
  runs w p w1 a -> runs w1 (k a) w2 b -> runs w (Bind p k) w2 b.
Proof.
  intros [n Hp] [m Hk]. revert w p Hp. induction n as [|n IH]; intros w p Hp; [done|].
  simpl in Hp. destruct (next p) as [c|e k'|p'] eqn:Hn.
  - simplify_eq. destruct m as [|m]; [done|]. exists (S m). simpl in *. by rewrite Hn.
  - destruct (handle t w o e) as [[r w']|] eqn:Hh; [|done].
    destruct (IH _ _ Hp) as [j Hj]. exists (S j). simpl. by rewrite Hn, Hh.
  - destruct (IH _ _ Hp) as [j Hj]. exists (S j). simpl. by rewrite Hn.
Qed.

Lemma runs_call w (e : monitor_op T) r w' :
  handle t w o e = Some (r, w') -> runs w (call (Σ := Σ) e) w' (Returned r).
Proof. intros Hh. exists 2. cbn [solo call next]. by rewrite Hh. Qed.

Lemma runs_wake_each ls w : runs w (wake_each ls) (signal_each w ls) (Returned tt).
Proof.
  revert w. induction ls as [|l ls IH]; intros w; [exists 1; by destruct w|].
  eapply runs_bind; [exact (runs_call w (SignalWaiter l) tt _ eq_refl)|]. exact (IH _).
Qed.

Lemma signal_each_lookup (ls : list waiter_ref) (m : gmap waiter_ref bool) l :
  foldl (fun m l => <[l := true]> m) m ls !! l = if decide (l ∈ ls) then Some true else m !! l.
Proof.
  revert m. induction ls as [|l' ls IH]; intros m; simpl; [done|]. rewrite IH.
  destruct (decide (l ∈ ls)), (decide (l ∈ l' :: ls)) as [Hin|Hin]; try done.
  - destruct Hin. by right.
  - apply elem_of_cons in Hin as [-> |?]; [by rewrite lookup_insert_eq|done].
  - rewrite lookup_insert_ne; [done|]. intros ->. destruct Hin. left.
Qed.

(** C32: [notify_all], run by a thread alone from any state of the monitor,
    completes, empties the registry, sets the latch of every registered waiter
    and changes nothing else: neither other latches nor the state nor its lock. *)
Theorem notify_all_effect w :
  exists w', runs w (notify_all self) w' (Returned tt) /\
    waiters (registry w') = [] /\ next_waiter_id (registry w') = next_waiter_id (registry w) /\
    state_value w' = state_value w /\ state_owner w' = state_owner w /\
    state_poisoned w' = state_poisoned w /\
    forall l, signalled w' !! l =
      if decide (l ∈ (waiters (registry w)).*2) then Some true else signalled w !! l.
Proof.
  eexists. split; [eapply runs_bind; [exact (runs_call w RegistryTakeAll _ _ eq_refl)|apply runs_wake_each]|].
  simpl. repeat (split; [done|]). intros l. apply signal_each_lookup.
Qed.

(** C33: [notify_one], run alone from any state, completes; it removes the oldest
    registration and sets exactly that waiter's latch, and with no registration
    it changes nothing, so a notification is never stored for a later waiter. *)
Theorem notify_one_effect w :
  exists w', runs w (notify_one self) w' (Returned tt) /\
    match waiters (registry w) with
    | [] => w' = w
    | (_, l) :: rest =>
        waiters (registry w') = rest /\ signalled w' = <[l := true]> (signalled w) /\
        state_value w' = state_value w /\ state_owner w' = state_owner w
    end.
Proof.
  destruct w as [v ow p [n [|[id l] rest]] sg nw] eqn:Hw; rewrite <- Hw.
  - exists w. split; [|by rewrite Hw]. apply (runs_bind w w w _ (Returned None)); [|by exists 1].
    apply (runs_call w RegistryTakeOne None w). by rewrite Hw.
  - eexists. split.
    + apply (runs_bind w (set_registry w (MkWaiterRegistry n rest)) _ _ (Returned (Some l))); [|exact (runs_call _ (SignalWaiter l) tt _ eq_refl)].
      apply (runs_call w RegistryTakeOne (Some l)). by rewrite Hw.
    + by rewrite Hw.
Qed.

(** C25: poisoning. A closure that panics in [with_write] leaves its partial
    update in place, the lock free and the monitor poisoned; [is_poisoned] says
    so, later reads still see the state and do not clear the flag, and
    [clear_poison] clears it and nothing else. *)
Theorem panic_poisons (f : T -> T * outcome R) (g : T -> R) w :
  state_owner w = None -> is_unwinding (f (state_value w)).2 = true ->
  let s := (f (state_value w)).1 in
  let w1 := after_section w s true in
  runs w (with_write self (action f)) w1 (f (state_value w)).2 /\
  state_value w1 = s /\ state_owner w1 = None /\
  runs w1 (is_poisoned self) w1 (Returned true) /\
  runs w1 (with_read self (fun s => Ret (Returned (g s)))) w1 (Returned (g s)) /\
  runs w1 (clear_poison self) (set_lock w1 None false) (Returned tt).
Proof.
  intros Ho Hf s w1. split; [|split; [done|split; [done|split; [|split]]]].
  - exists 5. rewrite solo_with_write by done. by rewrite Hf.
  - apply (runs_call w1 StateIsPoisoned). subst w1. simpl. by rewrite orb_true_r.
  - exists 4. subst w1. destruct w as [v ow p reg sg nw]. unfold after_section. simpl in *.
    rewrite orb_true_r. cbn. repeat (rewrite decide_True by done; cbn). done.
  - by apply (runs_call w1 StateClearPoison).
Qed.
End Effects.

(** A counter whose increment panics half way. *)
Section Run.
#[local] Existing Instance test_clock.

Definition half_way (n : nat) : nat * outcome nat := (n + 1, Unwinding (Panic "half way")).

Lemma panic_poisons_witness :
  let w := (with_timer 3 (tt : Timer)).2 in
  let w1 := after_section w 4 true in
  runs 0 (test_answers 0 0) w (with_write test_monitor (action half_way)) w1 (Unwinding (Panic "half way")) /\
  state_value w1 = 4 /\ state_owner w1 = None /\
  runs 0 (test_answers 0 0) w1 (is_poisoned test_monitor) w1 (Returned true) /\
  runs 0 (test_answers 0 0) w1 (with_read test_monitor (fun s => Ret (Returned (s * 2)))) w1 (Returned 8) /\
  runs 0 (test_answers 0 0) w1 (clear_poison test_monitor) (set_lock w1 None false) (Returned tt).
Proof.
  exact (panic_poisons test_monitor 0 (test_answers 0 0) half_way (fun s => s * 2)
    (with_timer 3 (tt : Timer)).2 eq_refl eq_refl).
Defined.
End Run.
