(* ===== verification/Total.v ===== *)
(** * Executions against an environment that may block

    Programs run against a [partial_oracle]: its answer to a call may depend on
    the whole history, and it may refuse a call for good, which blocks the
    program. A program without loops ends if every call it makes is answered; a
    loop ends if a measure of the history decreases. Which calls are made, and
    what the history looks like at the end, comes from the logic [safe] with the
    history as ghost state. *)
From S2P Require Import Prelude Program.

(** ** Programs without loops *)
Section LoopFree.
Context {Σ : Sig}.

(** ... that only make some [calls]. *)
Inductive loop_free (calls : Op Σ -> Prop) : forall {A}, prog Σ A -> Prop :=
| lf_ret {A} (a : A) : loop_free calls (Ret a)
| lf_call e : calls e -> loop_free calls (Call e)
| lf_bind {A B} (p : prog Σ A) (k : A -> prog Σ B) :
    loop_free calls p -> (forall a, loop_free calls (k a)) -> loop_free calls (Bind p k).

Definition any_call : Op Σ -> Prop := fun _ => True.

Lemma loop_free_any {calls A} (p : prog Σ A) : loop_free calls p -> loop_free any_call p.
Proof. by induction 1; constructor. Qed.
End LoopFree.

Section Total.
Context {Σ : Sig}.

Definition partial_oracle : Type := list (item Σ) -> forall e : Op Σ, option (Resp e).

Context (o : partial_oracle).

(** The result after at most [n] steps, unless a call is refused. *)
Fixpoint run_partial {A} (n : nat) (h : list (item Σ)) (p : prog Σ A) : option A :=
  match n with
  | 0 => None
  | S n =>
      match next p with
      | HRet a => Some a
      | HVis e k => match o h e with Some r => run_partial n (Ev e r :: h) (k r) | None => None end
      | HTau p' => run_partial n h p'
      end
  end.

(** The program ends with a result: it is never blocked for good. *)
Definition returns {A} (p : prog Σ A) : Prop := exists n, is_Some (run_partial n [] p).

(** [eval h p h' a]: from the history [h] (most recent call first), [p] returns
    [a] with the history [h']. *)
Inductive eval {A} : list (item Σ) -> prog Σ A -> list (item Σ) -> A -> Prop :=
| eval_ret h p a : next p = HRet a -> eval h p h a
| eval_vis h p e k r h' a :
    next p = HVis e k -> o h e = Some r -> eval (Ev e r :: h) (k r) h' a -> eval h p h' a
| eval_tau h p p' h' a : next p = HTau p' -> eval h p' h' a -> eval h p h' a.

Lemma eval_run {A} h (p : prog Σ A) h' a : eval h p h' a -> exists n, run_partial n h p = Some a.
Proof.
  induction 1 as [h p a Hn|h p e k r h' a Hn Ho _ [n IH]|h p p' h' a Hn _ [n IH]].
  - exists 1. simpl. by rewrite Hn.
  - exists (S n). simpl. by rewrite Hn, Ho.
  - exists (S n). simpl. by rewrite Hn.
Qed.

Lemma eval_next {A} h (p q : prog Σ A) h' a : next p = next q -> eval h p h' a -> eval h q h' a.
Proof.
  intros Hn He. destruct He as [h p a Hp|h p e k r h' a Hp Ho He|h p p' h' a Hp He]; rewrite Hn in Hp.
  - by apply eval_ret.
  - by eapply eval_vis.
  - by eapply eval_tau.
Qed.

Lemma eval_bind {A B} h (p : prog Σ A) h1 a (k : A -> prog Σ B) h2 b :
  eval h p h1 a -> eval h1 (k a) h2 b -> eval h (Bind p k) h2 b.
Proof.
  intros Hp Hk. induction Hp as [h p a Hn|h p e k' r h' a Hn Ho _ IH|h p p' h' a Hn _ IH].
  - eapply eval_next; [|exact Hk]. simpl. by rewrite Hn.
  - eapply eval_vis; [simpl; by rewrite Hn|exact Ho|auto].
  - eapply eval_tau; [simpl; by rewrite Hn|auto].
Qed.

Lemma eval_loop {S B} h (body : S -> prog Σ (S + B)) s h1 r h2 b :
  eval h (body s) h1 r -> eval h1 (loop_k body r) h2 b -> eval h (Loop body s) h2 b.
Proof.
  intros Hb Hk. pose proof (eval_bind _ _ _ _ (loop_k body) _ _ Hb Hk) as He.
  destruct (next (body s)) as [[s'|c]|e k|p] eqn:Hn.
  - eapply eval_tau; [simpl; by rewrite Hn|]. eapply eval_next; [|exact He]. simpl. by rewrite Hn.
  - eapply eval_next; [|exact He]. simpl. by rewrite Hn.
  - eapply eval_next; [|exact He]. simpl. by rewrite Hn.
  - eapply eval_next; [|exact He]. simpl. by rewrite Hn.
Qed.

(** ** The history as ghost state *)
Definition history_rules : rules Σ (list (item Σ)) :=
  {| allowed := fun h e => is_Some (o h e); assume := fun h e r => o h e = Some r;
     after := fun h e r => Ev e r :: h |}.

(** Safe for any number of steps. *)
Abbreviation holds h p Q := (forall n, safe history_rules n h p Q).

Lemma eval_safe {A} h (p : prog Σ A) h' a Q : eval h p h' a -> holds h p Q -> Q h' a.
Proof.
  induction 1 as [h p a Hn|h p e k r h' a Hn Ho _ IH|h p p' h' a Hn _ IH]; intros Hs.
  - specialize (Hs 1). simpl in Hs. by rewrite Hn in Hs.
  - apply IH. intros n. specialize (Hs (S n)). simpl in Hs. rewrite Hn in Hs. by apply Hs.
  - apply IH. intros n. specialize (Hs (S n)). simpl in Hs. by rewrite Hn in Hs.
Qed.

(** The first part of a safe sequence, up to where the second one is safe. *)
Lemma safe_first {A B} (k : A -> prog Σ B) Q n h (p : prog Σ A) :
  holds h (Bind p k) Q -> safe history_rules n h p (fun h' a => holds h' (k a) Q).
Proof.
  revert h p. induction n as [|n IH]; intros h p Hs; [done|]. simpl.
  destruct (next p) as [a|e k'|p'] eqn:Hn.
  - intros m. specialize (Hs m). destruct m as [|m]; [done|]. simpl in Hs. by rewrite Hn in Hs.
  - split; [specialize (Hs 1); simpl in Hs; rewrite Hn in Hs; by apply Hs|].
    intros r Hr. apply IH. intros m. specialize (Hs (S m)). simpl in Hs. rewrite Hn in Hs. by apply Hs.
  - apply IH. intros m. specialize (Hs (S m)). simpl in Hs. by rewrite Hn in Hs.
Qed.

Lemma loop_free_eval {calls A} (p : prog Σ A) :
  loop_free calls p -> forall h Q, holds h p Q -> exists h' a, eval h p h' a.
Proof.
  induction 1 as [A a|e _|A B p k _ IHp _ IHk]; intros h Q Hs.
  - exists h, a. by apply eval_ret.
  - pose proof (Hs 1) as [[r Hr] _]. exists (Ev e r :: h), r.
    eapply eval_vis; [reflexivity|exact Hr|]. by apply eval_ret.
  - pose proof (fun n => safe_first _ _ n _ _ Hs) as Hp. destruct (IHp h _ Hp) as (h1 & a & H1).
    destruct (IHk a h1 Q (eval_safe _ _ _ _ _ H1 Hp)) as (h2 & b & H2).
    exists h2, b. by eapply eval_bind.
Qed.

(** [p] returns, with [Q]. *)
Definition total {A} (h : list (item Σ)) (p : prog Σ A) (Q : list (item Σ) -> A -> Prop) : Prop :=
  exists h' a, eval h p h' a /\ Q h' a.

Lemma total_returns {A} (p : prog Σ A) : total [] p (fun _ _ => True) -> returns p.
Proof. intros (h & a & He & _). apply eval_run in He as [n Hn]. exists n. by exists a. Qed.

Lemma total_loop_free {A} h (p : prog Σ A) Q : loop_free any_call p -> holds h p Q -> total h p Q.
Proof.
  intros Hl Hs. destruct (loop_free_eval p Hl h Q Hs) as (h' & a & He). exists h', a.
  split; [done|by eapply eval_safe].
Qed.

Lemma total_ret {A} h (a : A) (Q : list (item Σ) -> A -> Prop) : Q h a -> total h (Ret a) Q.
Proof. intros HQ. exists h, a. split; [by apply eval_ret|done]. Qed.

Lemma total_bind {A B} h (p : prog Σ A) (k : A -> prog Σ B) Q :
  total h p (fun h' a => total h' (k a) Q) -> total h (Bind p k) Q.
Proof.
  intros (h1 & a & H1 & h2 & b & H2 & HQ). exists h2, b. split; [by eapply eval_bind|done].
Qed.

Lemma total_mono {A} h (p : prog Σ A) Q Q' :
  total h p Q -> (forall h a, Q h a -> Q' h a) -> total h p Q'.
Proof. intros (h' & a & He & HQ) HQQ. exists h', a. auto. Qed.

(** A loop whose every round that goes on decreases a measure. *)
Lemma total_loop_from {S B} (measure : list (item Σ) -> nat) (I : list (item Σ) -> S -> Prop) h
    (body : S -> prog Σ (S + B)) s Q :
  I h s ->
  (forall h s, I h s -> total h (body s) (fun h' r =>
     match r with inl s' => I h' s' /\ measure h' < measure h | inr b => Q h' b end)) ->
  total h (Loop body s) Q.
Proof.
  intros HI Hb. remember (measure h) as m eqn:Hm. revert h s HI Hm.
  induction m as [m IH] using lt_wf_ind. intros h s HI ->.
  destruct (Hb h s HI) as (h1 & [s'|b] & H1 & HQ).
  - destruct HQ as [HI' Hlt]. destruct (IH _ Hlt h1 s' HI' eq_refl) as (h2 & b & H2 & HQ).
    exists h2, b. split; [|done]. by eapply eval_loop.
  - exists h1, b. split; [|done]. eapply eval_loop; [done|]. by apply eval_ret.
Qed.

Lemma total_loop {S B} (measure : list (item Σ) -> nat) (I : S -> Prop) h (body : S -> prog Σ (S + B)) s Q :
  I s ->
  (forall h s, I s -> total h (body s) (fun h' r =>
     match r with inl s' => I s' /\ measure h' < measure h | inr b => Q h' b end)) ->
  total h (Loop body s) Q.
Proof. intros HI Hb. by apply (total_loop_from measure (fun _ => I)). Qed.

(** ** Calls that are always answered *)
Context (prompt : Op Σ -> Prop) (prompt_answered : forall h e, prompt e -> is_Some (o h e)).

(** What every call keeps. *)
Lemma prompt_keeps {A} (I : list (item Σ) -> Prop) (p : prog Σ A) :
  loop_free prompt p -> (forall h e r, I h -> I (Ev e r :: h)) ->
  forall n h, I h -> safe history_rules n h p (fun h' _ => I h').
Proof.
  intros Hp HI. induction Hp as [A a|e He|A B p k _ IHp _ IHk]; intros n h Hh.
  - by apply safe_ret.
  - apply safe_call; [by apply prompt_answered|]. intros r _. by apply HI.
  - eapply safe_bind; [by apply IHp|]. intros. by apply IHk.
Qed.

Lemma total_free {A} h (p : prog Σ A) : loop_free prompt p -> total h p (fun _ _ => True).
Proof.
  intros Hp. apply total_loop_free; [by eapply loop_free_any|]. intros n. by apply (prompt_keeps (fun _ => True)).
Qed.

Lemma total_free_bind {A B} h (p : prog Σ A) (k : A -> prog Σ B) Q :
  loop_free prompt p -> (forall h a, total h (k a) Q) -> total h (Bind p k) Q.
Proof.
  intros Hp Hk. apply total_bind. eapply total_mono; [by apply total_free|]. auto.
Qed.

End Total.
Arguments partial_oracle : clear implicits.

Create HintDb loop_free.

(** Proves [loop_free] by following the program. *)
Ltac loop_free :=
  repeat first
    [ solve [auto with loop_free nocore] | apply lf_ret | apply lf_call; exact I | apply lf_bind; [|intros ?]
    | progress cbn beta iota zeta
    | match goal with |- loop_free _ (match ?x with _ => _ end) => destruct x end
    | match goal with |- loop_free _ (match ?x with _ => _ end ?s) => destruct x end ].
