(* ===== verification/Environment.v ===== *)
(** * What a waiting thread may count on

    The environment of one thread: the lock, the registry, the timer and the other
    threads, as a [partial_oracle]. Suspensions are the calls it may leave
    unanswered for ever: [AwaitSignal] of a blocked thread and [Park] of an
    asynchronous task. All other calls are answered, locks included. The
    assumptions below say when a suspension ends, in terms of what the thread did
    before it:
    - a [Waker] is called when the timer completes, if it is the one of the most
      recent poll of the timer's future and that poll was pending ([armed]; the
      contract of [Future::poll]);
    - a waiter is notified if it is registered, and was registered under the lock
      under which its state was checked ([enrolled]): a later registration may
      have missed the notification. *)
From S2P Require Import Prelude Program Primitives Total.

Section Environment.
Context `{QubitClock} {T : Type}.
Abbreviation Σ := (MonitorSig T).
Abbreviation history := (list (item (MonitorSig T))).

Definition is_poll (e : monitor_op T) : bool := match e with TimerPoll _ _ => true | _ => false end.
Definition is_get (e : monitor_op T) : bool := match e with GetState _ => true | _ => false end.

(** How often the history made a call of a kind. *)
Fixpoint count (kind : monitor_op T -> bool) (h : history) : nat :=
  match h with
  | [] => 0
  | Ev e _ :: h => (if kind e then 1 else 0) + count kind h
  end.

(** The calls that are always answered. *)
Definition prompt : Op Σ -> Prop := fun e : monitor_op T =>
  match e with AwaitSignal _ | Park _ => False | _ => True end.

(** The waiter that the timer will wake: the waker of the last poll, if pending. *)
Fixpoint armed (h : history) : option waiter_ref :=
  match h with
  | [] => None
  | Ev e r :: h =>
      match e as e return monitor_resp e -> option waiter_ref with
      | TimerPoll _ waker => fun r => match r with Pending => waker | Ready _ => None end
      | _ => fun _ => armed h
      end r
  end.

(** The timer will have the task polled: it was polled by the task, pending, since
    the task last went to sleep. *)
Fixpoint task_armed (h : history) : bool :=
  match h with
  | [] => false
  | Ev e r :: h =>
      match e as e return monitor_resp e -> bool with
      | TimerPoll _ _ => fun r => match r with Pending => true | Ready _ => false end
      | Park _ | AwaitSignal _ => fun _ => false
      | _ => fun _ => task_armed h
      end r
  end.

(** The state was read under the lock that is held. *)
Fixpoint checked (h : history) : bool :=
  match h with
  | [] => false
  | Ev e _ :: h =>
      match e with
      | GetState _ => true
      | LockState | UnlockState _ _ => false
      | _ => checked h
      end
  end.

(** The waiters with their registrations, of those made under the lock after the
    state was read. *)
Fixpoint enrolled (h : history) : list (Z * waiter_ref) :=
  match h with
  | [] => []
  | Ev e r :: h =>
      match e as e return monitor_resp e -> list (Z * waiter_ref) with
      | RegistryRegister l => fun r =>
          match r with
          | Returned id => if checked h then (id, l) :: enrolled h else enrolled h
          | Unwinding _ => enrolled h
          end
      | RegistryUnregister id => fun _ => filter (fun p => p.1 <> id) (enrolled h)
      | _ => fun _ => enrolled h
      end r
  end.

Context (o : partial_oracle Σ).

Definition answers_promptly : Prop := forall h e, prompt e -> is_Some (o h e).

Definition timer_wakes : Prop := forall h l, armed h = Some l -> is_Some (o h (AwaitSignal l)).

Definition timer_wakes_task : Prop := forall h l, task_armed h = true -> is_Some (o h (Park l)).

Definition notified_if_enrolled : Prop := forall h id l,
  (id, l) ∈ enrolled h -> is_Some (o h (AwaitSignal l)).

(** The timer never answers pending after [K] polls. *)
Definition timer_completes_after (K : nat) : Prop := forall h future waker,
  K <= count is_poll h -> o h (TimerPoll future waker) <> Some Pending.

(** No state read after the first [K] reads makes the predicate block. *)
Definition state_unblocks_after (w : T -> outcome bool) (K : nat) : Prop := forall h guard s,
  K <= count is_get h -> o h (GetState guard) = Some s -> w s <> Returned true.

Abbreviation safe' := (safe (history_rules o)).

Lemma hcall_some n h (e : monitor_op T) (Q : history -> outcome (monitor_resp e) -> Prop) :
  is_Some (o h e) ->
  (forall r, o h e = Some r -> Q (Ev (Σ := Σ) e r :: h) (Returned r)) -> safe' n h (call (Σ := Σ) e) Q.
Proof. exact (safe_call_c (history_rules o) n h e Q). Qed.

Context (prompts : answers_promptly).

Lemma hcall n h (e : monitor_op T) (Q : history -> outcome (monitor_resp e) -> Prop) :
  prompt e -> (forall r, o h e = Some r -> Q (Ev (Σ := Σ) e r :: h) (Returned r)) ->
  safe' n h (call (Σ := Σ) e) Q.
Proof. intros He. by apply hcall_some, prompts. Qed.

(** A call whose answer is converted. *)
Lemma hcall_outcome {A} n h (e : monitor_op T) (conv : monitor_resp e -> outcome A) (Q : history -> outcome A -> Prop) :
  prompt e -> (forall r, Q (Ev (Σ := Σ) e r :: h) (conv r)) -> safe' n h (call_outcome (Σ := Σ) e conv) Q.
Proof.
  intros He HQ. eapply safe_bind; [apply (safe_call _ _ _ (e : Op Σ))
    with (Q := fun h' r => Q h' (conv r)); [by apply prompts|intros r _; apply HQ]|]. intros. by apply safe_ret.
Qed.

Lemma count_grows kind {A} n h (p : prog Σ A) :
  loop_free prompt p -> safe' n h p (fun h' _ => count kind h <= count kind h').
Proof.
  intros Hp. apply (prompt_keeps o prompt prompts (fun h' => count kind h <= count kind h')); [done| |done].
  intros h' e r Hle. simpl. lia.
Qed.

(** Whatever happens in [p], the count has not shrunk after it. *)
Lemma after_grows kind {A} n h (p : prog Σ A) (Q : history -> A -> Prop) :
  loop_free prompt p -> (forall h' a, count kind h <= count kind h' -> Q h' a) -> safe' n h p Q.
Proof. intros Hp HQ. eapply safe_mono; [reflexivity|by apply (count_grows kind)|]. exact HQ. Qed.

(** A poll that is pending is one of the first [K]. *)
Lemma pending_is_early K h future waker :
  timer_completes_after K -> o h (TimerPoll future waker) = Some Pending -> count is_poll h < K.
Proof. intros Hc Hp. destruct (decide (K <= count is_poll h)) as [Hle|]; [|lia]. by apply Hc in Hp. Qed.

(** A read that makes the predicate block is one of the first [K]. *)
Lemma blocked_is_early K w h guard s :
  state_unblocks_after w K -> o h (GetState guard) = Some s -> w s = Returned true -> count is_get h < K.
Proof. intros Hu Hs Hw. destruct (decide (K <= count is_get h)) as [Hle|]; [|lia]. by apply (Hu _ _ _ Hle) in Hs. Qed.

(** A registration under the lock after the check, until it is undone. *)
Lemma enrolled_registered h id l : checked h = true ->
  (id, l) ∈ enrolled (Ev (Σ := Σ) (RegistryRegister l) (Returned id) :: h).
Proof. intros Hc. simpl. rewrite Hc. by left. Qed.
End Environment.
