(* ===== verification/Termination.v ===== *)
(** * Waits return

    A timed wait returns once its timer completes, although nobody ever notifies
    it and whatever the state and the other threads do; a plain wait returns if it
    is notified while it is registered and its predicate stays unblocked. Stated
    over the environments of [Environment.v], which may leave a suspension
    unanswered for ever unless the thread has arranged for its wakeup. That the
    notifications of a plain wait come is the subject of [Clients.v]. *)
From S2P Require Import Prelude Program WaitResult Primitives BlockingWaiter GuardWait ConditionWait StdMonitor World Total MonitorApi Environment.

Lemma drop_std_loop_free `{QubitClock} {T} (g : StdMonitorGuard) b : loop_free prompt (drop_std_guard (T := T) g b).
Proof. unfold drop_std_guard. loop_free. Qed.

Lemma drop_loop_free `{QubitClock} {T} (g : StdMonitorGuard) b : loop_free prompt (drop_guard (T := T) g b).
Proof. apply drop_std_loop_free. Qed.

Lemma drop_std_loop_free_any `{QubitClock} {T} (g : StdMonitorGuard) b : loop_free any_call (drop_std_guard (T := T) g b).
Proof. eapply loop_free_any, drop_std_loop_free. Qed.

#[export] Hint Resolve drop_loop_free drop_std_loop_free drop_std_loop_free_any : loop_free.

(** How long a timed wait may last: a budget for the time spent blocked, a budget
    for the whole call, or a deadline. *)
Inductive timing `{QubitClock} :=
  | BlockedFor (timeout : Duration)
  | InTotal (timeout : Duration)
  | Before (deadline : MonotonicInstant).

(** The six timed waits with these closures. *)
Definition std_timed_wait `{QubitClock} {T R} (self : StdMonitor) (pred : T -> comp (MonitorSig T) bool)
    (act : stateful (MonitorSig T) T R) (until : bool) (t : timing)
    : comp (MonitorSig T) (Result (WaitTimeoutResult R) TimeError) :=
  match until, t with
  | false, BlockedFor timeout => wait_while_for self timeout pred act
  | true, BlockedFor timeout => wait_until_for self timeout pred act
  | false, InTotal timeout => wait_while_with_total_timeout self timeout pred act
  | true, InTotal timeout => wait_until_with_total_timeout self timeout pred act
  | false, Before deadline => wait_while_with_deadline self deadline pred act
  | true, Before deadline => wait_until_with_deadline self deadline pred act
  end.

(** The two plain waits that block while [w] holds. *)
Definition std_plain_wait `{QubitClock} {T R} (self : StdMonitor) (w : T -> outcome bool)
    (f : T -> T * outcome R) (until : bool) : comp (MonitorSig T) R :=
  if until then wait_until self (predicate (fun s => outcome_negb (w s))) (action f)
  else wait_while self (predicate w) (action f).

Section Termination.
Context `{QubitClock} {T R : Type} (self : StdMonitor) (w : T -> outcome bool) (f : T -> T * outcome R).
Abbreviation Σ := (MonitorSig T).
Context (o : partial_oracle Σ) (K : nat).
Hypothesis prompts : answers_promptly o.
Abbreviation safe' := (safe (history_rules o)).
Abbreviation total_free := (total_free o prompt prompts).
Abbreviation total_free_bind := (total_free_bind o prompt prompts).

(** ** One suspension *)
Lemma completed_not_woken (r : Result unit TimeError) : completed r <> Ok Woken.
Proof. by destruct r as [[]|e]. Qed.

Section Timed.
Hypothesis wakes : timer_wakes o.
Hypothesis completes : timer_completes_after o K.

(** It ends, because the timer holds the waiter that it suspends on. *)
Lemma guard_wait_round n h g future :
  safe' n h (guard_wait_with_timer future g) (fun h' '(_, r) =>
    r = Returned (Ok Woken) -> count is_poll h < count is_poll h' /\ count is_poll h' <= K).
Proof.
  unfold guard_wait_with_timer, on_inner, wait_with_timer, poll_timer_without_waiter, poll_timer. walk.
  apply (hcall o prompts _ _ (TimerPoll future None)); [done|]. intros [r|] _; walk.
  { intros [=]. by destruct (completed_not_woken r). }
  unfold register, BlockingConditionWaiter_new. walk. apply (hcall o prompts _ _ NewWaiter); [done|]. intros l _. walk.
  apply (hcall_outcome o prompts _ _ (RegistryRegister l)); [done|]. intros [id|c]; unfold Datatypes.id; walk; [|done].
  unfold drop_registration, unregister. cbn [waiter waiter_id].
  apply (hcall o prompts _ _ (TimerPoll future (Some l))); [done|]. intros [r|] _; walk.
  { apply (hcall o prompts _ _ (RegistryUnregister id)); [done|]. intros r1 _. walk.
    intros [=]. by destruct (completed_not_woken r). }
  unfold release_guard. walk. destruct (inner g) as [g0|]; cbn [expect]; walk.
  2: { apply (hcall o prompts _ _ (RegistryUnregister id)); [done|]. intros r1 _. by walk. }
  apply (hcall o prompts _ _ (UnlockState g0 false)); [done|]. intros [] _. walk.
  apply (hcall_some o _ _ (AwaitSignal l)); [by apply wakes|]. intros [] _. walk.
  apply (hcall o prompts _ _ (RegistryUnregister id)); [done|]. intros r1 _. walk.
  unfold lock_state. walk. apply (hcall o prompts _ _ LockState); [done|]. intros lk _. walk.
  apply (hcall o prompts _ _ (TimerPoll future (Some l))); [done|]. intros [r|] Hr; walk.
  { intros [=]. by destruct (completed_not_woken r). }
  intros _. apply (pending_is_early o K) in Hr; [|done]. simpl in *. lia.
Qed.

Section Closures.
Context (pred : T -> comp Σ bool) (act : stateful Σ T R).
Hypothesis pred_free : forall s, loop_free prompt (pred s).
Hypothesis act_free : forall s, loop_free prompt (act s).

Lemma pred_any s : loop_free any_call (pred s).
Proof. eapply loop_free_any, pred_free. Qed.

Lemma act_any s : loop_free any_call (act s).
Proof. eapply loop_free_any, act_free. Qed.

#[local] Hint Resolve pred_any act_any : loop_free.

(** The loop of a timed wait: every round that goes on has polled a pending
    timer. *)
Lemma timer_loop_total h g future :
  total o h (wait_while_with_timer_locked g future pred act guard_wait_with_timer)
    (fun _ _ => True).
Proof.
  apply total_bind, (total_loop o (fun h => K - count is_poll h) (fun _ => True)); [done|].
  intros h1 g1 _. apply total_loop_free; [loop_free|]. intros n.
  eapply safe_bind with (R := fun h' '(_, r) =>
    match r with Returned (inl _) => count is_poll h1 < count is_poll h' /\ count is_poll h1 < K | _ => True end).
  - apply safe_sbind. eapply safe_mono; [reflexivity|apply guard_wait_round|].
    intros h2 [g2 [[status|e]|c]] Hround; [|intros i _; by apply safe_ret|done].
    intros i _. apply safe_sbind, (after_grows o prompts is_poll); [loop_free|]. intros h3 [g3 [[]|c]] H3; [| |done]; intros i1 _; simpl.
    + destruct status; simpl; apply safe_ret; [|done]. destruct Hround; [done|]. lia.
    + apply safe_sbind, (after_grows o prompts is_poll); [loop_free|]. intros h4 [g4 [r|c]] _; [|done]. intros i2 _. by apply safe_ret.
  - intros m h2 [g2 [[u|r]|c]] _ HR; apply safe_ret; [split; [done|lia]| |]; apply total_free; loop_free.
Qed.

Lemma then_wait_total h step g :
  total o h (then_wait pred act guard_wait_with_timer step g) (fun _ _ => True).
Proof.
  destruct step as [r|future]; [|apply timer_loop_total]. apply total_free. simpl. loop_free.
Qed.

Lemma deadline_total deadline h :
  total o h (wait_while_with_deadline self deadline pred act) (fun _ _ => True).
Proof.
  apply total_free_bind; [loop_free|]. intros h1 [g|c]; [|apply total_free; loop_free].
  apply total_free_bind; [loop_free|]. intros h2 [g2 [step|c]]; [apply then_wait_total|].
  apply total_free. loop_free.
Qed.

Lemma std_while_wait_total h (l : timing) : total o h (std_timed_wait self pred act false l) (fun _ _ => True).
Proof.
  destruct l as [timeout|timeout|deadline]; simpl; [|..|apply deadline_total].
  - apply total_free_bind; [loop_free|]. intros h1 [g|c]; [|apply total_free; loop_free].
    apply total_free_bind; [loop_free|]. intros h2 [g2 [step|c]]; [apply then_wait_total|].
    apply total_free. loop_free.
  - apply total_free_bind; [loop_free|]. intros h1 [[d|e]|c]; [apply deadline_total|..];
      apply total_free; loop_free.
Qed.
End Closures.

(** C8: every timed wait returns once its timer completes, although nobody
    notifies it. The environment answers every call but a suspension; a suspension
    ends if its waiter is the waker of the most recent poll of the timer and that
    poll was pending, and otherwise possibly never. If then, after [K] polls, the
    timer never answers pending again, each of the six operations ends with a
    result, for closures that do not suspend and whatever the states read, the
    clock and the registry answer: a state that blocks forever, wakeups without end
    or panics included. *)
Theorem timed_waits_return (pred : T -> comp Σ bool) (act : stateful Σ T R) (until : bool) (t : timing) :
  (forall s, loop_free prompt (pred s)) -> (forall s, loop_free prompt (act s)) ->
  returns o (std_timed_wait self pred act until t).
Proof.
  intros Hp Ha. apply total_returns. destruct until; [|by apply std_while_wait_total].
  destruct t as [d|d|d]; [apply (std_while_wait_total (negated pred) act) with (l := BlockedFor d)
    |apply (std_while_wait_total (negated pred) act) with (l := InTotal d)
    |apply (std_while_wait_total (negated pred) act) with (l := Before d)];
    first [done|intros s; (apply lf_bind; [done|intros []; loop_free])].
Qed.
End Timed.

(** ** Plain waits *)
Section Plain.
Hypothesis notified : notified_if_enrolled o.
Hypothesis unblocks : state_unblocks_after o w K.

(** A check that blocks has read the state before the [K]-th read. *)
Lemma check_round n h pred g : (forall s, next (pred s) = HRet (w s)) ->
  safe' n h (check pred g) (fun h' '(_, r) =>
    r = Returned true -> checked h' = true /\ count is_get h < count is_get h' /\ count is_get h < K).
Proof.
  intros Hpred. unfold check. walk. cbn [deref StdMonitorGuard_guard]. unfold guard_deref.
  destruct (expect _ _) as [g1|c]; walk; [|done]. apply (hcall o prompts _ _ (GetState g1)); [done|]. intros s Hs. walk.
  eapply safe_next; [apply Hpred|]. intros Hw. split; [done|]. split; [simpl; lia|]. by eapply blocked_is_early.
Qed.

(** A suspension after the check, under the same lock, is notified. *)
Lemma guard_wait_notified n h g :
  checked h = true -> safe' n h (guard_wait g) (fun h' _ => count is_get h <= count is_get h').
Proof.
  intros Hc. unfold guard_wait, on_inner, wait_for_notification. walk.
  unfold register, BlockingConditionWaiter_new. walk. apply (hcall o prompts _ _ NewWaiter); [done|]. intros l _. walk.
  apply (hcall_outcome o prompts _ _ (RegistryRegister l)); [done|]. intros [id|c]; unfold Datatypes.id; walk; [|done].
  pose proof (enrolled_registered (Ev (Σ := Σ) NewWaiter l :: h) id l Hc) as Hin.
  unfold drop_registration, unregister, release_guard. cbn [waiter waiter_id]. walk.
  destruct (inner g) as [g0|]; cbn [expect]; walk.
  2: { apply (hcall o prompts _ _ (RegistryUnregister id)); [done|]. intros r1 _. by walk. }
  apply (hcall o prompts _ _ (UnlockState g0 false)); [done|]. intros [] _. walk.
  apply (hcall_some o _ _ (AwaitSignal l)); [by apply (notified _ id)|]. intros [] _. walk.
  apply (hcall o prompts _ _ (RegistryUnregister id)); [done|]. intros r1 _. walk.
  unfold lock_state. walk. apply (hcall o prompts _ _ LockState); [done|]. intros lk _. walk. simpl. lia.
Qed.

Lemma negated_is s : next (negated (predicate (fun s => outcome_negb (w s))) s) = HRet (w s).
Proof. unfold negated, predicate, bind, comp_bind. simpl. by destruct (w s) as [[]|]. Qed.

Lemma plain_total h pred :
  (forall s, next (pred s) = HRet (w s)) -> (forall s, loop_free prompt (pred s)) ->
  total o h (wait_while self pred (action f)) (fun _ _ => True).
Proof.
  intros Hpred Hl. assert (Hany : forall s, loop_free any_call (pred s)) by (intros s; by eapply loop_free_any).
  apply total_free_bind; [loop_free|]. intros h0 [g|c]; [|apply total_free; loop_free].
  apply total_bind, total_bind.
  apply (total_loop o (fun h => K - count is_get h) (fun _ => True)); [done|].
  intros h1 g1 _. apply total_loop_free; [loop_free|]. intros n.
  eapply safe_bind with (R := fun h' '(_, r) =>
    match r with Returned (inl _) => count is_get h1 < count is_get h' /\ count is_get h1 < K | _ => True end).
  - apply safe_sbind. eapply safe_mono; [reflexivity|by apply check_round|].
    intros h2 [g2 [[]|c]] Hround; [| |done]; intros i _.
    + destruct Hround as (Hc & Hround); [done|]. apply safe_sbind.
      eapply safe_mono; [reflexivity|by apply guard_wait_notified|].
      intros h3 [g3 [u|c]] H3; [|done]. walk. lia.
    + by apply safe_ret.
  - intros m h2 [g2 [[u|r]|c]] _ HR; apply safe_ret; [split; [done|lia]| |].
    + eapply total_mono; [apply total_free; loop_free|].
      intros h3 [g3 [r3|c3]] _; apply total_free; loop_free.
    + exists h2, (g2, Unwinding c). split; [by apply eval_ret|]. apply total_free. loop_free.
Qed.

(** C30: a plain wait returns if it is notified and its predicate stops blocking.
    The environment answers every call but a suspension; a suspension ends if its
    waiter is registered and was registered under the lock under which the state
    was checked, before the lock was released, and otherwise possibly never. If
    then from the [K]-th read of the state on the predicate never asks to wait,
    [wait_while] and [wait_until] end, however often they are woken before. *)
Theorem wait_while_returns (until : bool) : returns o (std_plain_wait self w f until).
Proof.
  apply total_returns. destruct until; apply plain_total; try done.
  - apply negated_is.
  - intros s. apply lf_bind; [apply lf_ret|intros []; loop_free].
  - intros s. apply lf_ret.
Qed.
End Plain.
End Termination.

(** ** Concrete environments *)
Section Run.
#[local] Existing Instance test_clock.

(** The gate never opens and nobody notifies; the timer completes after two polls,
    and until then wakes the waiter it holds. *)
Definition patient : partial_oracle (MonitorSig bool) := fun hist (e : monitor_op bool) =>
  match e as e return option (monitor_resp e) with
  | TimerPoll _ _ => Some (if decide (2 <= count is_poll hist) then Ready (Ok tt) else Pending)
  | AwaitSignal l => if decide (armed hist = Some l) then Some tt else None
  | Park _ => if task_armed hist then Some tt else None
  | e => Some (test_answers false 100 e)
  end.

(** The gate is open from the third read on; the timer never completes; a waiter
    that is enrolled is notified. *)
Definition opening : partial_oracle (MonitorSig bool) := fun hist (e : monitor_op bool) =>
  match e as e return option (monitor_resp e) with
  | GetState _ => Some (bool_decide (2 <= count is_get hist))
  | TimerPoll _ _ => Some Pending
  | AwaitSignal l => if decide (l ∈ (enrolled hist).*2) then Some tt else None
  | Park _ => None
  | e => Some (test_answers false 100 e)
  end.

Definition closed_gate : bool -> outcome bool := fun b => Returned (negb b).

Lemma patient_prompts : answers_promptly patient.
Proof. intros h []; try done; intros _; by eexists. Qed.

Lemma patient_completes : timer_completes_after patient 2.
Proof. intros h future waker Hle. simpl. by rewrite decide_True. Qed.

Lemma opening_prompts : answers_promptly opening.
Proof. intros h []; try done; intros _; by eexists. Qed.

Lemma opening_notifies : notified_if_enrolled opening.
Proof.
  intros h id l Hin. simpl. rewrite decide_True; [done|]. apply list_elem_of_fmap. by exists (id, l).
Qed.

Lemma opening_unblocks : state_unblocks_after opening closed_gate 2.
Proof. intros h guard s Hle [= <-]. unfold closed_gate. by rewrite bool_decide_eq_true_2. Qed.

Definition shut : bool -> bool * outcome nat := fun _ => (false, Returned 5).
Definition one_second : Duration := {| secs := 1; nanos := 0 |}.
Definition soon : @MonotonicInstant test_clock := 500%Z.

(** All runs suspend before they end. *)
Example timed_waits_return_witness :
  returns patient (std_timed_wait test_monitor (predicate closed_gate) (action shut) false (BlockedFor one_second)) /\
  returns patient (std_timed_wait test_monitor (predicate closed_gate) (action shut) false (InTotal one_second)) /\
  returns patient (std_timed_wait test_monitor (predicate (fun b => Returned b)) (action shut) true (Before soon)).
Proof.
  repeat split; (apply (timed_waits_return test_monitor patient 2 patient_prompts);
    [intros h l Hl; simpl; by rewrite decide_True|apply patient_completes|intros s; apply lf_ret..]).
Defined.

Example wait_while_returns_witness :
  returns opening (std_plain_wait test_monitor closed_gate shut false) /\
  returns opening (std_plain_wait test_monitor closed_gate shut true).
Proof.
  split; (apply (wait_while_returns test_monitor closed_gate shut opening 2 opening_prompts);
    [apply opening_notifies|apply opening_unblocks]).
Defined.
End Run.
