(* ===== verification/AsyncTermination.v ===== *)
(** * Asynchronous waits return

    As [Termination.v], for [TokioMonitor]: a timed wait ends once its timer
    completes, a plain one if it is notified and its predicate stays unblocked.
    The environment may leave a parked task unpolled for ever unless its timer was
    polled since it last went to sleep. A future that is dropped ends too. *)
From S2P Require Import Prelude Program WaitResult Primitives GuardWait ConditionWait World TokioMonitor MonitorApi TokioMonitorSpec TimedWaits MonitorTraits AsyncTraits AsyncTimedWaits Total Environment Termination.

Lemma drop_local_loop_free `{QubitClock} {T} (g : option MutexGuard) b : loop_free prompt (drop_local (T := T) g b).
Proof. unfold drop_local, drop_mutex_guard. loop_free. Qed.

Lemma drop_local_loop_free_any `{QubitClock} {T} (g : option MutexGuard) b : loop_free any_call (drop_local (T := T) g b).
Proof. eapply loop_free_any, drop_local_loop_free. Qed.
#[export] Hint Resolve drop_local_loop_free drop_local_loop_free_any : loop_free.

Section Termination.
Context `{QubitClock} {T R : Type} (self : TokioMonitor) (w : T -> outcome bool) (f : T -> T * outcome R).
Abbreviation Σ := (MonitorSig T).
Context (o : partial_oracle Σ) (K : nat).
Hypothesis prompts : answers_promptly o.
Abbreviation safe' := (safe (history_rules o)).
Abbreviation total_free := (total_free o prompt prompts).
Abbreviation total_free_bind := (total_free_bind o prompt prompts).
Abbreviation after_polls := (after_grows o prompts is_poll).
Abbreviation after_gets := (after_grows o prompts is_get).

Section Timed.
Context (pred : T -> comp Σ bool) (act : stateful Σ T R).
Hypothesis wakes : timer_wakes_task o.
Hypothesis completes : timer_completes_after o K.
Hypothesis pred_ends : forall s, loop_free prompt (pred s).
Hypothesis act_ends : forall s, loop_free prompt (act s).

(** The four timed waits with these closures. *)
Definition timed_wait (until : bool) (l : limit) : comp Σ (Result (WaitTimeoutResult R) TimeError) :=
  match until, l with
  | false, Within timeout => TokioMonitor.wait_while_for_async self timeout pred act
  | true, Within timeout => TokioMonitor.wait_until_for_async self timeout pred act
  | false, Until deadline => TokioMonitor.wait_while_with_deadline_async self deadline pred act
  | true, Until deadline => AsyncTraits.wait_until_with_deadline_async self deadline pred act
  end.

(** Ends, and the polls of the history are kept. *)
Definition grows {A} (h : list (item Σ)) (p : prog Σ A) : Prop :=
  total o h p (fun h' _ => count is_poll h <= count is_poll h').

Lemma grows_free {A} h (p : prog Σ A) : loop_free prompt p -> grows h p.
Proof.
  intros Hp. apply total_loop_free; [by eapply loop_free_any|]. intros n. by apply count_grows.
Qed.

Lemma grows_bind {A B} h (p : prog Σ A) (k : A -> prog Σ B) :
  grows h p -> (forall h' a, grows h' (k a)) -> grows h (Bind p k).
Proof.
  intros Hp Hk. apply total_bind. eapply total_mono; [exact Hp|]. intros h' a Hle.
  eapply total_mono; [apply Hk|]. intros. simpl in *. lia.
Qed.

(** The future that a parked task polls. *)
Lemma poll_grows h registration future : grows h (wait_until_signalled_or_deadline registration future).
Proof.
  apply (total_loop_from o (fun h => K - count is_poll h)
    (fun h' (_ : unit) => count is_poll h <= count is_poll h')); [done|].
  intros h1 [] H1. apply total_loop_free; [loop_free|]. intros n.
  eapply safe_bind with (R := fun h' r => count is_poll h1 <= count is_poll h' /\
    (r = Returned None -> count is_poll h1 < K /\ count is_poll h1 < count is_poll h')).
  - walk. apply (hcall o prompts _ _ (TimerPoll future None)); [done|]. intros [r|] Hp; walk; [simpl; split; [lia|done]|].
    apply (pending_is_early o K) in Hp; [|done]. apply (hcall o prompts _ _ (PollSignal _)); [done|].
    intros [] _; walk; [simpl; split; [lia|done]|].
    unfold await_point. walk. apply (hcall o prompts _ _ AwaitPoint); [done|]. intros [] _; walk; [simpl; split; [lia|done]|].
    apply (hcall_some o _ _ (Park (waiter registration))); [by apply wakes|]. intros [] _. walk. simpl. split; [lia|]. intros _. lia.
  - intros i h' [[r|]|c] _ [Hg Hgo]; apply safe_ret; [lia| |lia]. destruct Hgo; [done|]. split; [lia|lia].
Qed.

(** The end of a round goes on only if the deadline was not reached. *)
Lemma decide_round n h (reached : bool) g :
  safe' n h
    ((blocked ← check pred;
      if negb blocked then (r ← apply_mut act; ret (inr (Ok (WaitReady r))))
      else if reached then ret (inr (Ok WaitTimedOut)) else ret (inl tt)
      : stateful Σ (option MutexGuard) (unit + Result (WaitTimeoutResult R) TimeError)) g)
    (fun h' '(_, r) => match r with
       | Returned (inl _) => reached = false /\ count is_poll h <= count is_poll h'
       | Returned (inr _) | Unwinding _ => True end).
Proof.
  apply safe_sbind, after_polls; [loop_free|]. intros h1 [g1 [[]|c]] H1; [walk; cbn [negb]..|done].
  - destruct reached; by walk.
  - apply safe_sbind, after_polls; [loop_free|]. intros h2 [g2 [r|c]] _; [by walk|done].
Qed.

(** Every round of the loop that goes on has polled a pending timer. *)
Lemma deadline_loop_total h g future :
  total o h (deadline_loop self future pred act g) (fun _ _ => True).
Proof.
  apply (total_loop o (fun h => K - count is_poll h) (fun _ => True)); [done|].
  intros h1 g1 _. apply total_bind, total_bind.
  eapply total_mono; [apply grows_free; loop_free|]. intros h2 [g2 [registration|c]] H2; cbv beta in H2.
  2: { by apply total_ret, total_ret. }
  apply total_bind. eapply total_mono.
  { apply grows_bind with (h := h2).
    - apply grows_bind; [apply grows_free; loop_free|]. intros h3 [g3 [[]|c]]; [|apply grows_free; loop_free].
      apply grows_bind; [apply poll_grows|]. intros h4 r. apply grows_free. loop_free.
    - intros h3 [g3 r]. apply grows_free. loop_free. }
  intros h3 [g3 [status|c]] H3; cbv beta in H3; [|by apply total_ret, total_ret].
  eapply total_mono with (Q := fun h' '(g', r) => match r with
    | Returned (inl _) => count is_poll h1 < count is_poll h' /\ count is_poll h1 < K | _ => True end).
  2: { intros h4 [g4 [[u|r]|c]] H4; apply total_ret; [split; [done|lia]|done|done]. }
  apply total_loop_free; [apply (loop_free_any (calls := prompt)); loop_free|]. intros n.
  apply safe_sbind, after_polls; [loop_free|]. intros h4 [g4 [gd|c]] H4; [walk|done].
  destruct status as [status|e]; [|by walk]. walk.
  destruct (status_is_timed_out status).
  - skip. eapply safe_mono; [reflexivity|apply (decide_round _ _ true)|]. intros h5 [g5 [[u|r]|c]] H5; [by destruct H5|done..].
  - unfold deadline_reached. walk. apply (hcall o prompts _ _ (TimerPoll future None)); [done|].
    intros r Hp. walk. destruct r as [[[]|e]|]; cbn [Result_map]; [|by walk|]; skip.
    + eapply safe_mono; [reflexivity|apply (decide_round _ _ true)|]. intros h5 [g5 [[u|r]|c]] H5; [by destruct H5|done..].
    + apply (pending_is_early o K) in Hp; [|done]. eapply safe_mono; [reflexivity|apply (decide_round _ _ false)|].
      intros h5 [g5 [[u|r]|c]] H5; [|done..]. simpl in H5. lia.
Qed.

(** What comes before the loop ends too. *)
Lemma scoped_total h (m : stateful Σ (option MutexGuard) (Result (WaitTimeoutResult R) TimeError)) :
  (forall h g, total o h (m g) (fun _ _ => True)) ->
  total o h (guard ← lock_async self; scoped (Some guard) drop_local m) (fun _ _ => True).
Proof.
  intros Hm. apply total_free_bind; [loop_free|]. intros h1 [g|c]; [|apply total_free; loop_free].
  apply total_bind. eapply total_mono; [apply Hm|]. intros h2 [g2 r] _. apply total_free. loop_free.
Qed.

End Timed.

(** The waits that block while [pred] holds. *)
Lemma while_wait_total h pred act (l : limit) : timer_wakes_task o -> timer_completes_after o K ->
  (forall s, loop_free prompt (pred s)) -> (forall s, loop_free prompt (act s)) ->
  total o h (timed_wait pred act false l) (fun _ _ => True).
Proof.
  intros Hw Ht Hp Ha. destruct l as [timeout|deadline]; apply scoped_total; intros h0 g;
    (apply total_free_bind; [loop_free|]); intros h1 [g1 [x|c]]; try (apply total_free; by loop_free).
  - apply total_free_bind; [loop_free|]. intros h2 [g2 [[]|c]]; cbn [negb]; [|apply total_free; loop_free..].
    destruct (Duration_is_zero timeout); [apply total_free; loop_free|].
    destruct (instant_checked_add x timeout) as [at_|e]; [|apply total_free; loop_free].
    apply total_free_bind; [loop_free|].
    intros h3 [g3 [[future|e]|c]]; [by apply deadline_loop_total|apply total_free; loop_free..].
  - destruct x; cbn [negb]; [|apply total_free; loop_free]. apply total_free_bind; [loop_free|].
    intros h2 [g2 [[future|e]|c]]; [|apply total_free; loop_free..].
    apply total_free_bind; [loop_free|].
    intros h3 [g3 [[[]|e]|c]]; [apply total_free; loop_free|by apply deadline_loop_total|apply total_free; loop_free..].
Qed.

(** C11: every asynchronous timed wait returns once its timer completes, although
    nobody notifies it. The environment answers every call but a suspension: an
    awaited signal possibly never comes, and a parked task is polled again if it
    has polled the timer, pending, since it last slept, and otherwise possibly
    never. If then, after [K] polls, the timer never answers pending again, the
    four waits end, with a result or because their future was dropped, for any
    predicate and action that do not suspend, and whatever the states read, the
    clock, the signals and the registry answer: a state that blocks forever,
    spurious polls or wakeups without end included. *)
Theorem async_timed_waits_return pred act (until : bool) (l : limit) :
  timer_wakes_task o -> timer_completes_after o K ->
  (forall s, loop_free prompt (pred s)) -> (forall s, loop_free prompt (act s)) ->
  returns o (timed_wait pred act until l).
Proof.
  intros Hw Ht Hp Ha. apply total_returns. destruct until; [|by apply while_wait_total].
  destruct l as [timeout|deadline]; (apply (while_wait_total [] (TokioMonitor.not_predicate pred) act (Within timeout))
    || apply (while_wait_total [] (MonitorTraits.not_predicate (MonitorSig T) T pred) act (Until deadline)));
    first [done|intros s; (apply lf_bind; [done|intros []; loop_free])].
Qed.

(** ** Plain waits *)
Section Plain.
Hypothesis notified : notified_if_enrolled o.
Hypothesis unblocks : state_unblocks_after o w K.

(** The two waits that block while [w] holds. *)
Definition plain_wait (until : bool) : comp Σ R :=
  if until then TokioMonitor.wait_until_async self (predicate (fun s => outcome_negb (w s))) (action f)
  else TokioMonitor.wait_while_async self (predicate w) (action f).

Lemma check_local_round n h pred g : (forall s, next (pred s) = HRet (w s)) ->
  safe' n h (check pred g) (fun h' '(_, r) =>
    r = Returned true -> checked h' = true /\ count is_get h < count is_get h' /\ count is_get h < K).
Proof.
  intros Hpred. unfold check. walk. cbn [deref local_guard]. walk.
  destruct g as [g|]; cbn [expect]; [|by walk]. walk. apply (hcall o prompts _ _ (GetState g)); [done|]. intros s Hs. walk.
  eapply safe_next; [apply Hpred|]. intros Hw. split; [done|]. split; [simpl; lia|]. by eapply blocked_is_early.
Qed.

(** A notification awaited after the check, registered under the same lock. *)
Lemma await_notification_comes n h g :
  checked h = true -> safe' n h (await_notification self g) (fun h' _ => count is_get h <= count is_get h').
Proof.
  intros Hc. unfold await_notification, register_waiter, TokioConditionWaiter_new. walk.
  apply (hcall o prompts _ _ NewWaiter); [done|]. intros l _. walk.
  apply (hcall_outcome o prompts _ _ (RegistryRegister l)); [done|]. intros [rid|c]; unfold Datatypes.id; walk; [|done].
  pose proof (enrolled_registered (Ev (Σ := Σ) NewWaiter l :: h) rid l Hc) as Hin.
  unfold drop_tokio_registration, move_out, release_guard. cbn [waiter waiter_id]. walk.
  destruct g as [g0|]; cbn [expect]; walk.
  2: { apply (hcall o prompts _ _ (RegistryUnregister rid)); [done|]. intros r1 _. by walk. }
  apply (hcall o prompts _ _ (UnlockState g0 false)); [done|]. intros [] _. walk.
  unfold TokioMonitor.notified, await_point. walk. apply (hcall o prompts _ _ AwaitPoint); [done|]. intros [] _; walk.
  { apply (hcall o prompts _ _ (RegistryUnregister rid)); [done|]. intros r1 _. walk. simpl. lia. }
  apply (hcall_some o _ _ (AwaitSignal l)); [by apply (notified _ rid)|]. intros [] _. walk.
  apply (hcall o prompts _ _ (RegistryUnregister rid)); [done|]. intros r1 _. walk.
  apply after_gets; [unfold lock_async, await_point; loop_free|]. intros h' [g1|c] Hle; [walk|]; simpl in *; lia.
Qed.

Lemma plain_async_total h pred :
  (forall s, next (pred s) = HRet (w s)) -> (forall s, loop_free prompt (pred s)) ->
  total o h (wait_while_async self pred (action f)) (fun _ _ => True).
Proof.
  intros Hpred Hl. assert (Hany : forall s, loop_free any_call (pred s)) by (intros s; by eapply loop_free_any).
  apply total_free_bind; [loop_free|]. intros h0 [g|c]; [|apply total_free; loop_free].
  apply total_bind, total_bind. apply (total_loop o (fun h => K - count is_get h) (fun _ => True)); [done|].
  intros h1 g1 _. apply total_loop_free; [loop_free|]. intros n.
  eapply safe_bind with (R := fun h' '(_, r) =>
    match r with Returned (inl _) => count is_get h1 < count is_get h' /\ count is_get h1 < K | _ => True end).
  - apply safe_sbind. eapply safe_mono; [reflexivity|by apply check_local_round|].
    intros h2 [g2 [[]|c]] Hround; [|by walk|done]. destruct Hround as (Hc & Hround); [done|].
    intros i _. apply safe_sbind. eapply safe_mono; [reflexivity|by apply await_notification_comes|].
    intros h3 [g3 [u|c]] H3; [|done]. walk. lia.
  - intros m h2 [g2 [[u|r]|c]] _ HR; apply safe_ret; [split; [done|lia]| |].
    + eapply total_mono; [apply total_free; loop_free|].
      intros h3 [g3 [r3|c3]] _; apply total_free; loop_free.
    + apply total_ret, total_free. loop_free.
Qed.

(** C26: a plain asynchronous wait returns if it is notified and its predicate
    stops blocking. The environment answers every call but a suspension; an
    awaited signal comes if its waiter is registered and was registered under the
    lock under which the state was checked, and otherwise possibly never. If then
    from the [K]-th read of the state on the predicate never asks to wait,
    [wait_while_async] and [wait_until_async] end, with a result or because their
    future was dropped. *)
Theorem plain_async_waits_return (until : bool) : returns o (plain_wait until).
Proof.
  apply total_returns. destruct until; apply plain_async_total; try done.
  - apply not_predicate_is.
  - intros s. apply lf_bind; [apply lf_ret|intros []; loop_free].
  - intros s. apply lf_ret.
Qed.
End Plain.
End Termination.

(** ** Concrete environments *)
Section Run.
#[local] Existing Instance test_clock.

Example plain_async_waits_return_witness :
  returns opening (plain_wait test_tokio_monitor closed_gate shut true).
Proof.
  apply (plain_async_waits_return test_tokio_monitor closed_gate shut opening 2 opening_prompts).
  - apply opening_notifies.
  - apply opening_unblocks.
Defined.

Example async_timed_waits_return_witness :
  returns patient (timed_wait test_tokio_monitor (predicate closed_gate) (action shut) false (Within one_second)).
Proof.
  apply (async_timed_waits_return test_tokio_monitor patient 2 patient_prompts).
  - intros h l Hl. simpl. by rewrite Hl.
  - apply patient_completes.
  - intros s. apply lf_ret.
  - intros s. apply lf_ret.
Defined.
End Run.
