(* ===== verification/AsyncErasure.v ===== *)
(** * The asynchronous monitor is a blocking one with await points

    As long as no future is dropped, an operation of [TokioMonitor] without a
    deadline makes the calls of the same operation of [ParkingLotMonitor], with
    await points in between, and ends the same way. *)
From S2P Require Import Prelude Program WaitResult Primitives BlockingWaiter GuardWait ConditionWait ParkingLotMonitor World TokioMonitor Protocol MonitorApi AsyncMonitorApi TokioMonitorSpec ParkingLotMonitorSpec Simulation MonitorTraits.

Section Erasure.
Context `{QubitClock} {T : Type}.
Abbreviation Σ := (MonitorSig T).

Definition is_await (i : item Σ) : bool :=
  match i with Ev e _ => match (e : monitor_op T) with AwaitPoint => true | _ => false end end.

(** The future is not dropped here. *)
Definition not_dropped (i : item Σ) : Prop :=
  match i with Ev e r => match (e : monitor_op T) as e return monitor_resp e -> Prop with
                         | AwaitPoint => fun r => r = false | _ => fun _ => True end r end.

Abbreviation sim' := (sim is_await not_dropped).

(** A call that both programs make, and an await of the first. *)
Local Ltac visible x :=
  eapply sim_vis; [reflexivity|reflexivity|intros ?; split; [reflexivity|exact I]|]; intros x.
Local Ltac await_on :=
  eapply (sim_hidden _ _ _ _ _ (AwaitPoint : Op Σ) _ false); [reflexivity|done|done|].
Local Ltac related o :=
  let g := fresh in let g' := fresh in let o' := fresh in
  let Hg := fresh in let Hg' := fresh in let Ho := fresh in
  intros [g o] [g' o'] [[Hg Hg'] Ho]; simpl in Hg, Hg', Ho; subst g g' o'.
Local Ltac ends := eapply sim_ret; [reflexivity|reflexivity|].

Context (self : TokioMonitor) (pl : ParkingLotMonitor).

Definition same_guard (g : option MutexGuard) (g' : ParkingLotMonitorGuard) : Prop :=
  g = Some TheGuard /\ g' = guard_new pl TheGuard.

(** The same outcome, with the lock. *)
Definition same_end {A} (x : option MutexGuard * outcome A) (y : ParkingLotMonitorGuard * outcome A) : Prop :=
  same_guard x.1 y.1 /\ x.2 = y.2.

(** ** Critical sections *)
Lemma lock_erased : sim' (fun o o' => o = Returned TheGuard /\ o' = Returned (guard_new pl TheGuard))
  (lock_async self) (ParkingLotMonitor.lock pl).
Proof. await_on. visible r. by destruct r as [[]|[[]]]; ends. Qed.

(** A body that runs under the lock and consumes it. *)
Lemma owned_erased {A B} (m : stateful Σ (option MutexGuard) A) (m' : stateful Σ ParkingLotMonitorGuard A)
    (k : A -> option MutexGuard -> comp Σ B) (k' : A -> ParkingLotMonitorGuard -> comp Σ B) :
  sim' same_end (m (Some TheGuard)) (m' (guard_new pl TheGuard)) ->
  (forall a, sim' eq (k a (Some TheGuard)) (k' a (guard_new pl TheGuard))) ->
  sim' eq (guard ← lock_async self; owned (Some guard) drop_local m k)
    (guard ← ParkingLotMonitor.lock pl; owned guard drop_parking_lot_guard m' k').
Proof.
  intros Hm Hk. eapply sim_bind; [apply lock_erased|]. intros ? ? (-> & ->).
  eapply sim_bind; [exact Hm|]. related o. destruct o as [a|c]; [apply Hk|].
  visible u. by ends.
Qed.

Lemma scoped_erased {A} (m : stateful Σ (option MutexGuard) A) (m' : stateful Σ ParkingLotMonitorGuard A) :
  sim' same_end (m (Some TheGuard)) (m' (guard_new pl TheGuard)) ->
  sim' eq (guard ← lock_async self; scoped (Some guard) drop_local m)
    (guard ← ParkingLotMonitor.lock pl; scoped guard drop_parking_lot_guard m').
Proof. intros Hm. apply owned_erased; [done|]. intros a. visible u. by ends. Qed.

Context (w : T -> outcome bool).

Lemma check_erased (waiting : T -> comp Σ bool) :
  (forall s, next (waiting s) = HRet (w s)) ->
  sim' same_end (check waiting (Some TheGuard)) (check waiting (guard_new pl TheGuard)).
Proof.
  intros Hw. visible s.
  apply sim_ret with (a := (Some TheGuard, w s)) (b := (guard_new pl TheGuard, w s)); [..|by split].
  all: simpl; rewrite Hw; reflexivity.
Qed.

Lemma await_erased :
  sim' same_end (await_notification self (Some TheGuard)) (guard_wait (guard_new pl TheGuard)).
Proof.
  visible l. visible r. destruct r as [id|c]; [|by ends].
  visible u. await_on. visible u'. visible u2. await_on. visible g. by destruct g as [[]|[[]]]; ends.
Qed.

Lemma while_erased (waiting : T -> comp Σ bool) :
  (forall s, next (waiting s) = HRet (w s)) ->
  sim' same_end (while (check waiting) (await_notification self) (Some TheGuard))
    (while (check waiting) guard_wait (guard_new pl TheGuard)).
Proof.
  intros Hw. apply sim_loop with (I := same_guard); [done|]. intros g g' (-> & ->).
  apply sim_bind with (R := same_end).
  - eapply sim_bind; [by apply check_erased|]. related b. destruct b as [[]|c]; [|by ends..].
    eapply sim_bind; [apply await_erased|]. related o.
    by destruct o; ends.
  - related o. by destruct o as [[u|r]|c]; ends.
Qed.

Section Action.
Context {R : Type} (f : T -> T * outcome R).

Lemma apply_mut_erased :
  sim' same_end (apply_mut (action f) (Some TheGuard)) (apply_mut (action f) (guard_new pl TheGuard)).
Proof. visible s. visible u. by ends. Qed.

Lemma wait_erased (waiting : T -> comp Σ bool) :
  (forall s, next (waiting s) = HRet (w s)) ->
  sim' eq (wait_while_async self waiting (action f)) (wait_while pl waiting (action f)).
Proof.
  intros Hw. apply scoped_erased. eapply sim_bind; [by apply while_erased|].
  related o. destruct o; [apply apply_mut_erased|by ends].
Qed.

Lemma write_erased : sim' eq (with_write_async self (action f)) (ParkingLotMonitor.with_write pl (action f)).
Proof. apply scoped_erased, apply_mut_erased. Qed.
End Action.

(** ** Notifications *)
Lemma notify_each_erased ls : sim' eq (notify_each ls) (wake_each (T := T) ls).
Proof. 
  induction ls as [|l ls IH]; [by ends|]. apply sim_bind with (R := eq); [visible u; by ends|].
  intros ? [[]|c] ->; [exact IH|by ends].
Qed.

Lemma notify_one_erased : sim' eq (notify_one self) (ParkingLotMonitor.notify_one pl).
Proof. visible l. destruct l as [l|]; [visible u|]; by ends. Qed.

Lemma notify_all_erased : sim' eq (notify_all self) (ParkingLotMonitor.notify_all pl).
Proof.
  apply sim_bind with (R := eq); [visible ls; by ends|]. intros ? [ls|c] ->; [apply notify_each_erased|by ends].
Qed.

Lemma write_notify_erased {R} (f : T -> T * outcome R) (notify notify' : comp Σ unit) :
  sim' eq notify notify' ->
  sim' eq (result ← with_write_async self (action f); _ ← notify; ret result)
    (result ← ParkingLotMonitor.with_write pl (action f); _ ← notify'; ret result).
Proof.
  intros Hn. apply sim_bind with (R := eq); [apply write_erased|]. intros ? [r|c] ->; [|by ends].
  apply sim_bind with (R := eq); [exact Hn|]. by intros ? [u|c] ->; ends.
Qed.

(** ** The operations without a deadline *)
Definition blocking_op {R} (c : async_api T R) : option (api T parking_lot_extra R) :=
  match c in async_api _ R return option (api T parking_lot_extra R) with
  | WithReadAsync f => Some (WithRead f)
  | WithWriteAsync f => Some (WithWrite f)
  | WithWriteNotifyOneAsync f => Some (WithWriteNotifyOne f)
  | WithWriteNotifyAllAsync f => Some (WithWriteNotifyAll f)
  | NotifyOneWaiter => Some NotifyOne
  | NotifyAllWaiters => Some NotifyAll
  | WaitWhileAsync f => Some (WaitWhile f)
  | WaitUntilAsync f => Some (WaitUntil f)
  | WaitUntilReadyAsync => Some WaitUntilReady
  | _ => None
  end.

Lemma interp_erased {R} (c : async_api T R) b :
  blocking_op c = Some b -> sim' eq (tokio_interp self w c) (parking_lot_interp pl w b).
Proof.
  pose proof (not_predicate_is w) as Hn.
  destruct c; simpl; intros [= <-]; simpl.
  - apply scoped_erased. visible s. by ends.
  - apply write_erased.
  - eapply sim_same_r; [symmetry; exact (parking_lot_write_notify_same pl (action f)
      (ParkingLotMonitor.notify_one pl) guard_notify_one (fun g => eq_refl))|].
    apply write_notify_erased, notify_one_erased.
  - eapply sim_same_r; [symmetry; exact (parking_lot_write_notify_same pl (action f)
      (ParkingLotMonitor.notify_all pl) guard_notify_all (fun g => eq_refl))|].
    apply write_notify_erased, notify_all_erased.
  - apply notify_one_erased.
  - apply notify_all_erased.
  - by apply wait_erased.
  - exact (wait_erased f _ Hn).
  - exact (wait_erased nothing _ Hn).
Qed.

(** C10: between its awaits [TokioMonitor] is [ParkingLotMonitor]. An execution of
    an asynchronous operation without a deadline whose future is not dropped is,
    without its await points, an execution of the blocking operation with the same
    end; and every execution of the blocking operation arises so. *)
Theorem tokio_is_parking_lot_with_awaits {R} (c : async_api T R) b :
  blocking_op c = Some b ->
  (forall tr o, exec (tokio_interp self w c) tr o -> Forall not_dropped tr ->
     exec (parking_lot_interp pl w b) (erase is_await tr) o) /\
  (forall tr o, exec (parking_lot_interp pl w b) tr o ->
     exists tr', erase is_await tr' = tr /\ Forall not_dropped tr' /\ exec (tokio_interp self w c) tr' o).
Proof.
  intros Hb. destruct (interp_erased c b Hb) as [H1 H2]. split.
  - intros tr o Hx Hg. by destruct (H1 _ _ Hx Hg) as (o' & -> & Ho).
  - intros tr o Hx. destruct (H2 _ _ Hx) as (tr' & o' & Ht & Hg & -> & Ho). eauto.
Qed.
End Erasure.

Section Run.
#[local] Existing Instance test_clock.

Lemma tokio_is_parking_lot_with_awaits_witness :
  (forall tr o, exec (tokio_interp test_tokio_monitor (fun b => Returned (negb b)) enter_async) tr o ->
     Forall not_dropped tr ->
     exec (parking_lot_interp test_parking_lot_monitor (fun b => Returned (negb b)) (WaitWhile nothing)) (erase is_await tr) o) /\
  (forall tr o, exec (parking_lot_interp test_parking_lot_monitor (fun b => Returned (negb b)) (WaitWhile nothing)) tr o ->
     exists tr', erase is_await tr' = tr /\ Forall not_dropped tr' /\
       exec (tokio_interp test_tokio_monitor (fun b => Returned (negb b)) enter_async) tr' o).
Proof.
  apply (tokio_is_parking_lot_with_awaits test_tokio_monitor test_parking_lot_monitor
    (fun b => Returned (negb b)) enter_async (WaitWhile nothing)).
  reflexivity.
Defined.
End Run.
