(* ===== verification/Locks.v ===== *)
(** * The locks ([src/src/lock/])

    [try_lock_error.rs], [lock.rs], [exclusive_lock.rs], [read_write_lock.rs],
    [read_lock.rs], [write_lock.rs] and [data_lock.rs]: one signature for the calls on a lock
    that protects a [T], the traits as type classes, and their implementations
    for the mutexes and read-write locks of [std] and [parking_lot]. A lock's
    mutable part is the shared object of the signature, so a lock value is only
    the reference through which it is used. *)
From S2P Require Import Prelude Program Primitives.

(** ** [try_lock_error.rs] *)
Inductive TryLockError : Type := WouldBlock | Poisoned.

#[export] Instance TryLockError_eq_dec : EqDecision TryLockError.
Proof. solve_decision. Defined.

(** What [Display] writes. *)
Definition TryLockError_fmt (self : TryLockError) : string :=
  match self with
  | WouldBlock => "lock acquisition would block"
  | Poisoned => "lock is poisoned"
  end.

(** [std::sync::TryLockError]: a poisoned lock was acquired, its guard is in the
    error. *)
Inductive StdTryLockError (A : Type) : Type :=
| StdWouldBlock
| StdPoisoned (error : PoisonError A).
Arguments StdWouldBlock {A}.
Arguments StdPoisoned {A} error.

(** [tokio::sync::TryLockError], which says no more than that. *)
Inductive TokioTryLockError : Type := NotNow.

(** [Option::ok_or]. *)
Definition ok_or {A E} (o : option A) (e : E) : Result A E :=
  match o with Some a => Ok a | None => Err e end.

(** ** The calls on a lock *)
Inductive backend : Type := Std | ParkingLot | Tokio.
Inductive mode : Type := Shared | Exclusive.

#[export] Instance backend_eq_dec : EqDecision backend.
Proof. solve_decision. Defined.
#[export] Instance mode_eq_dec : EqDecision mode.
Proof. solve_decision. Defined.

(** A guard: [MutexGuard], [RwLockReadGuard] or [RwLockWriteGuard]. *)
Record lock_guard : Type := MkLockGuard { guard_backend : backend; guard_mode : mode }.

#[export] Instance lock_guard_eq_dec : EqDecision lock_guard.
Proof. solve_decision. Defined.

Section Signature.
Context (T : Type).

Inductive lock_call : Type :=
(* [Mutex::lock], [RwLock::read], [RwLock::write] *)
| Acquire (b : backend) (m : mode)
(* an await that may be pending, which tells whether the future is dropped there *)
| LockAwaitPoint
(* [Mutex::try_lock], [RwLock::try_read], [RwLock::try_write] *)
| TryAcquire (b : backend) (m : mode)
(* drop of a guard, told whether the thread unwinds *)
| Release (g : lock_guard) (panicking : bool)
(* the value behind a guard *)
| GetValue (g : lock_guard)
| SetValue (g : lock_guard) (value : T).

Definition lock_answer (e : lock_call) : Type :=
  match e with
  | Acquire Std _ => LockResult lock_guard
  | Acquire ParkingLot _ | Acquire Tokio _ => lock_guard
  | LockAwaitPoint => bool
  | TryAcquire Std _ => Result lock_guard (StdTryLockError lock_guard)
  | TryAcquire ParkingLot _ => option lock_guard
  | TryAcquire Tokio _ => Result lock_guard TokioTryLockError
  | Release _ _ | SetValue _ _ => unit
  | GetValue _ => T
  end.

Definition LockSig : Sig := MkSig lock_call lock_answer.
End Signature.
Arguments Acquire {T} b m.
Arguments LockAwaitPoint {T}.
Arguments TryAcquire {T} b m.
Arguments Release {T} g panicking.
Arguments GetValue {T} g.
Arguments SetValue {T} g value.
Arguments lock_answer {T} e.

(** ** Guards and closures *)
Section Guards.
Context {T : Type}.
Abbreviation Σ := (LockSig T).

Definition drop_lock_guard (g : lock_guard) (panicking : bool) : comp Σ unit :=
  call (Σ := Σ) (Release g panicking).

Definition unwrap_message : string :=
  "called `Result::unwrap()` on an `Err` value: PoisonError { .. }".

(** [Result::unwrap]: the error, and the guard in it, is dropped while the thread
    unwinds. *)
Definition unwrap_guard (result : LockResult lock_guard) : comp Σ lock_guard :=
  match result with
  | Ok guard => ret guard
  | Err error =>
      Bind (drop_lock_guard (into_inner error) true) (fun _ => Ret (Unwinding (Panic unwrap_message)))
  end.

(** [f(&*guard)]. *)
Definition apply_read {R} (f : T -> comp Σ R) : stateful Σ lock_guard R :=
  guard ← read_var;
  value ← lift (call (Σ := Σ) (GetValue guard));
  lift (f value).

(** [f(&mut *guard)]. *)
Definition apply_write {R} (f : stateful Σ T R) : stateful Σ lock_guard R :=
  guard ← read_var;
  value ← lift (call (Σ := Σ) (GetValue guard));
  end_ ← run_on f value;
  _ ← lift (call (Σ := Σ) (SetValue guard end_.1));
  lift (of_outcome end_.2).

(** [guard] is owned by the scope in which the closure runs. *)
Definition read_guarded {R} (guard : lock_guard) (f : T -> comp Σ R) : comp Σ R :=
  scoped guard drop_lock_guard (apply_read f).

Definition write_guarded {R} (guard : lock_guard) (f : stateful Σ T R) : comp Σ R :=
  scoped guard drop_lock_guard (apply_write f).
End Guards.

(** ** The traits *)
Section Traits.
Context (Σ : Sig) (T : Type).

(** [lock.rs]. *)
Class Lock (L Guard : Type) : Type := {
  lock : L -> comp Σ Guard;
  try_lock : L -> comp Σ (Result Guard TryLockError)
}.

(** [read_write_lock.rs]. *)
Class ReadWriteLock (L ReadGuard WriteGuard : Type) : Type := {
  read : L -> comp Σ ReadGuard;
  write : L -> comp Σ WriteGuard;
  try_read : L -> comp Σ (Result ReadGuard TryLockError);
  try_write : L -> comp Σ (Result WriteGuard TryLockError)
}.

(** [data_lock.rs]. *)
Class DataLock (L : Type) : Type := {
  with_read : forall {R}, L -> (T -> comp Σ R) -> comp Σ R;
  with_write : forall {R}, L -> stateful Σ T R -> comp Σ R;
  try_with_read : forall {R}, L -> (T -> comp Σ R) -> comp Σ (Result R TryLockError);
  try_with_write : forall {R}, L -> stateful Σ T R -> comp Σ (Result R TryLockError)
}.

(** [read_lock.rs], [write_lock.rs]: one mode of a read-write lock as a lock. *)
Record ReadLock (L : Type) : Type := ReadLock_new { read_lock_inner : L }.
Record WriteLock (L : Type) : Type := WriteLock_new { write_lock_inner : L }.
Arguments ReadLock_new {L} read_lock_inner.
Arguments read_lock_inner {L} r.
Arguments WriteLock_new {L} write_lock_inner.
Arguments write_lock_inner {L} w.

#[export] Instance ReadLock_Lock {L RG WG} `{!ReadWriteLock L RG WG} : Lock (ReadLock L) RG := {
  lock self := read (read_lock_inner self);
  try_lock self := try_read (read_lock_inner self)
}.

#[export] Instance WriteLock_Lock {L RG WG} `{!ReadWriteLock L RG WG} : Lock (WriteLock L) WG := {
  lock self := write (write_lock_inner self);
  try_lock self := try_write (write_lock_inner self)
}.

(** Provided methods of [ReadWriteLock]. *)
Definition read_lock {L RG WG} `{!ReadWriteLock L RG WG} (self : L) : ReadLock L := ReadLock_new self.

Definition write_lock {L RG WG} `{!ReadWriteLock L RG WG} (self : L) : WriteLock L := WriteLock_new self.

(** *** Blanket implementations for [Arc<L>] *)
#[export] Instance Arc_Lock {L G} `{!Lock L G} : Lock (Arc L) G := {
  lock self := lock (as_ref self);
  try_lock self := try_lock (as_ref self)
}.

#[export] Instance Arc_ReadWriteLock {L RG WG} `{!ReadWriteLock L RG WG} : ReadWriteLock (Arc L) RG WG := {
  read self := read (as_ref self);
  write self := write (as_ref self);
  try_read self := try_read (as_ref self);
  try_write self := try_write (as_ref self)
}.

#[export] Instance Arc_DataLock {L} `{!DataLock L} : DataLock (Arc L) := {
  with_read R self f := with_read (as_ref self) f;
  with_write R self f := with_write (as_ref self) f;
  try_with_read R self f := try_with_read (as_ref self) f;
  try_with_write R self f := try_with_write (as_ref self) f
}.

(** *** Blanket implementations for [&L] *)
#[export] Instance Ref_Lock {L G} `{!Lock L G} : Lock (Ref L) G := {
  lock self := lock (target self);
  try_lock self := try_lock (target self)
}.

#[export] Instance Ref_ReadWriteLock {L RG WG} `{!ReadWriteLock L RG WG} : ReadWriteLock (Ref L) RG WG := {
  read self := read (target self);
  write self := write (target self);
  try_read self := try_read (target self);
  try_write self := try_write (target self)
}.

#[export] Instance Ref_DataLock {L} `{!DataLock L} : DataLock (Ref L) := {
  with_read R self f := with_read (target self) f;
  with_write R self f := with_write (target self) f;
  try_with_read R self f := try_with_read (target self) f;
  try_with_write R self f := try_with_write (target self) f
}.

(** *** [exclusive_lock.rs]: a marker *)
Class ExclusiveLock (L G : Type) `{!Lock L G} : Prop := {}.

#[export] Instance Ref_ExclusiveLock {L G} `{!Lock L G, !ExclusiveLock L G} : ExclusiveLock (Ref L) G := {}.

#[export] Instance Arc_ExclusiveLock {L G} `{!Lock L G, !ExclusiveLock L G} : ExclusiveLock (Arc L) G := {}.

#[export] Instance WriteLock_ExclusiveLock {L RG WG} `{!ReadWriteLock L RG WG} : ExclusiveLock (WriteLock L) WG := {}.
End Traits.
Arguments ReadLock_new {L} read_lock_inner.
Arguments read_lock_inner {L} r.
Arguments WriteLock_new {L} write_lock_inner.
Arguments write_lock_inner {L} w.

(** ** Standard-library locks *)
Section Std.
Context {T : Type}.
Abbreviation Σ := (LockSig T).

(** [std::sync::Mutex], [std::sync::RwLock]. *)
Inductive Mutex : Type := TheMutex.
Inductive RwLock : Type := TheRwLock.

(** [match result] of the [try_lock] family; the guard of a poisoned lock is
    dropped with the scrutinee, after the match. *)
Definition match_try {R} (result : Result lock_guard (StdTryLockError lock_guard))
    (ok : lock_guard -> comp Σ R) : comp Σ (Result R TryLockError) :=
  match result with
  | Ok guard => r ← ok guard; ret (Ok r)
  | Err StdWouldBlock => ret (Err WouldBlock)
  | Err (StdPoisoned error) => _ ← drop_lock_guard (into_inner error) false; ret (Err Poisoned)
  end.

(** *** [Mutex] *)
Definition mutex_lock (self : Mutex) : comp Σ lock_guard :=
  result ← call (Σ := Σ) (Acquire Std Exclusive);
  unwrap_guard result.

Definition mutex_try_lock (self : Mutex) : comp Σ (Result lock_guard TryLockError) :=
  result ← call (Σ := Σ) (TryAcquire Std Exclusive);
  match_try result (fun guard => ret guard).

#[export] Instance Mutex_Lock : Lock Σ Mutex lock_guard := {
  lock := mutex_lock; try_lock := mutex_try_lock
}.

#[export] Instance Mutex_ExclusiveLock : ExclusiveLock Σ Mutex lock_guard := {}.

Definition mutex_with_read {R} (self : Mutex) (f : T -> comp Σ R) : comp Σ R :=
  result ← call (Σ := Σ) (Acquire Std Exclusive);
  guard ← unwrap_guard result;
  read_guarded guard f.

Definition mutex_with_write {R} (self : Mutex) (f : stateful Σ T R) : comp Σ R :=
  result ← call (Σ := Σ) (Acquire Std Exclusive);
  guard ← unwrap_guard result;
  write_guarded guard f.

Definition mutex_try_with_read {R} (self : Mutex) (f : T -> comp Σ R)
    : comp Σ (Result R TryLockError) :=
  result ← call (Σ := Σ) (TryAcquire Std Exclusive);
  match_try result (fun guard => read_guarded guard f).

Definition mutex_try_with_write {R} (self : Mutex) (f : stateful Σ T R)
    : comp Σ (Result R TryLockError) :=
  result ← call (Σ := Σ) (TryAcquire Std Exclusive);
  match_try result (fun guard => write_guarded guard f).

#[export] Instance Mutex_DataLock : DataLock Σ T Mutex := {
  with_read := @mutex_with_read; with_write := @mutex_with_write;
  try_with_read := @mutex_try_with_read; try_with_write := @mutex_try_with_write
}.

(** *** [RwLock] *)
Definition rw_lock_read (self : RwLock) : comp Σ lock_guard :=
  result ← call (Σ := Σ) (Acquire Std Shared);
  unwrap_guard result.

Definition rw_lock_write (self : RwLock) : comp Σ lock_guard :=
  result ← call (Σ := Σ) (Acquire Std Exclusive);
  unwrap_guard result.

Definition rw_lock_try_read (self : RwLock) : comp Σ (Result lock_guard TryLockError) :=
  result ← call (Σ := Σ) (TryAcquire Std Shared);
  match_try result (fun guard => ret guard).

Definition rw_lock_try_write (self : RwLock) : comp Σ (Result lock_guard TryLockError) :=
  result ← call (Σ := Σ) (TryAcquire Std Exclusive);
  match_try result (fun guard => ret guard).

#[export] Instance RwLock_ReadWriteLock : ReadWriteLock Σ RwLock lock_guard lock_guard := {
  read := rw_lock_read; write := rw_lock_write;
  try_read := rw_lock_try_read; try_write := rw_lock_try_write
}.

Definition rw_lock_with_read {R} (self : RwLock) (f : T -> comp Σ R) : comp Σ R :=
  result ← call (Σ := Σ) (Acquire Std Shared);
  guard ← unwrap_guard result;
  read_guarded guard f.

Definition rw_lock_with_write {R} (self : RwLock) (f : stateful Σ T R) : comp Σ R :=
  result ← call (Σ := Σ) (Acquire Std Exclusive);
  guard ← unwrap_guard result;
  write_guarded guard f.

Definition rw_lock_try_with_read {R} (self : RwLock) (f : T -> comp Σ R)
    : comp Σ (Result R TryLockError) :=
  result ← call (Σ := Σ) (TryAcquire Std Shared);
  match_try result (fun guard => read_guarded guard f).

Definition rw_lock_try_with_write {R} (self : RwLock) (f : stateful Σ T R)
    : comp Σ (Result R TryLockError) :=
  result ← call (Σ := Σ) (TryAcquire Std Exclusive);
  match_try result (fun guard => write_guarded guard f).

#[export] Instance RwLock_DataLock : DataLock Σ T RwLock := {
  with_read := @rw_lock_with_read; with_write := @rw_lock_with_write;
  try_with_read := @rw_lock_try_with_read; try_with_write := @rw_lock_try_with_write
}.
End Std.

(** ** [parking_lot] locks *)
Section ParkingLot.
Context {T : Type}.
Abbreviation Σ := (LockSig T).

(** [parking_lot::Mutex], [parking_lot::RwLock]. *)
Inductive ParkingLotMutex : Type := TheParkingLotMutex.
Inductive ParkingLotRwLock : Type := TheParkingLotRwLock.

(** [option.map(f)], the closure running in the caller. *)
Definition option_map_comp {A R} (o : option A) (f : A -> comp Σ R) : comp Σ (option R) :=
  match o with Some a => r ← f a; ret (Some r) | None => ret None end.

(** *** [ParkingLotMutex] *)
Definition parking_lot_mutex_lock (self : ParkingLotMutex) : comp Σ lock_guard :=
  call (Σ := Σ) (Acquire ParkingLot Exclusive).

Definition parking_lot_mutex_try_lock (self : ParkingLotMutex) : comp Σ (Result lock_guard TryLockError) :=
  result ← call (Σ := Σ) (TryAcquire ParkingLot Exclusive);
  ret (ok_or result WouldBlock).

#[export] Instance ParkingLotMutex_Lock : Lock Σ ParkingLotMutex lock_guard := {
  lock := parking_lot_mutex_lock; try_lock := parking_lot_mutex_try_lock
}.

#[export] Instance ParkingLotMutex_ExclusiveLock : ExclusiveLock Σ ParkingLotMutex lock_guard := {}.

Definition parking_lot_mutex_with_read {R} (self : ParkingLotMutex) (f : T -> comp Σ R) : comp Σ R :=
  guard ← call (Σ := Σ) (Acquire ParkingLot Exclusive);
  read_guarded guard f.

Definition parking_lot_mutex_with_write {R} (self : ParkingLotMutex) (f : stateful Σ T R) : comp Σ R :=
  guard ← call (Σ := Σ) (Acquire ParkingLot Exclusive);
  write_guarded guard f.

Definition parking_lot_mutex_try_with_read {R} (self : ParkingLotMutex) (f : T -> comp Σ R)
    : comp Σ (Result R TryLockError) :=
  result ← call (Σ := Σ) (TryAcquire ParkingLot Exclusive);
  mapped ← option_map_comp result (fun guard => read_guarded guard f);
  ret (ok_or mapped WouldBlock).

Definition parking_lot_mutex_try_with_write {R} (self : ParkingLotMutex) (f : stateful Σ T R)
    : comp Σ (Result R TryLockError) :=
  result ← call (Σ := Σ) (TryAcquire ParkingLot Exclusive);
  mapped ← option_map_comp result (fun guard => write_guarded guard f);
  ret (ok_or mapped WouldBlock).

#[export] Instance ParkingLotMutex_DataLock : DataLock Σ T ParkingLotMutex := {
  with_read := @parking_lot_mutex_with_read; with_write := @parking_lot_mutex_with_write;
  try_with_read := @parking_lot_mutex_try_with_read;
  try_with_write := @parking_lot_mutex_try_with_write
}.

(** *** [ParkingLotRwLock] *)
Definition parking_lot_rw_lock_read (self : ParkingLotRwLock) : comp Σ lock_guard :=
  call (Σ := Σ) (Acquire ParkingLot Shared).

Definition parking_lot_rw_lock_write (self : ParkingLotRwLock) : comp Σ lock_guard :=
  call (Σ := Σ) (Acquire ParkingLot Exclusive).

Definition parking_lot_rw_lock_try_read (self : ParkingLotRwLock) : comp Σ (Result lock_guard TryLockError) :=
  result ← call (Σ := Σ) (TryAcquire ParkingLot Shared);
  ret (ok_or result WouldBlock).

Definition parking_lot_rw_lock_try_write (self : ParkingLotRwLock) : comp Σ (Result lock_guard TryLockError) :=
  result ← call (Σ := Σ) (TryAcquire ParkingLot Exclusive);
  ret (ok_or result WouldBlock).

#[export] Instance ParkingLotRwLock_ReadWriteLock : ReadWriteLock Σ ParkingLotRwLock lock_guard lock_guard := {
  read := parking_lot_rw_lock_read; write := parking_lot_rw_lock_write;
  try_read := parking_lot_rw_lock_try_read; try_write := parking_lot_rw_lock_try_write
}.

Definition parking_lot_rw_lock_with_read {R} (self : ParkingLotRwLock) (f : T -> comp Σ R) : comp Σ R :=
  guard ← call (Σ := Σ) (Acquire ParkingLot Shared);
  read_guarded guard f.

Definition parking_lot_rw_lock_with_write {R} (self : ParkingLotRwLock) (f : stateful Σ T R) : comp Σ R :=
  guard ← call (Σ := Σ) (Acquire ParkingLot Exclusive);
  write_guarded guard f.

Definition parking_lot_rw_lock_try_with_read {R} (self : ParkingLotRwLock) (f : T -> comp Σ R)
    : comp Σ (Result R TryLockError) :=
  result ← call (Σ := Σ) (TryAcquire ParkingLot Shared);
  mapped ← option_map_comp result (fun guard => read_guarded guard f);
  ret (ok_or mapped WouldBlock).

Definition parking_lot_rw_lock_try_with_write {R} (self : ParkingLotRwLock) (f : stateful Σ T R)
    : comp Σ (Result R TryLockError) :=
  result ← call (Σ := Σ) (TryAcquire ParkingLot Exclusive);
  mapped ← option_map_comp result (fun guard => write_guarded guard f);
  ret (ok_or mapped WouldBlock).

#[export] Instance ParkingLotRwLock_DataLock : DataLock Σ T ParkingLotRwLock := {
  with_read := @parking_lot_rw_lock_with_read; with_write := @parking_lot_rw_lock_with_write;
  try_with_read := @parking_lot_rw_lock_try_with_read;
  try_with_write := @parking_lot_rw_lock_try_with_write
}.
End ParkingLot.
