(* ===== verification/AsyncLocks.v ===== *)
(** * The asynchronous locks ([src/src/lock/])

    [async_lock.rs], [async_read_write_lock.rs], [async_read_lock.rs],
    [async_write_lock.rs] and [async_data_lock.rs]: the traits over futures
    (programs of the task that awaits them), and their implementations for the
    mutex and the read-write lock of [tokio], on the signature of [Locks.v]. A
    future of an acquisition may be dropped while it waits, before it owns the
    lock; an attempt never suspends. *)
From S2P Require Import Prelude Program Primitives Locks.

(** ** The traits *)
Section Traits.
Context (Σ : Sig) (T : Type).

(** [async_lock.rs]. *)
Class AsyncLock (L Guard : Type) : Type := {
  async_lock : L -> comp Σ Guard;
  async_try_lock : L -> comp Σ (Result Guard TryLockError)
}.

(** [async_read_write_lock.rs]. *)
Class AsyncReadWriteLock (L ReadGuard WriteGuard : Type) : Type := {
  async_read : L -> comp Σ ReadGuard;
  async_write : L -> comp Σ WriteGuard;
  async_try_read : L -> comp Σ (Result ReadGuard TryLockError);
  async_try_write : L -> comp Σ (Result WriteGuard TryLockError)
}.

(** [async_data_lock.rs]. *)
Class AsyncDataLock (L : Type) : Type := {
  async_with_read : forall {R}, L -> (T -> comp Σ R) -> comp Σ R;
  async_with_write : forall {R}, L -> stateful Σ T R -> comp Σ R;
  async_try_with_read : forall {R}, L -> (T -> comp Σ R) -> comp Σ (Result R TryLockError);
  async_try_with_write : forall {R}, L -> stateful Σ T R -> comp Σ (Result R TryLockError)
}.

(** [async_read_lock.rs], [async_write_lock.rs]. *)
Record AsyncReadLock (L : Type) : Type := AsyncReadLock_new { async_read_lock_inner : L }.
Record AsyncWriteLock (L : Type) : Type := AsyncWriteLock_new { async_write_lock_inner : L }.
Arguments AsyncReadLock_new {L} async_read_lock_inner.
Arguments async_read_lock_inner {L} a.
Arguments AsyncWriteLock_new {L} async_write_lock_inner.
Arguments async_write_lock_inner {L} a.

#[export] Instance AsyncReadLock_AsyncLock {L RG WG} `{!AsyncReadWriteLock L RG WG} : AsyncLock (AsyncReadLock L) RG := {
  async_lock self := async_read (async_read_lock_inner self);
  async_try_lock self := async_try_read (async_read_lock_inner self)
}.

#[export] Instance AsyncWriteLock_AsyncLock {L RG WG} `{!AsyncReadWriteLock L RG WG} : AsyncLock (AsyncWriteLock L) WG := {
  async_lock self := async_write (async_write_lock_inner self);
  async_try_lock self := async_try_write (async_write_lock_inner self)
}.

(** Provided methods of [AsyncReadWriteLock]. *)
Definition async_read_lock {L RG WG} `{!AsyncReadWriteLock L RG WG} (self : L) : AsyncReadLock L :=
  AsyncReadLock_new self.

Definition async_write_lock {L RG WG} `{!AsyncReadWriteLock L RG WG} (self : L) : AsyncWriteLock L :=
  AsyncWriteLock_new self.

(** *** Blanket implementations for [&L] and [Arc<L>] *)
#[export] Instance Ref_AsyncLock {L G} `{!AsyncLock L G} : AsyncLock (Ref L) G := {
  async_lock self := async_lock (target self);
  async_try_lock self := async_try_lock (target self)
}.

#[export] Instance Arc_AsyncLock {L G} `{!AsyncLock L G} : AsyncLock (Arc L) G := {
  async_lock self := async_lock (as_ref self);
  async_try_lock self := async_try_lock (as_ref self)
}.

#[export] Instance Ref_AsyncReadWriteLock {L RG WG} `{!AsyncReadWriteLock L RG WG} : AsyncReadWriteLock (Ref L) RG WG := {
  async_read self := async_read (target self);
  async_write self := async_write (target self);
  async_try_read self := async_try_read (target self);
  async_try_write self := async_try_write (target self)
}.

#[export] Instance Arc_AsyncReadWriteLock {L RG WG} `{!AsyncReadWriteLock L RG WG} : AsyncReadWriteLock (Arc L) RG WG := {
  async_read self := async_read (as_ref self);
  async_write self := async_write (as_ref self);
  async_try_read self := async_try_read (as_ref self);
  async_try_write self := async_try_write (as_ref self)
}.

#[export] Instance Ref_AsyncDataLock {L} `{!AsyncDataLock L} : AsyncDataLock (Ref L) := {
  async_with_read R self f := async_with_read (target self) f;
  async_with_write R self f := async_with_write (target self) f;
  async_try_with_read R self f := async_try_with_read (target self) f;
  async_try_with_write R self f := async_try_with_write (target self) f
}.

#[export] Instance Arc_AsyncDataLock {L} `{!AsyncDataLock L} : AsyncDataLock (Arc L) := {
  async_with_read R self f := async_with_read (as_ref self) f;
  async_with_write R self f := async_with_write (as_ref self) f;
  async_try_with_read R self f := async_try_with_read (as_ref self) f;
  async_try_with_write R self f := async_try_with_write (as_ref self) f
}.
End Traits.
Arguments AsyncReadLock_new {L} async_read_lock_inner.
Arguments async_read_lock_inner {L} a.
Arguments AsyncWriteLock_new {L} async_write_lock_inner.
Arguments async_write_lock_inner {L} a.

(** ** [tokio] locks *)
Section Tokio.
Context {T : Type}.
Abbreviation Σ := (LockSig T).

(** [tokio::sync::Mutex], [tokio::sync::RwLock]. *)
Inductive TokioMutex : Type := TheTokioMutex.
Inductive TokioRwLock : Type := TheTokioRwLock.

Definition lock_await_point : comp Σ unit :=
  dropped ← call (Σ := Σ) LockAwaitPoint;
  if dropped : bool then Ret (Unwinding Cancelled) else ret tt.

(** [Mutex::lock(self).await], [RwLock::read(self).await], [RwLock::write(self).await]. *)
Definition acquire_async (m : mode) : comp Σ lock_guard :=
  _ ← lock_await_point;
  call (Σ := Σ) (Acquire Tokio m).

(** [|_| TryLockError::WouldBlock]. *)
Definition to_would_block (error : TokioTryLockError) : TryLockError := WouldBlock.

(** [result.map(f)], the closure running in the caller. *)
Definition result_map_comp {A E R} (result : Result A E) (f : A -> comp Σ R) : comp Σ (Result R E) :=
  match result with Ok a => r ← f a; ret (Ok r) | Err e => ret (Err e) end.

(** *** [TokioMutex] *)
Definition tokio_mutex_lock (self : TokioMutex) : comp Σ lock_guard := acquire_async Exclusive.

Definition tokio_mutex_try_lock (self : TokioMutex) : comp Σ (Result lock_guard TryLockError) :=
  result ← call (Σ := Σ) (TryAcquire Tokio Exclusive);
  ret (Result_map_err to_would_block result).

#[export] Instance TokioMutex_AsyncLock : AsyncLock Σ TokioMutex lock_guard := {
  async_lock := tokio_mutex_lock; async_try_lock := tokio_mutex_try_lock
}.

Definition tokio_mutex_with_read {R} (self : TokioMutex) (f : T -> comp Σ R) : comp Σ R :=
  guard ← acquire_async Exclusive;
  read_guarded guard f.

Definition tokio_mutex_with_write {R} (self : TokioMutex) (f : stateful Σ T R) : comp Σ R :=
  guard ← acquire_async Exclusive;
  write_guarded guard f.

Definition tokio_mutex_try_with_read {R} (self : TokioMutex) (f : T -> comp Σ R)
    : comp Σ (Result R TryLockError) :=
  result ← call (Σ := Σ) (TryAcquire Tokio Exclusive);
  mapped ← result_map_comp result (fun guard => read_guarded guard f);
  ret (Result_map_err to_would_block mapped).

Definition tokio_mutex_try_with_write {R} (self : TokioMutex) (f : stateful Σ T R)
    : comp Σ (Result R TryLockError) :=
  result ← call (Σ := Σ) (TryAcquire Tokio Exclusive);
  mapped ← result_map_comp result (fun guard => write_guarded guard f);
  ret (Result_map_err to_would_block mapped).

#[export] Instance TokioMutex_AsyncDataLock : AsyncDataLock Σ T TokioMutex := {
  async_with_read := @tokio_mutex_with_read; async_with_write := @tokio_mutex_with_write;
  async_try_with_read := @tokio_mutex_try_with_read; async_try_with_write := @tokio_mutex_try_with_write
}.

(** *** [TokioRwLock] *)
Definition tokio_rw_lock_read (self : TokioRwLock) : comp Σ lock_guard := acquire_async Shared.

Definition tokio_rw_lock_write (self : TokioRwLock) : comp Σ lock_guard := acquire_async Exclusive.

Definition tokio_rw_lock_try_read (self : TokioRwLock) : comp Σ (Result lock_guard TryLockError) :=
  result ← call (Σ := Σ) (TryAcquire Tokio Shared);
  ret (Result_map_err to_would_block result).

Definition tokio_rw_lock_try_write (self : TokioRwLock) : comp Σ (Result lock_guard TryLockError) :=
  result ← call (Σ := Σ) (TryAcquire Tokio Exclusive);
  ret (Result_map_err to_would_block result).

#[export] Instance TokioRwLock_AsyncReadWriteLock : AsyncReadWriteLock Σ TokioRwLock lock_guard lock_guard := {
  async_read := tokio_rw_lock_read; async_write := tokio_rw_lock_write;
  async_try_read := tokio_rw_lock_try_read; async_try_write := tokio_rw_lock_try_write
}.

Definition tokio_rw_lock_with_read {R} (self : TokioRwLock) (f : T -> comp Σ R) : comp Σ R :=
  guard ← acquire_async Shared;
  read_guarded guard f.

Definition tokio_rw_lock_with_write {R} (self : TokioRwLock) (f : stateful Σ T R) : comp Σ R :=
  guard ← acquire_async Exclusive;
  write_guarded guard f.

Definition tokio_rw_lock_try_with_read {R} (self : TokioRwLock) (f : T -> comp Σ R)
    : comp Σ (Result R TryLockError) :=
  result ← call (Σ := Σ) (TryAcquire Tokio Shared);
  mapped ← result_map_comp result (fun guard => read_guarded guard f);
  ret (Result_map_err to_would_block mapped).

Definition tokio_rw_lock_try_with_write {R} (self : TokioRwLock) (f : stateful Σ T R)
    : comp Σ (Result R TryLockError) :=
  result ← call (Σ := Σ) (TryAcquire Tokio Exclusive);
  mapped ← result_map_comp result (fun guard => write_guarded guard f);
  ret (Result_map_err to_would_block mapped).

#[export] Instance TokioRwLock_AsyncDataLock : AsyncDataLock Σ T TokioRwLock := {
  async_with_read := @tokio_rw_lock_with_read; async_with_write := @tokio_rw_lock_with_write;
  async_try_with_read := @tokio_rw_lock_try_with_read;
  async_try_with_write := @tokio_rw_lock_try_with_write
}.
End Tokio.
