(* ===== verification/DataLockMachine.v ===== *)
(** * Threads that share one lock through [DataLock] or [AsyncDataLock]

    The machine: a lock with its holders and its poison flag, and threads or
    tasks that run operations of [data_lock.rs] or of [async_data_lock.rs] one
    after the other, catching what they panic with and going on when a future of
    theirs was dropped. The specification: the same threads over a state on which every
    operation is one atomic step. *)
From S2P Require Import Prelude Program Primitives Locks AsyncLocks.

(** The four locks that implement [DataLock], and the two that implement
    [AsyncDataLock]. *)
Inductive lock_kind : Type :=
| KMutex | KRwLock | KParkingLotMutex | KParkingLotRwLock | KTokioMutex | KTokioRwLock.

Definition kind_backend (k : lock_kind) : backend :=
  match k with
  | KMutex | KRwLock => Std
  | KParkingLotMutex | KParkingLotRwLock => ParkingLot
  | KTokioMutex | KTokioRwLock => Tokio
  end.

(** How a read holds the lock. *)
Definition read_mode (k : lock_kind) : mode :=
  match k with KMutex | KParkingLotMutex | KTokioMutex => Exclusive | _ => Shared end.

Definition is_std (b : backend) : bool := match b with Std => true | _ => false end.

Definition is_tokio (b : backend) : bool := match b with Tokio => true | _ => false end.

Definition is_exclusive (m : mode) : bool := match m with Exclusive => true | Shared => false end.

Section Machine.
Context {T R : Type}.
Abbreviation Σ := (LockSig T).

(** The operations, with closures that compute on the value and may panic. *)
Inductive data_op : Type :=
| Read (f : T -> outcome R)
| Write (f : T -> T * outcome R)
| TryRead (f : T -> outcome R)
| TryWrite (f : T -> T * outcome R).

Abbreviation answer := (outcome (Result R TryLockError)).

(** A closure that only reads. *)
Definition reading (f : T -> outcome R) : T -> comp Σ R := fun s => Ret (f s).

Definition run_on_lock {L} `{!DataLock Σ T L} (self : L) (op : data_op) : comp Σ (Result R TryLockError) :=
  match op with
  | Read f => r ← with_read Σ T self (reading f); ret (Ok r)
  | Write f => r ← with_write Σ T self (action f); ret (Ok r)
  | TryRead f => try_with_read Σ T self (reading f)
  | TryWrite f => try_with_write Σ T self (action f)
  end.

Definition run_on_async_lock {L} `{!AsyncDataLock Σ T L} (self : L) (op : data_op) : comp Σ (Result R TryLockError) :=
  match op with
  | Read f => r ← async_with_read Σ T self (reading f); ret (Ok r)
  | Write f => r ← async_with_write Σ T self (action f); ret (Ok r)
  | TryRead f => async_try_with_read Σ T self (reading f)
  | TryWrite f => async_try_with_write Σ T self (action f)
  end.

Definition run_op (k : lock_kind) : data_op -> comp Σ (Result R TryLockError) :=
  match k with
  | KMutex => run_on_lock TheMutex
  | KRwLock => run_on_lock TheRwLock
  | KParkingLotMutex => run_on_lock TheParkingLotMutex
  | KParkingLotRwLock => run_on_lock TheParkingLotRwLock
  | KTokioMutex => run_on_async_lock TheTokioMutex
  | KTokioRwLock => run_on_async_lock TheTokioRwLock
  end.

(** ** The lock *)
Record lock_state : Type := MkLockState {
  lock_value : T;
  writer : option nat;
  readers : list nat;
  lock_poisoned : bool
}.

Definition lock_new (value : T) : lock_state :=
  {| lock_value := value; writer := None; readers := []; lock_poisoned := false |}.

(** Whether [m] can be granted, and the holders once it is. *)
Definition available (s : lock_state) (m : mode) : bool :=
  match writer s, m with
  | None, Shared => true
  | None, Exclusive => bool_decide (readers s = [])
  | Some _, _ => false
  end.

Definition hold (t : nat) (s : lock_state) (m : mode) : lock_state :=
  match m with
  | Shared => MkLockState (lock_value s) (writer s) (t :: readers s) (lock_poisoned s)
  | Exclusive => MkLockState (lock_value s) (Some t) (readers s) (lock_poisoned s)
  end.

Definition holds (t : nat) (s : lock_state) (m : mode) : bool :=
  match m with Shared => bool_decide (t ∈ readers s) | Exclusive => bool_decide (writer s = Some t) end.

(** One occurrence less. *)
Fixpoint leave (t : nat) (ts : list nat) : list nat :=
  match ts with
  | [] => []
  | t' :: ts => if decide (t' = t) then ts else t' :: leave t ts
  end.

(** Only the standard library's exclusive guards poison. *)
Definition release (t : nat) (s : lock_state) (g : lock_guard) (panicking : bool) : lock_state :=
  match guard_mode g with
  | Shared => MkLockState (lock_value s) (writer s) (leave t (readers s)) (lock_poisoned s)
  | Exclusive =>
      MkLockState (lock_value s) None (readers s)
        (lock_poisoned s || (panicking && is_std (guard_backend g)))
  end.

Definition set_lock_value (s : lock_state) (value : T) : lock_state :=
  MkLockState value (writer s) (readers s) (lock_poisoned s).

Definition acquired (poisoned : bool) (b : backend) (m : mode) : lock_answer (T := T) (Acquire b m) :=
  let g := MkLockGuard b m in
  match b return lock_answer (T := T) (Acquire b m) with
  | Std => if poisoned then Err (MkPoisonError g) else Ok g
  | ParkingLot | Tokio => g
  end.

Definition try_acquired (poisoned : bool) (b : backend) (m : mode)
    : lock_answer (T := T) (TryAcquire b m) :=
  let g := MkLockGuard b m in
  match b return lock_answer (T := T) (TryAcquire b m) with
  | Std => if poisoned then Err (StdPoisoned (MkPoisonError g)) else Ok g
  | ParkingLot => Some g
  | Tokio => Ok g
  end.

Definition would_block (b : backend) (m : mode) : lock_answer (T := T) (TryAcquire b m) :=
  match b return lock_answer (T := T) (TryAcquire b m) with
  | Std => Err StdWouldBlock
  | ParkingLot => None
  | Tokio => Err NotNow
  end.

(** [refuse]: an implementation may refuse an attempt that it could grant (a
    read while writers queue), and a future may be dropped. *)
Definition lock_handle (t : nat) (s : lock_state) (refuse : bool) (e : lock_call T)
    : option (lock_answer e * lock_state) :=
  match e return option (lock_answer e * lock_state) with
  | Acquire b m =>
      if available s m then Some (acquired (lock_poisoned s) b m, hold t s m) else None
  | LockAwaitPoint => Some (refuse, s)
  | TryAcquire b m =>
      if available s m && negb refuse
      then Some (try_acquired (lock_poisoned s) b m, hold t s m)
      else Some (would_block b m, s)
  | Release g panicking =>
      if holds t s (guard_mode g) then Some (tt, release t s g panicking) else None
  | GetValue g => if holds t s (guard_mode g) then Some (lock_value s, s) else None
  | SetValue g value =>
      if holds t s (guard_mode g) && is_exclusive (guard_mode g)
      then Some (tt, set_lock_value s value) else None
  end.

(** ** The threads *)
Record user : Type := MkUser {
  current : option (comp Σ (Result R TryLockError));
  todo : list data_op;
  log : list answer
}.

Record lock_config : Type := MkLockConfig { the_lock : lock_state; users : list user }.

(** The next step of a thread: call, one call on the lock, or return. *)
Definition user_step (k : lock_kind) (t : nat) (refuse : bool) (s : lock_state) (u : user)
    : option (lock_state * user) :=
  match current u with
  | None =>
      match todo u with
      | [] => None
      | op :: ops => Some (s, MkUser (Some (run_op k op)) ops (log u))
      end
  | Some p =>
      match next p with
      | HRet o => Some (s, MkUser None (todo u) (log u ++ [o]))
      | HTau p' => Some (s, MkUser (Some p') (todo u) (log u))
      | HVis e continue =>
          match lock_handle t s refuse e with
          | Some (r, s') => Some (s', MkUser (Some (continue r)) (todo u) (log u))
          | None => None
          end
      end
  end.

Inductive lock_step (k : lock_kind) : lock_config -> lock_config -> Prop :=
| lock_run t refuse c u s u' :
    users c !! t = Some u -> user_step k t refuse (the_lock c) u = Some (s, u') ->
    lock_step k c (MkLockConfig s (<[t := u']> (users c))).

Definition lock_initial (value : T) (ops : list (list data_op)) : lock_config :=
  MkLockConfig (lock_new value) (List.map (fun todo => MkUser None todo []) ops).

Definition lock_reachable (k : lock_kind) (value : T) (ops : list (list data_op)) : lock_config -> Prop :=
  rtc (lock_step k) (lock_initial value ops).

Definition lock_stuck (k : lock_kind) (c : lock_config) : Prop :=
  forall t u refuse, users c !! t = Some u -> user_step k t refuse (the_lock c) u = None.

Definition done (u : user) : Prop := current u = None /\ todo u = [].

(** ** The atomic operations *)
Definition is_try (op : data_op) : bool :=
  match op with TryRead _ | TryWrite _ => true | _ => false end.

Definition op_mode (k : lock_kind) (op : data_op) : mode :=
  match op with Read _ | TryRead _ => read_mode k | _ => Exclusive end.

(** The value an operation leaves and how its closure ends. *)
Definition effect (op : data_op) (value : T) : T * outcome R :=
  match op with
  | Read f | TryRead f => (value, f value)
  | Write f | TryWrite f => f value
  end.

(** The answer on a poisoned lock. *)
Definition on_poisoned (op : data_op) : answer :=
  if is_try op then Returned (Err Poisoned) else Unwinding (Panic unwrap_message).

(** Whether a panic of the closure poisons. *)
Definition poisons (k : lock_kind) (op : data_op) : bool :=
  is_std (kind_backend k) && is_exclusive (op_mode k op).

Definition rejects (k : lock_kind) (poisoned : bool) : bool :=
  is_std (kind_backend k) && poisoned.

(** The answer of a refused attempt, and of a dropped future. *)
Definition on_refusal (k : lock_kind) (op : data_op) : option answer :=
  if is_try op then Some (Returned (Err WouldBlock))
  else if is_tokio (kind_backend k) then Some (Unwinding Cancelled)
  else None.

Definition atomic (k : lock_kind) (op : data_op) (refuse : bool) (state : T * bool)
    : (T * bool) * answer :=
  let '(value, poisoned) := state in
  match (if refuse then on_refusal k op else None) with
  | Some refusal => (state, refusal)
  | None =>
      if rejects k poisoned then (state, on_poisoned op)
      else
        let '(value', end_) := effect op value in
        ((value', poisoned || (is_unwinding end_ && poisons k op)), outcome_map Ok end_)
  end.

(** A thread of the specification calls, commits and returns. *)
Inductive activity : Type := Idle | Called (op : data_op) | Committed (a : answer).

Record spec_user : Type := MkSpecUser {
  spec_activity : activity;
  spec_todo : list data_op;
  spec_log : list answer
}.

Record spec_config : Type := MkSpecConfig { spec_state : T * bool; spec_users : list spec_user }.

Inductive spec_step (k : lock_kind) : spec_config -> spec_config -> Prop :=
| spec_call t a op ops l :
    spec_users a !! t = Some (MkSpecUser Idle (op :: ops) l) ->
    spec_step k a (MkSpecConfig (spec_state a) (<[t := MkSpecUser (Called op) ops l]> (spec_users a)))
| spec_commit t refuse a op ops l :
    spec_users a !! t = Some (MkSpecUser (Called op) ops l) ->
    spec_step k a
      (MkSpecConfig (atomic k op refuse (spec_state a)).1
        (<[t := MkSpecUser (Committed (atomic k op refuse (spec_state a)).2) ops l]> (spec_users a)))
| spec_return t a o ops l :
    spec_users a !! t = Some (MkSpecUser (Committed o) ops l) ->
    spec_step k a (MkSpecConfig (spec_state a) (<[t := MkSpecUser Idle ops (l ++ [o])]> (spec_users a))).

Definition spec_initial (value : T) (ops : list (list data_op)) : spec_config :=
  MkSpecConfig (value, false) (List.map (fun todo => MkSpecUser Idle todo []) ops).

Definition spec_reachable (k : lock_kind) (value : T) (ops : list (list data_op)) : spec_config -> Prop :=
  rtc (spec_step k) (spec_initial value ops).
End Machine.
Arguments data_op : clear implicits.
Arguments lock_state : clear implicits.
Arguments lock_config : clear implicits.
Arguments user : clear implicits.
Arguments spec_config : clear implicits.
