(* ===== verification/DataLockSpec.v ===== *)
(** * What one [DataLock] or [AsyncDataLock] operation does to the lock

    The phases of an operation, the calls each phase may make, and the contract
    that the implementations of [Locks.v] and
    [AsyncLocks.v] meet. *)
From S2P Require Import Prelude Program Primitives Locks AsyncLocks DataLockMachine.

Section Phases.
Context {T R : Type} (k : lock_kind) (op : data_op T R).
Abbreviation Σ := (LockSig T).
Abbreviation answer := (outcome (Result R TryLockError)).

(** Before the lock; past the await of its acquisition; holding it ([bad]: poisoned); with the value read; with the
    new value written; the lock released with an answer. *)
Inductive phase : Type :=
| PStart
| PAwaited
| PHeld (bad : bool)
| PGot (value : T)
| PSet (value : T)
| PDone (o : answer).

Definition op_guard : lock_guard := MkLockGuard (kind_backend k) (op_mode k op).

Definition writes : bool := match op with Write _ | TryWrite _ => true | _ => false end.

Definition op_may (l : phase) (e : lock_call T) : Prop :=
  match l, e with
  | PStart, Acquire b m => is_try op = false /\ is_tokio b = false /\ MkLockGuard b m = op_guard
  | PStart, LockAwaitPoint => is_try op = false /\ is_tokio (kind_backend k) = true
  | PAwaited, Acquire b m => MkLockGuard b m = op_guard
  | PStart, TryAcquire b m => is_try op = true /\ MkLockGuard b m = op_guard
  | PHeld false, GetValue g => g = op_guard
  | PHeld true, Release g _ => g = op_guard
  | PGot v, SetValue g v' => g = op_guard /\ writes = true /\ v' = (effect op v).1
  | PGot v, Release g p => g = op_guard /\ writes = false /\ p = is_unwinding (effect op v).2
  | PSet v, Release g p => g = op_guard /\ p = is_unwinding (effect op v).2
  | _, _ => False
  end.

(** What the answer of an acquisition says: poisoned or not, or refused. *)
Definition acquire_result (e : lock_call T) : lock_answer e -> option (lock_guard * bool) :=
  match e return lock_answer e -> option (lock_guard * bool) with
  | Acquire Std _ => fun r => Some (match r with Ok g => (g, false) | Err p => (into_inner p, true) end)
  | Acquire ParkingLot _ | Acquire Tokio _ => fun g => Some (g, false)
  | TryAcquire Std _ => fun r =>
      match r with
      | Ok g => Some (g, false)
      | Err (StdPoisoned p) => Some (into_inner p, true)
      | Err StdWouldBlock => None
      end
  | TryAcquire ParkingLot _ => fun r => match r with Some g => Some (g, false) | None => None end
  | TryAcquire Tokio _ => fun r => match r with Ok g => Some (g, false) | Err _ => None end
  | _ => fun _ => None
  end.

Definition op_assume (l : phase) (e : lock_call T) (r : lock_answer e) : Prop :=
  forall g bad, acquire_result e r = Some (g, bad) -> g = op_guard.

Definition op_move (l : phase) (e : lock_call T) : lock_answer e -> phase :=
  match e return lock_answer e -> phase with
  | GetValue _ => fun v => PGot v
  | SetValue _ _ => fun _ => match l with PGot v => PSet v | _ => l end
  | Release _ _ => fun _ =>
      match l with
      | PGot v | PSet v => PDone (outcome_map Ok (effect op v).2)
      | _ => PDone (on_poisoned op)
      end
  | LockAwaitPoint => fun dropped => if dropped then PDone (Unwinding Cancelled) else PAwaited
  | e => fun r =>
      match acquire_result e r with
      | Some (_, bad) => PHeld bad
      | None => PDone (Returned (Err WouldBlock))
      end
  end.

Definition op_rules : rules Σ phase :=
  {| allowed := op_may : phase -> Op Σ -> Prop;
     assume := op_assume : phase -> forall e : Op Σ, Resp e -> Prop;
     after := op_move : phase -> forall e : Op Σ, Resp e -> phase |}.

Definition op_ends (l : phase) (o : answer) : Prop := l = PDone o.

Abbreviation safe' := (safe op_rules).

Lemma op_call n l (e : lock_call T) (Q : phase -> outcome (lock_answer e) -> Prop) :
  op_may l e -> (forall r, op_assume l e r -> Q (op_move l e r) (Returned r)) ->
  safe' n l (call (Σ := Σ) e) Q.
Proof. intros Hm HQ. exact (safe_call_c op_rules n l e Q Hm HQ). Qed.

(** The drop of a guard. *)
Lemma guard_release_spec n l g p (Q : phase -> outcome unit -> Prop) :
  op_may l (Release g p) -> Q (op_move l (Release g p) tt) (Returned tt) ->
  safe' n l (drop_lock_guard g p) Q.
Proof. intros Hm HQ. apply (op_call n l (Release g p)); [done|]. by intros []. Qed.

Lemma read_guarded_spec n f (Q : phase -> outcome R -> Prop) :
  (forall v, effect op v = (v, f v)) -> writes = false ->
  (forall v, Q (PDone (outcome_map Ok (f v))) (f v)) ->
  safe' n (PHeld false) (read_guarded op_guard (reading f)) Q.
Proof.
  intros Hf Hw HQ. apply safe_scoped, safe_sbind, safe_ret. intros i _.
  apply safe_sbind, safe_lift, (op_call _ _ (GetValue op_guard)); [done|]. intros v _ i1 _.
  apply safe_lift, safe_ret. intros i2 _. simpl. apply guard_release_spec; simpl.
  - by rewrite Hf.
  - rewrite Hf. specialize (HQ v). simpl. by destruct (f v).
Qed.

Lemma write_guarded_spec n f (Q : phase -> outcome R -> Prop) :
  (forall v, effect op v = f v) -> writes = true ->
  (forall v, Q (PDone (outcome_map Ok (f v).2)) (f v).2) ->
  safe' n (PHeld false) (write_guarded op_guard (action f)) Q.
Proof.
  intros Hf Hw HQ. apply safe_scoped, safe_sbind, safe_ret. intros i _.
  apply safe_sbind, safe_lift, (op_call _ _ (GetValue op_guard)); [done|]. intros v _ i1 _.
  apply safe_sbind, safe_run_on, safe_ret. intros i2 _.
  apply safe_sbind, safe_lift, (op_call _ _ (SetValue op_guard (f v).1)); [by rewrite <- Hf|].
  intros [] _ i3 _. apply safe_lift. specialize (HQ v).
  assert (Hrel : forall m o, o = (f v).2 ->
    safe' m (PSet v) (drop_lock_guard op_guard (is_unwinding o))
      (fun l d => l = PDone (outcome_map Ok o) /\ d = Returned tt)).
  { intros m o ->. apply guard_release_spec; simpl; by rewrite Hf. }
  apply safe_ret. intros i4 _. destruct (f v) as [v' [r|c]]; simpl in *.
  - eapply safe_mono; [reflexivity|by apply (Hrel i4 (Returned r))|]. by intros l d [-> ->].
  - eapply safe_mono; [reflexivity|by apply (Hrel i4 (Unwinding c))|]. by intros l d [-> _].
Qed.

(** A lock of [std]: acquire, unwrap, go on with the guard. *)
Lemma std_acquire_spec {A} n m (ok : lock_guard -> comp Σ A) (Q : phase -> outcome A -> Prop) :
  is_try op = false -> MkLockGuard Std m = op_guard ->
  (forall i, safe' i (PHeld false) (ok op_guard) Q) ->
  Q (PDone (on_poisoned op)) (Unwinding (Panic unwrap_message)) ->
  safe' n PStart (result ← call (Σ := Σ) (Acquire Std m); guard ← unwrap_guard result; ok guard) Q.
Proof.
  intros Hop Hg Hok Hbad. apply safe_cbind, (op_call _ _ (Acquire Std m)); [done|].
  intros r Hr i _. destruct r as [g|[g]]; specialize (Hr g _ eq_refl); subst g.
  - apply safe_cbind, safe_return. intros j _. apply Hok.
  - apply safe_cbind. eapply safe_bind; [by apply (guard_release_spec _ _ _ true (fun l _ => l = PDone (on_poisoned op)))|].
    intros j l' _ _ ->. by apply safe_ret.
Qed.

(** An attempt on a lock of [std]. *)
Lemma std_attempt_spec {A} n m (ok : lock_guard -> comp Σ A) (Q : phase -> outcome (Result A TryLockError) -> Prop) :
  is_try op = true -> MkLockGuard Std m = op_guard ->
  (forall i, safe' i (PHeld false) (ok op_guard) (fun l o => Q l (outcome_map Ok o))) ->
  Q (PDone (on_poisoned op)) (Returned (Err Poisoned)) ->
  Q (PDone (Returned (Err WouldBlock))) (Returned (Err WouldBlock)) ->
  safe' n PStart (result ← call (Σ := Σ) (TryAcquire Std m); match_try result ok) Q.
Proof.
  intros Hop Hg Hok Hbad Hno. apply safe_cbind, (op_call _ _ (TryAcquire Std m)); [done|].
  intros r Hr i _. destruct r as [g|[|[g]]]; try (specialize (Hr g _ eq_refl); subst g).
  - apply safe_cbind. eapply safe_mono; [reflexivity|apply Hok|].
    intros l [a|c] HQ; [|done]. intros j _. by apply safe_return.
  - by apply safe_return.
  - apply safe_cbind, guard_release_spec; [done|]. intros j _. by apply safe_return.
Qed.

(** A lock of [parking_lot]. *)
Lemma parking_lot_acquire_spec {A} n m (ok : lock_guard -> comp Σ A) (Q : phase -> outcome A -> Prop) :
  is_try op = false -> MkLockGuard ParkingLot m = op_guard ->
  (forall i, safe' i (PHeld false) (ok op_guard) Q) ->
  safe' n PStart (guard ← call (Σ := Σ) (Acquire ParkingLot m); ok guard) Q.
Proof.
  intros Hop Hg Hok. apply safe_cbind, (op_call _ _ (Acquire ParkingLot m)); [done|].
  intros g Hr i _. rewrite (Hr g _ eq_refl). apply Hok.
Qed.

(** An attempt on a lock of [parking_lot]. *)
Lemma parking_lot_attempt_spec {A} n m (ok : lock_guard -> comp Σ A) (Q : phase -> outcome (Result A TryLockError) -> Prop) :
  is_try op = true -> MkLockGuard ParkingLot m = op_guard ->
  (forall i, safe' i (PHeld false) (ok op_guard) (fun l o => Q l (outcome_map Ok o))) ->
  Q (PDone (Returned (Err WouldBlock))) (Returned (Err WouldBlock)) ->
  safe' n PStart (result ← call (Σ := Σ) (TryAcquire ParkingLot m);
                  mapped ← option_map_comp result ok; ret (ok_or mapped WouldBlock)) Q.
Proof.
  intros Hop Hg Hok Hno. apply safe_cbind, (op_call _ _ (TryAcquire ParkingLot m)); [done|].
  intros [g|] Hr i _; apply safe_cbind.
  - rewrite (Hr g _ eq_refl). apply safe_cbind. eapply safe_mono; [reflexivity|apply Hok|].
    intros l [a|c] HQ; [|done]. intros j _. apply safe_return. intros j1 _. by apply safe_return.
  - apply safe_return. intros j _. by apply safe_return.
Qed.

(** A lock of [tokio]. *)
Lemma tokio_acquire_spec {A} n m (ok : lock_guard -> comp Σ A) (Q : phase -> outcome A -> Prop) :
  is_try op = false -> MkLockGuard Tokio m = op_guard ->
  (forall i, safe' i (PHeld false) (ok op_guard) Q) ->
  Q (PDone (Unwinding Cancelled)) (Unwinding Cancelled) ->
  safe' n PStart (guard ← acquire_async m; ok guard) Q.
Proof.
  intros Hop Hg Hok Hno. apply safe_cbind, safe_cbind, safe_cbind, (op_call _ _ LockAwaitPoint).
  { split; [done|]. by injection Hg as <-. }
  intros [] _ i _; [by apply safe_ret|]. apply safe_return. intros j _.
  apply (op_call _ _ (Acquire Tokio m)); [done|]. intros g Hr j1 _. rewrite (Hr g _ eq_refl). apply Hok.
Qed.

(** An attempt on a lock of [tokio]. *)
Lemma tokio_attempt_spec {A} n m (ok : lock_guard -> comp Σ A) (Q : phase -> outcome (Result A TryLockError) -> Prop) :
  is_try op = true -> MkLockGuard Tokio m = op_guard ->
  (forall i, safe' i (PHeld false) (ok op_guard) (fun l o => Q l (outcome_map Ok o))) ->
  Q (PDone (Returned (Err WouldBlock))) (Returned (Err WouldBlock)) ->
  safe' n PStart (result ← call (Σ := Σ) (TryAcquire Tokio m);
                  mapped ← result_map_comp result ok; ret (Result_map_err to_would_block mapped)) Q.
Proof.
  intros Hop Hg Hok Hno. apply safe_cbind, (op_call _ _ (TryAcquire Tokio m)); [done|].
  intros [g|e] Hr i _; apply safe_cbind.
  - rewrite (Hr g _ eq_refl). apply safe_cbind. eapply safe_mono; [reflexivity|apply Hok|].
    intros l [a|c] HQ; [|done]. intros j _. apply safe_return. intros j1 _. by apply safe_return.
  - apply safe_return. intros j _. by apply safe_return.
Qed.
End Phases.
Arguments phase : clear implicits.

(** ** The contract of a [DataLock] and of an [AsyncDataLock] *)
Section Contract.
Context {T R : Type}.
Abbreviation Σ := (LockSig T).

(** Every operation runs through its phases and ends with the answer that its
    last call fixed. *)
Definition follows (k : lock_kind) (run : data_op T R -> comp Σ (Result R TryLockError)) : Prop :=
  forall op n, safe (op_rules k op) n PStart (run op) op_ends.

Class LockContract (k : lock_kind) (L : Type) `{!DataLock Σ T L} : Prop :=
  lock_contract : forall self : L, follows k (run_on_lock self).

Class AsyncLockContract (k : lock_kind) (L : Type) `{!AsyncDataLock Σ T L} : Prop :=
  async_lock_contract : forall self : L, follows k (run_on_async_lock self).

(** The closure of an operation, run under the guard. *)
Ltac closure :=
  let j := fresh in intros j;
  first [apply read_guarded_spec|apply write_guarded_spec]; [done|done|];
  let v := fresh in intros v; cbn [effect]; match goal with |- context [outcome_map _ ?o] => destruct o end;
  try done; intros ? _; by apply safe_return.

Ltac operation :=
  unfold follows, op_ends; intros [f|f|f|f] n; cbn [run_on_lock run_on_async_lock];
  [apply safe_cbind; first [eapply std_acquire_spec|eapply parking_lot_acquire_spec|eapply tokio_acquire_spec]
  |apply safe_cbind; first [eapply std_acquire_spec|eapply parking_lot_acquire_spec|eapply tokio_acquire_spec]
  |first [eapply std_attempt_spec|eapply parking_lot_attempt_spec|eapply tokio_attempt_spec]
  |first [eapply std_attempt_spec|eapply parking_lot_attempt_spec|eapply tokio_attempt_spec]];
  first [done|closure].

#[export] Instance Mutex_contract : LockContract KMutex Mutex.
Proof. intros self. operation. Qed.

#[export] Instance RwLock_contract : LockContract KRwLock RwLock.
Proof. intros self. operation. Qed.

#[export] Instance ParkingLotMutex_contract : LockContract KParkingLotMutex ParkingLotMutex.
Proof. intros self. operation. Qed.

#[export] Instance ParkingLotRwLock_contract : LockContract KParkingLotRwLock ParkingLotRwLock.
Proof. intros self. operation. Qed.

#[export] Instance TokioMutex_contract : AsyncLockContract KTokioMutex TokioMutex.
Proof. intros self. operation. Qed.

#[export] Instance TokioRwLock_contract : AsyncLockContract KTokioRwLock TokioRwLock.
Proof. intros self. operation. Qed.

Lemma run_op_follows k : follows k (run_op k).
Proof. destruct k; first [apply lock_contract|apply async_lock_contract]. Qed.
End Contract.
