(* ===== verification/DataLocks.v ===== *)
(** * [DataLock] and [AsyncDataLock] operations are atomic

    Any number of threads or tasks run operations of one lock under any schedule:
    each operation takes effect at one instant between its call and its return,
    as the specification of [DataLockMachine.v] says, and the threads never
    block each other for ever. *)
From stdpp Require Import functions.
From S2P Require Import Prelude Program Primitives Locks AsyncLocks DataLockMachine DataLockSpec.

Section Invariant.
Context {T R : Type} (k : lock_kind).
Abbreviation Σ := (LockSig T).
Abbreviation answer := (outcome (Result R TryLockError)).

(** What a thread is doing. *)
Inductive local : Type :=
| LIdle
| LRun (op : data_op T R) (l : phase T R).

Implicit Types (φ : nat -> local) (s : lock_state T) (a : T * bool).

Definition holding (l : phase T R) : bool :=
  match l with PHeld _ | PGot _ | PSet _ => true | _ => false end.

Definition in_mode (x : local) (m : mode) : Prop :=
  match x with LRun op l => holding l = true /\ op_mode k op = m | LIdle => False end.

(** What a phase knows of the lock, whose specified state is [a]. *)
Definition phase_ok s a (op : data_op T R) (l : phase T R) : Prop :=
  match l with
  | PHeld bad => bad = rejects k a.2 /\ lock_value s = a.1
  | PGot v => v = a.1 /\ rejects k a.2 = false /\ lock_value s = a.1
  | PSet v => v = a.1 /\ rejects k a.2 = false /\ lock_value s = (effect op a.1).1 /\ op_mode k op = Exclusive
  | _ => True
  end.

Record lock_inv φ s a : Prop := {
  li_writer : forall t, writer s = Some t <-> in_mode (φ t) Exclusive;
  li_readers : forall t, t ∈ readers s <-> in_mode (φ t) Shared;
  li_nodup : NoDup (readers s);
  li_excl : writer s <> None -> readers s = [];
  li_poison : lock_poisoned s = a.2;
  li_phase : forall t op l, φ t = LRun op l -> phase_ok s a op l;
  li_free : writer s = None -> lock_value s = a.1
}.

(** One thread changes what it is doing. *)
Lemma local_change (P : nat -> local -> Prop) φ t x :
  P t x -> (forall t', t' <> t -> P t' (φ t')) -> forall t', P t' (<[t := x]> φ t').
Proof.
  intros Ht Hne t'. destruct (decide (t' = t)) as [->|Hn].
  - by rewrite fn_lookup_insert.
  - rewrite fn_lookup_insert_ne by done. auto.
Qed.

(** Nobody else holds a lock held exclusively. *)
Lemma alone φ s a t t' :
  lock_inv φ s a -> writer s = Some t -> t' <> t -> forall m, ~ in_mode (φ t') m.
Proof.
  intros Hi Hw Hne [] Hin.
  - apply (li_readers _ _ _ Hi) in Hin. rewrite (li_excl _ _ _ Hi) in Hin by congruence. by apply not_elem_of_nil in Hin.
  - apply (li_writer _ _ _ Hi) in Hin. congruence.
Qed.

Lemma not_holding_ok s a s' a' op l :
  phase_ok s a op l -> (forall m, ~ in_mode (LRun op l) m) -> phase_ok s' a' op l.
Proof. intros Hp Hn. destruct l; try done; destruct (Hn (op_mode k op)); done. Qed.

(** A move that keeps the holders. *)
Lemma stay φ s a t op l l' s' :
  lock_inv φ s a -> φ t = LRun op l -> holding l' = holding l -> s' = s \/
    (writer s = Some t /\ exists v, s' = set_lock_value s v) ->
  phase_ok s' a op l' -> lock_inv (<[t := LRun op l']> φ) s' a.
Proof.
  intros Hi Ht Hh Hs Hp.
  assert (Hmode : forall m, in_mode (LRun op l') m <-> in_mode (φ t) m) by (intros m; simpl; by rewrite Ht, Hh).
  assert (Hsame : writer s' = writer s /\ readers s' = readers s /\ lock_poisoned s' = lock_poisoned s).
  { destruct Hs as [->|(_ & v & ->)]; done. }
  destruct Hsame as (Hw & Hr & Hpo). split; rewrite ?Hw, ?Hr, ?Hpo.
  - apply (local_change (fun t x => _ <-> in_mode x _)); [rewrite Hmode|intros ? _]; apply Hi.
  - apply (local_change (fun t x => _ <-> in_mode x _)); [rewrite Hmode|intros ? _]; apply Hi.
  - apply Hi.
  - apply Hi.
  - apply Hi.
  - intros t'. apply (local_change (fun t x => forall op l, x = LRun op l -> phase_ok s' a op l)); clear t'.
    + by intros ? ? [= <- <-].
    + intros t' Hne op' l0 Ht'. pose proof (li_phase _ _ _ Hi t' op' l0 Ht') as Hp'.
      destruct Hs as [->|(Hown & v & ->)]; [done|]. eapply not_holding_ok; [exact Hp'|].
      rewrite <- Ht'. by eapply alone.
  - intros Hnone. destruct Hs as [->|(Hown & _)]; [by apply Hi|congruence].
Qed.

Lemma acquire_inv φ s a t op l0 bad :
  lock_inv φ s a -> φ t = LRun op l0 -> holding l0 = false -> available s (op_mode k op) = true ->
  bad = rejects k a.2 ->
  lock_inv (<[t := LRun op (PHeld bad)]> φ) (hold t s (op_mode k op)) a.
Proof.
  intros Hi Ht Hl Hav ->. unfold available in Hav. destruct (writer s) as [|] eqn:Hw; [done|].
  assert (Hnin : forall m, ~ in_mode (φ t) m) by (intros m; rewrite Ht; simpl; rewrite Hl; by intros []).
  assert (Hothers : forall m t', (writer s = Some t' <-> in_mode (φ t') m) -> ~ in_mode (φ t') m).
  { intros m t'. rewrite Hw. by intros [_ Hx] ?%Hx. }
  destruct (op_mode k op) eqn:Hm; simpl.
  - split; simpl.
    + rewrite Hw. apply (local_change (fun t x => _ <-> in_mode x Exclusive)).
      * simpl. rewrite Hm. split; [done|]. by intros [_ ?].
      * intros t' _. rewrite <- Hw. apply Hi.
    + apply (local_change (fun t' x => t' ∈ _ <-> in_mode x Shared)); simpl.
      * split; [done|]. intros _. by left.
      * intros t' Hne. rewrite elem_of_cons, <- (li_readers _ _ _ Hi). intuition congruence.
    + constructor; [|apply Hi]. intros Hin%(li_readers _ _ _ Hi). by eapply Hnin.
    + by rewrite Hw.
    + apply Hi.
    + intros t'. apply (local_change (fun t x => forall op l, x = LRun op l -> phase_ok _ a op l)); clear t'.
      * intros ? ? [= <- <-]. split; [done|]. by apply Hi.
      * intros t' Hne op' l Ht'. exact (li_phase _ _ _ Hi t' op' l Ht').
    + intros _. by apply Hi.
  - apply bool_decide_eq_true in Hav. split; simpl.
    + apply (local_change (fun t' x => Some t = Some t' <-> in_mode x Exclusive)); simpl.
      * done.
      * intros t' Hne. rewrite <- (li_writer _ _ _ Hi), Hw. intuition congruence.
    + apply (local_change (fun t' x => t' ∈ _ <-> in_mode x Shared)); simpl.
      * rewrite Hav, Hm. split; [by intros ?%not_elem_of_nil|]. by intros [_ ?].
      * intros t' Hne. apply Hi.
    + apply Hi.
    + done.
    + apply Hi.
    + intros t'. apply (local_change (fun t x => forall op l, x = LRun op l -> phase_ok _ a op l)); clear t'.
      * intros ? ? [= <- <-]. split; [done|]. by apply Hi.
      * intros t' Hne op' l Ht'. exact (li_phase _ _ _ Hi t' op' l Ht').
    + done.
Qed.

Lemma elem_of_leave t t' ts : NoDup ts -> (t' ∈ leave t ts <-> t' ∈ ts /\ t' <> t).
Proof.
  induction 1 as [|t0 ts Hnin _ IH]; simpl.
  - split; [by intros ?%not_elem_of_nil|]. by intros [?%not_elem_of_nil _].
  - destruct (decide (t0 = t)) as [->|Hne].
    + rewrite elem_of_cons. split; [|by intros [[->|?] ?]]. intros Hin. split; [by right|]. by intros ->.
    + rewrite !elem_of_cons, IH. intuition congruence.
Qed.

Lemma NoDup_leave t ts : NoDup ts -> NoDup (leave t ts).
Proof.
  induction 1 as [|t0 ts Hnin Hd IH]; simpl; [constructor|]. destruct (decide (t0 = t)); [done|].
  constructor; [|done]. by rewrite elem_of_leave by done; intros [? _].
Qed.

(** A holder lets go and commits the state [a']. *)
Lemma release_inv φ s a a' t op l o p :
  lock_inv φ s a -> φ t = LRun op l -> holding l = true -> lock_value s = a'.1 ->
  lock_poisoned (release t s (op_guard k op) p) = a'.2 -> (op_mode k op = Shared -> a' = a) ->
  lock_inv (<[t := LRun op (PDone o)]> φ) (release t s (op_guard k op) p) a'.
Proof.
  intros Hi Ht Hh Hv Hp Hsh. unfold release in *. cbn [guard_mode op_guard] in *.
  assert (Hmine : in_mode (φ t) (op_mode k op)) by (by rewrite Ht).
  destruct (op_mode k op) eqn:Hm; cbn [lock_poisoned] in *.
  - specialize (Hsh eq_refl) as ->. apply (li_readers _ _ _ Hi) in Hmine as Hin.
    assert (Hw : writer s = None).
    { destruct (writer s) eqn:Hw; [|done]. rewrite (li_excl _ _ _ Hi) in Hin by congruence. by apply not_elem_of_nil in Hin. }
    split; simpl.
    + apply (local_change (fun t' x => _ <-> in_mode x Exclusive)); simpl; [|intros ? _; apply Hi].
      rewrite Hw. split; [done|]. by intros [? _].
    + apply (local_change (fun t' x => t' ∈ _ <-> in_mode x Shared)); simpl.
      * rewrite elem_of_leave by apply Hi. split; [by intros [_ []]|]. by intros [? _].
      * intros t' Hne. rewrite elem_of_leave, (li_readers _ _ _ Hi) by apply Hi. intuition.
    + apply NoDup_leave, Hi.
    + by rewrite Hw.
    + done.
    + intros t'. apply (local_change (fun t x => forall op l, x = LRun op l -> phase_ok _ a op l)); clear t'.
      * by intros ? ? [= <- <-].
      * intros t' Hne op' l' Ht'. exact (li_phase _ _ _ Hi t' op' l' Ht').
    + done.
  - apply (li_writer _ _ _ Hi) in Hmine as Hw.
    assert (Hnone : forall t' m, t' <> t -> ~ in_mode (φ t') m) by (intros t' m Hne; by eapply alone).
    split; simpl.
    + apply (local_change (fun t' x => _ <-> in_mode x Exclusive)); simpl; [split; [done|by intros [? _]]|].
      intros t' Hne. split; [done|]. by intros ?%Hnone.
    + apply (local_change (fun t' x => _ <-> in_mode x Shared)); simpl; [|intros ? _; apply Hi].
      rewrite (li_excl _ _ _ Hi) by congruence. split; [by intros ?%not_elem_of_nil|by intros [? _]].
    + apply Hi.
    + done.
    + done.
    + intros t'. apply (local_change (fun t x => forall op l, x = LRun op l -> phase_ok _ a' op l)); clear t'.
      * by intros ? ? [= <- <-].
      * intros t' Hne op' l' Ht'. eapply not_holding_ok; [exact (li_phase _ _ _ Hi t' op' l' Ht')|].
        rewrite <- Ht'. intros m. by apply Hnone.
    + done.
Qed.

(** ** One call of an operation

    It keeps the invariant, and either commits nothing or commits the operation
    atomically. *)
Definition commits (op : data_op T R) (l' : phase T R) a a' : Prop :=
  match l' with
  | PDone o => exists refuse, atomic k op refuse a = (a', o)
  | _ => a' = a
  end.

Lemma release_poisoned t s op p :
  lock_poisoned (release t s (op_guard (T := T) (R := R) k op) p) = lock_poisoned s || (p && poisons k op).
Proof.
  unfold release, poisons. simpl. destruct (op_mode k op), (is_std (kind_backend k)); simpl;
    by rewrite ?andb_false_r, ?andb_true_r, ?orb_false_r.
Qed.

(** The state an operation commits when its closure runs. *)
Definition committed op a : T * bool :=
  ((effect op a.1).1, a.2 || (is_unwinding (effect (R := R) op a.1).2 && poisons k op)).

Lemma commits_effect op a :
  rejects k a.2 = false -> commits op (PDone (outcome_map Ok (effect op a.1).2)) a (committed op a).
Proof.
  intros Hr. exists false. destruct a as [v p]. simpl in *. rewrite Hr.
  unfold committed. simpl. by destruct (effect op v).
Qed.

Lemma commits_rejection op a : rejects k a.2 = true -> commits op (PDone (on_poisoned op)) a a.
Proof. intros Hr. exists false. destruct a as [v p]. simpl in *. by rewrite Hr. Qed.

Lemma commits_refusal op a o : on_refusal k op = Some o -> commits op (PDone o) a a.
Proof. intros Ho. exists true. destruct a as [v p]. simpl. by rewrite Ho. Qed.

Lemma shared_unchanged op a : op_mode k op = Shared -> committed op a = a.
Proof.
  intros Hm. unfold committed, poisons. rewrite Hm. destruct a as [v p]. simpl.
  rewrite !andb_false_r, orb_false_r. by destruct op.
Qed.

Lemma writes_exclusive (op : data_op T R) : writes op = true -> op_mode k op = Exclusive.
Proof. by destruct op. Qed.

Lemma reads_keep (op : data_op T R) v : writes op = false -> (effect op v).1 = v.
Proof. by destruct op. Qed.

Lemma holds_in_mode φ s a t m : lock_inv φ s a -> holds t s m = true <-> in_mode (φ t) m.
Proof.
  intros Hi. destruct m; simpl; rewrite bool_decide_eq_true; apply Hi.
Qed.

(** The two kinds of acquisition, once granted. *)
Lemma granted_ok φ s a t op l (e : lock_call T) r :
  lock_inv φ s a -> φ t = LRun op l -> holding l = false -> available s (op_mode k op) = true ->
  acquire_result e r = Some (op_guard k op, rejects k a.2) ->
  op_move op l e r = PHeld (rejects k a.2) ->
  op_assume k op l e r /\ exists a',
    lock_inv (<[t := LRun op (op_move op l e r)]> φ) (hold t s (op_mode k op)) a' /\
    commits op (op_move op l e r) a a'.
Proof.
  intros Hi Ht Hl Hav Hr Hm. split; [intros g b; rewrite Hr; by intros [= <- <-]|].
  exists a. rewrite Hm. split; [by eapply acquire_inv|done].
Qed.

Lemma handle_ok φ s a t op l e refuse r s' :
  lock_inv φ s a -> φ t = LRun op l -> op_may k op l e -> lock_handle t s refuse e = Some (r, s') ->
  op_assume k op l e r /\ exists a',
    lock_inv (<[t := LRun op (op_move op l e r)]> φ) s' a' /\ commits op (op_move op l e r) a a'.
Proof.
  intros Hi Ht Hmay Hh. pose proof (li_poison _ _ _ Hi) as Hpo.
  pose proof (li_phase _ _ _ Hi t op l Ht) as Hok.
  destruct l as [| |[]|v|v|o], e as [b m| |b m|g p|g|g v']; try done; simpl in Hmay.
  - destruct Hmay as (Hop & _ & [= -> ->]). simpl in Hh. destruct (available s _) eqn:Hav; [|done].
    injection Hh as <- <-. rewrite Hpo. apply granted_ok; try done.
    + by destruct k, a as [v []].
    + by destruct k, a as [v []].
  - destruct Hmay as [Hop Htk]. simpl in Hh. injection Hh as <- <-. split; [done|]. exists a.
    assert (Hr : on_refusal k op = Some (Unwinding Cancelled)) by (unfold on_refusal; by rewrite Hop, Htk).
    destruct refuse; (split; [eapply stay; eauto; done|]); [by apply commits_refusal|done].
  - destruct Hmay as [Hop [= -> ->]]. simpl in Hh. destruct (available s _ && _) eqn:Hav.
    + apply andb_true_iff in Hav as [Hav _]. injection Hh as <- <-. rewrite Hpo. apply granted_ok; try done.
      * by destruct k, a as [v []].
      * by destruct k, a as [v []].
    + injection Hh as <- <-.
      assert (Hm : op_move op PStart (TryAcquire (kind_backend k) (op_mode k op)) (would_block (kind_backend k) (op_mode k op)) = PDone (Returned (Err WouldBlock))) by (by destruct k).
      split; [intros g b; by destruct k|]. exists a. rewrite Hm.
      split; [|apply commits_refusal; unfold on_refusal; by rewrite Hop]. eapply stay; eauto.
  - injection Hmay as -> ->. simpl in Hh. destruct (available s _) eqn:Hav; [|done].
    injection Hh as <- <-. rewrite Hpo. apply granted_ok; try done.
    + by destruct k, a as [v []].
    + by destruct k, a as [v []].
  - subst g. simpl in Hh. destruct (holds _ _ _); [|done]. injection Hh as <- <-. split; [done|]. exists a.
    destruct Hok as [Hbad Hv]. split; [|by apply commits_rejection].
    eapply release_inv; try done. rewrite release_poisoned, Hpo.
    unfold poisons, rejects in *. destruct a as [v []]; [done|]. by rewrite andb_false_r in Hbad.
  - subst g. simpl in Hh. destruct (holds _ _ _); [|done]. injection Hh as <- <-. split; [done|]. exists a.
    destruct Hok as [Hbad Hv]. split; [|done]. eapply stay; eauto. done.
  - destruct Hmay as (-> & Hw & ->). simpl in Hh. destruct (holds _ _ _); [|done]. injection Hh as <- <-.
    split; [done|]. destruct Hok as (-> & Hr & Hv). exists (committed op a).
    split; [|by apply commits_effect]. eapply release_inv; try done.
    + simpl. by rewrite reads_keep.
    + by rewrite release_poisoned, Hpo.
    + apply shared_unchanged.
  - destruct Hmay as (-> & Hw & ->). pose proof (writes_exclusive op Hw) as Hm. simpl in Hh. rewrite Hm in Hh.
    destruct (holds t s Exclusive) eqn:Hhold; [|done]. injection Hh as <- <-. split; [done|].
    destruct Hok as (-> & Hr & Hv). exists a. split; [|done]. eapply stay; eauto; [|done]. right.
    split; [|eauto]. by apply bool_decide_eq_true in Hhold.
  - destruct Hmay as [-> ->]. simpl in Hh. destruct (holds _ _ _); [|done]. injection Hh as <- <-. split; [done|].
    destruct Hok as (-> & Hr & Hv & Hm). exists (committed op a).
    split; [|by apply commits_effect]. eapply release_inv; try done.
    + by rewrite release_poisoned, Hpo.
    + apply shared_unchanged.
Qed.

(** ** The threads *)
Definition user_ok (x : local) (u : user T R) : Prop :=
  match x with
  | LIdle => current u = None
  | LRun op l => exists p, current u = Some p /\ forall n, safe (op_rules k op) n l p op_ends
  end.

Definition activity_of (x : local) : activity (T := T) (R := R) :=
  match x with
  | LIdle => Idle
  | LRun op (PDone o) => Committed o
  | LRun op _ => Called op
  end.

Definition spec_of φ (t : nat) (u : user T R) : spec_user :=
  MkSpecUser (activity_of (φ t)) (todo u) (log u).

Definition spec_config_of φ a (us : list (user T R)) : spec_config T R :=
  MkSpecConfig a (imap (spec_of φ) us).

Definition config_ok φ a (c : lock_config T R) : Prop :=
  lock_inv φ (the_lock c) a /\ (forall t u, users c !! t = Some u -> user_ok (φ t) u) /\
  (forall t, users c !! t = None -> φ t = LIdle).

Lemma spec_lookup φ a us t u :
  us !! t = Some u -> spec_users (spec_config_of φ a us) !! t = Some (spec_of φ t u).
Proof. intros Hu. simpl. by rewrite list_lookup_imap, Hu. Qed.

Lemma spec_update φ a a' us t x u u0 :
  us !! t = Some u0 ->
  spec_config_of (<[t := x]> φ) a' (<[t := u]> us) =
  MkSpecConfig a' (<[t := MkSpecUser (activity_of x) (todo u) (log u)]> (spec_users (spec_config_of φ a us))).
Proof.
  intros Hu. unfold spec_config_of. f_equal. apply list_eq. intros t'. apply lookup_lt_Some in Hu. simpl.
  rewrite list_lookup_imap. destruct (decide (t' = t)) as [->|Hne].
  - rewrite !list_lookup_insert_eq by (rewrite ?length_imap; done). simpl. unfold spec_of. by rewrite fn_lookup_insert.
  - rewrite !list_lookup_insert_ne by done. rewrite list_lookup_imap. unfold spec_of.
    destruct (us !! t'); simpl; [|done]. by rewrite fn_lookup_insert_ne.
Qed.

Lemma config_update φ a a' s s' us t x u u0 :
  config_ok φ a (MkLockConfig s us) -> us !! t = Some u0 -> lock_inv (<[t := x]> φ) s' a' -> user_ok x u ->
  config_ok (<[t := x]> φ) a' (MkLockConfig s' (<[t := u]> us)).
Proof.
  intros (_ & Hus & Hout) Hu Hi Hx. apply lookup_lt_Some in Hu as Hlt. split; [done|]. simpl in *. split.
  - apply (local_change (fun t' x => forall u', _ !! t' = Some u' -> user_ok x u')).
    + rewrite list_lookup_insert_eq by done. by intros u' [= <-].
    + intros t' Hne. rewrite list_lookup_insert_ne by done. auto.
  - intros t' Ht'. apply lookup_ge_None in Ht'. rewrite length_insert in Ht'.
    rewrite fn_lookup_insert_ne by lia. apply Hout. by apply lookup_ge_None.
Qed.

(** A thread that starts or ends an operation holds nothing. *)
Lemma idle_inv φ s a t x :
  lock_inv φ s a -> (forall m, ~ in_mode (φ t) m) -> x = LIdle \/ (exists op, x = LRun op PStart) ->
  lock_inv (<[t := x]> φ) s a.
Proof.
  intros Hi Hno Hx.
  assert (Hx' : forall m, ~ in_mode x m) by (destruct Hx as [->|[op ->]]; intros m; by intros []).
  split; try apply Hi.
  - apply (local_change (fun t x => _ <-> in_mode x Exclusive)); [|intros ? _; apply Hi].
    split; [intros Hin%(li_writer _ _ _ Hi)|intros Hin]; exfalso; [by eapply Hno|by eapply Hx'].
  - apply (local_change (fun t x => _ <-> in_mode x Shared)); [|intros ? _; apply Hi].
    split; [intros Hin%(li_readers _ _ _ Hi)|intros Hin]; exfalso; [by eapply Hno|by eapply Hx'].
  - intros t'. apply (local_change (fun t x => forall op l, x = LRun op l -> phase_ok s a op l)); [|intros t1 _; exact (li_phase _ _ _ Hi t1)].
    intros op l ->. destruct Hx as [[=]|[op1 [= -> ->]]]; exact I.
Qed.

Lemma lock_step_simulated φ a c c' :
  config_ok φ a c -> lock_step k c c' ->
  exists φ' a', config_ok φ' a' c' /\
    rtc (spec_step k) (spec_config_of φ a (users c)) (spec_config_of φ' a' (users c')).
Proof.
  intros Hc Hst. destruct Hst as [t refuse [s us] u s' u' Hu Hst]. simpl in *.
  pose proof Hc as (Hi & Hus & _). simpl in *. specialize (Hus t u Hu). pose proof (spec_lookup φ a us t u Hu) as Hspec.
  unfold spec_of in Hspec. unfold user_step in Hst. destruct (φ t) as [|op l] eqn:Ht.
  - simpl in Hus. rewrite Hus in Hst. destruct (todo u) as [|op ops] eqn:Htodo; simplify_eq.
    exists (<[t := LRun op PStart]> φ), a. split.
    + eapply config_update; [exact Hc|exact Hu| |].
      * apply idle_inv; [done|rewrite Ht; by intros m []|eauto].
      * simpl. eexists. split; [done|]. apply run_op_follows.
    + apply rtc_once. rewrite (spec_update φ a a us t _ _ u Hu). simpl.
      apply (spec_call k t (spec_config_of φ a us)). by rewrite Hspec.
  - destruct Hus as (p & Hp & Hsafe). rewrite Hp in Hst. destruct (next p) as [o|e continue|p'] eqn:Hn.
    + simplify_eq. pose proof (Hsafe 1) as H1. simpl in H1. rewrite Hn in H1. hnf in H1. subst l.
      exists (<[t := LIdle]> φ), a. split.
      * eapply config_update; [exact Hc|exact Hu| |done].
        apply idle_inv; [done|rewrite Ht; by intros m []|by left].
      * apply rtc_once. rewrite (spec_update φ a a us t _ _ u Hu). simpl.
        apply (spec_return k t (spec_config_of φ a us)). by rewrite Hspec.
    + destruct (lock_handle t s refuse e) as [[r s2]|] eqn:Hh; simplify_eq.
      pose proof (Hsafe 1) as H1. simpl in H1. rewrite Hn in H1. destruct H1 as [Hmay _].
      destruct (handle_ok _ _ _ _ _ _ _ _ _ _ Hi Ht Hmay Hh) as (Has & a' & Hi' & Hcom).
      exists (<[t := LRun op (op_move op l e r)]> φ), a'. split.
      * eapply config_update; [exact Hc|exact Hu|exact Hi'|]. simpl. eexists. split; [done|]. intros n.
        specialize (Hsafe (S n)). simpl in Hsafe. rewrite Hn in Hsafe. by apply Hsafe.
      * rewrite (spec_update φ a a' us t _ _ u Hu). simpl.
        assert (Hl : activity_of (LRun op l) = Called op) by (by destruct l).
        rewrite Hl in Hspec. destruct (op_move op l e r) as [| |b|v|v|o] eqn:Hmove; simpl in Hcom |- *.
        6: { destruct Hcom as [refuse' Hat]. apply rtc_once.
             pose proof (spec_commit k t refuse' (spec_config_of φ a us) op _ _ Hspec) as Hc'.
             simpl in Hc'. by rewrite Hat in Hc'. }
        all: subst a'; rewrite list_insert_id by done; reflexivity.
    + simplify_eq. exists (<[t := LRun op l]> φ), a. split.
      * eapply config_update; [exact Hc|exact Hu| |].
        { eapply stay; eauto. exact (li_phase _ _ _ Hi t op l Ht). }
        simpl. exists p'. split; [done|]. intros n. specialize (Hsafe (S n)). simpl in Hsafe. by rewrite Hn in Hsafe.
      * rewrite (spec_update φ a a us t _ _ u Hu). simpl. by rewrite list_insert_id.
Qed.

(** ** Progress *)
(** A call is refused only to an operation that waits for the lock. *)
Lemma refused_waits φ s a t op l e refuse :
  lock_inv φ s a -> φ t = LRun op l -> op_may k op l e -> lock_handle t s refuse e = None ->
  holding l = false /\ available s (op_mode k op) = false.
Proof.
  intros Hi Ht Hmay Hh. assert (Hhold : holding l = true -> holds t s (op_mode k op) = true).
  { intros Hl. rewrite holds_in_mode by done. by rewrite Ht. }
  destruct l as [| |[]|v|v|o], e as [b m| |b m|g p|g|g v']; try done; simpl in Hmay.
  - destruct Hmay as (_ & _ & [= -> ->]). simpl in Hh. by destruct (available s _).
  - simpl in Hh. by destruct (available s m && negb refuse).
  - injection Hmay as -> ->. simpl in Hh. by destruct (available s _).
  - subst g. simpl in Hh. by rewrite Hhold in Hh.
  - subst g. simpl in Hh. by rewrite Hhold in Hh.
  - destruct Hmay as [-> _]. simpl in Hh. by rewrite Hhold in Hh.
  - destruct Hmay as (-> & Hw & _). simpl in Hh. rewrite Hhold in Hh by done.
    by rewrite (writes_exclusive op Hw) in Hh.
  - destruct Hmay as [-> _]. simpl in Hh. by rewrite Hhold in Hh.
Qed.

Lemma not_available φ s a m :
  lock_inv φ s a -> available s m = false -> exists t m', in_mode (φ t) m'.
Proof.
  intros Hi Hav. unfold available in Hav. destruct (writer s) as [t|] eqn:Hw.
  - exists t, Exclusive. by apply (li_writer _ _ _ Hi).
  - destruct m; [done|]. apply bool_decide_eq_false in Hav. destruct (readers s) as [|t ts] eqn:Hr; [done|].
    exists t, Shared. apply (li_readers _ _ _ Hi). rewrite Hr. by left.
Qed.

(** What a thread that cannot move is doing. *)
Lemma stuck_user φ a c t u refuse :
  config_ok φ a c -> users c !! t = Some u -> user_step k t refuse (the_lock c) u = None ->
  done u \/ exists op l e, φ t = LRun op l /\ holding l = false /\ op_may k op l e /\ lock_handle t (the_lock c) refuse e = None.
Proof.
  intros (Hi & Hus & _) Hu Hst. specialize (Hus t u Hu). unfold user_step in Hst.
  destruct (φ t) as [|op l] eqn:Ht; simpl in Hus.
  - left. rewrite Hus in Hst. split; [done|]. by destruct (todo u).
  - right. destruct Hus as (p & Hp & Hsafe). rewrite Hp in Hst.
    pose proof (Hsafe 1) as H1. simpl in H1. destruct (next p) as [o|e continue|p']; [done| |done].
    destruct H1 as [Hmay _]. destruct (lock_handle t (the_lock c) refuse e) as [[r s']|] eqn:Hh; [done|].
    exists op, l, e. by destruct (refused_waits _ _ _ _ _ _ _ _ Hi Ht Hmay Hh) as [Hl _].
Qed.

Lemma initial_config_ok (value : T) (ops : list (list (data_op T R))) :
  config_ok (fun _ => LIdle) (value, false) (lock_initial value ops).
Proof.
  split; [|split; [|done]].
  - split; simpl; try done; [|apply NoDup_nil_2]. intros t. split; [by intros ?%not_elem_of_nil|done].
  - intros t u Hu. simpl in Hu. apply list_lookup_fmap_Some in Hu as (ops' & -> & _). done.
Qed.

Lemma steps_simulated φ a c c' :
  config_ok φ a c -> rtc (lock_step k) c c' ->
  exists φ' a', config_ok φ' a' c' /\
    rtc (spec_step k) (spec_config_of φ a (users c)) (spec_config_of φ' a' (users c')).
Proof.
  intros Hc Hr. revert φ a Hc. induction Hr as [c|c c1 c2 Hst _ IH]; intros φ a Hc; [by exists φ, a|].
  destruct (lock_step_simulated _ _ _ _ Hc Hst) as (φ1 & a1 & Hc1 & Hs1).
  destruct (IH _ _ Hc1) as (φ2 & a2 & Hc2 & Hs2). exists φ2, a2. split; [done|]. by etrans.
Qed.

Lemma reachable_config_ok value (ops : list (list (data_op T R))) c :
  lock_reachable k value ops c ->
  exists φ a, config_ok φ a c /\ spec_reachable k value ops (spec_config_of φ a (users c)).
Proof.
  intros Hr. destruct (steps_simulated _ _ _ _ (initial_config_ok value ops) Hr) as (φ & a & Hc & Hs).
  exists φ, a. split; [done|]. unfold spec_reachable, spec_initial.
  assert (Heq : imap (spec_of (fun _ => LIdle)) (users (lock_initial value ops)) =
                List.map (fun todo => MkSpecUser Idle todo []) ops); [|by rewrite <- Heq].
  apply list_eq. intros t. simpl. rewrite list_lookup_imap, !list_lookup_fmap. by destruct (ops !! t).
Qed.

(** A configuration of the specification shows the same threads, and, while no
    writer holds the lock, the same value and poison flag. *)
Definition represents (c : lock_config T R) (sc : spec_config T R) : Prop :=
  Forall2 (fun u su => spec_todo su = todo u /\ spec_log su = log u /\
                       (current u = None <-> spec_activity su = Idle)) (users c) (spec_users sc) /\
  (writer (the_lock c) = None -> spec_state sc = (lock_value (the_lock c), lock_poisoned (the_lock c))).

(** C5: every [DataLock] and [AsyncDataLock] is linearizable: whatever threads or
    tasks run which operations and however they are scheduled, the configuration
    they reach is that of threads whose operations are atomic steps ([atomic]),
    each taken between its call and its return: the same results and panics, and,
    while no writer is inside, the same value and poison flag. For the mutex and
    the read-write lock of [std], which poison, those of [parking_lot], which do
    not, and those of [tokio], whose futures may be dropped while they wait. *)
Theorem data_locks_linearizable value (ops : list (list (data_op T R))) c :
  lock_reachable k value ops c -> exists sc, spec_reachable k value ops sc /\ represents c sc.
Proof.
  intros Hr. apply reachable_config_ok in Hr as (φ & a & (Hi & Hus & _) & Hsp).
  eexists. split; [exact Hsp|]. split.
  - apply Forall2_same_length_lookup_2; [simpl; by rewrite length_imap|]. intros t u su Hu Hsu.
    simpl in Hsu. rewrite list_lookup_imap, Hu in Hsu. injection Hsu as <-. split; [done|split; [done|]].
    specialize (Hus t u Hu). simpl. destruct (φ t) as [|op l]; simpl in *; [done|].
    destruct Hus as (p & -> & _). split; [done|]. by destruct l.
  - intros Hw. rewrite (li_free _ _ _ Hi Hw), (li_poison _ _ _ Hi). by destruct a.
Qed.

Definition all_done (c : lock_config T R) : Prop := Forall done (users c).

(** C21: threads or tasks that only use operations of one lock never deadlock:
    if no thread can move, all have completed all their operations, panicking and
    rejected ones included. So the lock is always released. *)
Theorem data_locks_never_deadlock value (ops : list (list (data_op T R))) c :
  lock_reachable k value ops c -> lock_stuck k c -> all_done c.
Proof.
  intros Hr Hst. apply reachable_config_ok in Hr as (φ & a & Hc & _). pose proof Hc as (Hi & Hus & Hout).
  apply Forall_lookup_2. intros t u Hu.
  destruct (stuck_user _ _ _ _ _ false Hc Hu (Hst t u false Hu)) as [?|(op & l & e & Ht & _ & Hmay & Hh)]; [done|exfalso].
  destruct (refused_waits _ _ _ _ _ _ _ _ Hi Ht Hmay Hh) as [_ Hav].
  destruct (not_available _ _ _ _ Hi Hav) as (t' & m & Hin).
  destruct (users c !! t') as [u'|] eqn:Hu'; [|by rewrite (Hout t' Hu') in Hin].
  destruct (stuck_user _ _ _ _ _ false Hc Hu' (Hst t' u' false Hu')) as [[Hn _]|(op' & l' & e' & Ht' & Hl' & _)].
  - specialize (Hus t' u' Hu'). destruct (φ t'); [done|]. destruct Hus as (p & Hp & _). congruence.
  - rewrite Ht' in Hin. simpl in Hin. rewrite Hl' in Hin. by destruct Hin.
Qed.
End Invariant.

(** ** Concrete runs *)
Section Run.
Context {T R : Type} (k : lock_kind).

(** The listed threads move in turn; a thread that cannot move is passed over. *)
Fixpoint run_users (schedule : list nat) (c : lock_config T R) : lock_config T R :=
  match schedule with
  | [] => c
  | t :: schedule =>
      match (match users c !! t with Some u => user_step k t false (the_lock c) u | None => None end) with
      | Some (s, u) => run_users schedule (MkLockConfig s (<[t := u]> (users c)))
      | None => run_users schedule c
      end
  end.

Lemma run_users_steps schedule c : rtc (lock_step k) c (run_users schedule c).
Proof.
  revert c. induction schedule as [|t schedule IH]; intros c; simpl; [done|].
  destruct (users c !! t) as [u|] eqn:Hu; simpl; [|apply IH].
  destruct (user_step k t false (the_lock c) u) as [[s u']|] eqn:Hs; [|apply IH].
  eapply rtc_l; [|apply IH]. by eapply lock_run.
Qed.
End Run.

(** One thread writes and panics half way; another reads, then tries to. *)
Definition careless : data_op nat nat := Write (fun n => (n + 1, Unwinding (Panic "half way"))).
Definition look : data_op nat nat := Read (fun n => Returned n).
Definition try_look : data_op nat nat := TryRead (fun n => Returned n).
Definition visits : list (list (data_op nat nat)) := [[careless]; [look; try_look]].
Definition turns : list nat := repeat 0 3 ++ [1; 1] ++ repeat 0 20 ++ repeat 1 40.

Definition visited (k : lock_kind) : lock_config nat nat := run_users k turns (lock_initial 5 visits).

Lemma data_locks_linearizable_witness :
  (exists sc, spec_reachable KMutex 5 visits sc /\ represents (visited KMutex) sc) /\
  (log <$> users (visited KMutex)) =
    [[Unwinding (Panic "half way")]; [Unwinding (Panic unwrap_message); Returned (Err Poisoned)]] /\
  (exists sc, spec_reachable KParkingLotRwLock 5 visits sc /\ represents (visited KParkingLotRwLock) sc) /\
  (log <$> users (visited KParkingLotRwLock)) =
    [[Unwinding (Panic "half way")]; [Returned (Ok 6); Returned (Ok 6)]].
Proof.
  split; [|split; [vm_compute; reflexivity|split; [|vm_compute; reflexivity]]];
    apply data_locks_linearizable, run_users_steps.
Defined.

Lemma data_locks_never_deadlock_witness :
  all_done (visited KRwLock) /\ (log <$> users (visited KRwLock)) !! 0 = Some [Unwinding (Panic "half way")].
Proof.
  split; [|vm_compute; reflexivity].
  apply (data_locks_never_deadlock KRwLock 5 visits); [apply run_users_steps|].
  intros [|[|t]] u refuse Hu; vm_compute in Hu; [injection Hu as <-; reflexivity..|done].
Defined.
