(* ===== verification/LockOps.v ===== *)
(** * Each operation on data behind a lock by itself, and the guard interface

    What an operation does when no other thread moves meanwhile, on every state
    of the lock; and that the closures of [data_lock.rs] and [async_data_lock.rs]
    do what a caller of the lock traits does with a guard. *)
From S2P Require Import Prelude Program Primitives Locks AsyncLocks DataLockMachine.

Section Alone.
Context {T R : Type}.
Abbreviation Σ := (LockSig T).
Abbreviation answer := (outcome (Result R TryLockError)).

(** Thread [t] runs [p] alone for at most [n] steps. *)
Fixpoint alone {A} (n : nat) (t : nat) (refuse : bool) (s : lock_state T) (p : prog Σ A)
    : option (lock_state T * A) :=
  match n with
  | 0 => None
  | S n =>
      match next p with
      | HRet a => Some (s, a)
      | HTau p' => alone n t refuse s p'
      | HVis e continue =>
          match lock_handle t s refuse e with
          | Some (r, s') => alone n t refuse s' (continue r)
          | None => None
          end
      end
  end.

(** What is expected: [None] if the thread blocks. *)
Definition alone_result (k : lock_kind) (op : data_op T R) (refuse : bool) (s : lock_state T)
    : option (lock_state T * answer) :=
  match (if refuse then on_refusal k op else None) with
  | Some refusal => Some (s, refusal)
  | None =>
      if available s (op_mode k op) then
        let '((value, poisoned), o) := atomic k op false (lock_value s, lock_poisoned s) in
        Some (MkLockState value (writer s) (readers s) poisoned, o)
      else if is_try op then Some (s, Returned (Err WouldBlock))
      else None
  end.

(** Runs the machine; the thread holds what it has just acquired. *)
Ltac run_lock :=
  repeat (cbn; try match goal with Hf : ?f ?v = _ |- context [?f ?v] => rewrite Hf end;
          rewrite ?bool_decide_true, ?decide_True by (done || by left)); done.

(** C22: every operation of every [DataLock] and [AsyncDataLock], run while no
    other thread moves, from any state of the lock. If the lock can be granted it
    completes and leaves the value, the poison flag and the answer of one atomic
    step, and the holders as they were, also when the closure panics or the lock
    is poisoned. If not, an attempt completes with [WouldBlock] and changes
    nothing, and the other operations block. An attempt that is refused and a
    future that is dropped at its await change nothing either. *)
Theorem data_op_alone k (op : data_op T R) t refuse s :
  match alone_result k op refuse s with
  | Some result => exists n, alone n t refuse s (run_op k op) = Some result
  | None => forall n, alone n t refuse s (run_op k op) = None
  end.
Proof.
  destruct s as [v [w|] [|t' rs] p], k, op as [f|f|f|f], refuse; cbn;
    first [by intros [|[|n]]|by exists 10|idtac].
  all: destruct p; cbn; first [by exists 10; run_lock|idtac].
  all: first [destruct (f v) as [? [?|?]] eqn:Hf|destruct (f v) as [?|?] eqn:Hf]; exists 10; run_lock.
Qed.
End Alone.

(** ** Closures and guards *)
Section Guards.
Context {T R : Type}.
Abbreviation Σ := (LockSig T).

(** What a caller of [lock.rs] writes around a closure [body]. *)
Definition with_lock {L} `{!Lock Σ L lock_guard} (self : L) (body : lock_guard -> comp Σ R) : comp Σ R :=
  guard ← lock Σ self;
  body guard.

Definition with_try_lock {L} `{!Lock Σ L lock_guard} (self : L) (body : lock_guard -> comp Σ R)
    : comp Σ (Result R TryLockError) :=
  try_bind (try_lock Σ self) (fun guard => r ← body guard; ret (Ok r)).

(** A [DataLock] whose reads and writes go through two locks. *)
Definition closures_are_guarded (L : Type) `{!DataLock Σ T L} {LR LW : Type}
    `{!Lock Σ LR lock_guard, !Lock Σ LW lock_guard} (self : L) (reads : LR) (writes : LW) : Prop :=
  forall (f : T -> comp Σ R) (g : stateful Σ T R),
    same (with_read Σ T self f) (with_lock reads (fun guard => read_guarded guard f)) /\
    same (with_write Σ T self g) (with_lock writes (fun guard => write_guarded guard g)) /\
    same (try_with_read Σ T self f) (with_try_lock reads (fun guard => read_guarded guard f)) /\
    same (try_with_write Σ T self g) (with_try_lock writes (fun guard => write_guarded guard g)).

(** The same of an asynchronous one. *)
Definition with_async_lock {L} `{!AsyncLock Σ L lock_guard} (self : L) (body : lock_guard -> comp Σ R) : comp Σ R :=
  guard ← async_lock Σ self;
  body guard.

Definition with_async_try_lock {L} `{!AsyncLock Σ L lock_guard} (self : L) (body : lock_guard -> comp Σ R)
    : comp Σ (Result R TryLockError) :=
  try_bind (async_try_lock Σ self) (fun guard => r ← body guard; ret (Ok r)).

Definition async_closures_are_guarded (L : Type) `{!AsyncDataLock Σ T L} {LR LW : Type}
    `{!AsyncLock Σ LR lock_guard, !AsyncLock Σ LW lock_guard} (self : L) (reads : LR) (writes : LW) : Prop :=
  forall (f : T -> comp Σ R) (g : stateful Σ T R),
    same (async_with_read Σ T self f) (with_async_lock reads (fun guard => read_guarded guard f)) /\
    same (async_with_write Σ T self g) (with_async_lock writes (fun guard => write_guarded guard g)) /\
    same (async_try_with_read Σ T self f) (with_async_try_lock reads (fun guard => read_guarded guard f)) /\
    same (async_try_with_write Σ T self g) (with_async_try_lock writes (fun guard => write_guarded guard g)).

(** Both sides make the same next call; go on with each of its answers. *)
Ltac next_call r := eapply same_vis; [reflexivity|reflexivity|intros r].

Lemma std_lock_same {A} m (body : lock_guard -> comp Σ A) :
  same (result ← call (Σ := Σ) (Acquire Std m); guard ← unwrap_guard result; body guard)
       (guard ← (result ← call (Σ := Σ) (Acquire Std m); unwrap_guard result); body guard).
Proof.
  next_call r. destruct r as [guard|error]; [by apply same_next|]. next_call u. by apply same_next.
Qed.

Lemma std_try_same m (body : lock_guard -> comp Σ R) :
  same (result ← call (Σ := Σ) (TryAcquire Std m); match_try result body)
       (try_bind (result ← call (Σ := Σ) (TryAcquire Std m); match_try result (fun guard => ret guard))
          (fun guard => r ← body guard; ret (Ok r))).
Proof.
  next_call r. destruct r as [guard|[|error]]; try by apply same_next. next_call u. by apply same_next.
Qed.

Lemma parking_lot_try_same m (body : lock_guard -> comp Σ R) :
  same (result ← call (Σ := Σ) (TryAcquire ParkingLot m);
        mapped ← option_map_comp result body; ret (ok_or mapped WouldBlock))
       (try_bind (result ← call (Σ := Σ) (TryAcquire ParkingLot m); ret (ok_or result WouldBlock))
          (fun guard => r ← body guard; ret (Ok r))).
Proof.
  next_call r. destruct r as [guard|]; [|by apply same_next].
  transitivity (Bind (body guard) (fun o => match o with Returned r => ret (Ok (E := TryLockError) r) | Unwinding c => Ret (Unwinding c) end));
    [|by apply same_next].
  transitivity (Bind (Bind (body guard) (fun o => match o with Returned r => ret (Some r) | Unwinding c => Ret (Unwinding c) end))
    (fun o => match o with Returned mapped => ret (ok_or mapped WouldBlock) | Unwinding c => Ret (Unwinding c) end));
    [by apply same_next|].
  rewrite Bind_assoc. apply Bind_proper; [done|]. intros [r|c]; by apply same_next.
Qed.

(** Mapping the result of an attempt with the closure and then its error. *)
Lemma tokio_try_same m (body : lock_guard -> comp Σ R) :
  same (result ← call (Σ := Σ) (TryAcquire Tokio m);
        mapped ← result_map_comp result body; ret (Result_map_err to_would_block mapped))
       (try_bind (result ← call (Σ := Σ) (TryAcquire Tokio m); ret (Result_map_err to_would_block result))
          (fun guard => r ← body guard; ret (Ok r))).
Proof.
  next_call r. destruct r as [guard|e]; [|by apply same_next].
  transitivity (Bind (body guard) (fun o => match o with Returned r => ret (Ok (E := TryLockError) r) | Unwinding c => Ret (Unwinding c) end));
    [|by apply same_next].
  transitivity (Bind (Bind (body guard) (fun o => match o with Returned r => ret (Ok (E := TokioTryLockError) r) | Unwinding c => Ret (Unwinding c) end))
    (fun o => match o with Returned mapped => ret (Result_map_err to_would_block mapped) | Unwinding c => Ret (Unwinding c) end));
    [by apply same_next|].
  rewrite Bind_assoc. apply Bind_proper; [done|]. intros [r|c]; by apply same_next.
Qed.

(** C23: for every closure, panicking or calling others, an operation of [data_lock.rs]
    or [async_data_lock.rs] makes the same calls and ends the same way as taking the
    guard through the lock's trait and running the closure under it; a read-write
    lock's operations go through its adapters [read_lock] and [write_lock]. *)
Theorem data_locks_guard_their_closures :
  closures_are_guarded Mutex TheMutex TheMutex TheMutex /\
  closures_are_guarded RwLock TheRwLock (read_lock Σ TheRwLock) (write_lock Σ TheRwLock) /\
  closures_are_guarded ParkingLotMutex TheParkingLotMutex TheParkingLotMutex TheParkingLotMutex /\
  closures_are_guarded ParkingLotRwLock TheParkingLotRwLock
    (read_lock Σ TheParkingLotRwLock) (write_lock Σ TheParkingLotRwLock) /\
  async_closures_are_guarded TokioMutex TheTokioMutex TheTokioMutex TheTokioMutex /\
  async_closures_are_guarded TokioRwLock TheTokioRwLock
    (async_read_lock Σ TheTokioRwLock) (async_write_lock Σ TheTokioRwLock).
Proof.
  split; [|split; [|split; [|split; [|split]]]]; intros f g; (split; [|split; [|split]]);
    first [apply std_lock_same|apply std_try_same|apply parking_lot_try_same|apply tokio_try_same|reflexivity].
Qed.
End Guards.
